(** * Hytale AI model generator: box-UV packing and coordinate conversion

    A shallow embedding of the algorithmic core of the repository:

    - [services/textureMapper.ts]: [getBoxUVSize], [packUVs],
      [scaleModelUVs], [drawTextureLayout];
    - the exporter ([getTextureLayout], [buildHytaleNodeTree],
      [exportHytaleModel] with its animation files, [createModelScene]);
    - the importer ([convertHytaleToBedrock]);
    - the viewer ([CustomBoxMesh], [BoneNode], [EntityRenderer],
      [getInterpolatedValue]);
    - the handlers of the app and the sidebar that change the model
      ([handleUploadTexture], [handleDeleteBone]) and the node statistics;
    - [services/geminiService.ts]: the animation lists
      ([animationsMapToList], [parseResponseAnimations]) and the repair of
      a truncated answer in [cleanAndParseJSON].

    JavaScript numbers are idealised as exact rationals ([Qc], canonical
    fractions, so that equality is Leibniz equality).  Integer-valued
    intermediate quantities of the packer (results of [Math.ceil], cursor
    positions, atlas sides) are kept in [Z].  Two places leave the
    rationals: the rotation conversions of the 3D library, whose sines and
    cosines are real numbers ([Module THREE]), and the rescaler, whose
    quotient of two sizes is rounded to a double ([Module Double]). *)

From Stdlib Require Import Rbase Rbasic_fun R_sqr Rtrigo1 Rtrigo_calc Ratan Lra.
From Stdlib Require Import Qreals Floats.
From Stdlib Require Import QArith Qcanon Qround Lqa Ascii.
From stdpp Require Import base numbers strings option pretty list gmap sorting.

Set Warnings "-register-all".

Local Open Scope Z_scope.

(** ** Numbers *)

Definition number : Type := Qc.

Definition num (z : Z) : number := Qc_of_Z z.

(** [Math.ceil] and [Math.round] (round half up), as integers. *)
Definition Math_ceil (x : number) : Z := Qceiling (this x).
Definition Math_round (x : number) : Z := Qfloor (this x + (1 # 2))%Q.

Definition vec3 : Type := number * number * number.
Definition vec2 : Type := number * number.

Definition zero3 : vec3 := (num 0, num 0, num 0).

(** ** Data model ([types.ts]) *)

Inductive ModelType := ENTITY | BLOCK | GENERIC.

Record ModelCube := {
  origin : vec3;
  size : vec3;
  rotation : option vec3;
  pivot : option vec3;
  uv : option vec2;
  color : option string;
  textureOffset : option vec2
}.

Record ModelAttachment := {
  att_name : string;
  att_position : vec3
}.

Record ModelBone := {
  name : string;
  parent : option string;
  bone_pivot : vec3;
  bone_rotation : option vec3;
  cubes : list ModelCube;
  attachments : option (list ModelAttachment)
}.

(** [texture_size] is declared mandatory but every reader defends against
    its absence ([texture_size || [64, 64]]), so it is optional here. *)
Record BedrockModel := {
  format_version : string;
  bedrock_identifier : string;
  texture_size : option vec2;
  bones : list ModelBone
}.

(** The block and animation payloads of [MinecraftModel] are not read by
    any function below; they are carried as an opaque [payload]. *)
Record MinecraftModel := {
  type : ModelType;
  loader : string;
  bedrockData : option BedrockModel;
  identifier : string;
  payload : string
}.

Definition set_uv (c : ModelCube) (u : option vec2) : ModelCube :=
  {| origin := origin c; size := size c; rotation := rotation c;
     pivot := pivot c; uv := u; color := color c;
     textureOffset := textureOffset c |}.

Definition set_cubes (b : ModelBone) (cs : list ModelCube) : ModelBone :=
  {| name := name b; parent := parent b; bone_pivot := bone_pivot b;
     bone_rotation := bone_rotation b; cubes := cs;
     attachments := attachments b |}.

Definition set_bones (d : BedrockModel) (bs : list ModelBone) : BedrockModel :=
  {| format_version := format_version d;
     bedrock_identifier := bedrock_identifier d;
     texture_size := texture_size d; bones := bs |}.

Definition set_texture_size (d : BedrockModel) (ts : option vec2) : BedrockModel :=
  {| format_version := format_version d;
     bedrock_identifier := bedrock_identifier d;
     texture_size := ts; bones := bones d |}.

Definition set_bedrockData (m : MinecraftModel) (d : option BedrockModel) :
  MinecraftModel :=
  {| type := type m; loader := loader m; bedrockData := d;
     identifier := identifier m; payload := payload m |}.

(** ** textureMapper.ts: box-UV geometry *)

Definition PADDING : Z := 2.
Definition MIN_TEXTURE_SIZE : Z := 64.

Inductive Density := D16x | D32x | D64x.

(** [let densityScale = 1; if (density === '32x') ...; if (density === '64x') ...] *)
Definition densityScale (d : Density) : Z :=
  match d with D16x => 1 | D32x => 2 | D64x => 4 end.

Record BoxSize := { bw : Z; bh : Z }.

Definition getBoxUVSize (cube : ModelCube) (densityScale : Z) : BoxSize :=
  let '(w, h, d) := size cube in
  let rw := Math_ceil (w * num densityScale)%Qc in
  let rh := Math_ceil (h * num densityScale)%Qc in
  let rd := Math_ceil (d * num densityScale)%Qc in
  {| bw := 2 * (rw + rd); bh := rd + rh |}.

(** ** textureMapper.ts: the reference-image renderer

    The canvas is modelled by the sequence of rectangles handed to
    [drawRect] (position, extent, fill colour and label). *)

Record Rect := {
  rx : number; ry : number; rwidth : Z; rheight : Z;
  rcolor : string; rlabel : string
}.

Definition drawRect (x y : number) (w h : Z) (color label : string) : Rect :=
  {| rx := x; ry := y; rwidth := w; rheight := h;
     rcolor := color; rlabel := label |}.

(** Body of the inner [forEach] of [drawTextureLayout]: the six faces of
    one cube, nothing for a cube without [uv]. *)
Definition drawCube (scale : Z) (cube : ModelCube) : list Rect :=
  match uv cube with
  | None => []
  | Some (u, v) =>
    let '(cw, ch, cd) := size cube in
    let w_px := Math_ceil (cw * num scale)%Qc in
    let h_px := Math_ceil (ch * num scale)%Qc in
    let d_px := Math_ceil (cd * num scale)%Qc in
    [ drawRect (u + num d_px)%Qc v w_px d_px "#ffcccc" "T";
      drawRect (u + num d_px + num w_px)%Qc v w_px d_px "#cc0000" "B";
      drawRect u (v + num d_px)%Qc d_px h_px "#ccccff" "R";
      drawRect (u + num d_px)%Qc (v + num d_px)%Qc w_px h_px "#ccffcc" "F";
      drawRect (u + num d_px + num w_px)%Qc (v + num d_px)%Qc d_px h_px
        "#0000cc" "L";
      drawRect (u + num d_px + num w_px + num d_px)%Qc (v + num d_px)%Qc
        w_px h_px "#00cc00" "Bk" ]
  end.

Record Canvas := {
  canvas_width : number;
  canvas_height : number;
  background : string;
  rects : list Rect
}.

(** [None] stands for the empty string returned when there is nothing to
    draw; otherwise the canvas that is encoded into the data URL. *)
Definition drawTextureLayout (model : MinecraftModel) (density : Density) :
  option Canvas :=
  match type model, bedrockData model with
  | ENTITY, Some data =>
    let '(texW, texH) :=
      default (num MIN_TEXTURE_SIZE, num MIN_TEXTURE_SIZE) (texture_size data) in
    let scale := densityScale density in
    Some {| canvas_width := texW; canvas_height := texH;
            background := "#FFFFFF";
            rects := concat (map (fun bone => concat (map (drawCube scale) (cubes bone)))
                                 (bones data)) |}
  | _, _ => None
  end.

(** ** Exporter: per-face texture offsets *)

Record FaceLayout := {
  offset : vec2;
  mirror : bool * bool;
  angle : Z
}.

Record TextureLayout := {
  front : FaceLayout; back : FaceLayout; left : FaceLayout;
  right : FaceLayout; top : FaceLayout; bottom : FaceLayout
}.

Definition face (x y : number) : FaceLayout :=
  {| offset := (x, y); mirror := (false, false); angle := 0 |}.

Definition getTextureLayout (cube : ModelCube) (textureWidth textureHeight : number) :
  TextureLayout :=
  let '(u, v) := default (num 0, num 0) (uv cube) in
  let '(w, h, d) := size cube in
  let rw := Math_ceil w in
  let rh := Math_ceil h in
  let rd := Math_ceil d in
  {| front := face (u + num rd)%Qc (v + num rd)%Qc;
     back := face (u + num rd + num rw + num rd)%Qc (v + num rd)%Qc;
     left := face (u + num rd + num rw)%Qc (v + num rd)%Qc;
     right := face u (v + num rd)%Qc;
     top := face (u + num rd)%Qc v;
     bottom := face (u + num rd + num rw)%Qc v |}.

(** ** textureMapper.ts: the shelf packer *)

(** An item of the packer.  [cubeRef] of the source is a reference to the
    cube found at [bones[bIdx].cubes[cIdx]] of the input model; the model is
    a tree of plain data, so the path [item_id] identifies that cube. *)
Record BoxPackerItem := {
  item_id : nat * nat;
  item_w : Z;
  item_h : Z
}.

(** Step 1: collect all cubes, in bone order then cube order. *)
Definition collectItems (densityScale : Z) (bs : list ModelBone) :
  list BoxPackerItem :=
  concat (imap (fun bIdx bone =>
    imap (fun cIdx cube =>
      let size := getBoxUVSize cube densityScale in
      {| item_id := (bIdx, cIdx); item_w := bw size; item_h := bh size |})
      (cubes bone)) bs).

(** Step 2: [items.sort((a, b) => b.h - a.h)].  [Array.prototype.sort] is a
    stable sort; it is modelled by the stable insertion sort for the
    comparator (descending height [h], ties keep input order). *)
Fixpoint insertItem {A} (h : A → Z) (x : A) (l : list A) : list A :=
  match l with
  | [] => [x]
  | y :: l' => if h x <? h y then y :: insertItem h x l' else x :: y :: l'
  end.

Definition sortItems {A} (h : A → Z) (l : list A) : list A :=
  foldr (insertItem h) [] l.

(** Step 3: the initial atlas side. *)
Definition totalArea (items : list BoxPackerItem) : Z :=
  fold_left (fun acc item => acc + item_w item * item_h item) items 0.

(** The loop test [(dim * dim) < totalArea * 1.5]. *)
Definition dimTooSmall (dim area : Z) : bool :=
  bool_decide (num (dim * dim) < num area * Q2Qc (3 # 2))%Qc.

(** [while ((dim * dim) < totalArea * 1.5) dim *= 2], unrolled [fuel]
    times. *)
Fixpoint growDim (fuel : nat) (dim area : Z) : Z :=
  match fuel with
  | O => dim
  | S fuel' => if dimTooSmall dim area then growDim fuel' (dim * 2) area else dim
  end.

(** A number of iterations after which the loop has certainly stopped
    (see [growDim_exits]). *)
Definition dimFuel (area : Z) : nat := S (Z.to_nat (Z.log2_up area)).

Definition initialDim (area : Z) : Z := growDim (dimFuel area) MIN_TEXTURE_SIZE area.

(** The cursor of the shelf loop; [textureW] never changes inside it. *)
Record Shelf := {
  currentX : Z;
  currentY : Z;
  rowHeight : Z;
  textureH : Z
}.

(** One iteration of [items.forEach(item => ...)]: the new cursor and the
    UV origin assigned to the item. *)
Definition shelfStep (textureW : Z) (st : Shelf) (item : BoxPackerItem) :
  Shelf * (Z * Z) :=
  let st1 :=
    if textureW <? currentX st + item_w item
    then {| currentX := 0; currentY := currentY st + (rowHeight st + PADDING);
            rowHeight := 0; textureH := textureH st |}
    else st in
  let th :=
    if textureH st1 <? currentY st1 + item_h item
    then textureH st1 * 2 else textureH st1 in
  ({| currentX := currentX st1 + (item_w item + PADDING);
      currentY := currentY st1;
      rowHeight := Z.max (rowHeight st1) (item_h item);
      textureH := th |},
   (currentX st1, currentY st1)).

(** [bones[bIdx].cubes[cIdx].uv = u] *)
Definition assignUV (bs : list ModelBone) (id : nat * nat) (u : option vec2) :
  list ModelBone :=
  alter (fun b => set_cubes b (alter (fun c => set_uv c u) id.2 (cubes b)))
        id.1 bs.

Definition cubeAt (bs : list ModelBone) (id : nat * nat) : option ModelCube :=
  b ← bs !! id.1; cubes b !! id.2.

Definition uvOfZ (p : Z * Z) : vec2 := (num p.1, num p.2).

(** The shelf loop threads the cursor and the bones of the input model,
    whose cubes it writes ([item.cubeRef.uv = [currentX, currentY]]). *)
Definition shelfLoop (textureW : Z) (items : list BoxPackerItem)
  (st : Shelf) (bs : list ModelBone) : Shelf * list ModelBone :=
  fold_left (fun acc item =>
    let '(st', p) := shelfStep textureW acc.1 item in
    (st', assignUV acc.2 (item_id item) (Some (uvOfZ p))))
    items (st, bs).

(** [newModel.bedrockData.bones[bIdx].cubes[cIdx].uv = item.cubeRef.uv] for
    every item; [src] holds the cubes the items refer to. *)
Definition reapplyUVs (src : list ModelBone) (items : list BoxPackerItem)
  (bs : list ModelBone) : list ModelBone :=
  fold_left (fun acc item =>
    match cubeAt src (item_id item) with
    | Some c => assignUV acc (item_id item) (uv c)
    | None => acc
    end) items bs.

(** Result of a call: the input model as the call leaves it, and the model
    it returns. *)
Record Outcome := {
  input_after : MinecraftModel;
  returned : MinecraftModel
}.

Definition packUVs_run (model : MinecraftModel) (density : Density) : Outcome :=
  match type model, bedrockData model with
  | ENTITY, Some data =>
    let densityScale := densityScale density in
    let items := sortItems item_h (collectItems densityScale (bones data)) in
    let dim := initialDim (totalArea items) in
    let textureW := dim in
    let '(st, mutated) :=
      shelfLoop textureW items
        {| currentX := 0; currentY := 0; rowHeight := 0; textureH := dim |}
        (bones data) in
    let textureH := textureH st in
    let textureW := if textureW <? textureH then textureH else textureW in
    let textureH := if textureH <? textureW then textureW else textureH in
    let model' := set_bedrockData model (Some (set_bones data mutated)) in
    (* JSON.parse(JSON.stringify(model)): a copy of the model as it is now *)
    let newData :=
      set_texture_size (set_bones data mutated)
        (Some (num textureW, num textureH)) in
    let newBones := reapplyUVs mutated items (bones newData) in
    {| input_after := model';
       returned := set_bedrockData model (Some (set_bones newData newBones)) |}
  | _, _ => {| input_after := model; returned := model |}
  end.

Definition packUVs (model : MinecraftModel) (density : Density) : MinecraftModel :=
  returned (packUVs_run model density).

(** ** textureMapper.ts: the atlas rescaler

    In exact arithmetic, as every number of this development.  The
    quotient and the products of the source are rounded to doubles;
    [Double.scaleModelUVs] below is the function with that rounding, and
    the two agree where the quotient and the products are exact. *)

Definition scaleCubeUV (scaleX scaleY : number) (cube : ModelCube) : ModelCube :=
  match uv cube with
  | Some (u, v) =>
    set_uv cube (Some (num (Math_round (u * scaleX)%Qc),
                       num (Math_round (v * scaleY)%Qc)))
  | None => cube
  end.

Definition scaleModelUVs (model : MinecraftModel) (newWidth newHeight : number) :
  MinecraftModel :=
  match bedrockData model with
  | None => model
  | Some data =>
    let '(oldW, oldH) :=
      default (num MIN_TEXTURE_SIZE, num MIN_TEXTURE_SIZE) (texture_size data) in
    if bool_decide (oldW = newWidth) && bool_decide (oldH = newHeight) then model
    else
      let scaleX := (newWidth / oldW)%Qc in
      let scaleY := (newHeight / oldH)%Qc in
      let newData := set_texture_size data (Some (newWidth, newHeight)) in
      set_bedrockData model (Some (set_bones newData
        (map (fun bone => set_cubes bone (map (scaleCubeUV scaleX scaleY) (cubes bone)))
             (bones newData))))
  end.

(** ** Views used in the statements *)

Definition rectPos (r : Rect) : vec2 := (rx r, ry r).
Definition rectExtent (r : Rect) : Z * Z := (rwidth r, rheight r).

(** Offsets of an exported layout, in the order top, bottom, right, front,
    left, back in which the renderer draws the faces. *)
Definition layoutOffsets (l : TextureLayout) : list vec2 :=
  [offset (top l); offset (bottom l); offset (right l);
   offset (front l); offset (left l); offset (back l)].

Definition cube8 : ModelCube :=
  {| origin := (num (-4), num 0, num (-4)); size := (num 8, num 8, num 8);
     rotation := None; pivot := None; uv := Some (num 0, num 0);
     color := None; textureOffset := None |}.

(** The items with the UV origin the shelf loop gives each, in the order
    of the loop. *)
Fixpoint placeAll (textureW : Z) (st : Shelf) (items : list BoxPackerItem) :
  list (BoxPackerItem * (Z * Z)) :=
  match items with
  | [] => []
  | item :: rest =>
    (item, (shelfStep textureW st item).2)
      :: placeAll textureW (shelfStep textureW st item).1 rest
  end.

Definition finalShelf (textureW : Z) (st : Shelf) (items : list BoxPackerItem) :
  Shelf :=
  fold_left (fun st item => (shelfStep textureW st item).1) items st.

(** Two placed footprints, each extended by the padding to the right and
    downwards, do not overlap. *)
Definition paddedDisjoint (a b : BoxPackerItem * (Z * Z)) : Prop :=
  a.2.1 + item_w a.1 + PADDING ≤ b.2.1 ∨
  b.2.1 + item_w b.1 + PADDING ≤ a.2.1 ∨
  a.2.2 + item_h a.1 + PADDING ≤ b.2.2 ∨
  b.2.2 + item_h b.1 + PADDING ≤ a.2.2.

(** A placed footprint lies in the current row to the left of the cursor,
    or entirely above the current row. *)
Definition placedBefore (st : Shelf) (a : BoxPackerItem * (Z * Z)) : Prop :=
  (a.2.2 = currentY st ∧ a.2.1 + item_w a.1 + PADDING ≤ currentX st ∧
   item_h a.1 ≤ rowHeight st) ∨
  a.2.2 + item_h a.1 + PADDING ≤ currentY st.

(** The packer item of the cube [cube] found at path [id]. *)
Definition itemOf (densityScale : Z) (id : nat * nat) (cube : ModelCube) :
  BoxPackerItem :=
  {| item_id := id;
     item_w := bw (getBoxUVSize cube densityScale);
     item_h := bh (getBoxUVSize cube densityScale) |}.

(** [collectItems] on the bones from index [k] on. *)
Fixpoint collectFrom (densityScale : Z) (k : nat) (bs : list ModelBone) :
  list BoxPackerItem :=
  match bs with
  | [] => []
  | bone :: rest =>
    imap (fun cIdx cube => itemOf densityScale (k, cIdx) cube) (cubes bone)
      ++ collectFrom densityScale (S k) rest
  end.

(** The writes of the shelf loop, as a list of assignments. *)
Definition assignAll (asg : list (BoxPackerItem * (Z * Z))) (bs : list ModelBone) :
  list ModelBone :=
  fold_left (fun acc a => assignUV acc (item_id a.1) (Some (uvOfZ a.2))) asg bs.

(** The placements [packUVs] computes for a list of bones: the sorted
    items, the initial atlas side, and the shelf loop started at the
    origin. *)
Definition packItems (density : Density) (bs : list ModelBone) :
  list BoxPackerItem :=
  sortItems item_h (collectItems (densityScale density) bs).

Definition packStart (density : Density) (bs : list ModelBone) : Shelf :=
  {| currentX := 0; currentY := 0; rowHeight := 0;
     textureH := initialDim (totalArea (packItems density bs)) |}.

Definition packPlaced (density : Density) (bs : list ModelBone) :
  list (BoxPackerItem * (Z * Z)) :=
  placeAll (initialDim (totalArea (packItems density bs)))
           (packStart density bs) (packItems density bs).

(** Side of the square atlas [packUVs] records. *)
Definition packSide (density : Density) (bs : list ModelBone) : Z :=
  Z.max (initialDim (totalArea (packItems density bs)))
        (textureH (finalShelf (initialDim (totalArea (packItems density bs)))
                              (packStart density bs) (packItems density bs))).

(** UV origin of the cube at path [p] of a model: [None] when the model has
    no such cube, [Some None] when the cube has no [uv]. *)
Definition assignedUV (m : MinecraftModel) (p : nat * nat) : option (option vec2) :=
  data ← bedrockData m; uv <$> cubeAt (bones data) p.

(** Recorded atlas size of a model. *)
Definition atlasSize (m : MinecraftModel) : option (option vec2) :=
  texture_size <$> bedrockData m.

(** All cubes of a bone list, and the order and sizes of its cubes. *)
Definition allCubes (bs : list ModelBone) : list ModelCube :=
  concat (map cubes bs).

Definition cubeSizes (bs : list ModelBone) : list (list vec3) :=
  map (fun bone => map size (cubes bone)) bs.

(** Two cubes packed at density 16x: footprints 32x16 and 16x16. *)
Definition plainCube (o s : Z * Z * Z) : ModelCube :=
  {| origin := (num o.1.1, num o.1.2, num o.2);
     size := (num s.1.1, num s.1.2, num s.2);
     rotation := None; pivot := None; uv := None; color := None;
     textureOffset := None |}.

Definition plainBone (n : string) (p : option string) (pv : Z * Z * Z)
  (cs : list ModelCube) : ModelBone :=
  {| name := n; parent := p;
     bone_pivot := (num pv.1.1, num pv.1.2, num pv.2);
     bone_rotation := None; cubes := cs; attachments := None |}.

Definition plainData (bs : list ModelBone) : BedrockModel :=
  {| format_version := "1.12.0"; bedrock_identifier := "geometry.sample";
     texture_size := None; bones := bs |}.

Definition entityModel (bs : list ModelBone) : MinecraftModel :=
  {| type := ENTITY; loader := "HYTALE"; bedrockData := Some (plainData bs);
     identifier := "sample"; payload := "" |}.

Definition bodyCube : ModelCube := plainCube (-4, 0, -4) (8, 8, 8).
Definition armCube : ModelCube := plainCube (4, 0, -2) (4, 12, 4).

Definition twoCubeBones : list ModelBone :=
  [plainBone "body" None (0, 0, 0) [bodyCube];
   plainBone "arm" (Some "body") (4, 12, 0) [armCube]].

(** A model with a degenerate cube (zero width) next to a regular one. *)
Definition flatCube : ModelCube := plainCube (0, 0, 0) (0, 4, 4).

Definition degenerateBones : list ModelBone :=
  [plainBone "body" None (0, 0, 0) [bodyCube; flatCube]].

(** Single cubes whose footprint is taller (4x201), respectively wider
    (202x2), than the initial 64x64 atlas. *)
Definition tallCube : ModelCube := plainCube (0, 0, 0) (1, 200, 1).
Definition wideCube : ModelCube := plainCube (0, 0, 0) (100, 1, 1).

Definition tallBones : list ModelBone := [plainBone "pole" None (0, 0, 0) [tallCube]].
Definition wideBones : list ModelBone := [plainBone "beam" None (0, 0, 0) [wideCube]].

(** The atlas size a model is taken to have:
    [texture_size || [MIN_TEXTURE_SIZE, MIN_TEXTURE_SIZE]]. *)
Definition recordedSize (data : BedrockModel) : vec2 :=
  default (num MIN_TEXTURE_SIZE, num MIN_TEXTURE_SIZE) (texture_size data).

(** A packed cube in a model that records a 64x64 atlas. *)
Definition packedCube : ModelCube := set_uv bodyCube (Some (num 10, num 20)).

Definition packedModel : MinecraftModel :=
  entityModel [plainBone "body" None (0, 0, 0) [packedCube]].

(** ** The rotation conversions of the 3D library

    [THREE.Quaternion.setFromEuler], [THREE.Euler.setFromQuaternion] (both
    used with the order ['ZYX']), [THREE.MathUtils.radToDeg] and [Math.PI]
    belong to the library and the runtime, not to the repository: they are
    an interface of the development. *)

Record Quaternion := { qx : number; qy : number; qz : number; qw : number }.

Class Three := {
  Math_PI : number;
  Quaternion_setFromEuler_ZYX : vec3 → Quaternion;
  Euler_setFromQuaternion_ZYX : Quaternion → vec3;
  MathUtils_radToDeg : number → number
}.

Definition degToRad `{Three} (deg : number) : number :=
  (deg * (Math_PI / num 180))%Qc.

Definition eulerToQuaternion `{Three} (x y z : number) : Quaternion :=
  Quaternion_setFromEuler_ZYX (degToRad x, degToRad y, degToRad z).

(** [new THREE.Euler().setFromQuaternion(q, 'ZYX')] followed by
    [radToDeg] on each component, as both branches of the importer do. *)
Definition quaternionToEulerDeg `{Three} (q : Quaternion) : vec3 :=
  let '(ex, ey, ez) := Euler_setFromQuaternion_ZYX q in
  (MathUtils_radToDeg ex, MathUtils_radToDeg ey, MathUtils_radToDeg ez).

(** ** The library's conversions over the real numbers

    What three.js computes for the calls above, in exact arithmetic:
    [Quaternion.setFromEuler] and [Euler.setFromRotationMatrix] for the
    order ['ZYX'], [Matrix4.makeRotationFromQuaternion] (through which
    [Euler.setFromQuaternion] goes), [MathUtils.clamp], [DEG2RAD] and
    [RAD2DEG].  Sines and cosines of rational angles are not rational, so
    this is over [R]; [Math.atan2] is read without signed zeros. *)

Module THREE.
Local Open Scope R_scope.

Definition DEG2RAD : R := PI / 180.
Definition RAD2DEG : R := 180 / PI.
Definition degToRad (degrees : R) : R := degrees * DEG2RAD.
Definition radToDeg (radians : R) : R := radians * RAD2DEG.

Record Quaternion := { _x : R; _y : R; _z : R; _w : R }.

Definition setFromEuler_ZYX (e : R * R * R) : Quaternion :=
  let '(x, y, z) := e in
  let c1 := cos (x / 2) in let c2 := cos (y / 2) in let c3 := cos (z / 2) in
  let s1 := sin (x / 2) in let s2 := sin (y / 2) in let s3 := sin (z / 2) in
  {| _x := s1 * c2 * c3 - c1 * s2 * s3;
     _y := c1 * s2 * c3 + s1 * c2 * s3;
     _z := c1 * c2 * s3 - s1 * s2 * c3;
     _w := c1 * c2 * c3 + s1 * s2 * s3 |}.

(** The upper 3x3 block of the matrix, [mij] in row [i] and column [j]. *)
Record Matrix := {
  m11 : R; m12 : R; m13 : R;
  m21 : R; m22 : R; m23 : R;
  m31 : R; m32 : R; m33 : R
}.

Definition makeRotationFromQuaternion (q : Quaternion) : Matrix :=
  let x := _x q in let y := _y q in let z := _z q in let w := _w q in
  let x2 := x + x in let y2 := y + y in let z2 := z + z in
  let xx := x * x2 in let xy := x * y2 in let xz := x * z2 in
  let yy := y * y2 in let yz := y * z2 in let zz := z * z2 in
  let wx := w * x2 in let wy := w * y2 in let wz := w * z2 in
  {| m11 := 1 - (yy + zz); m21 := xy + wz; m31 := xz - wy;
     m12 := xy - wz; m22 := 1 - (xx + zz); m32 := yz + wx;
     m13 := xz + wy; m23 := yz - wx; m33 := 1 - (xx + yy) |}.

Definition clamp (value lo hi : R) : R := Rmax lo (Rmin hi value).

Definition atan2 (y x : R) : R :=
  if Rlt_dec 0 x then atan (y / x)
  else if Rlt_dec x 0 then
    if Rle_dec 0 y then atan (y / x) + PI else atan (y / x) - PI
  else if Rlt_dec 0 y then PI / 2
  else if Rlt_dec y 0 then - (PI / 2)
  else 0.

Definition setFromRotationMatrix_ZYX (m : Matrix) : R * R * R :=
  let y := asin (- clamp (m31 m) (-1) 1) in
  if Rlt_dec (Rabs (m31 m)) (9999999 / 10000000)
  then (atan2 (m32 m) (m33 m), y, atan2 (m21 m) (m11 m))
  else (0, y, atan2 (- m12 m) (m22 m)).

Definition setFromQuaternion_ZYX (q : Quaternion) : R * R * R :=
  setFromRotationMatrix_ZYX (makeRotationFromQuaternion q).

(** [eulerToQuaternion] followed by the importer's
    [setFromQuaternion(q, 'ZYX')] and [radToDeg], on degrees. *)
Definition eulerRoundTrip (r : R * R * R) : R * R * R :=
  let '(x, y, z) := r in
  let '(ex, ey, ez) :=
    setFromQuaternion_ZYX
      (setFromEuler_ZYX (degToRad x, degToRad y, degToRad z)) in
  (radToDeg ex, radToDeg ey, radToDeg ez).

(** The rotations on which the extraction does not take its gimbal-lock
    branch: [Math.abs(m31) < 0.9999999], where [m31] is [- sin y]. *)
Definition regular (r : R * R * R) : Prop :=
  Rabs (sin (degToRad r.1.2)) < 9999999 / 10000000.

(** Angles within one turn, off the gimbal-lock branch. *)
Definition inRange (r : R * R * R) : Prop :=
  let '(x, y, z) := r in
  (-180 < x ∧ x <= 180) ∧ (-180 < y ∧ y <= 180) ∧ (-180 < z ∧ z <= 180) ∧
  regular r.

Definition halfTurn (a : R) : R := if Rle_dec a 0 then a + 180 else a - 180.

(** The triple of the same orientation whose middle angle is within
    [-90, 90]: the one the extraction returns. *)
Definition principal (r : R * R * R) : R * R * R :=
  let '(x, y, z) := r in
  if Rlt_dec 90 y then (halfTurn x, 180 - y, halfTurn z)
  else if Rlt_dec y (-90) then (halfTurn x, -180 - y, halfTurn z)
  else (x, y, z).

End THREE.

(** A number of the model as a real number. *)
Definition toR (x : number) : R := Q2R (this x).
Definition toR3 (v : vec3) : R * R * R := (toR v.1.1, toR v.1.2, toR v.2).

(** ** Exporter: the flat relative node tree *)

Record ShapeSettings := {
  isPiece : option bool;
  settings_size : option vec3
}.

Record Shape := {
  shape_type : string;
  shape_offset : vec3;
  stretch : vec3;
  settings : ShapeSettings;
  visible : bool;
  doubleSided : bool;
  shadingMode : string;
  unwrapMode : string;
  textureLayout : option TextureLayout   (* [None] is the empty object *)
}.

Inductive HytaleNode := Node {
  node_id : string;
  node_name : string;
  children : list HytaleNode;
  position : vec3;
  orientation : Quaternion;
  shape : Shape
}.

(** [generateId]: [(++nodeIdCounter).toString()], threading the counter. *)
Definition generateId (nodeIdCounter : nat) : string * nat :=
  (pretty (S nodeIdCounter), S nodeIdCounter).

Definition one3 : vec3 := (num 1, num 1, num 1).

Definition vsub (a b : vec3) : vec3 :=
  (a.1.1 - b.1.1, a.1.2 - b.1.2, a.2 - b.2)%Qc.
Definition vadd (a b : vec3) : vec3 :=
  (a.1.1 + b.1.1, a.1.2 + b.1.2, a.2 + b.2)%Qc.
Definition vhalf (a : vec3) : vec3 :=
  (a.1.1 / num 2, a.1.2 / num 2, a.2 / num 2)%Qc.

(** JavaScript truthiness of a string, and the bone filter
    [parentId ? b.parent === parentId : !b.parent]. *)
Definition truthy (s : string) : bool := negb (String.eqb s "").

Definition truthyOpt (s : option string) : bool :=
  match s with Some s => truthy s | None => false end.

Definition selects (parentId : option string) (b : ModelBone) : bool :=
  match parentId with
  | Some pid =>
    if truthy pid
    then match parent b with Some p => String.eqb p pid | None => false end
    else negb (truthyOpt (parent b))
  | None => negb (truthyOpt (parent b))
  end.

Definition boneShape : Shape :=
  {| shape_type := "none"; shape_offset := zero3; stretch := one3;
     settings := {| isPiece := Some false; settings_size := None |};
     visible := true; doubleSided := false; shadingMode := "flat";
     unwrapMode := "custom"; textureLayout := None |}.

Definition attachmentShape : Shape :=
  {| shape_type := "none"; shape_offset := zero3; stretch := one3;
     settings := {| isPiece := Some true; settings_size := None |};
     visible := true; doubleSided := false; shadingMode := "flat";
     unwrapMode := "custom"; textureLayout := None |}.

Definition cubeNode `{Three} (bone : ModelBone) (textureSize : vec2)
  (idx : nat) (cube : ModelCube) (id : string) : HytaleNode :=
  let rot := default zero3 (rotation cube) in
  {| node_id := id;
     node_name := name bone +:+ "_shape_" +:+ pretty idx;
     children := [];
     (* centre of the cube, relative to the bone pivot *)
     position := vsub (vadd (origin cube) (vhalf (size cube))) (bone_pivot bone);
     orientation := eulerToQuaternion rot.1.1 rot.1.2 rot.2;
     shape :=
       {| shape_type := "box"; shape_offset := zero3; stretch := one3;
          settings := {| isPiece := None; settings_size := Some (size cube) |};
          textureLayout :=
            Some (getTextureLayout cube textureSize.1 textureSize.2);
          unwrapMode := "custom"; visible := true; doubleSided := false;
          shadingMode := "flat" |} |}.

(** [att.name || "attachment"] *)
Definition attachmentNode (att : ModelAttachment) (id : string) : HytaleNode :=
  {| node_id := id;
     node_name := if truthy (att_name att) then att_name att else "attachment";
     children := [];
     position := att_position att;
     orientation := {| qx := num 0; qy := num 0; qz := num 0; qw := num 1 |};
     shape := attachmentShape |}.

(** [xs.forEach((x, idx) => push(mk(idx, x, generateId())))] *)
Fixpoint mapWithId {A} (mk : nat → A → string → HytaleNode) (idx : nat)
  (xs : list A) (nodeIdCounter : nat) : list HytaleNode * nat :=
  match xs with
  | [] => ([], nodeIdCounter)
  | x :: rest =>
    let '(id, c1) := generateId nodeIdCounter in
    let '(nodes, c2) := mapWithId mk (S idx) rest c1 in
    (mk idx x id :: nodes, c2)
  end.

(** One iteration of the [for] loop of [buildHytaleNodeTree]: the node of
    [bone], its cubes, its attachments and, through [recurse], the nodes of
    its child bones. *)
Definition boneNode `{Three}
  (recurse : option string → vec3 → nat → option (list HytaleNode * nat))
  (parentPivot : vec3) (textureSize : vec2) (bone : ModelBone) (c0 : nat) :
  option (HytaleNode * nat) :=
  let '(id, c1) := generateId c0 in
  let rot := default zero3 (bone_rotation bone) in
  let '(cubeNodes, c2) :=
    mapWithId (cubeNode bone textureSize) 0 (cubes bone) c1 in
  let '(attNodes, c3) :=
    mapWithId (fun _ => attachmentNode) 0 (default [] (attachments bone)) c2 in
  '(childrenNodes, c4) ← recurse (Some (name bone)) (bone_pivot bone) c3;
  Some ({| node_id := id;
           node_name := name bone;
           children := cubeNodes ++ attNodes ++ childrenNodes;
           position := vsub (bone_pivot bone) parentPivot;
           orientation := eulerToQuaternion rot.1.1 rot.1.2 rot.2;
           shape := boneShape |},
        c4).

(** The [for] loop: nodes are pushed in the order of [currentBones]. *)
Definition buildLoop
  (body : ModelBone → nat → option (HytaleNode * nat))
  (currentBones : list ModelBone) (start : list HytaleNode * nat) :
  option (list HytaleNode * nat) :=
  fold_left (fun acc bone =>
    '(nodes, c0) ← acc;
    '(node, c4) ← body bone c0;
    Some (nodes ++ [node], c4)) currentBones (Some start).

(** [buildHytaleNodeTree].  The recursion follows parent names and is not
    structural; [fuel] bounds its depth, [None] stands for a call that does
    not return within it.  The global [nodeIdCounter] is threaded. *)
Fixpoint buildHytaleNodeTree `{Three} (fuel : nat) (bones : list ModelBone)
  (parentId : option string) (parentPivot : vec3) (textureSize : vec2)
  (nodeIdCounter : nat) : option (list HytaleNode * nat) :=
  match fuel with
  | O => None
  | S fuel' =>
    let currentBones := List.filter (selects parentId) bones in
    buildLoop
      (boneNode (fun pid pivot c => buildHytaleNodeTree fuel' bones pid pivot textureSize c)
                parentPivot textureSize)
      currentBones ([], nodeIdCounter)
  end.

(** ** Importer: back to the absolute bone tree *)

(** [bones.find(b => b.name === name)], as the position of the bone. *)
Definition getBone (bones : list ModelBone) (n : string) : option (nat * ModelBone) :=
  list_find (fun b => name b = n) bones.

Definition pushCube (b : ModelBone) (c : ModelCube) : ModelBone :=
  set_cubes b (cubes b ++ [c]).

Definition pushAttachment (b : ModelBone) (a : ModelAttachment) : ModelBone :=
  {| name := name b; parent := parent b; bone_pivot := bone_pivot b;
     bone_rotation := bone_rotation b; cubes := cubes b;
     attachments := Some (default [] (attachments b) ++ [a]) |}.

Definition isGeometry (node : HytaleNode) : bool :=
  String.eqb (shape_type (shape node)) "box".

Definition isAttachment (node : HytaleNode) : bool :=
  match isPiece (settings (shape node)) with Some true => true | _ => false end.

(** The cube the importer makes of a box node below a bone. *)
Definition importedCube `{Three} (node : HytaleNode) (currentPivot : vec3) :
  ModelCube :=
  let size := default one3 (settings_size (settings (shape node))) in
  {| origin := vsub (vadd currentPivot (shape_offset (shape node))) (vhalf size);
     size := size;
     rotation := Some (quaternionToEulerDeg (orientation node));
     uv := match textureLayout (shape node) with
           | Some layout => Some ((offset (right layout)).1, (offset (top layout)).2)
           | None => None
           end;
     color := Some "#FFFFFF";
     pivot := Some currentPivot;
     textureOffset := None |}.

(** The cube of a box node that has no parent: the node becomes a bone
    that holds itself as its only cube. *)
Definition rootCube (node : HytaleNode) (currentPivot : vec3) : ModelCube :=
  let size := default one3 (settings_size (settings (shape node))) in
  {| origin := vsub currentPivot (vhalf size);
     size := size; rotation := None; uv := None;
     color := Some "#FFFFFF"; pivot := None; textureOffset := None |}.

(** [traverse] of [convertHytaleToBedrock]; the array [bones] it fills is
    threaded as state. *)
Fixpoint traverse `{Three} (node : HytaleNode) (parentName : option string)
  (parentPivot : vec3) (bones : list ModelBone) {struct node} : list ModelBone :=
  let relPos := position node in
  let currentPivot := vadd parentPivot relPos in
  let asBone (_ : unit) :=
    let newBone :=
      {| name := node_name node;
         parent := parentName;
         bone_pivot := currentPivot;
         bone_rotation := Some (quaternionToEulerDeg (orientation node));
         cubes := if isGeometry node && negb (truthyOpt parentName)
                  then [rootCube node currentPivot] else [];
         attachments := Some [] |} in
    fold_left (fun bs child => traverse child (Some (node_name node)) currentPivot bs)
              (children node) (bones ++ [newBone]) in
  let asAttachment (_ : unit) :=
    if isAttachment node && truthyOpt parentName then
      match getBone bones (default "" parentName) with
      | Some (i, _) =>
        alter (fun b => pushAttachment b
                 {| att_name := node_name node; att_position := relPos |}) i bones
      | None => asBone ()
      end
    else asBone () in
  if isGeometry node && truthyOpt parentName then
    match getBone bones (default "" parentName) with
    | Some (i, _) =>
      alter (fun b => pushCube b (importedCube node currentPivot)) i bones
    | None => asAttachment ()
    end
  else asAttachment ().

Record HytaleData := {
  nodes : list HytaleNode;
  modelName : option string
}.

(** The identifier is derived from the model or file name by string
    replacements that play no role below; it is kept as the name itself. *)
(** [s.replace(pat, rep)] for a string pattern: the first occurrence. *)
Fixpoint replaceFirst (pat rep s : string) : string :=
  if String.prefix pat s
  then rep +:+ String.substring (String.length pat)
                 (String.length s - String.length pat) s
  else match s with
       | EmptyString => EmptyString
       | String c s' => String c (replaceFirst pat rep s')
       end.

(** [s.replace(/[:.]/g, '_')] *)
Fixpoint replaceColonsAndDots (s : string) : string :=
  match s with
  | EmptyString => EmptyString
  | String c s' =>
    String (if (Ascii.eqb c ":" || Ascii.eqb c ".")%char then "_"%char else c)
           (replaceColonsAndDots s')
  end.

(** [hytaleData.modelName || filename]: a missing and an empty model name
    give way to the file name. *)
Definition modelNameOr (modelName : option string) (filename : string) : string :=
  match modelName with
  | Some n => if truthy n then n else filename
  | None => filename
  end.

Definition convertHytaleToBedrock `{Three} (hytaleData : HytaleData)
  (filename : string) : MinecraftModel :=
  let bones :=
    fold_left (fun bs n => traverse n None zero3 bs) (nodes hytaleData) [] in
  let ident := modelNameOr (modelName hytaleData) filename in
  {| type := ENTITY; loader := "HYTALE";
     identifier :=
       replaceColonsAndDots (replaceFirst ".blockymodel" "" ident);
     bedrockData :=
       Some {| format_version := "1.12.0"; bedrock_identifier := ident;
               texture_size := Some (num 64, num 64); bones := bones |};
     payload := "" |}.

(** ** Well-formed bone lists *)

(** [!b.parent] *)
Definition isRoot (b : ModelBone) : bool := negb (truthyOpt (parent b)).

(** The bone a parent reference resolves to. *)
Definition up (bones : list ModelBone) (b : ModelBone) : option ModelBone :=
  match parent b with
  | Some p => if truthy p then snd <$> getBone bones p else None
  | None => None
  end.

Fixpoint ancestor (bones : list ModelBone) (k : nat) (b : ModelBone) :
  option ModelBone :=
  match k with
  | O => Some b
  | S k' => up bones b ≫= ancestor bones k'
  end.

(** [b] lies [d] parent references below a root. *)
Definition Depth (bones : list ModelBone) (b : ModelBone) (d : nat) : Prop :=
  ∃ r, ancestor bones d b = Some r ∧ isRoot r = true.

Fixpoint reachesRoot (bones : list ModelBone) (fuel : nat) (b : ModelBone) : bool :=
  isRoot b ||
  match fuel with
  | O => false
  | S fuel' =>
    match up bones b with
    | Some pb => reachesRoot bones fuel' pb
    | None => false
    end
  end.

(** The bones form a forest: names are unique and not empty (an empty
    name cannot be referred to, [parentId ? ... : ...] takes it for no
    parent), and following the parent references from any bone leads to a
    root, within as many steps as there are bones. *)
Definition wellFormed (bones : list ModelBone) : Prop :=
  NoDup (map name bones) ∧
  Forall (fun b => truthy (name b) = true) bones ∧
  Forall (fun b => reachesRoot bones (length bones) b = true) bones.

(** The bones [buildHytaleNodeTree] visits, in the order of the visit. *)
Fixpoint subtree (fuel : nat) (bones : list ModelBone) (parentId : option string) :
  list ModelBone :=
  match fuel with
  | O => []
  | S fuel' =>
    flat_map (fun b => b :: subtree fuel' bones (Some (name b)))
             (List.filter (selects parentId) bones)
  end.

(** ** What a bone becomes on the way through both conversions *)

Definition eulerRoundTrip `{Three} (r : vec3) : vec3 :=
  quaternionToEulerDeg (eulerToQuaternion r.1.1 r.1.2 r.2).

(** The law of the interface: on angles within one turn and off the
    gimbal-lock branch, exporting a rotation and importing it again gives
    what the library gives in exact arithmetic. *)
Class ThreeExact `{Three} : Prop :=
  three_exact : ∀ r : vec3,
    THREE.inRange (toR3 r) → toR3 (eulerRoundTrip r) = THREE.eulerRoundTrip (toR3 r).


Definition reimportCube `{Three} (c : ModelCube) : ModelCube :=
  {| origin := origin c;
     size := size c;
     rotation := Some (eulerRoundTrip (default zero3 (rotation c)));
     uv := Some (default (num 0, num 0) (uv c));
     color := Some "#FFFFFF";
     pivot := Some (vadd (origin c) (vhalf (size c)));
     textureOffset := None |}.

Definition reimportAttachment (a : ModelAttachment) : ModelAttachment :=
  {| att_name := if truthy (att_name a) then att_name a else "attachment";
     att_position := att_position a |}.

Definition reimportBone `{Three} (b : ModelBone) : ModelBone :=
  {| name := name b;
     parent := if isRoot b then None else parent b;
     bone_pivot := bone_pivot b;
     bone_rotation := Some (eulerRoundTrip (default zero3 (bone_rotation b)));
     cubes := map reimportCube (cubes b);
     attachments := Some (map reimportAttachment (default [] (attachments b))) |}.

(** [THREE.principal] on the numbers of the model. *)
Definition halfTurn (a : number) : number :=
  if decide (a ≤ 0)%Qc then (a + num 180)%Qc else (a - num 180)%Qc.

Definition principalEuler (r : vec3) : vec3 :=
  let '(x, y, z) := r in
  if decide (num 90 < y)%Qc then (halfTurn x, (num 180 - y)%Qc, halfTurn z)
  else if decide (y < num (-90))%Qc
       then (halfTurn x, (num (-180) - y)%Qc, halfTurn z)
       else (x, y, z).

(** A rational stand-in for the library, on which the conversions run on
    examples.  Its quaternions are tokens that hold the angles, not the
    library's values, which are irrational; exporting and importing a
    rotation gives the principal triple, as the library does. *)
Definition sampleThree : Three :=
  {| Math_PI := Q2Qc (355 # 113);
     Quaternion_setFromEuler_ZYX := fun e =>
       {| qx := e.1.1 / num 2; qy := e.1.2 / num 2; qz := e.2 / num 2;
          qw := num 1 |}%Qc;
     Euler_setFromQuaternion_ZYX := fun q =>
       let toDeg a := (a * (num 180 / Q2Qc (355 # 113)))%Qc in
       let toRad a := (a * (Q2Qc (355 # 113) / num 180))%Qc in
       let '(x, y, z) :=
         principalEuler (toDeg (num 2 * qx q / qw q)%Qc,
                         toDeg (num 2 * qy q / qw q)%Qc,
                         toDeg (num 2 * qz q / qw q)%Qc) in
       (toRad x, toRad y, toRad z);
     MathUtils_radToDeg := fun r => (r * (num 180 / Q2Qc (355 # 113)))%Qc |}.

(** The depth of the bones a call with [parentId = pid] selects: the roots
    for no parent, the children of a bone otherwise. *)
Definition Anchor (bones : list ModelBone) (pid : option string) (d0 : nat) : Prop :=
  (pid = None ∧ d0 = 0%nat) ∨
  ∃ h d, h ∈ bones ∧ pid = Some (name h) ∧ Depth bones h d ∧ d0 = S d.

(** [nodes.forEach(n => traverse(n, parentName, parentPivot))] *)
Definition importNodes `{Three} (parentName : option string) (parentPivot : vec3)
  (nodes : list HytaleNode) (bones : list ModelBone) : list ModelBone :=
  fold_left (fun bs n => traverse n parentName parentPivot bs) nodes bones.



(** A parent reference that matches no bone. *)
Definition dangling (bs : list ModelBone) (b : ModelBone) : Prop :=
  ∃ p, parent b = Some p ∧ truthy p = true ∧ p ∉ map name bs.

(** The chain root -> pelvis -> head, each bone with a cube. *)
Definition chainBones : list ModelBone :=
  [ {| name := "head"; parent := Some "pelvis";
       bone_pivot := (num 0, num 24, num 0); bone_rotation := None;
       cubes := [plainCube (-4, 24, -4) (8, 8, 8)];
       attachments := Some [{| att_name := "hat";
                               att_position := (num 0, num 8, num 0) |}] |};
    {| name := "root"; parent := None;
       bone_pivot := (num 0, num 0, num 0); bone_rotation := None;
       cubes := []; attachments := None |};
    {| name := "pelvis"; parent := Some "root";
       bone_pivot := (num 0, num 12, num 0);
       bone_rotation := Some (num 30, num 0, num 0);
       cubes := [plainCube (-4, 12, -2) (8, 12, 4)]; attachments := None |} ].

(** A root and a bone whose parent does not exist. *)
Definition orphanBones : list ModelBone :=
  [ plainBone "root" None (0, 0, 0) [bodyCube];
    plainBone "orphan" (Some "ghost") (0, 12, 0) [armCube] ].

(** [b] with the attachment list [l]. *)
Definition withAttachments (B : ModelBone) (l : list ModelAttachment) : ModelBone :=
  {| name := name B; parent := parent B; bone_pivot := bone_pivot B;
     bone_rotation := bone_rotation B; cubes := cubes B;
     attachments := Some l |}.

(** ** The object store

    [packUVs] and [scaleModelUVs] work on JavaScript objects: they write
    fields of objects they were given and return references.  Whether a
    call changes its input, and what the returned model shares with it, is
    stated on a store of objects.  Model objects, cube objects and [uv]
    arrays live in the store and are named by locations; bones, which
    neither function writes to, are part of the model object.  A cube object
    holds its plain fields as a [ModelCube] (whose [uv] is not used) and the
    location of its [uv] array. *)
Module Heap.

Abbreviation loc := nat (only parsing).

Record CubeObj := { plain : ModelCube; uvRef : option loc }.

Record BoneObj := { bone : ModelBone; cubeRefs : list loc }.

Record BedrockObj := {
  b_format_version : string;
  b_identifier : string;
  b_texture_size : option vec2;
  b_bones : list BoneObj
}.

Record ModelObj := {
  m_type : ModelType;
  m_loader : string;
  m_bedrockData : option BedrockObj;
  m_identifier : string;
  m_payload : string
}.

Record Store := {
  modelObjs : list ModelObj;
  cubeObjs : list CubeObj;
  uvArrays : list vec2
}.

(** Computations on the store; [None] is a run-time error (a read through
    a reference that does not exist). *)
Definition M (A : Type) : Type := Store → option (A * Store).

Definition ret {A} (a : A) : M A := fun s => Some (a, s).

Definition bind {A B} (m : M A) (k : A → M B) : M B :=
  fun s => match m s with Some (a, s') => k a s' | None => None end.

Notation "'let*' x := m 'in' k" := (bind m (fun x => k))
  (at level 10, x name, m at level 100, k at level 200, only parsing).

Definition readModel (l : loc) : M ModelObj :=
  fun s => (fun o => (o, s)) <$> modelObjs s !! l.

Definition readCube (l : loc) : M CubeObj :=
  fun s => (fun o => (o, s)) <$> cubeObjs s !! l.

Definition readUV (l : loc) : M vec2 :=
  fun s => (fun o => (o, s)) <$> uvArrays s !! l.

Definition newUV (a : vec2) : M loc :=
  fun s => Some (length (uvArrays s),
                 {| modelObjs := modelObjs s; cubeObjs := cubeObjs s;
                    uvArrays := uvArrays s ++ [a] |}).

Definition newCube (o : CubeObj) : M loc :=
  fun s => Some (length (cubeObjs s),
                 {| modelObjs := modelObjs s; cubeObjs := cubeObjs s ++ [o];
                    uvArrays := uvArrays s |}).

Definition newModel (o : ModelObj) : M loc :=
  fun s => Some (length (modelObjs s),
                 {| modelObjs := modelObjs s ++ [o]; cubeObjs := cubeObjs s;
                    uvArrays := uvArrays s |}).

(** [cube.uv = r] *)
Definition writeUVRef (l : loc) (r : option loc) : M unit :=
  fun s =>
    match cubeObjs s !! l with
    | Some o =>
      Some (tt, {| modelObjs := modelObjs s;
                   cubeObjs := <[l := {| plain := plain o; uvRef := r |}]> (cubeObjs s);
                   uvArrays := uvArrays s |})
    | None => None
    end.

(** [model.bedrockData.texture_size = ts] *)
Definition writeTextureSize (l : loc) (ts : vec2) : M unit :=
  fun s =>
    match modelObjs s !! l with
    | Some o =>
      match m_bedrockData o with
      | Some d =>
        Some (tt, {| modelObjs :=
                       <[l := {| m_type := m_type o; m_loader := m_loader o;
                                 m_bedrockData :=
                                   Some {| b_format_version := b_format_version d;
                                           b_identifier := b_identifier d;
                                           b_texture_size := Some ts;
                                           b_bones := b_bones d |};
                                 m_identifier := m_identifier o;
                                 m_payload := m_payload o |}]> (modelObjs s);
                     cubeObjs := cubeObjs s; uvArrays := uvArrays s |})
      | None => None
      end
    | None => None
    end.

Fixpoint mapEach {A B} (f : A → M B) (l : list A) : M (list B) :=
  match l with
  | [] => ret []
  | x :: rest => let* y := f x in let* ys := mapEach f rest in ret (y :: ys)
  end.

Fixpoint forEach {A} (f : A → M unit) (l : list A) : M unit :=
  match l with
  | [] => ret tt
  | x :: rest => let* _ := f x in forEach f rest
  end.

(** [JSON.parse(JSON.stringify(model))]: a copy made of new objects. *)
Definition cloneCube (l : loc) : M loc :=
  let* o := readCube l in
  match uvRef o with
  | Some r =>
    let* a := readUV r in
    let* r' := newUV a in
    newCube {| plain := plain o; uvRef := Some r' |}
  | None => newCube {| plain := plain o; uvRef := None |}
  end.

Definition cloneBone (b : BoneObj) : M BoneObj :=
  let* refs := mapEach cloneCube (cubeRefs b) in
  ret {| bone := bone b; cubeRefs := refs |}.

Definition cloneModel (l : loc) : M loc :=
  let* o := readModel l in
  match m_bedrockData o with
  | Some d =>
    let* bs := mapEach cloneBone (b_bones d) in
    newModel {| m_type := m_type o; m_loader := m_loader o;
                m_bedrockData :=
                  Some {| b_format_version := b_format_version d;
                          b_identifier := b_identifier d;
                          b_texture_size := b_texture_size d;
                          b_bones := bs |};
                m_identifier := m_identifier o; m_payload := m_payload o |}
  | None => newModel o
  end.

(** A packer item with its [cubeRef]. *)
Record Item := { item : BoxPackerItem; cubeRef : loc }.

Definition collectCube (densityScale : Z) (bIdx cIdx : nat) (l : loc) : M Item :=
  let* o := readCube l in
  let size := getBoxUVSize (plain o) densityScale in
  ret {| item := {| item_id := (bIdx, cIdx); item_w := bw size; item_h := bh size |};
         cubeRef := l |}.

Fixpoint collectCubes (densityScale : Z) (bIdx cIdx : nat) (refs : list loc) :
  M (list Item) :=
  match refs with
  | [] => ret []
  | l :: rest =>
    let* it := collectCube densityScale bIdx cIdx l in
    let* its := collectCubes densityScale bIdx (S cIdx) rest in
    ret (it :: its)
  end.

Fixpoint collectBones (densityScale : Z) (bIdx : nat) (bs : list BoneObj) :
  M (list Item) :=
  match bs with
  | [] => ret []
  | b :: rest =>
    let* its := collectCubes densityScale bIdx 0 (cubeRefs b) in
    let* its' := collectBones densityScale (S bIdx) rest in
    ret (its ++ its')
  end.

(** The shelf loop: [item.cubeRef.uv = [currentX, currentY]] allocates the
    array and writes the reference into the cube the item refers to. *)
Fixpoint shelfLoop (textureW : Z) (items : list Item) (st : Shelf) : M Shelf :=
  match items with
  | [] => ret st
  | it :: rest =>
    let '(st', p) := shelfStep textureW st (item it) in
    let* r := newUV (uvOfZ p) in
    let* _ := writeUVRef (cubeRef it) (Some r) in
    shelfLoop textureW rest st'
  end.

(** [newModel.bedrockData.bones[bIdx].cubes[cIdx].uv = item.cubeRef.uv] *)
Definition reapplyUV (newModel : loc) (it : Item) : M unit :=
  let* src := readCube (cubeRef it) in
  let* o := readModel newModel in
  match m_bedrockData o with
  | Some d =>
    match b_bones d !! (item_id (item it)).1 with
    | Some b =>
      match cubeRefs b !! (item_id (item it)).2 with
      | Some l => writeUVRef l (uvRef src)
      | None => fun _ => None
      end
    | None => fun _ => None
    end
  | None => fun _ => None
  end.

Definition packUVs (model : loc) (density : Density) : M loc :=
  let* o := readModel model in
  match m_type o, m_bedrockData o with
  | ENTITY, Some d =>
    let densityScale := densityScale density in
    let* collected := collectBones densityScale 0 (b_bones d) in
    let items := sortItems (fun it => item_h (item it)) collected in
    let dim := initialDim (totalArea (map item items)) in
    let textureW := dim in
    let* st := shelfLoop textureW items
            {| currentX := 0; currentY := 0; rowHeight := 0; textureH := dim |} in
    let textureH := textureH st in
    let textureW := if textureW <? textureH then textureH else textureW in
    let textureH := if textureH <? textureW then textureW else textureH in
    let* newModel := cloneModel model in
    let* _ := writeTextureSize newModel (num textureW, num textureH) in
    let* _ := forEach (reapplyUV newModel) items in
    ret newModel
  | _, _ => ret model
  end.

(** [if (cube.uv) cube.uv = [Math.round(...), Math.round(...)]] *)
Definition scaleCube (scaleX scaleY : number) (l : loc) : M unit :=
  let* o := readCube l in
  match uvRef o with
  | Some r =>
    let* a := readUV r in
    let* r' := newUV (num (Math_round (a.1 * scaleX)%Qc),
                 num (Math_round (a.2 * scaleY)%Qc)) in
    writeUVRef l (Some r')
  | None => ret tt
  end.

Definition scaleModelUVs (model : loc) (newWidth newHeight : number) : M loc :=
  let* o := readModel model in
  match m_bedrockData o with
  | None => ret model
  | Some d =>
    let '(oldW, oldH) :=
      default (num MIN_TEXTURE_SIZE, num MIN_TEXTURE_SIZE) (b_texture_size d) in
    if bool_decide (oldW = newWidth) && bool_decide (oldH = newHeight)
    then ret model
    else
      let scaleX := (newWidth / oldW)%Qc in
      let scaleY := (newHeight / oldH)%Qc in
      let* newModel := cloneModel model in
      let* _ := writeTextureSize newModel (newWidth, newHeight) in
      let* n := readModel newModel in
      let* _ := forEach (fun b => forEach (scaleCube scaleX scaleY) (cubeRefs b))
             (default [] (b_bones <$> m_bedrockData n)) in
      ret newModel
  end.

(** The value a location stands for. *)
Definition viewCube (s : Store) (l : loc) : option ModelCube :=
  o ← cubeObjs s !! l;
  match uvRef o with
  | Some r => a ← uvArrays s !! r; Some (set_uv (plain o) (Some a))
  | None => Some (set_uv (plain o) None)
  end.

Definition viewBone (s : Store) (b : BoneObj) : option ModelBone :=
  cs ← mapM (M := option) (viewCube s) (cubeRefs b);
  Some (set_cubes (bone b) cs).

Definition viewModel (s : Store) (l : loc) : option MinecraftModel :=
  o ← modelObjs s !! l;
  d ← match m_bedrockData o with
      | Some d =>
        bs ← mapM (M := option) (viewBone s) (b_bones d);
        Some (Some {| format_version := b_format_version d;
                      bedrock_identifier := b_identifier d;
                      texture_size := b_texture_size d;
                      bones := bs |})
      | None => Some None
      end;
  Some {| type := m_type o; loader := m_loader o; bedrockData := d;
          identifier := m_identifier o; payload := m_payload o |}.

(** Every reference held in the store names an object of the store. *)
Definition wellFormed (s : Store) : Prop :=
  (∀ i o r, cubeObjs s !! i = Some o → uvRef o = Some r →
            (r < length (uvArrays s))%nat) ∧
  (∀ i o d b l, modelObjs s !! i = Some o → m_bedrockData o = Some d →
                b ∈ b_bones d → l ∈ cubeRefs b →
                (l < length (cubeObjs s))%nat).

(** The cube locations of a model object. *)
Definition cubeLocs (o : ModelObj) : list loc :=
  concat (map cubeRefs (default [] (b_bones <$> m_bedrockData o))).

(** [s'] has every object of [s], unchanged, and possibly more. *)
Definition extends (s s' : Store) : Prop :=
  modelObjs s `prefix_of` modelObjs s' ∧
  cubeObjs s `prefix_of` cubeObjs s' ∧
  uvArrays s `prefix_of` uvArrays s'.

(** As [extends], except that the [uv] references of the cubes of [s] may
    have been written. *)
Definition grows (s s' : Store) : Prop :=
  modelObjs s `prefix_of` modelObjs s' ∧
  map plain (cubeObjs s) `prefix_of` map plain (cubeObjs s') ∧
  uvArrays s `prefix_of` uvArrays s'.

(** The model at [m'] and its cubes are objects made after [s]. *)
Definition freshCubes (s s' : Store) (m' : loc) : Prop :=
  (length (modelObjs s) ≤ m')%nat ∧
  ∃ o, modelObjs s' !! m' = Some o ∧
       Forall (fun l => (length (cubeObjs s) ≤ l < length (cubeObjs s'))%nat)
              (cubeLocs o).

(** The cubes made after [s] hold [uv] arrays made after [s]. *)
Definition freshUVs (s s' : Store) : Prop :=
  ∀ l o r, (length (cubeObjs s) ≤ l)%nat → cubeObjs s' !! l = Some o →
           uvRef o = Some r → (length (uvArrays s) ≤ r)%nat.

(** The returned model shares no object with the store [s]. *)
Definition freshModel (s s' : Store) (m' : loc) : Prop :=
  freshCubes s s' m' ∧ freshUVs s s'.

(** [scaleModelUVs] has nothing to do: no geometry, or the size is the
    recorded one. *)
Definition sameSize (o : ModelObj) (newWidth newHeight : number) : Prop :=
  match m_bedrockData o with
  | None => True
  | Some d =>
    default (num MIN_TEXTURE_SIZE, num MIN_TEXTURE_SIZE) (b_texture_size d)
    = (newWidth, newHeight)
  end.

(** [packUVs] has something to pack. *)
Definition isEntity (o : ModelObj) : Prop :=
  m_type o = ENTITY ∧ is_Some (m_bedrockData o).

End Heap.

(** A store holding one entity model (at location 0) with one bone and one
    cube (at location 0) that has no [uv] yet. *)
Definition sampleStore : Heap.Store :=
  {| Heap.modelObjs :=
       [ {| Heap.m_type := ENTITY; Heap.m_loader := "HYTALE";
            Heap.m_bedrockData :=
              Some {| Heap.b_format_version := "1.12.0";
                      Heap.b_identifier := "geometry.sample";
                      Heap.b_texture_size := None;
                      Heap.b_bones :=
                        [ {| Heap.bone := plainBone "body" None (0, 0, 0) [];
                             Heap.cubeRefs := [0%nat] |} ] |};
            Heap.m_identifier := "sample"; Heap.m_payload := "" |} ];
     Heap.cubeObjs := [ {| Heap.plain := bodyCube; Heap.uvRef := None |} ];
     Heap.uvArrays := [] |}.

(** Weakest precondition on the store: [m] runs without error from [s] and
    its result and final store satisfy [Q]. *)
Definition wp {A} (m : Heap.M A) (Q : A → Heap.Store → Prop) (s : Heap.Store) : Prop :=
  ∃ a s', m s = Some (a, s') ∧ Q a s'.

(** The store [s] was reached from [s0] by making new objects and by
    writing only to objects made after [s0], and it is well formed. *)
Definition ExtInv (s0 s : Heap.Store) : Prop :=
  Heap.extends s0 s ∧ Heap.wellFormed s ∧ Heap.freshUVs s0 s.

(** The same, when [uv] references of cubes of [s0] may have been written
    as well. *)
Definition GrowInv (s0 s : Heap.Store) : Prop :=
  Heap.grows s0 s ∧ Heap.wellFormed s.

(** [l'] in [s'] is a new cube object with the value [l] has in [s]. *)
Definition cubeCopy (s s' : Heap.Store) (l l' : Heap.loc) : Prop :=
  Heap.viewCube s' l' = Heap.viewCube s l ∧
  (length (Heap.cubeObjs s) ≤ l' < length (Heap.cubeObjs s'))%nat.

Definition boneCopy (s s' : Heap.Store) (b b' : Heap.BoneObj) : Prop :=
  Heap.bone b' = Heap.bone b ∧
  Forall2 (cubeCopy s s') (Heap.cubeRefs b) (Heap.cubeRefs b').

(** [o'] is a copy of [o] made of new cube objects. *)
Definition modelCopy (s s' : Heap.Store) (o o' : Heap.ModelObj) : Prop :=
  Heap.m_type o' = Heap.m_type o ∧ Heap.m_loader o' = Heap.m_loader o ∧
  Heap.m_identifier o' = Heap.m_identifier o ∧
  Heap.m_payload o' = Heap.m_payload o ∧
  match Heap.m_bedrockData o, Heap.m_bedrockData o' with
  | Some d, Some d' =>
    Heap.b_format_version d' = Heap.b_format_version d ∧
    Heap.b_identifier d' = Heap.b_identifier d ∧
    Heap.b_texture_size d' = Heap.b_texture_size d ∧
    Forall2 (boneCopy s s') (Heap.b_bones d) (Heap.b_bones d')
  | None, None => True
  | _, _ => False
  end.

(** A model without the [uv] of its cubes: every other field is kept. *)
Definition withoutUV (c : ModelCube) : ModelCube := set_uv c None.

Definition boneWithoutUVs (b : ModelBone) : ModelBone :=
  set_cubes b (map withoutUV (cubes b)).

Definition withoutUVs (m : MinecraftModel) : MinecraftModel :=
  set_bedrockData m
    ((fun d => set_bones d (map boneWithoutUVs (bones d))) <$> bedrockData m).

(** The [uv] of every cube of a model, bone by bone. *)
Definition cubeUVs (m : MinecraftModel) : list (option vec2) :=
  map uv (allCubes (default [] (bones <$> bedrockData m))).

(** ** Views on the atlas

    Rectangles of the canvas are half-open: a rectangle at [(x, y)] of
    extent [(w, h)] covers the pixels [x .. x + w - 1] by
    [y .. y + h - 1]. *)

(** Two rectangles share no pixel: one ends where, or before, the other
    begins, horizontally or vertically. *)
Definition rectsDisjoint (a b : Rect) : Prop :=
  (rx a + num (rwidth a) ≤ rx b ∨ rx b + num (rwidth b) ≤ rx a ∨
   ry a + num (rheight a) ≤ ry b ∨ ry b + num (rheight b) ≤ ry a)%Qc.

(** The rectangle [r] lies inside the footprint [f] placed at [(u, v)]. *)
Definition rectInside (u v : number) (f : BoxSize) (r : Rect) : Prop :=
  (u ≤ rx r ∧ rx r + num (rwidth r) ≤ u + num (bw f) ∧
   v ≤ ry r ∧ ry r + num (rheight r) ≤ v + num (bh f))%Qc.

(** The summed area of the footprints of all cubes. *)
Definition footprintArea (densityScale : Z) (bs : list ModelBone) : Z :=
  foldr (fun c acc => bw (getBoxUVSize c densityScale)
                      * bh (getBoxUVSize c densityScale) + acc)
        0 (allCubes bs).

(** A model without what the texture functions write: the [uv] of the
    cubes and the recorded [texture_size]. *)
Definition withoutAtlas (m : MinecraftModel) : MinecraftModel :=
  set_bedrockData (withoutUVs m)
    ((fun d => set_texture_size d None) <$> bedrockData (withoutUVs m)).

(** The geometry [packUVs] returns for the geometry [data]: every cube
    carries its placement, the atlas is the square of side [packSide]. *)
Definition packedData (density : Density) (data : BedrockModel) : BedrockModel :=
  set_bones
    (set_texture_size data
       (Some (num (packSide density (bones data)),
              num (packSide density (bones data)))))
    (assignAll (packPlaced density (bones data)) (bones data)).

(** All components of a cube's size are non-negative. *)
Definition nonnegSize (c : ModelCube) : Prop :=
  (0 ≤ (size c).1.1 ∧ 0 ≤ (size c).1.2 ∧ 0 ≤ (size c).2)%Qc.

(** Whether the cube at path [p] of a model has a [uv]. *)
Definition hasUV (m : MinecraftModel) (p : nat * nat) : option bool :=
  (fun u => bool_decide (is_Some u)) <$> assignedUV m p.

(** The [uv] origin of a cube, if it has one, is a pair of integers. *)
Definition integralUV (c : ModelCube) : Prop :=
  ∀ u v, uv c = Some (u, v) → ∃ x y : Z, u = num x ∧ v = num y.

(** A packed model that records its 64 x 64 atlas. *)
Definition atlasModel : MinecraftModel :=
  set_bedrockData packedModel
    (Some (set_texture_size (plainData [plainBone "body" None (0, 0, 0) [packedCube]])
                            (Some (num 64, num 64)))).

(** A footprint the packer is certain to keep inside the atlas: not wider
    than the smallest atlas, and lower than it by the padding. *)
Definition fitsSmallestAtlas (f : BoxSize) : Prop :=
  0 ≤ bw f ≤ MIN_TEXTURE_SIZE ∧ 0 ≤ bh f ≤ MIN_TEXTURE_SIZE - PADDING.

(** ** Viewer: the texture coordinates of a cube ([CustomBoxMesh])

    [setFaceUV(faceIdx, uStart, vStart, width, height)] writes the four
    corners of face [faceIdx] of the box geometry, in normalised texture
    coordinates.  The mesh is modelled by the calls made, each with the
    pixel rectangle it is given, and the corner values a call writes. *)

Definition Math_floor (x : number) : Z := Qfloor (this x).

Record FaceUV := {
  faceIdx : nat;
  uStart : Z;
  vStart : Z;
  face_width : Z;
  face_height : Z
}.

(** The calls of [setFaceUV], in the order of the source:
    [if (textureMap && cube.uv) ...], where [textureMap] says whether a
    texture is loaded. *)
Definition faceUVs (textureMap : bool) (uvScale : number) (cube : ModelCube) :
  list FaceUV :=
  match (if textureMap then uv cube else None) with
  | None => []
  | Some (u, v) =>
    let '(w, h, d) := size cube in
    let ru := Math_floor u in
    let rv := Math_floor v in
    let rw := Math_ceil (w * uvScale)%Qc in
    let rh := Math_ceil (h * uvScale)%Qc in
    let rd := Math_ceil (d * uvScale)%Qc in
    [ {| faceIdx := 0; uStart := ru; vStart := rv + rd;
         face_width := rd; face_height := rh |};
      {| faceIdx := 1; uStart := ru + rd + rw; vStart := rv + rd;
         face_width := rd; face_height := rh |};
      {| faceIdx := 2; uStart := ru + rd; vStart := rv;
         face_width := rw; face_height := rd |};
      {| faceIdx := 3; uStart := ru + rd + rw; vStart := rv;
         face_width := rw; face_height := rd |};
      {| faceIdx := 4; uStart := ru + rd; vStart := rv + rd;
         face_width := rw; face_height := rh |};
      {| faceIdx := 5; uStart := ru + rd + rw + rd; vStart := rv + rd;
         face_width := rw; face_height := rh |} ]
  end.

(** The writes [uvAttribute.setXY(offset + i, u, v)] of one call:
    [n(val, total) = val / total] and [nv(val) = 1 - val / texH]. *)
Definition setFaceUV (texW texH : number) (f : FaceUV) :
  list (nat * (number * number)) :=
  let offset := (faceIdx f * 4)%nat in
  let u0 := (num (uStart f) / texW)%Qc in
  let u1 := (num (uStart f + face_width f) / texW)%Qc in
  let v0 := (1 - num (vStart f) / texH)%Qc in
  let v1 := (1 - num (vStart f + face_height f) / texH)%Qc in
  [ ((offset + 0)%nat, (u0, v0)); ((offset + 1)%nat, (u1, v0));
    ((offset + 2)%nat, (u0, v1)); ((offset + 3)%nat, (u1, v1)) ].

(** The face a [faceIdx] stands for, as the comments of the source name
    them, with the labels the renderer gives the faces. *)
Definition faceLabel (idx : nat) : string :=
  match idx with
  | 0 => "R" | 1 => "L" | 2 => "T" | 3 => "B" | 4 => "F" | _ => "Bk"
  end%nat.

(** The pixel rectangle of a call, as label, position and extent. *)
Definition faceRect (f : FaceUV) : string * vec2 * (Z * Z) :=
  (faceLabel (faceIdx f), (num (uStart f), num (vStart f)),
   (face_width f, face_height f)).

Definition rectOf (r : Rect) : string * vec2 * (Z * Z) :=
  (rlabel r, rectPos r, rectExtent r).

(** ** App: putting a texture on the model

    [handleUploadTexture] (and, with the same statements,
    [handleGenerateTexture]) once the image has loaded: the model is packed
    for the chosen density, its UVs are scaled to the size of the image, and
    the viewer is told how many pixels of the image one unit of geometry
    covers.  The result is the model and the scale factor handed to the
    state; [None] stands for the [TypeError] of reading [texture_size[0]]
    of geometry that records no size. *)
Definition handleUploadTexture (model : MinecraftModel) (textureDensity : Density)
    (naturalWidth naturalHeight : number) : option (MinecraftModel * number) :=
  let workingModel := packUVs model textureDensity in
  (* workingModel.bedrockData?.texture_size[0] || 64 *)
  packedW ←
    match bedrockData workingModel with
    | None => Some (num 64)
    | Some data =>
      match texture_size data with
      | Some ts => Some (if bool_decide (ts.1 = num 0) then num 64 else ts.1)
      | None => None
      end
    end;
  let scaledModel := scaleModelUVs workingModel naturalWidth naturalHeight in
  let upScaleRatio := (naturalWidth / packedW)%Qc in
  let densityBase := densityScale textureDensity in
  Some (scaledModel, (num densityBase * upScaleRatio)%Qc).

(** A pixel rectangle magnified [k] times about the origin of the image. *)
Definition magnify (k : Z) (r : string * vec2 * (Z * Z)) : string * vec2 * (Z * Z) :=
  (r.1.1, ((num k * r.1.2.1)%Qc, (num k * r.1.2.2)%Qc), (k * r.2.1, k * r.2.2)).

(** All components of a cube's size are whole numbers. *)
Definition integralSize (c : ModelCube) : Prop :=
  ∃ a b e : Z, size c = (num a, num b, num e).

(** ** Exporter: the model file

    The part of [exportHytaleModel] that builds the [.blockymodel]: no
    model data, no export ([None] after the alert); otherwise the counter
    of node ids is reset and the tree is built from the roots, with the
    recorded texture size or 64 x 64.  [fuel] bounds the depth of the
    recursion of [buildHytaleNodeTree]; the inner [None] stands for a build
    that does not return within it. *)
Definition exportNodes `{Three} (fuel : nat) (model : MinecraftModel) :
  option (option (list HytaleNode * nat)) :=
  match bedrockData model with
  | None => None
  | Some data =>
    let textureSize := default (num 64, num 64) (texture_size data) in
    Some (buildHytaleNodeTree fuel (bones data) None zero3 textureSize 0)
  end.

(** The nodes of a tree, parents before children, in the order of the
    file. *)
Fixpoint preorder (n : HytaleNode) : list HytaleNode :=
  n :: flat_map preorder (children n).

(** The nodes a bone contributes: itself, its cubes and its attachments. *)
Definition nodeCount (b : ModelBone) : nat :=
  S (length (cubes b) + length (default [] (attachments b))).

Definition nodeTotal (bs : list ModelBone) : nat :=
  foldr (fun b acc => (nodeCount b + acc)%nat) 0%nat bs.

(** ** Sidebar: the node statistics

    [stats] of the sidebar: the cubes and bones of the model, their sum,
    and whether it exceeds the 255 nodes a Hytale model may have. *)
Record Stats := {
  stat_cubes : nat;
  stat_bones : nat;
  totalNodes : nat;
  complexity : string;
  isOverLimit : bool
}.

Definition stats (model : MinecraftModel) : Stats :=
  let bs := default [] (bones <$> bedrockData model) in
  let cubes := foldl (fun acc b => (acc + length (cubes b))%nat) 0%nat bs in
  let bones := length bs in
  let totalNodes := (bones + cubes)%nat in
  let isOverLimit := bool_decide (255 < totalNodes)%nat in
  let complexity := "Low" in
  let complexity := if bool_decide (100 < totalNodes)%nat then "Medium" else complexity in
  let complexity := if bool_decide (200 < totalNodes)%nat then "High" else complexity in
  let complexity := if isOverLimit then "Over Limit!" else complexity in
  {| stat_cubes := cubes; stat_bones := bones; totalNodes := totalNodes;
     complexity := complexity; isOverLimit := isOverLimit |}.

(** The attachments of all bones of a model. *)
Definition attachmentTotal (model : MinecraftModel) : nat :=
  foldr (fun b acc => (length (default [] (attachments b)) + acc)%nat) 0%nat
        (default [] (bones <$> bedrockData model)).

(** ** Animations ([types.ts])

    A channel is an object of keyframes keyed by their time.  Its readers
    take the entries in the order of [Object.keys] and read every key with
    [parseFloat]; a channel is the list of these entries, with the times
    as read.  A keyframe is a vector or an object with the vector as
    [post], which the readers defend against missing.  The functions that
    read an animation of a model are handed it next to the model. *)

Inductive KeyframeValue :=
  | KeyArray (v : vec3)
  | KeyPost (post : option vec3) (lerp_mode : option string).

Definition AnimationChannel : Type := list (number * KeyframeValue).

Record AnimationBoneData := {
  anim_rotation : option AnimationChannel;
  anim_position : option AnimationChannel;
  anim_scale : option AnimationChannel
}.

Record AnimationDefinition := {
  anim_loop : option bool;
  animation_length : option number;
  anim_bones : option (gmap string AnimationBoneData)
}.

(** ** Viewer: interpolation between keyframes *)

Definition lerp (a b t : number) : number := (a + (b - a) * t)%Qc.

(** [keyframes.sort((a, b) => a.time - b.time)]: the stable sort by
    ascending time. *)
Fixpoint insertKeyframe (k : number * KeyframeValue)
  (l : list (number * KeyframeValue)) : list (number * KeyframeValue) :=
  match l with
  | [] => [k]
  | y :: l' =>
    if decide (y.1 < k.1)%Qc then y :: insertKeyframe k l' else k :: y :: l'
  end.

Definition sortKeyframes (l : list (number * KeyframeValue)) :
  list (number * KeyframeValue) :=
  foldr insertKeyframe [] l.

(** The [for] loop that looks for the keyframes around [time]: [prev] is
    moved along while the keyframes are not later than [time], the first
    later one becomes [next] and ends the loop. *)
Fixpoint findAround (time : number) (keyframes : list (number * KeyframeValue))
  (prev next : number * KeyframeValue) :
  (number * KeyframeValue) * (number * KeyframeValue) :=
  match keyframes with
  | [] => (prev, next)
  | k :: rest =>
    if decide (k.1 ≤ time)%Qc then findAround time rest k next else (prev, k)
  end.

(** [Array.isArray(val) ? val : (val.post || [0,0,0])] *)
Definition keyVector (val : KeyframeValue) : vec3 :=
  match val with
  | KeyArray v => v
  | KeyPost post _ => default zero3 post
  end.

(** [getInterpolatedValue].  The exit [if (!prevVal || !nextVal)] is for
    entries without a value, which a channel of the declared type does not
    have. *)
Definition getInterpolatedValue (channel : AnimationChannel) (time : number) :
  vec3 :=
  let keyframes := sortKeyframes channel in
  match keyframes with
  | [] => zero3
  | first :: _ =>
    let '(prev, next) :=
      findAround time keyframes first (List.last keyframes first) in
    let pV := keyVector prev.2 in
    let nV := keyVector next.2 in
    if decide (prev.1 = next.1) then pV
    else
      let factor := ((time - prev.1) / (next.1 - prev.1))%Qc in
      (lerp pV.1.1 nV.1.1 factor, lerp pV.1.2 nV.1.2 factor,
       lerp pV.2 nV.2 factor)
  end.
(** Ascending order of keyframes. *)
Definition notLater (a b : number * KeyframeValue) : Prop := (a.1 ≤ b.1)%Qc.

(** A channel with keyframes at 1 s, 0 s and 2 s, in the order of its keys. *)
Definition walkChannel : AnimationChannel :=
  [ (num 1, KeyArray (num 0, num 10, num 0));
    (num 0, KeyArray zero3);
    (num 2, KeyPost (Some (num 0, num 30, num 0)) None) ].

(** ** The scene graph of the viewer and of the generic export

    Both build a tree of groups: a group per bone, holding a mesh per cube
    and the groups of the child bones.  A mesh is the box geometry with its
    position, rotation (radians) and colour, and the texture coordinates
    written to the geometry ([mesh_uv], empty for the default ones). *)

Definition SCALE_FACTOR : number := (1 / num 16)%Qc.

Definition vscale (a : vec3) (k : number) : vec3 :=
  (a.1.1 * k, a.1.2 * k, a.2 * k)%Qc.

Record Mesh := {
  mesh_position : vec3;
  mesh_rotation : vec3;
  mesh_size : vec3;
  mesh_color : string;
  mesh_uv : list (nat * (number * number))
}.

Inductive Group := mkGroup {
  group_position : vec3;
  group_rotation : vec3;
  group_meshes : list Mesh;
  group_children : list Group
}.

Definition degToRad3 `{Three} (r : vec3) : vec3 :=
  (degToRad r.1.1, degToRad r.1.2, degToRad r.2).

(** [cube.color || "#ffffff"] *)
Definition colorOr (c : option string) (d : string) : string :=
  match c with Some s => if truthy s then s else d | None => d end.

(** [CustomBoxMesh]: the outer group carries the position, the inner one
    the rotation, the mesh the geometry and the material. *)
Definition CustomBoxMesh `{Three} (cube : ModelCube) (pivot_ : vec3)
    (textureMap : bool) (textureSize : vec2) (isJavaBlock : bool)
    (uvScale : number) : Mesh :=
  let centre := vadd (origin cube) (vhalf (size cube)) in
  let p :=
    if isJavaBlock
    then match pivot cube with Some cp => vsub centre cp | None => centre end
    else vsub centre pivot_ in
  {| mesh_position := vscale p SCALE_FACTOR;
     mesh_rotation :=
       match rotation cube with Some r => degToRad3 r | None => zero3 end;
     mesh_size := vscale (size cube) SCALE_FACTOR;
     mesh_color :=
       if textureMap then "#ffffff" else colorOr (color cube) "#ffffff";
     mesh_uv :=
       flat_map (setFaceUV textureSize.1 textureSize.2)
                (faceUVs textureMap uvScale cube) |}.

(** [animation?.bones?.[bone.name]] and the two channels read from it. *)
Definition animatedPose (animation : option AnimationDefinition)
    (boneName : string) (time : number) : vec3 * vec3 :=
  let animData :=
    bs ← (animation ≫= anim_bones : option (gmap string AnimationBoneData));
    (bs !! boneName : option AnimationBoneData) in
  match animData with
  | Some animData =>
    (match anim_rotation animData with
     | Some ch => getInterpolatedValue ch time | None => zero3 end,
     match anim_position animData with
     | Some ch => getInterpolatedValue ch time | None => zero3 end)
  | None => (zero3, zero3)
  end.

(** [BoneNode].  The component renders itself for the child bones; [fuel]
    bounds the depth of the rendering, [None] stands for a rendering that
    does not end within it. *)
Fixpoint BoneNode `{Three} (fuel : nat) (allBones : list ModelBone)
    (textureMap : bool) (textureSize : vec2)
    (animation : option AnimationDefinition) (time : number)
    (uvScale : number) (parentPivot : vec3) (bone : ModelBone) : option Group :=
  match fuel with
  | O => None
  | S fuel' =>
    let '(animRot, animPos) := animatedPose animation (name bone) time in
    let rel := vsub (bone_pivot bone) parentPivot in
    let baseRot := default zero3 (bone_rotation bone) in
    let finalRot := degToRad3 (vadd baseRot animRot) in
    let finalPos := vscale (vadd rel animPos) SCALE_FACTOR in
    let children :=
      List.filter (fun b => bool_decide (parent b = Some (name bone))) allBones in
    groups ← mapM (BoneNode fuel' allBones textureMap textureSize animation
                            time uvScale (bone_pivot bone)) children;
    Some {| group_position := finalPos;
            group_rotation := finalRot;
            group_meshes :=
              map (fun cube => CustomBoxMesh cube (bone_pivot bone) textureMap
                                 textureSize false uvScale) (cubes bone);
            group_children := groups |}
  end.

(** [rootBones] of [EntityRenderer]:
    [!b.parent || !bones.find(p => p.name === b.parent)]. *)
Definition rootBones (bones : list ModelBone) : list ModelBone :=
  List.filter (fun b =>
    negb (truthyOpt (parent b))
    || negb (bool_decide (is_Some (getBone bones (default "" (parent b))))))
    bones.

(** [EntityRenderer], for the animation and the time of its state: nothing
    is rendered without model data (the outer [None]); the inner [None]
    stands for a rendering that does not end within [fuel]. *)
Definition EntityRenderer `{Three} (fuel : nat) (model : MinecraftModel)
    (textureMap : bool) (animation : option AnimationDefinition)
    (time : number) (uvScale : number) : option (option (list Group)) :=
  match bedrockData model with
  | None => None
  | Some data =>
    let textureSize := default (num 64, num 64) (texture_size data) in
    Some (mapM (BoneNode fuel (bones data) textureMap textureSize animation
                         time uvScale zero3)
               (rootBones (bones data)))
  end.

(** ** Exporter: the scene of the generic export ([createModelScene])

    The bones of the model as groups; block models are not part of the
    model here.  The material colour [cube.color || 0xffffff] is white,
    written as the viewer writes it. *)
Definition sceneMesh `{Three} (bone : ModelBone) (cube : ModelCube) : Mesh :=
  let c := vsub (vadd (origin cube) (vhalf (size cube))) (bone_pivot bone) in
  {| mesh_position := vscale c SCALE_FACTOR;
     mesh_rotation :=
       match rotation cube with Some r => degToRad3 r | None => zero3 end;
     mesh_size := vscale (size cube) SCALE_FACTOR;
     mesh_color := colorOr (color cube) "#ffffff";
     mesh_uv := [] |}.

Fixpoint buildBone `{Three} (fuel : nat) (bones : list ModelBone)
    (parentPivot : vec3) (bone : ModelBone) : option Group :=
  match fuel with
  | O => None
  | S fuel' =>
    let children :=
      List.filter (fun b => bool_decide (parent b = Some (name bone))) bones in
    groups ← mapM (buildBone fuel' bones (bone_pivot bone)) children;
    Some {| group_position := vsub (bone_pivot bone) parentPivot;
            group_rotation :=
              match bone_rotation bone with
              | Some r => degToRad3 r | None => zero3 end;
            group_meshes := map (sceneMesh bone) (cubes bone);
            group_children := groups |}
  end.

Definition createModelScene `{Three} (fuel : nat) (model : MinecraftModel) :
  option (list Group) :=
  match bedrockData model with
  | None => Some []
  | Some data =>
    let roots := List.filter isRoot (bones data) in
    mapM (buildBone fuel (bones data) zero3) roots
  end.

(** The groups of a scene with their positions multiplied by [k]; the
    meshes stay as they are. *)
Fixpoint scaleGroups (k : number) (g : Group) : Group :=
  {| group_position := vscale (group_position g) k;
     group_rotation := group_rotation g;
     group_meshes := group_meshes g;
     group_children := map (scaleGroups k) (group_children g) |}.
(** ** What is placed where

    The outline of a group of a scene, or of a node of the model file: its
    position, the positions and sizes of its boxes, and the outlines of
    the groups, or bone nodes, below it.  The outline of a node is taken
    in the units of the scene, [SCALE_FACTOR] to one unit of the file; the
    attachments of a node, which no scene shows, have no part in it. *)
Inductive Outline := mkOutline {
  placed_at : vec3;
  placed_boxes : list (vec3 * vec3);
  placed_below : list Outline
}.

Fixpoint groupOutline (g : Group) : Outline :=
  {| placed_at := group_position g;
     placed_boxes :=
       map (fun m => (mesh_position m, mesh_size m)) (group_meshes g);
     placed_below := map groupOutline (group_children g) |}.

Definition boxOutline (c : HytaleNode) : vec3 * vec3 :=
  (vscale (position c) SCALE_FACTOR,
   vscale (default one3 (settings_size (settings (shape c)))) SCALE_FACTOR).

Fixpoint nodeOutline (n : HytaleNode) : Outline :=
  {| placed_at := vscale (position n) SCALE_FACTOR;
     placed_boxes :=
       flat_map (fun c => if isGeometry c then [boxOutline c] else [])
                (children n);
     placed_below :=
       flat_map (fun c => if isGeometry c || isAttachment c then []
                          else [nodeOutline c])
                (children n) |}.

(** The names of the nodes of a file that stand for bones: the nodes that
    are neither boxes nor attachments, in the order of the file. *)
Definition isBoneNode (n : HytaleNode) : bool :=
  negb (isGeometry n) && negb (isAttachment n).

Definition boneNodeNames (nodes : list HytaleNode) : list string :=
  map node_name (List.filter isBoneNode (flat_map preorder nodes)).

(** ** App: deleting a bone

    [handleDeleteBone]: [newBones.splice(index, 1)] on a copy of the bones
    of an entity model; any other model is returned as it is. *)
Definition handleDeleteBone (index : nat) (prevModel : MinecraftModel) :
  MinecraftModel :=
  match type prevModel, bedrockData prevModel with
  | ENTITY, Some data =>
    set_bedrockData prevModel
      (Some (set_bones data (delete index (bones data))))
  | _, _ => prevModel
  end.
(** [x] is the bone [b] or lies below it: following the parent references
    from [x] leads to [b]. *)
Definition atOrBelow (bones : list ModelBone) (b x : ModelBone) : Prop :=
  ∃ k, ancestor bones k x = Some b.
(** The bone "pelvis" of [chainBones], the parent of "head". *)
Definition pelvisBone : ModelBone :=
  {| name := "pelvis"; parent := Some "root";
     bone_pivot := (num 0, num 12, num 0);
     bone_rotation := Some (num 30, num 0, num 0);
     cubes := [plainCube (-4, 12, -2) (8, 12, 4)]; attachments := None |}.

(** ** Exporter: the animation files

    The [.blockyanim] object [exportHytaleModel] writes for one animation
    of the model.  Times are converted from seconds to ticks of 1/20 s. *)

Record PositionFrame := {
  pf_time : Z;
  pf_delta : vec3;
  pf_interpolationType : string
}.

Record OrientationFrame := {
  of_time : Z;
  of_delta : Quaternion;
  of_interpolationType : string
}.

Record NodeAnimation := {
  track_position : list PositionFrame;
  track_orientation : list OrientationFrame;
  shapeStretch : list PositionFrame;
  shapeVisible : list PositionFrame;
  shapeUvOffset : list PositionFrame
}.

Record HytaleAnimation := {
  duration : Z;
  holdLastKeyframe : bool;
  nodeAnimations : gmap string NodeAnimation;
  formatVersion : Z
}.

(** [Math.ceil(time * 20)] *)
Definition toTicks (time : number) : Z := Math_ceil (time * num 20)%Qc.

(** [x || d] for a number that may be missing. *)
Definition numberOr (x : option number) (d : number) : number :=
  match x with
  | Some v => if decide (v = num 0) then d else v
  | None => d
  end.

Definition positionFrame (entry : number * KeyframeValue) : PositionFrame :=
  let v := keyVector entry.2 in
  {| pf_time := toTicks entry.1; pf_delta := v;
     pf_interpolationType := "smooth" |}.

Definition orientationFrame `{Three} (entry : number * KeyframeValue) :
  OrientationFrame :=
  let v := keyVector entry.2 in
  {| of_time := toTicks entry.1;
     of_delta := eulerToQuaternion v.1.1 v.1.2 v.2;
     of_interpolationType := "smooth" |}.

Definition nodeAnimation `{Three} (boneData : AnimationBoneData) : NodeAnimation :=
  {| track_position :=
       match anim_position boneData with
       | Some ch => map positionFrame ch | None => [] end;
     track_orientation :=
       match anim_rotation boneData with
       | Some ch => map orientationFrame ch | None => [] end;
     shapeStretch := []; shapeVisible := []; shapeUvOffset := [] |}.

Definition exportAnimation `{Three} (animDef : AnimationDefinition) :
  HytaleAnimation :=
  {| duration := toTicks (numberOr (animation_length animDef) (num 1));
     holdLastKeyframe := default false (anim_loop animDef);
     nodeAnimations :=
       match anim_bones animDef with
       | Some bs => nodeAnimation <$> bs | None => ∅ end;
     formatVersion := 1 |}.

(** An animation of one second that moves and turns the bone "pelvis". *)
Definition swayAnimation : AnimationDefinition :=
  {| anim_loop := Some true;
     animation_length := Some (num 2);
     anim_bones :=
       Some {[ "pelvis" :=
               {| anim_rotation := Some walkChannel;
                  anim_position := Some walkChannel;
                  anim_scale := None |} ]} |}.
(** ** geminiService.ts: animations as lists

    The language model is sent the animations of the current model, and
    answers with animations, as lists of entries in place of objects keyed
    by name: [animationsMapToList] makes the lists, [parseResponseAnimations]
    makes the objects again.  Both copy the keys of a channel, the
    timestamps, as strings, so a channel is here the object itself, a map
    from timestamp strings to keyframes. *)
Module Gemini.

Record BoneData := {
  rotation : option (gmap string KeyframeValue);
  position : option (gmap string KeyframeValue);
  scale : option (gmap string KeyframeValue)
}.

Record Animation := {
  loop : option bool;
  animation_length : option number;
  bones : option (gmap string BoneData)
}.

Record Keyframe := { time : string; value : KeyframeValue }.

Record BoneEntry := {
  bone_name : string;
  rotationList : option (list Keyframe);
  positionList : option (list Keyframe)
}.

Record AnimationEntry := {
  name : string;
  entry_loop : option bool;
  entry_length : option number;
  bonesList : list BoneEntry
}.

(** The object [{ list: ... }]. *)
Record AnimationsList := { list_ : option (list AnimationEntry) }.

(** [Object.entries(channel).map(([t, v]) => ({ time: t, value: v }))] *)
Definition keyframeList (channel : gmap string KeyframeValue) : list Keyframe :=
  (fun e => {| time := e.1; value := e.2 |}) <$> map_to_list channel.

Definition boneEntry (e : string * BoneData) : BoneEntry :=
  {| bone_name := e.1;
     rotationList := keyframeList <$> rotation e.2;
     positionList := keyframeList <$> position e.2 |}.

Definition animationEntry (e : string * Animation) : AnimationEntry :=
  {| name := e.1;
     entry_loop := loop e.2;
     entry_length := animation_length e.2;
     bonesList :=
       match bones e.2 with
       | Some bs => boneEntry <$> map_to_list bs
       | None => []
       end |}.

Definition animationsMapToList (animations : option (gmap string Animation)) :
  option AnimationsList :=
  match animations with
  | None => None
  | Some animations =>
    Some {| list_ := Some (animationEntry <$> map_to_list animations) |}
  end.

(** The map filled from a list of keyframes, or nothing if it stays
    empty: [Object.keys(map).length ? map : undefined]. *)
Definition channelMap (keyframes : option (list Keyframe)) :
  option (gmap string KeyframeValue) :=
  let m := foldl (fun acc k => <[time k := value k]> acc) ∅
                 (default [] keyframes) in
  match map_to_list m with
  | [] => None
  | _ => Some m
  end.

Definition parsedBone (b : BoneEntry) : BoneData :=
  {| rotation := channelMap (rotationList b);
     position := channelMap (positionList b);
     scale := None |}.

Definition parsedAnimation (anim : AnimationEntry) : Animation :=
  {| loop := entry_loop anim;
     animation_length := entry_length anim;
     bones :=
       Some (foldl (fun bones b => <[bone_name b := parsedBone b]> bones) ∅
                   (bonesList anim)) |}.

Definition parseResponseAnimations (animationsList : option AnimationsList) :
  option (gmap string Animation) :=
  match animationsList with
  | Some {| list_ := Some l |} =>
    Some (foldl (fun animations anim =>
                   <[name anim := parsedAnimation anim]> animations) ∅ l)
  | _ => None
  end.

(** What is left of an animation after the way to the list and back:
    channels without keyframes and scale channels are gone, an animation
    without bones has an empty object of bones. *)
Definition nonEmpty (channel : option (gmap string KeyframeValue)) :
  option (gmap string KeyframeValue) :=
  match channel with
  | Some m => match map_to_list m with [] => None | _ => Some m end
  | None => None
  end.

Definition listedBone (d : BoneData) : BoneData :=
  {| rotation := nonEmpty (rotation d);
     position := nonEmpty (position d);
     scale := None |}.

Definition listed (a : Animation) : Animation :=
  {| loop := loop a;
     animation_length := animation_length a;
     bones := Some (listedBone <$> default ∅ (bones a)) |}.

End Gemini.
(** ** geminiService.ts: closing a truncated answer

    [cleanAndParseJSON], when the answer of the language model does not
    parse: the closing brackets the text lacks are appended, and the
    result is parsed in its place.  [JSON.parse] is not modelled;
    [repairText] is the text handed to it at the second attempt, for the
    text [cleanText] of the first.  A text is the list of its characters. *)

(** One step of the loop over the characters, on the stack of the closing
    brackets still owed, the top first. *)
Definition scanChar (stack : list Ascii.ascii) (char : Ascii.ascii) : list Ascii.ascii :=
  if Ascii.eqb char "{" then "}"%char :: stack
  else if Ascii.eqb char "[" then "]"%char :: stack
  else if Ascii.eqb char "}" || Ascii.eqb char "]" then
    match stack with
    | top :: rest => if Ascii.eqb top char then rest else stack
    | [] => stack
    end
  else stack.

Definition scanText (cleanText : list Ascii.ascii) : list Ascii.ascii :=
  foldl scanChar [] cleanText.

(** [while (stack.length > 0) cleanText += stack.pop()] *)
Definition repairText (cleanText : list Ascii.ascii) : list Ascii.ascii :=
  cleanText ++ scanText cleanText.

Definition isBracket (c : Ascii.ascii) : bool :=
  Ascii.eqb c "{" || Ascii.eqb c "[" || Ascii.eqb c "}" || Ascii.eqb c "]".

Definition isCloser (c : Ascii.ascii) : Prop := c = "}"%char ∨ c = "]"%char.

(** Texts whose brackets and braces are closed, each by its own kind and
    in the right order. *)
Inductive Balanced : list Ascii.ascii → Prop :=
  | Balanced_nil : Balanced []
  | Balanced_char c t :
      isBracket c = false → Balanced t → Balanced (c :: t)
  | Balanced_braces t u :
      Balanced t → Balanced u →
      Balanced ("{"%char :: t ++ "}"%char :: u)
  | Balanced_brackets t u :
      Balanced t → Balanced u →
      Balanced ("["%char :: t ++ "]"%char :: u).

(** An answer cut off inside an array inside an object. *)
Definition truncatedAnswer : list Ascii.ascii :=
  ["{"; "a"; ":"; "["; "1"; ","; "2"]%char.

(** ** Bones in the order of their making

    Every parent reference of a bone names a bone that stands earlier in
    the list. *)
Definition parentsPrecede (bs : list ModelBone) : Prop :=
  ∀ i b p, bs !! i = Some b → parent b = Some p → truthy p = true →
    ∃ j b', (j < i)%nat ∧ bs !! j = Some b' ∧ name b' = p.

(** The name handed to [traverse] as the parent's, if it counts as one, is
    the name of a bone made already. *)
Definition knownParent (parentName : option string) (bs : list ModelBone) : Prop :=
  ∀ p, parentName = Some p → truthy p = true → p ∈ map name bs.

(** A corner of a face in normalised texture coordinates lies on the
    texture. *)
Definition onTexture (corner : nat * (number * number)) : Prop :=
  (0 ≤ corner.2.1 ∧ corner.2.1 ≤ 1 ∧ 0 ≤ corner.2.2 ∧ corner.2.2 ≤ 1)%Qc.

(** ** textureMapper.ts: the atlas rescaler in double precision

    JavaScript numbers are IEEE 754 binary64 values, and [scaleModelUVs]
    divides and multiplies them.  [scaleModelUVs] above is the function in
    exact arithmetic; here the quotient [newWidth / oldW] and the products
    [cube.uv[0] * scaleX] are rounded as the machine rounds them. *)

Module Double.

(** The double of an integer (below 2^63 in magnitude) and of a number of
    the model.  A model that was read from JSON holds doubles, and on a
    double with a numerator below 2^53 the conversion is exact. *)
Definition ofZ (z : Z) : float :=
  if z <? 0 then PrimFloat.opp (PrimFloat.of_uint63 (Uint63.of_Z (- z)))
  else PrimFloat.of_uint63 (Uint63.of_Z z).

Definition ofNumber (x : number) : float :=
  PrimFloat.div (ofZ (Qnum (this x))) (ofZ (Zpos (Qden (this x)))).

(** The exact value of a finite double. *)
Definition value (x : float) : option Q :=
  match Prim2SF x with
  | S754_zero _ => Some 0%Q
  | S754_finite s m e =>
    Some (inject_Z (if s then Z.neg m else Z.pos m) * 2 ^ e)%Q
  | _ => None
  end.

(** [Math.round]: the nearest integer, a tie going up.  On [NaN] and on
    the infinities it returns its argument, which no number of the model
    stands for: [None]. *)
Definition Math_round (x : float) : option Z :=
  q ← value x; Some (Qfloor (q + (1 # 2))).

(** [[Math.round(cube.uv[0] * scaleX), Math.round(cube.uv[1] * scaleY)]] *)
Definition scaleCubeUV (scaleX scaleY : float) (cube : ModelCube) :
  option ModelCube :=
  match uv cube with
  | Some (u, v) =>
    u' ← Math_round (PrimFloat.mul (ofNumber u) scaleX);
    v' ← Math_round (PrimFloat.mul (ofNumber v) scaleY);
    Some (set_uv cube (Some (num u', num v')))
  | None => Some cube
  end.

(** [scaleModelUVs], line by line as the exact one above;
    [scaleX = newWidth / oldW] is one rounded division.  [None] stands
    for a result with a coordinate that is not finite, which a recorded
    size of 0 produces. *)
Definition scaleModelUVs (model : MinecraftModel) (newWidth newHeight : number) :
  option MinecraftModel :=
  match bedrockData model with
  | None => Some model
  | Some data =>
    let '(oldW, oldH) :=
      default (num MIN_TEXTURE_SIZE, num MIN_TEXTURE_SIZE) (texture_size data) in
    if bool_decide (oldW = newWidth) && bool_decide (oldH = newHeight)
    then Some model
    else
      let scaleX := PrimFloat.div (ofNumber newWidth) (ofNumber oldW) in
      let scaleY := PrimFloat.div (ofNumber newHeight) (ofNumber oldH) in
      let newData := set_texture_size data (Some (newWidth, newHeight)) in
      newBones ← mapM (fun bone =>
                         newCubes ← mapM (scaleCubeUV scaleX scaleY) (cubes bone);
                         Some (set_cubes bone newCubes))
                      (bones newData);
      Some (set_bedrockData model (Some (set_bones newData newBones)))
  end.

End Double.

(** A model that records an 80x80 atlas, with one cube at UV (45, 45):
    what an upload of an 80x80 texture can leave behind. *)
Definition uploadedModel : MinecraftModel :=
  set_bedrockData (entityModel [])
    (Some (set_texture_size
             (plainData [plainBone "body" None (0, 0, 0)
                           [set_uv bodyCube (Some (num 45, num 45))]])
             (Some (num 80, num 80)))).


(* ================================================================== *)
(** * Properties *)
(* ================================================================== *)

(** ** Numbers *)

Lemma this_num (z : Z) : this (num z) = inject_Z z.
Proof. reflexivity. Qed.

Lemma num_inj (a b : Z) : num a = num b → a = b.
Proof. intros H. apply (f_equal this) in H. by injection H. Qed.

Lemma num_1 : num 1 = 1%Qc.
Proof. apply Z2Qc_inj_1. Qed.

(** [Math_ceil x] is the least integer not below [x]. *)
Lemma Math_ceil_spec (x : number) :
  (num (Math_ceil x - 1) < x ∧ x ≤ num (Math_ceil x))%Qc.
Proof.
  split.
  - unfold Qclt. rewrite this_num. apply Qceiling_lt.
  - unfold Qcle. rewrite this_num. apply Qle_ceiling.
Qed.

(** [Math_round x] is the integer [n] with [n - 1/2 <= x < n + 1/2]. *)
Lemma Math_round_spec (x : number) :
  (inject_Z (Math_round x) - (1 # 2) <= this x < inject_Z (Math_round x) + (1 # 2))%Q.
Proof.
  unfold Math_round.
  pose proof (Qfloor_le (this x + (1 # 2))) as Hle.
  pose proof (Qlt_floor (this x + (1 # 2))) as Hlt.
  rewrite inject_Z_plus in Hlt. change (inject_Z 1) with 1%Q in Hlt.
  set (f := inject_Z (Qfloor (this x + (1 # 2)))) in *.
  split; lra.
Qed.

(** ** Box-UV geometry *)

(** C2: the footprint of a cube of size [(w, h, d)] at density scale
    [s ∈ {1, 2, 4}] has width [2 * (ceil (w*s) + ceil (d*s))] and height
    [ceil (d*s) + ceil (h*s)], where [ceil] is the least integer not below
    its argument. *)
Theorem getBoxUVSize_footprint (cube : ModelCube) (density : Density) :
  let s := densityScale density in
  let '(w, h, d) := size cube in
  (s = 1 ∨ s = 2 ∨ s = 4) ∧
  bw (getBoxUVSize cube s)
    = 2 * (Math_ceil (w * num s)%Qc + Math_ceil (d * num s)%Qc) ∧
  bh (getBoxUVSize cube s)
    = Math_ceil (d * num s)%Qc + Math_ceil (h * num s)%Qc ∧
  (∀ x : number, (num (Math_ceil x - 1) < x ∧ x ≤ num (Math_ceil x))%Qc).
Proof.
  unfold getBoxUVSize. destruct (size cube) as [[w h] d]. simpl.
  split; [destruct density; simpl; auto|].
  repeat split; apply Math_ceil_spec.
Qed.

(** Closes an equation between two closed rationals. *)
Ltac qc_eq := apply Qc_is_canon; vm_compute; reflexivity.
Ltac qc_list_eq := repeat (f_equal; try qc_eq).

(** The renderer places the six faces as the box-UV convention says. *)
Lemma drawCube_faces (scale : Z) (cube : ModelCube) (u v : number) :
  uv cube = Some (u, v) →
  let '(w, h, d) := size cube in
  let rw := Math_ceil (w * num scale)%Qc in
  let rh := Math_ceil (h * num scale)%Qc in
  let rd := Math_ceil (d * num scale)%Qc in
  map (fun r => (rlabel r, rectPos r, rectExtent r)) (drawCube scale cube) =
  [ ("T", (u + num rd, v), (rw, rd));
    ("B", (u + num rd + num rw, v), (rw, rd));
    ("R", (u, v + num rd), (rd, rh));
    ("F", (u + num rd, v + num rd), (rw, rh));
    ("L", (u + num rd + num rw, v + num rd), (rd, rh));
    ("Bk", (u + num rd + num rw + num rd, v + num rd), (rw, rh)) ]%Qc.
Proof.
  intros Huv. unfold drawCube. rewrite Huv.
  destruct (size cube) as [[w h] d]. reflexivity.
Qed.

(** At density 16x (scale 1) the exported offsets are the positions the
    renderer draws at. *)
Lemma getTextureLayout_agrees_16x (cube : ModelCube) (u v tw th : number) :
  uv cube = Some (u, v) →
  layoutOffsets (getTextureLayout cube tw th)
  = map rectPos (drawCube (densityScale D16x) cube).
Proof.
  intros Huv. unfold getTextureLayout, drawCube. rewrite Huv.
  destruct (size cube) as [[w h] d]. simpl.
  rewrite num_1, !Qcmult_1_r. reflexivity.
Qed.

(** C3 (divergence): for the cube of size 8x8x8 packed at UV origin (0,0)
    with density 32x, the renderer draws the faces top, bottom, right,
    front, left, back at (16,0), (32,0), (0,16), (16,16), (32,16), (48,16),
    as the layout rule says for [rw = rh = rd = 16], while the exporter
    writes the offsets (8,0), (16,0), (0,8), (8,8), (16,8), (24,8): it never
    applies the density scale. *)
Theorem textureLayout_mismatch_32x :
  map rectPos (drawCube (densityScale D32x) cube8)
  = [(num 16, num 0); (num 32, num 0); (num 0, num 16);
     (num 16, num 16); (num 32, num 16); (num 48, num 16)] ∧
  layoutOffsets (getTextureLayout cube8 (num 64) (num 64))
  = [(num 8, num 0); (num 16, num 0); (num 0, num 8);
     (num 8, num 8); (num 16, num 8); (num 24, num 8)] ∧
  layoutOffsets (getTextureLayout cube8 (num 64) (num 64))
  ≠ map rectPos (drawCube (densityScale D32x) cube8).
Proof.
  assert (H1 : map rectPos (drawCube (densityScale D32x) cube8)
    = [(num 16, num 0); (num 32, num 0); (num 0, num 16);
       (num 16, num 16); (num 32, num 16); (num 48, num 16)])
    by (unfold drawCube, cube8, rectPos, drawRect, densityScale;
        cbn [map uv size rx ry]; qc_list_eq).
  assert (H2 : layoutOffsets (getTextureLayout cube8 (num 64) (num 64))
    = [(num 8, num 0); (num 16, num 0); (num 0, num 8);
       (num 8, num 8); (num 16, num 8); (num 24, num 8)])
    by (cbv beta iota zeta delta
          [getTextureLayout layoutOffsets face cube8 uv size default
           from_option id offset top bottom left right front back];
        qc_list_eq).
  split; [exact H1|]. split; [exact H2|].
  rewrite H1, H2. intros H.
  apply (f_equal (fun l => Math_ceil (hd (num 0, num 0) l).1)) in H.
  vm_compute in H. discriminate.
Qed.

(** ** The shelf loop *)

Section Shelf.
Variable textureW : Z.

Lemma shelfStep_rowHeight st item :
  0 ≤ rowHeight st → 0 ≤ rowHeight (shelfStep textureW st item).1.
Proof. unfold shelfStep. simpl. destruct (_ <? _); simpl; lia. Qed.

Lemma shelfStep_disjoint st item a :
  0 ≤ rowHeight st → placedBefore st a →
  paddedDisjoint a (item, (shelfStep textureW st item).2).
Proof.
  unfold placedBefore, paddedDisjoint, shelfStep, PADDING. simpl.
  intros Hr Ha. destruct (_ <? _); simpl; lia.
Qed.

Lemma shelfStep_keeps st item a :
  0 ≤ rowHeight st → -PADDING ≤ item_w item → placedBefore st a →
  placedBefore (shelfStep textureW st item).1 a.
Proof.
  unfold placedBefore, shelfStep, PADDING. simpl.
  intros Hr Hw Ha. destruct (_ <? _); simpl; lia.
Qed.

Lemma shelfStep_placed st item :
  placedBefore (shelfStep textureW st item).1
               (item, (shelfStep textureW st item).2).
Proof.
  unfold placedBefore, shelfStep, PADDING. simpl.
  destruct (_ <? _); simpl; lia.
Qed.

(** Whatever was placed before the loop resumes stays disjoint from what
    the loop places, and the loop's own placements are pairwise
    disjoint. *)
Lemma placeAll_disjoint items : ∀ st,
  0 ≤ rowHeight st →
  Forall (fun item => -PADDING ≤ item_w item) items →
  (∀ a b, placedBefore st a → b ∈ placeAll textureW st items →
          paddedDisjoint a b) ∧
  (∀ i j a b, (i < j)%nat →
     placeAll textureW st items !! i = Some a →
     placeAll textureW st items !! j = Some b →
     paddedDisjoint a b).
Proof.
  induction items as [|item rest IH]; intros st Hr Hw.
  - split; [intros a b _ Hb; simpl in Hb; inversion Hb|].
    intros i j a b _ Hi. simpl in Hi. done.
  - inversion_clear Hw as [|? ? Hw1 Hw2].
    destruct (IH (shelfStep textureW st item).1) as [IH1 IH2];
      [by apply shelfStep_rowHeight|done|].
    split.
    + intros a b Ha Hb. simpl in Hb. apply elem_of_cons in Hb as [->|Hb].
      * by apply shelfStep_disjoint.
      * apply IH1; [|done]. by apply shelfStep_keeps.
    + intros i j a b Hij Hi Hj. destruct j as [|j]; [lia|].
      simpl in Hj. destruct i as [|i].
      * simpl in Hi. injection Hi as <-.
        apply IH1; [apply shelfStep_placed|].
        by eapply list_elem_of_lookup_2.
      * simpl in Hi. apply (IH2 i j); [lia|done..].
Qed.

Lemma paddedDisjoint_sym a b : paddedDisjoint a b → paddedDisjoint b a.
Proof. unfold paddedDisjoint. lia. Qed.

Lemma placeAll_items st items :
  map fst (placeAll textureW st items) = items.
Proof.
  revert st. induction items as [|item rest IH]; intros st; simpl;
    [done|by rewrite IH].
Qed.
End Shelf.

(** ** Sorting and collecting the items *)

Ltac to_fmap :=
  repeat match goal with
  | |- context [map ?f ?l] => change (map f l) with (f <$> l)
  end.

Lemma insertItem_perm {A} (h : A → Z) x l : insertItem h x l ≡ₚ x :: l.
Proof.
  induction l as [|y l IH]; simpl; [done|].
  destruct (_ <? _); [|done].
  rewrite IH. apply Permutation_swap.
Qed.

Lemma sortItems_perm {A} (h : A → Z) l : sortItems h l ≡ₚ l.
Proof.
  unfold sortItems. induction l as [|x l IH]; simpl; [done|].
  by rewrite insertItem_perm, IH.
Qed.

Lemma collectItems_from s bs : collectItems s bs = collectFrom s 0 bs.
Proof.
  unfold collectItems.
  assert (H : ∀ k,
    concat (imap (fun bIdx bone =>
      imap (fun cIdx cube =>
        let size := getBoxUVSize cube s in
        {| item_id := ((k + bIdx)%nat, cIdx); item_w := bw size; item_h := bh size |})
        (cubes bone)) bs) = collectFrom s k bs).
  { induction bs as [|bone rest IH]; intros k; [done|].
    rewrite imap_cons. simpl. rewrite Nat.add_0_r. f_equal.
    rewrite <- IH. f_equal. apply imap_ext. intros i x _. simpl.
    by rewrite Nat.add_succ_r. }
  apply (H 0%nat).
Qed.

Lemma collectFrom_elem s bs : ∀ k it,
  it ∈ collectFrom s k bs ↔
  ∃ b c bone cube, bs !! b = Some bone ∧ cubes bone !! c = Some cube ∧
                   it = itemOf s ((k + b)%nat, c) cube.
Proof.
  induction bs as [|bone rest IH]; intros k it; simpl.
  - split; [intros H; inversion H|intros (b & c & ? & ? & H & _); done].
  - rewrite elem_of_app, elem_of_lookup_imap, IH. split.
    + intros [(c & cube & -> & Hc)|(b & c & bone' & cube & Hb & Hc & ->)].
      * exists 0%nat, c, bone, cube. by rewrite Nat.add_0_r.
      * exists (S b), c, bone', cube. by rewrite Nat.add_succ_r.
    + intros (b & c & bone' & cube & Hb & Hc & ->). destruct b as [|b].
      * left. injection Hb as <-. exists c, cube. by rewrite Nat.add_0_r.
      * right. exists b, c, bone', cube. by rewrite Nat.add_succ_r.
Qed.

Lemma collectFrom_ids_NoDup s bs : ∀ k, NoDup (map item_id (collectFrom s k bs)).
Proof.
  induction bs as [|bone rest IH]; intros k; simpl; [constructor|].
  rewrite map_app. apply list.NoDup_app. split; [|split; [|apply IH]].
  - apply NoDup_alt. intros i j x Hi Hj. to_fmap.
    rewrite list_lookup_fmap, list_lookup_imap in Hi, Hj.
    destruct (cubes bone !! i); [|done]. destruct (cubes bone !! j); [|done].
    simpl in Hi, Hj. congruence.
  - to_fmap. intros x Hx Hx'.
    apply list_elem_of_fmap in Hx as (it & -> & Hit).
    apply list_elem_of_fmap in Hx' as (it' & Heq & Hit').
    apply elem_of_lookup_imap in Hit as (c & cube & -> & _).
    apply collectFrom_elem in Hit' as (b & c' & ? & ? & _ & _ & ->).
    simpl in Heq. injection Heq. lia.
Qed.

(** Every cube of the model yields exactly one item, at its own path. *)
Lemma collectItems_elem s bs it :
  it ∈ collectItems s bs ↔
  ∃ cube, cubeAt bs (item_id it) = Some cube ∧ it = itemOf s (item_id it) cube.
Proof.
  rewrite collectItems_from, collectFrom_elem. unfold cubeAt. split.
  - intros (b & c & bone & cube & Hb & Hc & ->). exists cube. simpl.
    by rewrite Hb.
  - intros (cube & H & Hit). destruct (item_id it) as [b c] eqn:Hid.
    simpl in H. destruct (bs !! b) as [bone|] eqn:Hb; [|done]. simpl in H.
    by exists b, c, bone, cube.
Qed.

Lemma collectItems_ids_NoDup s bs : NoDup (map item_id (collectItems s bs)).
Proof. rewrite collectItems_from. apply collectFrom_ids_NoDup. Qed.

(** ** Writing UV origins into the bone list *)

Lemma set_uv_same c : set_uv c (uv c) = c.
Proof. by destruct c. Qed.

Lemma alter_same {A} (f : A → A) (l : list A) i x :
  l !! i = Some x → f x = x → alter f i l = l.
Proof.
  intros Hi Hf. apply list_eq. intros j. destruct (decide (i = j)) as [<-|Hne].
  - by rewrite list_lookup_alter_eq, Hi; simpl; rewrite Hf.
  - by rewrite list_lookup_alter_ne.
Qed.

Lemma cubeAt_assignUV_eq bs p u :
  cubeAt (assignUV bs p u) p = (fun c => set_uv c u) <$> cubeAt bs p.
Proof.
  unfold cubeAt, assignUV. rewrite list_lookup_alter_eq.
  destruct (bs !! p.1); simpl; [|done]. apply list_lookup_alter_eq.
Qed.

Lemma cubeAt_assignUV_ne bs p q u :
  p ≠ q → cubeAt (assignUV bs p u) q = cubeAt bs q.
Proof.
  destruct p as [b c], q as [b' c']. unfold cubeAt, assignUV; simpl.
  intros Hne. destruct (decide (b = b')) as [->|Hb].
  - rewrite list_lookup_alter_eq. destruct (bs !! b'); simpl; [|done].
    apply list_lookup_alter_ne. congruence.
  - by rewrite list_lookup_alter_ne.
Qed.

Lemma assignUV_same bs p c : cubeAt bs p = Some c → assignUV bs p (uv c) = bs.
Proof.
  unfold cubeAt, assignUV. destruct (bs !! p.1) as [bone|] eqn:Hb; [|done].
  simpl. intros Hc. apply (alter_same _ _ _ bone); [done|].
  destruct bone as [n pa pv ro cs at']. unfold set_cubes; simpl in *. f_equal.
  apply (alter_same _ _ _ c); [done|apply set_uv_same].
Qed.

Lemma cubeAt_assignAll_notin asg : ∀ bs p,
  p ∉ map (fun a => item_id a.1) asg → cubeAt (assignAll asg bs) p = cubeAt bs p.
Proof.
  unfold assignAll. induction asg as [|a asg IH]; intros bs p Hp; [done|].
  simpl in *. apply not_elem_of_cons in Hp as [Hne Hp].
  rewrite IH by done. by apply cubeAt_assignUV_ne.
Qed.

Lemma cubeAt_assignAll_in asg : ∀ bs a,
  NoDup (map (fun a => item_id a.1) asg) → a ∈ asg →
  cubeAt (assignAll asg bs) (item_id a.1)
  = (fun c => set_uv c (Some (uvOfZ a.2))) <$> cubeAt bs (item_id a.1).
Proof.
  induction asg as [|a0 asg IH]; intros bs a Hnd Ha; [inversion Ha|].
  simpl in Hnd. apply list.NoDup_cons in Hnd as [Hnotin Hnd].
  change (assignAll (a0 :: asg) bs)
    with (assignAll asg (assignUV bs (item_id a0.1) (Some (uvOfZ a0.2)))).
  apply elem_of_cons in Ha as [->|Ha].
  - rewrite cubeAt_assignAll_notin by done. apply cubeAt_assignUV_eq.
  - rewrite IH by done. rewrite cubeAt_assignUV_ne; [done|].
    intros Heq. apply Hnotin. rewrite Heq.
    revert Ha. to_fmap. apply (list_elem_of_fmap_2 (fun a => item_id a.1)).
Qed.

Lemma shelfLoop_placeAll W items : ∀ st bs,
  shelfLoop W items st bs
  = (finalShelf W st items, assignAll (placeAll W st items) bs).
Proof.
  induction items as [|item rest IH]; intros st bs; [done|].
  transitivity
    (shelfLoop W rest (shelfStep W st item).1
       (assignUV bs (item_id item) (Some (uvOfZ (shelfStep W st item).2))));
    [reflexivity|].
  rewrite IH. reflexivity.
Qed.

Lemma reapplyUVs_same items src : reapplyUVs src items src = src.
Proof.
  unfold reapplyUVs. induction items as [|item rest IH]; [done|].
  simpl. destruct (cubeAt src (item_id item)) as [c|] eqn:Hc; [|done].
  by rewrite (assignUV_same _ _ _ Hc).
Qed.

(** ** What [packUVs] returns *)

Lemma packUVs_run_entity m d data :
  type m = ENTITY → bedrockData m = Some data →
  packUVs_run m d =
  {| input_after :=
       set_bedrockData m
         (Some (set_bones data (assignAll (packPlaced d (bones data)) (bones data))));
     returned :=
       set_bedrockData m
         (Some (set_bones
                  (set_texture_size data
                     (Some (num (packSide d (bones data)),
                            num (packSide d (bones data)))))
                  (assignAll (packPlaced d (bones data)) (bones data)))) |}.
Proof.
  intros Ht Hd. unfold packUVs_run. rewrite Ht, Hd.
  fold (packItems d (bones data)).
  rewrite shelfLoop_placeAll.
  fold (packStart d (bones data)). fold (packPlaced d (bones data)).
  cbv zeta. f_equal. f_equal. f_equal.
  unfold set_bones at 1 3. simpl. rewrite reapplyUVs_same.
  unfold set_texture_size, set_bones; simpl.
  set (W := initialDim _). set (H := textureH _).
  assert (HW : (if W <? H then H else W) = packSide d (bones data)).
  { unfold packSide. fold W. fold (packStart d (bones data)). fold H.
    destruct (Z.ltb_spec W H); lia. }
  rewrite HW.
  assert (HH : (if H <? packSide d (bones data) then packSide d (bones data) else H)
               = packSide d (bones data)).
  { unfold packSide. fold W. fold (packStart d (bones data)). fold H.
    destruct (Z.ltb_spec H (Z.max W H)); lia. }
  by rewrite HH.
Qed.

Lemma packItems_elem d bs it :
  it ∈ packItems d bs ↔
  ∃ cube, cubeAt bs (item_id it) = Some cube ∧
          it = itemOf (densityScale d) (item_id it) cube.
Proof. unfold packItems. rewrite sortItems_perm. apply collectItems_elem. Qed.

Lemma packItems_ids_NoDup d bs : NoDup (map item_id (packItems d bs)).
Proof.
  unfold packItems. to_fmap. rewrite sortItems_perm.
  apply collectItems_ids_NoDup.
Qed.

Lemma packPlaced_items d bs : map fst (packPlaced d bs) = packItems d bs.
Proof. apply placeAll_items. Qed.

Lemma packPlaced_ids_NoDup d bs :
  NoDup (map (fun a => item_id a.1) (packPlaced d bs)).
Proof.
  rewrite <- (map_map fst item_id), packPlaced_items.
  apply packItems_ids_NoDup.
Qed.

(** Every cube of an entity model is placed, and the returned model
    carries the placement in the cube's [uv]. *)
Lemma packUVs_cube m d data p c :
  type m = ENTITY → bedrockData m = Some data →
  cubeAt (bones data) p = Some c →
  ∃ xy, (itemOf (densityScale d) p c, xy) ∈ packPlaced d (bones data) ∧
        assignedUV (packUVs m d) p = Some (Some (uvOfZ xy)) ∧
        assignedUV (input_after (packUVs_run m d)) p = Some (Some (uvOfZ xy)).
Proof.
  intros Ht Hd Hc.
  assert (Hit : itemOf (densityScale d) p c ∈ packItems d (bones data)).
  { apply packItems_elem. by exists c. }
  rewrite <- packPlaced_items in Hit. revert Hit. to_fmap. intros Hit.
  apply list_elem_of_fmap in Hit as ([it xy] & Heq & Hin). simpl in Heq. subst it.
  exists xy. split; [done|].
  pose proof (cubeAt_assignAll_in _ (bones data) _
                (packPlaced_ids_NoDup d (bones data)) Hin) as Hat.
  simpl in Hat. rewrite Hc in Hat. simpl in Hat.
  unfold packUVs. rewrite (packUVs_run_entity m d data Ht Hd).
  unfold assignedUV. simpl. by rewrite Hat.
Qed.

Lemma packUVs_atlas m d data :
  type m = ENTITY → bedrockData m = Some data →
  atlasSize (packUVs m d)
  = Some (Some (num (packSide d (bones data)), num (packSide d (bones data)))).
Proof.
  intros Ht Hd. unfold packUVs. by rewrite (packUVs_run_entity m d data Ht Hd).
Qed.

(** Placements are pairwise disjoint when no footprint has a width below
    [-PADDING]. *)
Lemma packPlaced_disjoint d bs a b :
  Forall (fun item => -PADDING ≤ item_w item) (packItems d bs) →
  a ∈ packPlaced d bs → b ∈ packPlaced d bs → item_id a.1 ≠ item_id b.1 →
  paddedDisjoint a b.
Proof.
  intros Hw Ha Hb Hne.
  apply list_elem_of_lookup in Ha as [i Hi], Hb as [j Hj].
  destruct (placeAll_disjoint (initialDim (totalArea (packItems d bs)))
              (packItems d bs) (packStart d bs)) as [_ Hpair]; [done|done|].
  fold (packPlaced d bs) in Hpair.
  destruct (Nat.lt_total i j) as [Hlt|[->|Hlt]].
  - by apply (Hpair i j).
  - congruence.
  - apply paddedDisjoint_sym. by apply (Hpair j i).
Qed.

Lemma cubeAt_allCubes bs p c : cubeAt bs p = Some c → c ∈ allCubes bs.
Proof.
  unfold cubeAt, allCubes. destruct (bs !! p.1) as [bone|] eqn:Hb; [|done].
  simpl. intros Hc. apply list_elem_of_In, in_concat.
  exists (cubes bone). split.
  - apply in_map. by apply list_elem_of_In, (list_elem_of_lookup_2 _ p.1).
  - by apply list_elem_of_In, (list_elem_of_lookup_2 _ p.2).
Qed.

(** C4: for an entity model of 1 to 500 cubes whose footprints have widths
    and heights in [1,64], any two distinct cubes receive UV origins such
    that their footprints, each extended by the padding, do not overlap:
    one lies entirely to the left of, or entirely above, the other. *)
Theorem packUVs_no_overlap (m : MinecraftModel) (d : Density)
    (data : BedrockModel) (p q : nat * nat) (cp cq : ModelCube) :
  type m = ENTITY → bedrockData m = Some data →
  (1 ≤ length (allCubes (bones data)) ≤ 500)%nat →
  Forall (fun c => 1 ≤ bw (getBoxUVSize c (densityScale d)) ≤ 64 ∧
                   1 ≤ bh (getBoxUVSize c (densityScale d)) ≤ 64)
         (allCubes (bones data)) →
  cubeAt (bones data) p = Some cp → cubeAt (bones data) q = Some cq → p ≠ q →
  ∃ xp yp xq yq,
    assignedUV (packUVs m d) p = Some (Some (num xp, num yp)) ∧
    assignedUV (packUVs m d) q = Some (Some (num xq, num yq)) ∧
    let fp := getBoxUVSize cp (densityScale d) in
    let fq := getBoxUVSize cq (densityScale d) in
    xp + bw fp + PADDING ≤ xq ∨ xq + bw fq + PADDING ≤ xp ∨
    yp + bh fp + PADDING ≤ yq ∨ yq + bh fq + PADDING ≤ yp.
Proof.
  intros Ht Hd _ Hsz Hp Hq Hne.
  destruct (packUVs_cube m d data p cp Ht Hd Hp) as ([xp yp] & Hinp & Hup & _).
  destruct (packUVs_cube m d data q cq Ht Hd Hq) as ([xq yq] & Hinq & Huq & _).
  exists xp, yp, xq, yq. split; [done|]. split; [done|].
  apply (packPlaced_disjoint d (bones data)
           (itemOf (densityScale d) p cp, (xp, yp))
           (itemOf (densityScale d) q cq, (xq, yq))); [|done..].
  apply list.Forall_forall. intros it Hit.
  apply packItems_elem in Hit as (c & Hc & ->).
  apply cubeAt_allCubes in Hc. rewrite list.Forall_forall in Hsz.
  apply Hsz in Hc. unfold PADDING. simpl. lia.
Qed.

Lemma packUVs_no_overlap_witness :
  ∃ xp yp xq yq,
    assignedUV (packUVs (entityModel twoCubeBones) D16x) (0, 0)%nat
      = Some (Some (num xp, num yp)) ∧
    assignedUV (packUVs (entityModel twoCubeBones) D16x) (1, 0)%nat
      = Some (Some (num xq, num yq)) ∧
    let fp := getBoxUVSize bodyCube (densityScale D16x) in
    let fq := getBoxUVSize armCube (densityScale D16x) in
    xp + bw fp + PADDING ≤ xq ∨ xq + bw fq + PADDING ≤ xp ∨
    yp + bh fp + PADDING ≤ yq ∨ yq + bh fq + PADDING ≤ yp.
Proof.
  apply (packUVs_no_overlap (entityModel twoCubeBones) D16x
           (plainData twoCubeBones) (0, 0)%nat (1, 0)%nat bodyCube armCube).
  - reflexivity.
  - reflexivity.
  - simpl. lia.
  - repeat constructor; by vm_compute.
  - reflexivity.
  - reflexivity.
  - discriminate.
Defined.

(** C9 (counterexample): the cube of size (0,4,4) at path (0,1) is not
    rejected: [packUVs] gives it the UV origin (34,0), next to the regular
    cube, and returns an ordinary model. *)
Lemma packUVs_packs_degenerate_cube :
  cubeAt degenerateBones (0, 1)%nat = Some flatCube ∧
  size flatCube = (num 0, num 4, num 4) ∧
  assignedUV (packUVs (entityModel degenerateBones) D16x) (0, 1)%nat
  = Some (Some (num 34, num 0)).
Proof. split; [reflexivity|]. split; [reflexivity|]. by vm_compute. Qed.

(** C9 (amended): [packUVs] does not validate sizes.  Every cube of an
    entity model, whatever the sign of its size components, takes part in
    the packing with the footprint [getBoxUVSize] computes for it and
    receives a UV origin; the function has no error result. *)
Theorem packUVs_assigns_every_cube (m : MinecraftModel) (d : Density)
    (data : BedrockModel) (p : nat * nat) (c : ModelCube) :
  type m = ENTITY → bedrockData m = Some data →
  cubeAt (bones data) p = Some c →
  ∃ x y,
    ({| item_id := p;
        item_w := bw (getBoxUVSize c (densityScale d));
        item_h := bh (getBoxUVSize c (densityScale d)) |}, (x, y))
      ∈ packPlaced d (bones data) ∧
    assignedUV (packUVs m d) p = Some (Some (num x, num y)).
Proof.
  intros Ht Hd Hc.
  destruct (packUVs_cube m d data p c Ht Hd Hc) as ([x y] & Hin & Hu & _).
  by exists x, y.
Qed.

Lemma packUVs_assigns_every_cube_witness :
  ∃ x y,
    ({| item_id := (0, 1)%nat;
        item_w := bw (getBoxUVSize flatCube (densityScale D16x));
        item_h := bh (getBoxUVSize flatCube (densityScale D16x)) |}, (x, y))
      ∈ packPlaced D16x (bones (plainData degenerateBones)) ∧
    assignedUV (packUVs (entityModel degenerateBones) D16x) (0, 1)%nat
    = Some (Some (num x, num y)).
Proof.
  apply (packUVs_assigns_every_cube (entityModel degenerateBones) D16x
           (plainData degenerateBones) (0, 1)%nat flatCube);
    reflexivity.
Defined.

(** C5 (divergence): a cube of size (1,200,1) has the footprint 4x201.  The
    loop doubles the atlas height once, to 128, and places the cube at
    (0,0): the footprint ends at row 201, beyond the recorded 128x128
    atlas.  A cube of size (100,1,1), footprint 202x2, is placed at (0,2) in
    a 64x64 atlas: the width is never grown. *)
Theorem packUVs_overflow :
  (atlasSize (packUVs (entityModel tallBones) D16x)
     = Some (Some (num 128, num 128)) ∧
   assignedUV (packUVs (entityModel tallBones) D16x) (0, 0)%nat
     = Some (Some (num 0, num 0)) ∧
   bh (getBoxUVSize tallCube (densityScale D16x)) = 201 ∧
   128 < 0 + bh (getBoxUVSize tallCube (densityScale D16x))) ∧
  (atlasSize (packUVs (entityModel wideBones) D16x)
     = Some (Some (num 64, num 64)) ∧
   assignedUV (packUVs (entityModel wideBones) D16x) (0, 0)%nat
     = Some (Some (num 0, num 2)) ∧
   bw (getBoxUVSize wideCube (densityScale D16x)) = 202 ∧
   64 < 0 + bw (getBoxUVSize wideCube (densityScale D16x))).
Proof. repeat split; by vm_compute. Qed.

(** ** Determinism: the packing depends on the order and sizes only *)

Lemma getBoxUVSize_size c c' s :
  size c = size c' → getBoxUVSize c s = getBoxUVSize c' s.
Proof. unfold getBoxUVSize. by intros ->. Qed.

Lemma itemOf_size s id c c' : size c = size c' → itemOf s id c = itemOf s id c'.
Proof. unfold itemOf. intros H. by rewrite (getBoxUVSize_size c c' s H). Qed.

Lemma imap_itemOf_sizes s k cs cs' :
  map size cs = map size cs' →
  imap (fun cIdx cube => itemOf s (k, cIdx) cube) cs
  = imap (fun cIdx cube => itemOf s (k, cIdx) cube) cs'.
Proof.
  intros H. apply list_eq. intros i. rewrite !list_lookup_imap.
  apply (f_equal (fun l => l !! i)) in H. revert H. to_fmap.
  rewrite !list_lookup_fmap.
  destruct (cs !! i), (cs' !! i); simpl; intros H; try done.
  injection H as H. f_equal. by apply itemOf_size.
Qed.

Lemma collectFrom_sizes s bs : ∀ bs' k,
  cubeSizes bs = cubeSizes bs' → collectFrom s k bs = collectFrom s k bs'.
Proof.
  induction bs as [|bone rest IH]; intros [|bone' rest'] k H; try done.
  simpl in H. injection H as Hc Hrest. simpl. f_equal.
  - by apply imap_itemOf_sizes.
  - by apply IH.
Qed.

Lemma packItems_sizes d bs bs' :
  cubeSizes bs = cubeSizes bs' → packItems d bs = packItems d bs'.
Proof.
  intros H. unfold packItems. rewrite !collectItems_from.
  by rewrite (collectFrom_sizes _ bs bs' 0%nat H).
Qed.

Lemma packPlaced_sizes d bs bs' :
  cubeSizes bs = cubeSizes bs' → packPlaced d bs = packPlaced d bs'.
Proof.
  intros H. unfold packPlaced, packStart. by rewrite (packItems_sizes d bs bs' H).
Qed.

Lemma packSide_sizes d bs bs' :
  cubeSizes bs = cubeSizes bs' → packSide d bs = packSide d bs'.
Proof.
  intros H. unfold packSide, packStart. by rewrite (packItems_sizes d bs bs' H).
Qed.

Lemma cubeAt_size bs p :
  size <$> cubeAt bs p = (cubeSizes bs !! p.1) ≫= (fun l => l !! p.2).
Proof.
  unfold cubeAt, cubeSizes. to_fmap. rewrite list_lookup_fmap.
  destruct (bs !! p.1) as [bone|]; simpl; [|done].
  to_fmap. by rewrite list_lookup_fmap.
Qed.

Lemma cubeSizes_assignUV bs p u : cubeSizes (assignUV bs p u) = cubeSizes bs.
Proof.
  unfold cubeSizes, assignUV. to_fmap.
  rewrite (list_fmap_alter _ _ id).
  - by apply list_alter_id.
  - apply list.Forall_forall. intros bone _. simpl. to_fmap.
    rewrite (list_fmap_alter _ _ id); [by apply list_alter_id|].
    by apply list.Forall_forall.
Qed.

Lemma cubeSizes_assignAll asg : ∀ bs, cubeSizes (assignAll asg bs) = cubeSizes bs.
Proof.
  unfold assignAll. induction asg as [|a asg IH]; intros bs; [done|].
  simpl. by rewrite IH, cubeSizes_assignUV.
Qed.

Lemma cubeAt_assignAll_None asg : ∀ bs p,
  cubeAt bs p = None → cubeAt (assignAll asg bs) p = None.
Proof.
  unfold assignAll. induction asg as [|a asg IH]; intros bs p H; [done|].
  simpl. apply IH. destruct (decide (item_id a.1 = p)) as [<-|Hne].
  - by rewrite cubeAt_assignUV_eq, H.
  - by rewrite cubeAt_assignUV_ne.
Qed.

Lemma NoDup_fmap_agree {A B} (f : A → B) (l : list A) a b :
  NoDup (map f l) → a ∈ l → b ∈ l → f a = f b → a = b.
Proof.
  intros Hnd Ha Hb Hab.
  apply list_elem_of_lookup in Ha as [i Hi], Hb as [j Hj].
  assert (i = j) as ->; [|congruence].
  apply (proj1 (NoDup_alt _) Hnd i j (f a)); to_fmap;
    rewrite list_lookup_fmap; [by rewrite Hi|by rewrite Hj, Hab].
Qed.

(** The outcome for the cubes and the atlas is a function of the density
    and of the order and sizes of the cubes. *)
Lemma packUVs_geometry m m' d data data' :
  type m = ENTITY → type m' = ENTITY →
  bedrockData m = Some data → bedrockData m' = Some data' →
  cubeSizes (bones data) = cubeSizes (bones data') →
  atlasSize (packUVs m d) = atlasSize (packUVs m' d) ∧
  ∀ p, assignedUV (packUVs m d) p = assignedUV (packUVs m' d) p.
Proof.
  intros Ht Ht' Hd Hd' Hsz. split.
  - rewrite (packUVs_atlas m d data), (packUVs_atlas m' d data') by done.
    by rewrite (packSide_sizes d _ _ Hsz).
  - intros p. pose proof (cubeAt_size (bones data) p) as H1.
    pose proof (cubeAt_size (bones data') p) as H2. rewrite <- Hsz, <- H1 in H2.
    destruct (cubeAt (bones data) p) as [c|] eqn:Hc;
      destruct (cubeAt (bones data') p) as [c'|] eqn:Hc'; try done.
    + simpl in H2. injection H2 as H2.
      destruct (packUVs_cube m d data p c Ht Hd Hc) as (xy & Hin & -> & _).
      destruct (packUVs_cube m' d data' p c' Ht' Hd' Hc') as (xy' & Hin' & -> & _).
      rewrite <- (packPlaced_sizes d _ _ Hsz) in Hin'.
      rewrite (itemOf_size _ _ c' c H2) in Hin'.
      pose proof (NoDup_fmap_agree (fun a => item_id a.1) _ _ _
                    (packPlaced_ids_NoDup d (bones data)) Hin Hin' eq_refl) as Heq.
      by injection Heq as ->.
    + unfold packUVs.
      rewrite (packUVs_run_entity m d data Ht Hd),
              (packUVs_run_entity m' d data' Ht' Hd').
      unfold assignedUV. simpl.
      by rewrite !cubeAt_assignAll_None.
Qed.

(** C6: [packUVs] is deterministic and idempotent.  For entity models the
    UV origin of every cube and the atlas size it records depend only on
    the density and on the order and sizes of the cubes, so that two models
    which agree on these get identical assignments; packing again the
    returned model, or the input model as the first run left it,
    reproduces the same UV origins and the same atlas size. *)
Theorem packUVs_deterministic_idempotent (m : MinecraftModel) (d : Density) :
  (∀ m' data data',
     type m = ENTITY → type m' = ENTITY →
     bedrockData m = Some data → bedrockData m' = Some data' →
     cubeSizes (bones data) = cubeSizes (bones data') →
     atlasSize (packUVs m d) = atlasSize (packUVs m' d) ∧
     ∀ p, assignedUV (packUVs m d) p = assignedUV (packUVs m' d) p) ∧
  (atlasSize (packUVs (packUVs m d) d) = atlasSize (packUVs m d) ∧
   ∀ p, assignedUV (packUVs (packUVs m d) d) p = assignedUV (packUVs m d) p) ∧
  (atlasSize (packUVs (input_after (packUVs_run m d)) d) = atlasSize (packUVs m d) ∧
   ∀ p, assignedUV (packUVs (input_after (packUVs_run m d)) d) p
        = assignedUV (packUVs m d) p).
Proof.
  split; [intros m' data data'; apply packUVs_geometry|].
  destruct (type m) eqn:Ht; destruct (bedrockData m) as [data|] eqn:Hd;
    try (unfold packUVs, packUVs_run; rewrite ?Ht, ?Hd; simpl;
         unfold packUVs_run; rewrite ?Ht, ?Hd; done).
  pose proof (packUVs_run_entity m d data Ht Hd) as Hrun.
  split.
  - assert (H := packUVs_geometry m (packUVs m d) d data
      (set_bones (set_texture_size data
          (Some (num (packSide d (bones data)), num (packSide d (bones data)))))
          (assignAll (packPlaced d (bones data)) (bones data))) Ht).
    unfold packUVs in H at 1 2. rewrite Hrun in H. simpl in H.
    specialize (H Ht Hd eq_refl).
    rewrite cubeSizes_assignAll in H. specialize (H eq_refl).
    destruct H as [H1 H2]. split; [by rewrite <- H1|]. intros p.
    by rewrite <- H2.
  - assert (H := packUVs_geometry m (input_after (packUVs_run m d)) d data
      (set_bones data (assignAll (packPlaced d (bones data)) (bones data))) Ht).
    rewrite Hrun in H. simpl in H. specialize (H Ht Hd eq_refl).
    rewrite cubeSizes_assignAll in H. specialize (H eq_refl).
    destruct H as [H1 H2]. rewrite Hrun. simpl.
    split; [by rewrite <- H1|]. intros p. by rewrite <- H2.
Qed.

Lemma packUVs_deterministic_idempotent_witness :
  atlasSize (packUVs packedModel D16x)
  = atlasSize (packUVs (entityModel [plainBone "body" None (0, 0, 0) [bodyCube]])
                       D16x) ∧
  ∀ p, assignedUV (packUVs packedModel D16x) p
       = assignedUV
           (packUVs (entityModel [plainBone "body" None (0, 0, 0) [bodyCube]])
                    D16x) p.
Proof.
  destruct (packUVs_deterministic_idempotent packedModel D16x) as [Hsame _].
  apply (Hsame (entityModel [plainBone "body" None (0, 0, 0) [bodyCube]])
               (plainData [plainBone "body" None (0, 0, 0) [packedCube]])
               (plainData [plainBone "body" None (0, 0, 0) [bodyCube]]));
    reflexivity.
Defined.

(** ** The initial atlas side: the [while] loop stops *)

Lemma dimTooSmall_spec dim area :
  dimTooSmall dim area = true ↔ 2 * (dim * dim) < 3 * area.
Proof.
  unfold dimTooSmall. rewrite bool_decide_eq_true. unfold Qclt.
  change (this (num area * Q2Qc (3 # 2))%Qc)
    with (Qred (inject_Z area * Qred (3 # 2))).
  rewrite !Qred_correct, this_num. unfold Qlt. simpl. lia.
Qed.

Lemma growDim_stops fuel : ∀ dim area,
  2 ≤ dim → area ≤ dim * 2 ^ Z.of_nat fuel →
  dimTooSmall (growDim (S fuel) dim area) area = false.
Proof.
  induction fuel as [|fuel IH]; intros dim area Hdim Harea.
  - simpl in *. destruct (dimTooSmall dim area) eqn:E; [|done].
    apply dimTooSmall_spec in E. nia.
  - change (growDim (S (S fuel)) dim area)
      with (if dimTooSmall dim area then growDim (S fuel) (dim * 2) area else dim).
    destruct (dimTooSmall dim area) eqn:E; [|done].
    apply IH; [lia|]. rewrite Nat2Z.inj_succ, Z.pow_succ_r in Harea; lia.
Qed.

(** [initialDim] runs the loop to its exit: the fuel [dimFuel] is never
    exhausted, and the side found satisfies [dim * dim >= 1.5 * area]. *)
Lemma growDim_exits area :
  dimTooSmall (initialDim area) area = false ∧
  3 * area ≤ 2 * (initialDim area * initialDim area).
Proof.
  assert (H : dimTooSmall (initialDim area) area = false).
  { unfold initialDim, dimFuel. apply growDim_stops; [done|].
    unfold MIN_TEXTURE_SIZE.
    destruct (Z.le_gt_cases area 1) as [Hle|Hgt].
    - assert (0 < 2 ^ Z.of_nat (Z.to_nat (Z.log2_up area))) by (apply Z.pow_pos_nonneg; lia).
      lia.
    - rewrite Z2Nat.id by apply Z.log2_up_nonneg.
      pose proof (Z.log2_up_spec area Hgt). lia. }
  split; [done|].
  destruct (Z.lt_ge_cases (2 * (initialDim area * initialDim area)) (3 * area))
    as [Hlt|Hge]; [|lia].
  apply dimTooSmall_spec in Hlt. congruence.
Qed.

(** ** The atlas rescaler *)

Lemma this_plus (x y : Qc) : (this (x + y)%Qc == this x + this y)%Q.
Proof. apply Qred_correct. Qed.

Lemma this_minus (x y : Qc) : (this (x - y)%Qc == this x - this y)%Q.
Proof.
  unfold Qcminus. rewrite this_plus. unfold Qcopp, Q2Qc, this at 2.
  rewrite Qred_correct. reflexivity.
Qed.

Lemma this_opp (x : Qc) : (this (- x)%Qc == - this x)%Q.
Proof. apply Qred_correct. Qed.

Lemma this_mult (x y : Qc) : (this (x * y)%Qc == this x * this y)%Q.
Proof. apply Qred_correct. Qed.

Lemma this_half : (this (1 / 2)%Qc == 1 # 2)%Q.
Proof. reflexivity. Qed.

(** [Math_round x] is within one half of [x]. *)
Lemma Math_round_near (x : number) :
  (num (Math_round x) - 1 / 2 ≤ x ∧ x ≤ num (Math_round x) + 1 / 2)%Qc.
Proof.
  destruct (Math_round_spec x) as [H1 H2]. unfold Qcle.
  rewrite this_minus, this_plus, this_half, this_num. split; lra.
Qed.

Lemma this_one : (this 1%Qc == 1)%Q.
Proof. reflexivity. Qed.

Ltac qc_lra :=
  unfold Qcle, Qclt in *;
  change (this (Q2Qc 0)) with 0%Q in *;
  repeat (rewrite ?this_plus, ?this_minus, ?this_mult, ?this_opp, ?this_half,
            ?this_one in * );
  lra.

Lemma rescale_axis_compose (u A B C x3 : Qc) :
  (0 < A)%Qc → (0 < B)%Qc → (0 ≤ C)%Qc →
  (x3 = u ∧ C = A) ∨ x3 = num (Math_round (u * (C / A))%Qc) →
  let x1 := num (Math_round (u * (B / A))%Qc) in
  let x2 := num (Math_round (x1 * (C / B))%Qc) in
  (- (1 + C / (2 * B)) ≤ x2 - x3 ∧ x2 - x3 ≤ 1 + C / (2 * B))%Qc.
Proof.
  intros HA HB HC Hx3 x1 x2.
  assert (HA0 : A ≠ 0%Qc) by (by apply not_eq_sym, Qclt_not_eq).
  assert (HB0 : B ≠ 0%Qc) by (by apply not_eq_sym, Qclt_not_eq).
  assert (Hk : (0 ≤ C / B)%Qc).
  { unfold Qcdiv. apply Qcmult_nonneg_nonneg; [done|].
    apply Qclt_le_weak. by apply Qcinv_pos. }
  assert (Hb : (C / (2 * B) = (C / B) * (1 / 2))%Qc) by (field; done).
  assert (Hak : (u * (B / A) * (C / B) = u * (C / A))%Qc) by (field; done).
  rewrite Hb.
  pose proof (Math_round_near (u * (B / A))%Qc) as [Ha1 Ha2].
  pose proof (Math_round_near (x1 * (C / B))%Qc) as [Hb1 Hb2].
  fold x1 in Ha1, Ha2. fold x2 in Hb1, Hb2.
  assert (Hm1 : ((x1 - 1 / 2) * (C / B) ≤ u * (B / A) * (C / B))%Qc)
    by (by apply Qcmult_le_mono_nonneg_r).
  assert (Hm2 : (u * (B / A) * (C / B) ≤ (x1 + 1 / 2) * (C / B))%Qc)
    by (by apply Qcmult_le_mono_nonneg_r).
  rewrite Hak in Hm1, Hm2.
  assert (H3 : (x3 - 1 / 2 ≤ u * (C / A) ∧ u * (C / A) ≤ x3 + 1 / 2)%Qc).
  { destruct Hx3 as [[-> ->]| ->]; [|apply Math_round_near].
    replace (u * (A / A))%Qc with u by (field; done).
    split; qc_lra. }
  destruct H3 as [H31 H32].
  clear Hak Ha1 Ha2 Hx3 Hb HA0 HB0 HA HB HC.
  set (t := (u * (C / A))%Qc) in *. set (k := (C / B)%Qc) in *.
  clearbody t k x1 x2.
  split; qc_lra.
Qed.

Lemma cubeAt_map_cubes (f : ModelCube → ModelCube) bs p :
  cubeAt (map (fun bone => set_cubes bone (map f (cubes bone))) bs) p
  = f <$> cubeAt bs p.
Proof.
  unfold cubeAt. to_fmap. rewrite list_lookup_fmap.
  destruct (bs !! p.1) as [bone|]; simpl; [|done].
  to_fmap. by rewrite list_lookup_fmap.
Qed.

Lemma scaleModelUVs_same m data :
  bedrockData m = Some data →
  scaleModelUVs m (recordedSize data).1 (recordedSize data).2 = m.
Proof.
  intros Hd. unfold scaleModelUVs. rewrite Hd. fold (recordedSize data).
  destruct (recordedSize data) as [oldW oldH]. simpl.
  by rewrite !bool_decide_eq_true_2.
Qed.

Lemma scaleModelUVs_changed m data A1 A2 B1 B2 :
  bedrockData m = Some data → recordedSize data = (A1, A2) →
  ¬ (A1 = B1 ∧ A2 = B2) →
  scaleModelUVs m B1 B2 =
  set_bedrockData m (Some (set_bones
    (set_texture_size data (Some (B1, B2)))
    (map (fun bone => set_cubes bone
            (map (scaleCubeUV (B1 / A1)%Qc (B2 / A2)%Qc) (cubes bone)))
         (bones data)))).
Proof.
  intros Hd Hsz Hne. unfold scaleModelUVs. rewrite Hd.
  fold (recordedSize data). rewrite Hsz.
  destruct (bool_decide (A1 = B1)) eqn:E1; destruct (bool_decide (A2 = B2)) eqn:E2;
    simpl; try done.
  apply bool_decide_eq_true in E1, E2. tauto.
Qed.

Lemma scaleModelUVs_uv m data (A1 A2 B1 B2 : Qc) p c (u v : Qc) :
  bedrockData m = Some data → recordedSize data = (A1, A2) →
  cubeAt (bones data) p = Some c → uv c = Some (u, v) →
  ∃ data', bedrockData (scaleModelUVs m B1 B2) = Some data' ∧
    ((A1 = B1 ∧ A2 = B2 ∧ data' = data) ∨
     (¬ (A1 = B1 ∧ A2 = B2) ∧ recordedSize data' = (B1, B2) ∧
      ∃ c', cubeAt (bones data') p = Some c' ∧
            uv c' = Some (num (Math_round (u * (B1 / A1))%Qc),
                          num (Math_round (v * (B2 / A2))%Qc)))).
Proof.
  intros Hd Hsz Hc Hu.
  destruct (decide (A1 = B1 ∧ A2 = B2)) as [[<- <-]|Hne].
  - exists data. split; [|by left].
    pose proof (scaleModelUVs_same m data Hd) as H. rewrite Hsz in H.
    simpl in H. by rewrite H.
  - rewrite (scaleModelUVs_changed m data A1 A2 B1 B2 Hd Hsz Hne). simpl.
    eexists. split; [reflexivity|]. right. split; [done|]. split; [done|].
    simpl. rewrite cubeAt_map_cubes, Hc. simpl. eexists. split; [reflexivity|].
    unfold scaleCubeUV. by rewrite Hu.
Qed.

Lemma rescale_zero_bound (B C x : Qc) :
  (0 < B)%Qc → (0 ≤ C)%Qc →
  (- (1 + C / (2 * B)) ≤ x - x ∧ x - x ≤ 1 + C / (2 * B))%Qc.
Proof.
  intros HB HC.
  assert (HB0 : B ≠ 0%Qc) by (by apply not_eq_sym, Qclt_not_eq).
  assert (Hk : (0 ≤ C / B)%Qc).
  { unfold Qcdiv. apply Qcmult_nonneg_nonneg; [done|].
    apply Qclt_le_weak. by apply Qcinv_pos. }
  replace (C / (2 * B))%Qc with ((C / B) * (1 / 2))%Qc by (field; done).
  set (k := (C / B)%Qc) in *. clearbody k. split; qc_lra.
Qed.

(** The rescaler in exact arithmetic.  For a cube with UV origin [(u, v)]
    in a model whose recorded atlas size is [(A1, A2)]:
    - rescaling to a different size [(B1, B2)] records the new size and
      maps the origin to [(round (u * B1 / A1), round (v * B2 / A2))],
      [round] being within one half of its argument;
    - rescaling to the recorded size returns the model unchanged;
    - rescaling to [B] and then to [C] differs from rescaling to [C]
      directly by at most the rounding error of the two steps,
      [1 + C / (2 * B)] on each axis. *)
Theorem scaleModelUVs_rescale (m : MinecraftModel) (data : BedrockModel)
    (A1 A2 : Qc) (p : nat * nat) (c : ModelCube) (u v : Qc) :
  bedrockData m = Some data → recordedSize data = (A1, A2) →
  (0 < A1)%Qc → (0 < A2)%Qc →
  cubeAt (bones data) p = Some c → uv c = Some (u, v) →
  (∀ B1 B2 : Qc, ¬ (A1 = B1 ∧ A2 = B2) →
     atlasSize (scaleModelUVs m B1 B2) = Some (Some (B1, B2)) ∧
     assignedUV (scaleModelUVs m B1 B2) p
     = Some (Some (num (Math_round (u * B1 / A1)%Qc),
                   num (Math_round (v * B2 / A2)%Qc)))) ∧
  (∀ x : Qc, (num (Math_round x) - 1 / 2 ≤ x ∧ x ≤ num (Math_round x) + 1 / 2)%Qc) ∧
  scaleModelUVs m A1 A2 = m ∧
  (∀ B1 B2 C1 C2 : Qc,
     (0 < B1)%Qc → (0 < B2)%Qc → (0 ≤ C1)%Qc → (0 ≤ C2)%Qc →
     ∃ x2 y2 x3 y3 : Qc,
       assignedUV (scaleModelUVs (scaleModelUVs m B1 B2) C1 C2) p
         = Some (Some (x2, y2)) ∧
       assignedUV (scaleModelUVs m C1 C2) p = Some (Some (x3, y3)) ∧
       (- (1 + C1 / (2 * B1)) ≤ x2 - x3 ∧ x2 - x3 ≤ 1 + C1 / (2 * B1))%Qc ∧
       (- (1 + C2 / (2 * B2)) ≤ y2 - y3 ∧ y2 - y3 ≤ 1 + C2 / (2 * B2))%Qc).
Proof.
  intros Hd Hsz HA1 HA2 Hc Hu. split; [|split; [apply Math_round_near|split]].
  - intros B1 B2 Hne.
    rewrite (scaleModelUVs_changed m data A1 A2 B1 B2 Hd Hsz Hne).
    split; [done|]. unfold assignedUV. simpl.
    rewrite cubeAt_map_cubes, Hc. simpl. unfold scaleCubeUV. rewrite Hu. simpl.
    unfold Qcdiv. by rewrite !Qcmult_assoc.
  - pose proof (scaleModelUVs_same m data Hd) as H. by rewrite Hsz in H.
  - intros B1 B2 C1 C2 HB1 HB2 HC1 HC2.
    destruct (scaleModelUVs_uv m data A1 A2 C1 C2 p c u v Hd Hsz Hc Hu)
      as (d3 & Hd3 & H3).
    destruct (scaleModelUVs_uv m data A1 A2 B1 B2 p c u v Hd Hsz Hc Hu)
      as (d1 & Hd1 & [(<- & <- & ->)|(HneB & Hsz1 & c1 & Hc1 & Hu1)]).
    + (* the first step is the identity *)
      pose proof (scaleModelUVs_same m data Hd) as Hsame. rewrite Hsz in Hsame.
      simpl in Hsame. rewrite Hsame.
      assert (∃ x y, assignedUV (scaleModelUVs m C1 C2) p = Some (Some (x, y)))
        as (x & y & Hxy).
      { unfold assignedUV. rewrite Hd3. simpl.
        destruct H3 as [(_ & _ & ->)|(_ & _ & c3 & -> & Hu3)]; simpl.
        - rewrite Hc. simpl. rewrite Hu. eauto.
        - rewrite Hu3. eauto. }
      exists x, y, x, y. repeat split; try done; by apply rescale_zero_bound.
    + destruct (scaleModelUVs_uv (scaleModelUVs m B1 B2) d1 B1 B2 C1 C2 p c1
                  _ _ Hd1 Hsz1 Hc1 Hu1)
        as (d2 & Hd2 & [(<- & <- & ->)|(HneC & Hsz2 & c2 & Hc2 & Hu2)]).
      * (* the second step is the identity *)
        exists (num (Math_round (u * (B1 / A1))%Qc)),
               (num (Math_round (v * (B2 / A2))%Qc)),
               (num (Math_round (u * (B1 / A1))%Qc)),
               (num (Math_round (v * (B2 / A2))%Qc)).
        assert (Hm1 : assignedUV (scaleModelUVs m B1 B2) p
          = Some (Some (num (Math_round (u * (B1 / A1))%Qc),
                        num (Math_round (v * (B2 / A2))%Qc)))).
        { unfold assignedUV. rewrite Hd1. simpl. rewrite Hc1. simpl. by rewrite Hu1. }
        pose proof (scaleModelUVs_same _ _ Hd1) as Hsame. rewrite Hsz1 in Hsame.
        simpl in Hsame. rewrite Hsame.
        repeat split; try done; by apply rescale_zero_bound.
      * exists (num (Math_round
                       (num (Math_round (u * (B1 / A1))%Qc) * (C1 / B1))%Qc)),
               (num (Math_round
                       (num (Math_round (v * (B2 / A2))%Qc) * (C2 / B2))%Qc)).
        assert (Hm2 : assignedUV (scaleModelUVs (scaleModelUVs m B1 B2) C1 C2) p
          = Some (Some
              (num (Math_round
                      (num (Math_round (u * (B1 / A1))%Qc) * (C1 / B1))%Qc),
               num (Math_round
                      (num (Math_round (v * (B2 / A2))%Qc) * (C2 / B2))%Qc)))).
        { unfold assignedUV. rewrite Hd2. simpl. rewrite Hc2. simpl. by rewrite Hu2. }
        destruct H3 as [(<- & <- & ->)|(HneA & Hsz3 & c3 & Hc3 & Hu3)].
        -- exists u, v. split; [done|]. split.
           { unfold assignedUV. rewrite Hd3. simpl. rewrite Hc. simpl. by rewrite Hu. }
           split; apply rescale_axis_compose; auto using Qclt_le_weak.
        -- exists (num (Math_round (u * (C1 / A1))%Qc)),
                  (num (Math_round (v * (C2 / A2))%Qc)).
           split; [done|]. split.
           { unfold assignedUV. rewrite Hd3. simpl. rewrite Hc3. simpl. by rewrite Hu3. }
           split; apply rescale_axis_compose; auto.
Qed.

Lemma scaleModelUVs_rescale_witness :
  atlasSize (scaleModelUVs packedModel (num 128) (num 128))
    = Some (Some (num 128, num 128)) ∧
  assignedUV (scaleModelUVs packedModel (num 128) (num 128)) (0, 0)%nat
    = Some (Some (num (Math_round (num 10 * num 128 / num 64)%Qc),
                  num (Math_round (num 20 * num 128 / num 64)%Qc))).
Proof.
  assert (H64 : (0 < num 64)%Qc) by (by vm_compute).
  apply (proj1 (scaleModelUVs_rescale packedModel
           (plainData [plainBone "body" None (0, 0, 0) [packedCube]])
           (num 64) (num 64) (0, 0)%nat packedCube (num 10) (num 20)
           eq_refl eq_refl H64 H64 eq_refl eq_refl)).
  intros [H _]. apply num_inj in H. discriminate.
Defined.

(** C8: the rescaler in double precision, on a model that records an
    80x80 atlas and has a cube at UV (45, 45), resized to 56x56.  The
    model is what resizing a 64x64 model with a cube at (36, 36) to 80x80
    returns.  The source divides first: [56 / 80] is rounded to a double
    just below 0.7, the product with 45 to the double just below 31.5, and
    [Math.round] gives 31 on both axes, where
    [round (45 * 56 / 80) = round 31.5 = 32]; multiplying first gives 32
    in doubles too. *)
Theorem scaleModelUVs_divides_first :
  Double.scaleModelUVs
    (entityModel [plainBone "body" None (0, 0, 0)
                    [set_uv bodyCube (Some (num 36, num 36))]])
    (num 80) (num 80)
  = Some uploadedModel ∧
  Double.scaleModelUVs uploadedModel (num 56) (num 56)
  = Some (set_bedrockData (entityModel [])
            (Some (set_texture_size
                     (plainData [plainBone "body" None (0, 0, 0)
                                   [set_uv bodyCube (Some (num 31, num 31))]])
                     (Some (num 56, num 56))))) ∧
  Math_round (num 45 * num 56 / num 80)%Qc = 32 ∧
  Double.Math_round
    (PrimFloat.div (PrimFloat.mul (Double.ofZ 45) (Double.ofZ 56)) (Double.ofZ 80))
  = Some 32.
Proof.
  split; [vm_compute; reflexivity|]. split; [vm_compute; reflexivity|].
  split; reflexivity.
Qed.

(** On the packed sample, whose recorded side 64 is a power of two, the
    rounding changes nothing. *)
Lemma scaleModelUVs_double_sample :
  Double.scaleModelUVs packedModel (num 128) (num 128)
  = Some (scaleModelUVs packedModel (num 128) (num 128)) ∧
  Double.scaleModelUVs packedModel (num 100) (num 48)
  = Some (scaleModelUVs packedModel (num 100) (num 48)).
Proof. split; vm_compute; reflexivity. Qed.

(** ** Forests of bones *)

Lemma truthy_true (s : string) : truthy s = true ↔ s ≠ "".
Proof.
  unfold truthy. destruct (String.eqb_spec s ""); simpl; split; congruence.
Qed.

Lemma selects_None b : selects None b = isRoot b.
Proof. reflexivity. Qed.

Lemma selects_Some n b :
  truthy n = true → selects (Some n) b = true ↔ parent b = Some n.
Proof.
  intros Hn. unfold selects. rewrite Hn. destruct (parent b) as [p|]; [|done].
  destruct (String.eqb_spec p n); split; congruence.
Qed.

(** ** Vector arithmetic and single nodes *)

Lemma num_0 : num 0 = 0%Qc.
Proof. apply Z2Qc_inj_0. Qed.

Lemma vadd_vsub (p q : vec3) : vadd q (vsub p q) = p.
Proof.
  destruct p as [[p1 p2] p3], q as [[q1 q2] q3]. unfold vadd, vsub. simpl.
  f_equal; [f_equal|]; ring.
Qed.

Lemma vadd_zero3 (p : vec3) : vadd p zero3 = p.
Proof.
  destruct p as [[p1 p2] p3]. unfold vadd, zero3. simpl. rewrite num_0.
  f_equal; [f_equal|]; ring.
Qed.

Lemma vsub_vadd (p q : vec3) : vsub (vadd p q) q = p.
Proof.
  destruct p as [[p1 p2] p3], q as [[q1 q2] q3]. unfold vadd, vsub. simpl.
  f_equal; [f_equal|]; ring.
Qed.

Lemma traverse_unfold `{Three} node parentName parentPivot bones :
  traverse node parentName parentPivot bones =
  let relPos := position node in
  let currentPivot := vadd parentPivot relPos in
  let asBone (_ : unit) :=
    let newBone :=
      {| name := node_name node;
         parent := parentName;
         bone_pivot := currentPivot;
         bone_rotation := Some (quaternionToEulerDeg (orientation node));
         cubes := if isGeometry node && negb (truthyOpt parentName)
                  then [rootCube node currentPivot] else [];
         attachments := Some [] |} in
    fold_left (fun bs child => traverse child (Some (node_name node)) currentPivot bs)
              (children node) (bones ++ [newBone]) in
  let asAttachment (_ : unit) :=
    if isAttachment node && truthyOpt parentName then
      match getBone bones (default "" parentName) with
      | Some (i, _) =>
        alter (fun b => pushAttachment b
                 {| att_name := node_name node; att_position := relPos |}) i bones
      | None => asBone ()
      end
    else asBone () in
  if isGeometry node && truthyOpt parentName then
    match getBone bones (default "" parentName) with
    | Some (i, _) =>
      alter (fun b => pushCube b (importedCube node currentPivot)) i bones
    | None => asAttachment ()
    end
  else asAttachment ().
Proof. by destruct node. Qed.

Lemma getBone_last acc B :
  name B ∉ map name acc → getBone (acc ++ [B]) (name B) = Some (length acc, B).
Proof.
  intros Hn. apply list_find_Some. split; [by apply list_lookup_middle|].
  split; [done|]. intros j y Hj Hlt Hy. apply Hn. rewrite <- Hy.
  rewrite lookup_app_l in Hj by done. to_fmap.
  by apply list_elem_of_fmap_2, (list_elem_of_lookup_2 _ j).
Qed.

Lemma alter_last {A} (f : A → A) acc x :
  alter f (length acc) (acc ++ [x]) = acc ++ [f x].
Proof.
  replace (length acc) with (length acc + 0)%nat by lia.
  by rewrite alter_app_r.
Qed.

(** A cube survives the way out and back with its origin and size. *)
Lemma importedCube_cubeNode `{Three} bone ts idx cube id :
  importedCube (cubeNode bone ts idx cube id)
    (vadd (bone_pivot bone) (position (cubeNode bone ts idx cube id)))
  = reimportCube cube.
Proof.
  unfold importedCube, reimportCube, cubeNode. simpl.
  rewrite vadd_vsub, vadd_zero3, vsub_vadd.
  f_equal. unfold getTextureLayout.
  destruct (default (num 0, num 0) (uv cube)) as [u v].
  by destruct (size cube) as [[w h] d].
Qed.

Section Forest.
Context `{three : Three} (bones : list ModelBone) (textureSize : vec2).
Hypothesis names_NoDup : NoDup (map name bones).
Hypothesis names_truthy : Forall (fun b => truthy (name b) = true) bones.

Lemma bone_truthy b : b ∈ bones → truthy (name b) = true.
Proof. intros Hb. by apply (proj1 (list.Forall_forall _ _) names_truthy). Qed.

Lemma bones_NoDup : NoDup bones.
Proof. revert names_NoDup. to_fmap. apply NoDup_fmap_1. Qed.

Lemma name_inj b b' : b ∈ bones → b' ∈ bones → name b = name b' → b = b'.
Proof. intros. by apply (NoDup_fmap_agree name bones). Qed.

Lemma getBone_Some n i b :
  getBone bones n = Some (i, b) → bones !! i = Some b ∧ name b = n.
Proof. unfold getBone. intros H. apply list_find_Some in H. tauto. Qed.

Lemma getBone_elem b : b ∈ bones → ∃ i, getBone bones (name b) = Some (i, b).
Proof.
  intros Hb. apply list_elem_of_lookup in Hb as [i Hi]. exists i.
  apply list_find_Some. split; [done|]. split; [done|].
  intros j y Hj Hlt Hname.
  assert (y = b) as ->
    by (apply name_inj; [by eapply list_elem_of_lookup_2..|done]).
  pose proof (proj1 (NoDup_alt _) bones_NoDup i j b Hi Hj). lia.
Qed.

Lemma up_Some b h :
  up bones b = Some h →
  h ∈ bones ∧ parent b = Some (name h) ∧ isRoot b = false.
Proof.
  unfold up, isRoot. destruct (parent b) as [p|]; [|done]. simpl.
  destruct (truthy p) eqn:Hp; [|done].
  destruct (getBone bones p) as [[i h']|] eqn:Hg; [|done]. simpl.
  intros [= ->]. apply getBone_Some in Hg as [Hi <-].
  split; [by eapply list_elem_of_lookup_2|done].
Qed.

Lemma up_child b h :
  h ∈ bones → parent b = Some (name h) → up bones b = Some h.
Proof.
  intros Hh Hp. unfold up. rewrite Hp, (bone_truthy h Hh).
  destruct (getBone_elem h Hh) as [i ->]. done.
Qed.

Lemma up_root r : isRoot r = true → up bones r = None.
Proof.
  unfold up, isRoot. destruct (parent r) as [p|]; [|done]. simpl.
  by destruct (truthy p).
Qed.

Lemma ancestor_add k j x :
  ancestor bones (k + j) x = ancestor bones k x ≫= ancestor bones j.
Proof.
  revert x. induction k as [|k IH]; intros x; [done|]. simpl.
  destruct (up bones x) as [pb|]; simpl; [apply IH|done].
Qed.

Lemma ancestor_elem k x h :
  x ∈ bones → ancestor bones k x = Some h → h ∈ bones.
Proof.
  revert x. induction k as [|k IH]; intros x Hx; simpl; [by intros [= <-]|].
  destruct (up bones x) as [pb|] eqn:Hup; [|done]. simpl.
  apply IH. by apply up_Some in Hup as [? _].
Qed.

Lemma ancestor_root_None k r :
  isRoot r = true → ancestor bones (S k) r = None.
Proof. intros Hr. simpl. by rewrite (up_root r Hr). Qed.

Lemma Depth_unique x n n' : Depth bones x n → Depth bones x n' → n = n'.
Proof.
  assert (Hlt : ∀ n n', (n < n')%nat → Depth bones x n → Depth bones x n' → False).
  { clear. intros n n' Hlt (r & Hr & Hroot) (r' & Hr' & _).
    replace n' with (n + S (n' - n - 1))%nat in Hr' by lia.
    rewrite ancestor_add, Hr in Hr'. simpl in Hr'.
    unfold up, isRoot in *. destruct (parent r) as [p|]; [|done].
    simpl in *. by destruct (truthy p). }
  intros H1 H2. destruct (Nat.lt_total n n') as [?|[?|?]]; [|done|];
    exfalso; eauto.
Qed.

Lemma Depth_root r : isRoot r = true → Depth bones r 0.
Proof. intros Hr. by exists r. Qed.

Lemma Depth_ancestor k x h d :
  ancestor bones k x = Some h → Depth bones h d → Depth bones x (k + d).
Proof.
  intros Hk (r & Hr & Hroot). exists r. split; [|done].
  by rewrite ancestor_add, Hk.
Qed.

Lemma Depth_child b h d :
  h ∈ bones → parent b = Some (name h) → Depth bones h d →
  Depth bones b (S d).
Proof.
  intros Hh Hp Hd. apply (Depth_ancestor 1 b h d); [|done].
  simpl. by rewrite (up_child b h Hh Hp).
Qed.

(** The ancestors of a bone of depth [d] are [d + 1] distinct bones. *)
Lemma Depth_chain d : ∀ b,
  b ∈ bones → Depth bones b d →
  ∃ l, length l = S d ∧ NoDup l ∧
       ∀ x, x ∈ l → x ∈ bones ∧ ∃ k, (k ≤ d)%nat ∧ Depth bones x k.
Proof.
  induction d as [|d IH]; intros b Hb Hd.
  - exists [b]. split; [done|]. split; [apply NoDup_singleton|].
    intros x Hx. apply list_elem_of_singleton in Hx as ->. eauto.
  - destruct Hd as (r & Hr & Hroot). simpl in Hr.
    destruct (up bones b) as [pb|] eqn:Hup; [|done]. simpl in Hr.
    pose proof (up_Some _ _ Hup) as (Hpb & _ & _).
    destruct (IH pb Hpb) as (l & Hlen & Hnd & Hl); [by exists r|].
    exists (b :: l). split; [simpl; lia|]. split.
    + apply list.NoDup_cons. split; [|done]. intros Hin.
      apply Hl in Hin as (_ & k & Hk & Hdk).
      assert (Depth bones b (S d)) as Hd'.
      { exists r. split; [|done]. simpl. by rewrite Hup. }
      pose proof (Depth_unique _ _ _ Hdk Hd'). lia.
    + intros x Hx. apply elem_of_cons in Hx as [->|Hx].
      * split; [done|]. exists (S d). split; [done|].
        exists r. split; [|done]. simpl. by rewrite Hup.
      * apply Hl in Hx as (? & k & ? & ?). split; [done|].
        exists k. split; [lia|done].
Qed.

Lemma Depth_bound b d : b ∈ bones → Depth bones b d → (d < length bones)%nat.
Proof.
  intros Hb Hd. destruct (Depth_chain d b Hb Hd) as (l & Hlen & Hnd & Hl).
  assert (length l ≤ length bones)%nat; [|lia].
  apply submseteq_length, NoDup_submseteq; [done|].
  intros x Hx. by apply Hl in Hx as [? _].
Qed.

Lemma reachesRoot_Depth fuel : ∀ b,
  reachesRoot bones fuel b = true → ∃ d, Depth bones b d.
Proof.
  induction fuel as [|fuel IH]; intros b; simpl.
  - rewrite orb_false_r. intros Hr. exists 0%nat. by apply Depth_root.
  - destruct (isRoot b) eqn:Hr; simpl;
      [intros _; exists 0%nat; by apply Depth_root|].
    destruct (up bones b) as [pb|] eqn:Hup; [|done]. intros Hpb.
    destruct (IH pb Hpb) as [d Hd]. exists (1 + d)%nat.
    apply (Depth_ancestor 1 b pb d); [|done]. simpl. by rewrite Hup.
Qed.

(** *** The visit of [buildHytaleNodeTree] *)

Lemma elem_subtree_S f pid x :
  x ∈ subtree (S f) bones pid ↔
  ∃ b, b ∈ bones ∧ selects pid b = true ∧
       (x = b ∨ x ∈ subtree f bones (Some (name b))).
Proof.
  simpl. rewrite list_elem_of_In, List.in_flat_map. split.
  - intros (b & Hb & Hx). apply List.filter_In in Hb as [Hb Hsel].
    exists b. rewrite list_elem_of_In. split; [done|]. split; [done|].
    destruct Hx as [->|Hx]; [by left|right; by apply list_elem_of_In].
  - intros (b & Hb & Hsel & Hx). exists b. split.
    + apply List.filter_In. by rewrite <- list_elem_of_In.
    + destruct Hx as [->|Hx]; [by left|right; by apply list_elem_of_In].
Qed.

Lemma selected_Anchor pid d0 b :
  Anchor bones pid d0 → b ∈ bones → selects pid b = true →
  Depth bones b d0 ∧ Anchor bones (Some (name b)) (S d0).
Proof.
  intros HA Hb Hsel.
  assert (Hd : Depth bones b d0).
  { destruct HA as [[-> ->]|(h & d & Hh & -> & Hd & ->)].
    - by apply Depth_root.
    - apply (Depth_child b h d); [done| |done].
      apply selects_Some in Hsel; [done|by apply bone_truthy]. }
  split; [done|]. right. by exists b, d0.
Qed.

Lemma subtree_anc f : ∀ h x,
  h ∈ bones → x ∈ subtree f bones (Some (name h)) →
  x ∈ bones ∧ ∃ k, ancestor bones (S k) x = Some h.
Proof.
  induction f as [|f IH]; intros h x Hh Hx; [inversion Hx|].
  apply elem_subtree_S in Hx as (b & Hb & Hsel & Hx).
  apply selects_Some in Hsel; [|by apply bone_truthy].
  pose proof (up_child b h Hh Hsel) as Hup.
  destruct Hx as [->|Hx].
  - split; [done|]. exists 0%nat. simpl. by rewrite Hup.
  - destruct (IH b x Hb Hx) as (Hxb & k & Hk). split; [done|].
    exists (S k). replace (S (S k)) with (S k + 1)%nat by lia.
    rewrite ancestor_add, Hk. simpl. by rewrite Hup.
Qed.

(** A visited bone is a descendant of one of the selected bones. *)
Lemma subtree_below f pid x :
  (∀ n, pid = Some n → ∃ h, h ∈ bones ∧ n = name h) →
  x ∈ subtree f bones pid →
  x ∈ bones ∧
  ∃ b k, b ∈ bones ∧ selects pid b = true ∧ ancestor bones k x = Some b.
Proof.
  intros Hpid Hx. destruct f as [|f]; [inversion Hx|].
  apply elem_subtree_S in Hx as (b & Hb & Hsel & Hx).
  destruct Hx as [->|Hx].
  - split; [done|]. by exists b, 0%nat.
  - destruct (subtree_anc f b x Hb Hx) as (Hxb & k & Hk). split; [done|].
    by exists b, (S k).
Qed.

Lemma Anchor_pid pid d0 :
  Anchor bones pid d0 → ∀ n, pid = Some n → ∃ h, h ∈ bones ∧ n = name h.
Proof.
  intros [[-> _]|(h & d & Hh & -> & _)] n; [done|]. intros [= <-]. eauto.
Qed.

Lemma NoDup_flat_map {A B} (g : A → list B) (l : list A) :
  NoDup l → (∀ a, a ∈ l → NoDup (g a)) →
  (∀ a a' x, a ∈ l → a' ∈ l → x ∈ g a → x ∈ g a' → a = a') →
  NoDup (flat_map g l).
Proof.
  induction l as [|a l IH]; intros Hnd Hg Hsep; simpl; [constructor|].
  apply list.NoDup_cons in Hnd as [Ha Hnd].
  apply list.NoDup_app. split; [apply Hg; by left|]. split.
  - intros x Hx Hx'. apply list_elem_of_In, List.in_flat_map in Hx'
      as (a' & Ha' & Hxa'). apply list_elem_of_In in Ha', Hxa'.
    assert (a = a') as ->
      by (apply (Hsep a a' x); [by left|by right|done|done]).
    done.
  - apply IH; [done| |].
    + intros a' Ha'. apply Hg. by right.
    + intros a1 a2 x H1 H2. apply Hsep; by right.
Qed.

Lemma selected_NoDup pid : NoDup (List.filter (selects pid) bones).
Proof.
  apply NoDup_ListNoDup, List.NoDup_filter, NoDup_ListNoDup, bones_NoDup;
    done.
Qed.

(** No bone is visited twice. *)
Lemma subtree_NoDup f : ∀ pid d0, Anchor bones pid d0 → NoDup (subtree f bones pid).
Proof.
  induction f as [|f IH]; intros pid d0 HA; [constructor|]. simpl.
  apply NoDup_flat_map; [apply selected_NoDup| |].
  - intros b Hb. apply list_elem_of_In, List.filter_In in Hb as [Hb Hsel].
    apply list_elem_of_In in Hb.
    destruct (selected_Anchor pid d0 b HA Hb Hsel) as [Hd HA'].
    apply list.NoDup_cons. split; [|by apply (IH _ (S d0))].
    intros Hin. destruct (subtree_anc f b b Hb Hin) as (_ & k & Hk).
    pose proof (Depth_ancestor _ _ _ _ Hk Hd) as Hd'.
    pose proof (Depth_unique _ _ _ Hd Hd'). lia.
  - intros a a' x Ha Ha' Hx Hx'.
    apply list_elem_of_In, List.filter_In in Ha as [Ha Hsel].
    apply list_elem_of_In, List.filter_In in Ha' as [Ha' Hsel'].
    apply list_elem_of_In in Ha, Ha'.
    destruct (selected_Anchor pid d0 a HA Ha Hsel) as [Hd _].
    destruct (selected_Anchor pid d0 a' HA Ha' Hsel') as [Hd' _].
    assert (∃ k, ancestor bones k x = Some a) as [k Hk].
    { apply elem_of_cons in Hx as [->|Hx]; [by exists 0%nat|].
      destruct (subtree_anc f a x Ha Hx) as (_ & k & Hk). eauto. }
    assert (∃ k, ancestor bones k x = Some a') as [k' Hk'].
    { apply elem_of_cons in Hx' as [->|Hx']; [by exists 0%nat|].
      destruct (subtree_anc f a' x Ha' Hx') as (_ & k' & Hk'). eauto. }
    pose proof (Depth_unique _ _ _
                  (Depth_ancestor _ _ _ _ Hk Hd)
                  (Depth_ancestor _ _ _ _ Hk' Hd')) as Heq.
    assert (k = k') as -> by lia. congruence.
Qed.

Lemma child_in_subtree f : ∀ pid pb x,
  pb ∈ subtree f bones pid → x ∈ bones → pb ∈ bones →
  parent x = Some (name pb) → x ∈ subtree (S f) bones pid.
Proof.
  induction f as [|f IH]; intros pid pb x Hpb Hx Hpbb Hp; [inversion Hpb|].
  apply elem_subtree_S in Hpb as (b & Hb & Hsel & Hpb).
  apply elem_subtree_S. exists b. split; [done|]. split; [done|]. right.
  destruct Hpb as [->|Hpb]; [|by apply (IH _ pb)].
  apply elem_subtree_S. exists x. split; [done|]. split; [|by left].
  apply selects_Some; [by apply bone_truthy|done].
Qed.

Lemma subtree_mono f : ∀ pid x,
  x ∈ subtree f bones pid → x ∈ subtree (S f) bones pid.
Proof.
  induction f as [|f IH]; intros pid x Hx; [inversion Hx|].
  apply elem_subtree_S in Hx as (b & Hb & Hsel & Hx).
  apply elem_subtree_S. exists b. split; [done|]. split; [done|].
  destruct Hx as [->|Hx]; [by left|right; by apply IH].
Qed.

Lemma subtree_mono_le f f' pid x :
  (f ≤ f')%nat → x ∈ subtree f bones pid → x ∈ subtree f' bones pid.
Proof. induction 1; [done|]. intros Hx. by apply subtree_mono, IHle. Qed.

(** A bone that reaches a root is visited. *)
Lemma Depth_in_subtree d : ∀ x,
  x ∈ bones → Depth bones x d → x ∈ subtree (S d) bones None.
Proof.
  induction d as [|d IH]; intros x Hx (r & Hr & Hroot).
  - simpl in Hr. injection Hr as <-. apply elem_subtree_S.
    exists x. split; [done|]. split; [done|by left].
  - simpl in Hr. destruct (up bones x) as [pb|] eqn:Hup; [|done].
    simpl in Hr. pose proof (up_Some _ _ Hup) as (Hpb & Hp & _).
    apply (child_in_subtree _ _ pb); [|done..].
    apply IH; [done|]. by exists r.
Qed.

(** The visited bones are those that reach a root. *)
Lemma subtree_rooted f x :
  x ∈ subtree f bones None → x ∈ bones ∧ ∃ d, Depth bones x d.
Proof.
  intros Hx. destruct (subtree_below f None x) as (Hxb & b & k & Hb & Hsel & Hk);
    [done|done|].
  split; [done|]. exists (k + 0)%nat.
  apply (Depth_ancestor k x b 0); [done|]. by apply Depth_root.
Qed.

(** *** [buildHytaleNodeTree] returns, given enough fuel *)

Lemma buildLoop_None (body : ModelBone → nat → option (HytaleNode * nat))
    (sel : list ModelBone) :
  fold_left (fun acc bone =>
    '(nodes, c0) ← acc;
    '(node, c4) ← body bone c0;
    Some (nodes ++ [node], c4)) sel (None : option (list HytaleNode * nat))
  = None.
Proof. induction sel as [|b sel IH]; [done|]. simpl. apply IH. Qed.

Lemma buildLoop_cons body b sel ns c0 :
  buildLoop body (b :: sel) (ns, c0) =
  match body b c0 with
  | Some (node, c4) => buildLoop body sel (ns ++ [node], c4)
  | None => None
  end.
Proof.
  unfold buildLoop. simpl. destruct (body b c0) as [[node c4]|]; simpl;
    [done|apply buildLoop_None].
Qed.

Lemma buildLoop_prefix body sel : ∀ ns c0 r,
  buildLoop body sel (ns, c0) = Some r ↔
  ∃ new, buildLoop body sel ([], c0) = Some (new, r.2) ∧ r.1 = ns ++ new.
Proof.
  induction sel as [|b sel IH]; intros ns c0 [ns' c'].
  - unfold buildLoop. simpl. split.
    + intros [= <- <-]. exists []. by rewrite app_nil_r.
    + intros (new & [= <- <-] & Hr). simpl in Hr. rewrite app_nil_r in Hr.
      by subst.
  - rewrite !buildLoop_cons. destruct (body b c0) as [[node c4]|].
    + rewrite IH. simpl. split.
      * intros (new & Hnew & ->). exists (node :: new). split.
        -- apply (IH [node] c4 (node :: new, c')). by exists new.
        -- by rewrite <- app_assoc.
      * intros (new & Hnew & ->).
        apply (IH [node] c4 (new, c')) in Hnew as (new' & Hnew' & Heq).
        simpl in *. subst new. exists new'. by rewrite <- app_assoc.
    + split; [done|]. by intros (? & ? & _).
Qed.

Lemma buildLoop_total body sel :
  (∀ b c, b ∈ sel → is_Some (body b c)) →
  ∀ start, is_Some (buildLoop body sel start).
Proof.
  induction sel as [|b sel IH]; intros Hbody [ns c0]; [by eexists|].
  rewrite buildLoop_cons.
  destruct (Hbody b c0) as [[node c4] ->]; [by left|].
  apply IH. intros b' c' Hb'. apply Hbody. by right.
Qed.

Lemma buildLoop_mono body body' sel :
  (∀ b c r, body b c = Some r → body' b c = Some r) →
  ∀ start r, buildLoop body sel start = Some r →
             buildLoop body' sel start = Some r.
Proof.
  intros Hb. induction sel as [|b sel IH]; intros [ns c0] r; [done|].
  rewrite !buildLoop_cons.
  destruct (body b c0) as [[node c4]|] eqn:E; [|done].
  rewrite (Hb _ _ _ E). apply IH.
Qed.

Lemma boneNode_total recurse ppiv b c :
  (∀ c', is_Some (recurse (Some (name b)) (bone_pivot b) c')) →
  is_Some (boneNode recurse ppiv textureSize b c).
Proof.
  intros Hrec. unfold boneNode, generateId.
  destruct (mapWithId _ _ (cubes b) _) as [cubeNodes c2].
  destruct (mapWithId _ _ (default [] (attachments b)) _) as [attNodes c3].
  destruct (Hrec c3) as [[childrenNodes c4] ->]. by eexists.
Qed.

Lemma boneNode_mono recurse recurse' ppiv b c r :
  (∀ c' r', recurse (Some (name b)) (bone_pivot b) c' = Some r' →
            recurse' (Some (name b)) (bone_pivot b) c' = Some r') →
  boneNode recurse ppiv textureSize b c = Some r →
  boneNode recurse' ppiv textureSize b c = Some r.
Proof.
  intros Hrec. unfold boneNode, generateId.
  destruct (mapWithId _ _ (cubes b) _) as [cubeNodes c2].
  destruct (mapWithId _ _ (default [] (attachments b)) _) as [attNodes c3].
  destruct (recurse _ _ c3) as [[childrenNodes c4]|] eqn:E; [|done].
  by rewrite (Hrec _ _ E).
Qed.

Lemma Anchor_bound pid d0 : Anchor bones pid d0 → (d0 ≤ length bones)%nat.
Proof.
  intros [[_ ->]|(h & d & Hh & _ & Hd & ->)]; [lia|].
  pose proof (Depth_bound h d Hh Hd). lia.
Qed.

Lemma build_total fuel : ∀ pid d0 ppiv c,
  Anchor bones pid d0 → (length bones < d0 + fuel)%nat →
  is_Some (buildHytaleNodeTree fuel bones pid ppiv textureSize c).
Proof.
  induction fuel as [|fuel IH]; intros pid d0 ppiv c HA Hlt.
  - apply Anchor_bound in HA. lia.
  - simpl. apply buildLoop_total. intros b c' Hb.
    apply list_elem_of_In, List.filter_In in Hb as [Hb Hsel].
    apply list_elem_of_In in Hb.
    destruct (selected_Anchor pid d0 b HA Hb Hsel) as [_ HA'].
    apply boneNode_total. intros c''. apply (IH _ (S d0)); [done|lia].
Qed.

Lemma build_mono fuel : ∀ pid ppiv c r,
  buildHytaleNodeTree fuel bones pid ppiv textureSize c = Some r →
  buildHytaleNodeTree (S fuel) bones pid ppiv textureSize c = Some r.
Proof.
  induction fuel as [|fuel IH]; intros pid ppiv c r; [done|].
  intros Hr. change (buildHytaleNodeTree (S (S fuel)) bones pid ppiv textureSize c)
    with (buildLoop
            (boneNode (fun pid pivot c =>
               buildHytaleNodeTree (S fuel) bones pid pivot textureSize c)
               ppiv textureSize)
            (List.filter (selects pid) bones) ([], c)).
  revert Hr. simpl. apply buildLoop_mono. intros b c0 r0.
  apply boneNode_mono. intros c' r'. apply IH.
Qed.

Lemma build_mono_le fuel fuel' pid ppiv c r :
  (fuel ≤ fuel')%nat →
  buildHytaleNodeTree fuel bones pid ppiv textureSize c = Some r →
  buildHytaleNodeTree fuel' bones pid ppiv textureSize c = Some r.
Proof. induction 1; [done|]. intros Hr. by apply build_mono, IHle. Qed.

(** *** Importing what was exported *)

Lemma set_cubes_same (B : ModelBone) : set_cubes B (cubes B) = B.
Proof. by destruct B. Qed.

Lemma import_cubes b cs : ∀ idx c1 cubeNodes c2 acc B,
  mapWithId (cubeNode b textureSize) idx cs c1 = (cubeNodes, c2) →
  truthy (name b) = true → name B = name b → name b ∉ map name acc →
  importNodes (Some (name b)) (bone_pivot b) cubeNodes (acc ++ [B])
  = acc ++ [set_cubes B (cubes B ++ map reimportCube cs)].
Proof.
  induction cs as [|cube rest IH]; intros idx c1 cubeNodes c2 acc B Hm Ht HB Hn.
  - injection Hm as <- <-. simpl. by rewrite app_nil_r, set_cubes_same.
  - simpl in Hm.
    destruct (mapWithId (cubeNode b textureSize) (S idx) rest (S c1))
      as [ns c2'] eqn:Hrest.
    injection Hm as <- <-.
    change (importNodes (Some (name b)) (bone_pivot b)
              (cubeNode b textureSize idx cube (pretty (S c1)) :: ns) (acc ++ [B]))
      with (importNodes (Some (name b)) (bone_pivot b) ns
              (traverse (cubeNode b textureSize idx cube (pretty (S c1)))
                        (Some (name b)) (bone_pivot b) (acc ++ [B]))).
    rewrite traverse_unfold. cbv zeta.
    change (isGeometry (cubeNode b textureSize idx cube (pretty (S c1))))
      with true.
    change (truthyOpt (Some (name b))) with (truthy (name b)). rewrite Ht.
    change (default "" (Some (name b))) with (name b).
    assert (Hg : getBone (acc ++ [B]) (name b) = Some (length acc, B))
      by (rewrite <- HB; apply getBone_last; by rewrite HB).
    rewrite Hg. cbn [andb]. rewrite alter_last, importedCube_cubeNode.
    rewrite (IH (S idx) (S c1) ns c2' acc (pushCube B (reimportCube cube)));
      [|done|done|done|done].
    unfold pushCube, set_cubes. simpl. by rewrite <- app_assoc.
Qed.

Lemma import_attachments b atts : ∀ idx c1 attNodes c2 acc B l,
  mapWithId (fun _ => attachmentNode) idx atts c1 = (attNodes, c2) →
  truthy (name b) = true → name B = name b → name b ∉ map name acc →
  attachments B = Some l →
  importNodes (Some (name b)) (bone_pivot b) attNodes (acc ++ [B])
  = acc ++ [withAttachments B (l ++ map reimportAttachment atts)].
Proof.
  induction atts as [|att rest IH];
    intros idx c1 attNodes c2 acc B l Hm Ht HB Hn Hl.
  - injection Hm as <- <-. simpl. rewrite app_nil_r.
    unfold withAttachments. rewrite <- Hl. by destruct B.
  - simpl in Hm.
    destruct (mapWithId (fun _ => attachmentNode) (S idx) rest (S c1))
      as [ns c2'] eqn:Hrest.
    injection Hm as <- <-.
    change (importNodes (Some (name b)) (bone_pivot b)
              (attachmentNode att (pretty (S c1)) :: ns) (acc ++ [B]))
      with (importNodes (Some (name b)) (bone_pivot b) ns
              (traverse (attachmentNode att (pretty (S c1)))
                        (Some (name b)) (bone_pivot b) (acc ++ [B]))).
    rewrite traverse_unfold. cbv zeta.
    change (isGeometry (attachmentNode att (pretty (S c1)))) with false.
    change (isAttachment (attachmentNode att (pretty (S c1)))) with true.
    change (truthyOpt (Some (name b))) with (truthy (name b)). rewrite Ht.
    change (default "" (Some (name b))) with (name b).
    assert (Hg : getBone (acc ++ [B]) (name b) = Some (length acc, B))
      by (rewrite <- HB; apply getBone_last; by rewrite HB).
    rewrite Hg. cbn [andb]. rewrite alter_last.
    rewrite (IH (S idx) (S c1) ns c2' acc _ (l ++ [reimportAttachment att]));
      [|done|done|done|done|].
    + unfold withAttachments. simpl. by rewrite <- app_assoc.
    + unfold pushAttachment. simpl. by rewrite Hl.
Qed.

Lemma names_reimport (l : list ModelBone) :
  map name (map reimportBone l) = map name l.
Proof. rewrite map_map. by apply map_ext. Qed.

Lemma selected_parent pid d0 b :
  Anchor bones pid d0 → b ∈ bones → selects pid b = true →
  (if isRoot b then None else parent b) = pid.
Proof.
  intros [[-> _]|(h & d & Hh & -> & _)] Hb Hsel.
  - rewrite selects_None in Hsel. by rewrite Hsel.
  - apply selects_Some in Hsel; [|by apply bone_truthy].
    unfold isRoot. rewrite Hsel. simpl. by rewrite (bone_truthy h Hh).
Qed.

Lemma importNodes_app pn pp ns ns' acc :
  importNodes pn pp (ns ++ ns') acc
  = importNodes pn pp ns' (importNodes pn pp ns acc).
Proof. apply fold_left_app. Qed.

(** The node of one bone, with everything below it, is imported as the
    bone followed by the bones below it. *)
Lemma roundtrip_bone recurse pid d0 ppiv b c node c4 acc below :
  Anchor bones pid d0 → b ∈ bones → selects pid b = true →
  boneNode recurse ppiv textureSize b c = Some (node, c4) →
  name b ∉ map name acc →
  (∀ c3 childrenNodes acc',
     recurse (Some (name b)) (bone_pivot b) c3 = Some (childrenNodes, c4) →
     acc' = acc ++ [reimportBone b] →
     importNodes (Some (name b)) (bone_pivot b) childrenNodes acc'
     = acc' ++ below) →
  traverse node pid ppiv acc = acc ++ reimportBone b :: below.
Proof.
  intros HA Hb Hsel Hnode Hn Hrec.
  pose proof (bone_truthy b Hb) as Ht.
  unfold boneNode, generateId in Hnode.
  destruct (mapWithId (cubeNode b textureSize) 0 (cubes b) (S c))
    as [cubeNodes c2] eqn:Hcubes.
  destruct (mapWithId (fun _ => attachmentNode) 0
              (default [] (attachments b)) c2) as [attNodes c3] eqn:Hatts.
  destruct (recurse (Some (name b)) (bone_pivot b) c3)
    as [[childrenNodes c4']|] eqn:Hchildren; [|done].
  injection Hnode as <- <-.
  rewrite traverse_unfold. cbv zeta.
  cbn [isGeometry isAttachment shape shape_type settings isPiece boneShape
       String.eqb Ascii.eqb Bool.eqb andb negb position node_name children
       orientation].
  rewrite vadd_vsub.
  change (fold_left
            (fun bs child => traverse child (Some (name b)) (bone_pivot b) bs)
            (cubeNodes ++ attNodes ++ childrenNodes) ?x)
    with (importNodes (Some (name b)) (bone_pivot b)
            (cubeNodes ++ attNodes ++ childrenNodes) x).
  rewrite !importNodes_app.
  match goal with |- context [acc ++ [?B]] => set (newB := B) end.
  rewrite (import_cubes b (cubes b) 0 (S c) cubeNodes c2 acc newB
             Hcubes Ht eq_refl Hn).
  rewrite (import_attachments b (default [] (attachments b)) 0 c2 attNodes c3
             acc (set_cubes newB (cubes newB ++ map reimportCube (cubes b)))
             [] Hatts Ht eq_refl Hn eq_refl).
  assert (HB : withAttachments
                 (set_cubes newB (cubes newB ++ map reimportCube (cubes b)))
                 ([] ++ map reimportAttachment (default [] (attachments b)))
               = reimportBone b).
  { unfold withAttachments, set_cubes, reimportBone, newB, eulerRoundTrip.
    simpl. by rewrite (selected_parent pid d0 b HA Hb Hsel). }
  rewrite HB.
  rewrite (Hrec c3 childrenNodes _ Hchildren eq_refl).
  by rewrite <- app_assoc.
Qed.

Lemma NoDup_app_l {A} (l k : list A) : NoDup (l ++ k) → NoDup l.
Proof. intros Hnd. by apply list.NoDup_app in Hnd as [? _]. Qed.

(** Importing the nodes of a call of [buildHytaleNodeTree] appends the
    visited bones, converted, in the order of the visit. *)
Lemma roundtrip_subtree fuel : ∀ pid d0 ppiv c nodes c' acc,
  Anchor bones pid d0 →
  buildHytaleNodeTree fuel bones pid ppiv textureSize c = Some (nodes, c') →
  NoDup (map name acc ++ map name (subtree fuel bones pid)) →
  importNodes pid ppiv nodes acc
  = acc ++ map reimportBone (subtree fuel bones pid).
Proof.
  induction fuel as [|fuel IH]; intros pid d0 ppiv c nodes c' acc HA Hbuild Hnd;
    [done|].
  simpl in Hbuild. simpl subtree in *.
  set (body := boneNode
         (fun pid pivot c => buildHytaleNodeTree fuel bones pid pivot textureSize c)
         ppiv textureSize) in *.
  set (g := fun b => b :: subtree fuel bones (Some (name b))) in *.
  assert (Hsel : ∀ b, b ∈ List.filter (selects pid) bones →
                      b ∈ bones ∧ selects pid b = true).
  { intros b Hb. apply list_elem_of_In, List.filter_In in Hb as [Hb ?].
    by apply list_elem_of_In in Hb. }
  revert c nodes c' acc Hbuild Hnd Hsel.
  generalize (List.filter (selects pid) bones). intros sel.
  induction sel as [|b rest IHsel]; intros c nodes c' acc Hloop Hnd Hsel.
  - injection Hloop as <- <-. simpl. by rewrite app_nil_r.
  - rewrite buildLoop_cons in Hloop.
    destruct (body b c) as [[node c4]|] eqn:Hnode; [|done].
    apply buildLoop_prefix in Hloop as (new & Hnew & Heq).
    simpl in Hnew, Heq. subst nodes.
    destruct (Hsel b) as [Hb Hselb]; [by left|].
    destruct (selected_Anchor pid d0 b HA Hb Hselb) as [_ HA'].
    assert (Hnd' : NoDup (((map name acc ++ [name b])
                           ++ map name (subtree fuel bones (Some (name b))))
                          ++ map name (flat_map g rest))).
    { simpl in Hnd. rewrite map_app in Hnd. by rewrite <- !app_assoc. }
    pose proof (NoDup_app_l _ _ Hnd') as Hnd1.
    assert (Hn : name b ∉ map name acc).
    { apply NoDup_app_l, list.NoDup_app in Hnd1 as (_ & Hdis & _).
      intros Hin. apply (Hdis _ Hin). by left. }
    change (importNodes pid ppiv (node :: new) acc)
      with (importNodes pid ppiv new (traverse node pid ppiv acc)).
    rewrite (roundtrip_bone _ pid d0 ppiv b c node c4 acc
               (map reimportBone (subtree fuel bones (Some (name b))))
               HA Hb Hselb Hnode Hn).
    + rewrite (IHsel c4 new c' _ Hnew).
      * simpl. rewrite map_app. simpl. by rewrite <- app_assoc.
      * rewrite map_app. simpl. rewrite names_reimport.
        rewrite <- !app_assoc in Hnd'. by rewrite <- app_assoc.
      * intros b' Hb'. apply Hsel. by right.
    + intros c3 childrenNodes acc' Hchildren ->.
      apply (IH _ (S d0) _ c3 _ c4); [done|done|].
      by rewrite map_app.
Qed.

(** The whole model: the export returns for every fuel above the number
    of bones, with one and the same result, and importing it yields the
    visited bones, converted. *)
Lemma roundtrip_all modelName filename :
  ∃ nodes c',
    (∀ fuel, (length bones < fuel)%nat →
       buildHytaleNodeTree fuel bones None zero3 textureSize 0
       = Some (nodes, c')) ∧
    bedrockData (convertHytaleToBedrock
                   (Build_HytaleData nodes modelName) filename)
    = Some (Build_BedrockModel "1.12.0" (modelNameOr modelName filename)
              (Some (num 64, num 64))
              (map reimportBone (subtree (S (length bones)) bones None))) ∧
    NoDup (map name (subtree (S (length bones)) bones None)).
Proof.
  assert (HA : Anchor bones None 0) by (by left).
  destruct (build_total (S (length bones)) None 0 zero3 0 HA)
    as [[nodes c'] Hbuild]; [lia|].
  assert (Hnd : NoDup (map name (subtree (S (length bones)) bones None))).
  { to_fmap. apply NoDup_fmap_2_strong; [|by apply (subtree_NoDup _ None 0)].
    intros x y Hx Hy. apply name_inj.
    - by apply (subtree_rooted _ x) in Hx as [? _].
    - by apply (subtree_rooted _ y) in Hy as [? _]. }
  exists nodes, c'. split; [|split; [|done]].
  - intros fuel Hlt. by apply (build_mono_le (S (length bones))); [lia|].
  - unfold convertHytaleToBedrock. simpl. do 2 f_equal.
    apply (roundtrip_subtree (S (length bones)) None 0 zero3 0 nodes c' []);
      done.
Qed.
End Forest.

(** ** The round trip of a model *)


Lemma dangling_no_Depth bs b d : dangling bs b → ¬ Depth bs b d.
Proof.
  intros (p & Hp & Ht & Hnot) (r & Hr & Hroot). destruct d as [|d].
  - simpl in Hr. injection Hr as <-. unfold isRoot in Hroot.
    rewrite Hp in Hroot. simpl in Hroot. by rewrite Ht in Hroot.
  - simpl in Hr. destruct (up bs b) as [h|] eqn:Hup; [|done].
    apply up_Some in Hup as (Hh & Hph & _).
    apply Hnot. rewrite Hp in Hph. injection Hph as ->. to_fmap.
    by apply list_elem_of_fmap_2.
Qed.

(** What both conversions make of the bones of a model with unique,
    non-empty names. *)
Lemma roundtrip_bones `{Three} (bs : list ModelBone) (textureSize : vec2)
    (modelName : option string) (filename : string) :
  NoDup (map name bs) → Forall (fun b => truthy (name b) = true) bs →
  ∃ nodes counter data,
    (∀ fuel, (length bs < fuel)%nat →
       buildHytaleNodeTree fuel bs None zero3 textureSize 0
       = Some (nodes, counter)) ∧
    bedrockData (convertHytaleToBedrock
                   {| nodes := nodes; modelName := modelName |} filename)
    = Some data ∧
    NoDup (map name (bones data)) ∧
    (∀ b', b' ∈ bones data → ∃ b, b ∈ bs ∧ b' = reimportBone b) ∧
    (∀ b, b ∈ bs → (reimportBone b ∈ bones data ↔ ∃ d, Depth bs b d)).
Proof.
  intros Hnd Ht.
  destruct (roundtrip_all bs textureSize Hnd Ht modelName filename)
    as (nodes & counter & Hbuild & Hdata & Hnames).
  eexists nodes, counter, _. split; [exact Hbuild|]. split; [exact Hdata|].
  cbn [bones]. split; [by rewrite names_reimport|]. split.
  - intros b' Hb'. revert Hb'. to_fmap. intros Hb'.
    apply list_elem_of_fmap in Hb' as (b & -> & Hb). exists b. split; [|done].
    by apply (subtree_rooted bs Hnd Ht) in Hb as [? _].
  - intros b Hb. split.
    + to_fmap. intros Hin. apply list_elem_of_fmap in Hin as (x & Hx & Hin).
      pose proof (subtree_rooted bs Hnd Ht _ _ Hin) as [Hxb Hd].
      assert (b = x) as ->; [|done].
      apply (name_inj bs Hnd); [done|done|]. by apply (f_equal name) in Hx.
    + intros [d Hd]. to_fmap. apply list_elem_of_fmap_2.
      apply (subtree_mono_le bs (S d)).
      * pose proof (Depth_bound bs b d Hb Hd). lia.
      * by apply (Depth_in_subtree bs Ht).
Qed.

Lemma wellFormed_Depth bs b :
  wellFormed bs → b ∈ bs → ∃ d, Depth bs b d.
Proof.
  intros (_ & _ & Hr) Hb. rewrite list.Forall_forall in Hr.
  by apply (reachesRoot_Depth bs (length bs)), Hr.
Qed.

(** ** The library's round trip of a rotation *)

Ltac rlra := Lra.lra.
Ltac case_Rdec :=
  repeat match goal with
  | |- context [Rlt_dec ?a ?b] => destruct (Rlt_dec a b); try rlra
  | |- context [Rle_dec ?a ?b] => destruct (Rle_dec a b); try rlra
  end.
Section Trig.
Local Open Scope R_scope.
Import THREE.

Lemma matrix_of_euler x y z :
  let m := makeRotationFromQuaternion (setFromEuler_ZYX (x, y, z)) in
  m31 m = - sin y ∧ m32 m = cos y * sin x ∧ m33 m = cos y * cos x ∧
  m21 m = cos y * sin z ∧ m11 m = cos y * cos z.
Proof.
  cbn.
  replace (sin x) with (sin (2 * (x / 2))) by (f_equal; rlra).
  replace (cos x) with (cos (2 * (x / 2))) by (f_equal; rlra).
  replace (sin y) with (sin (2 * (y / 2))) by (f_equal; rlra).
  replace (cos y) with (cos (2 * (y / 2))) by (f_equal; rlra).
  replace (sin z) with (sin (2 * (z / 2))) by (f_equal; rlra).
  replace (cos z) with (cos (2 * (z / 2))) by (f_equal; rlra).
  rewrite !sin_2a, !cos_2a.
  pose proof (sin2_cos2 (x / 2)) as H1.
  pose proof (sin2_cos2 (y / 2)) as H2.
  pose proof (sin2_cos2 (z / 2)) as H3.
  unfold Rsqr in *.
  set (s1 := sin (x / 2)) in *. set (c1 := cos (x / 2)) in *.
  set (s2 := sin (y / 2)) in *. set (c2 := cos (y / 2)) in *.
  set (s3 := sin (z / 2)) in *. set (c3 := cos (z / 2)) in *.
  assert (E1 : s1 * s1 = 1 - c1 * c1) by rlra.
  assert (E2 : s2 * s2 = 1 - c2 * c2) by rlra.
  assert (E3 : s3 * s3 = 1 - c3 * c3) by rlra.
  repeat split.
  - transitivity (- (2 * s2 * c2) * ((s1 * s1 + c1 * c1) * (s3 * s3 + c3 * c3))).
    + ring.
    + rewrite H1, H3. ring.
  - transitivity ((c2 * c2 - s2 * s2) * (2 * s1 * c1) * (s3 * s3 + c3 * c3)).
    + ring.
    + rewrite H3. ring.
  - transitivity ((c2 * c2 - s2 * s2) * (c1 * c1 - s1 * s1) * (s3 * s3 + c3 * c3)
                  + (1 - (s1 * s1 + c1 * c1) * (s2 * s2 + c2 * c2) * (s3 * s3 + c3 * c3))).
    + ring.
    + rewrite H1, H2, H3. ring.
  - transitivity ((c2 * c2 - s2 * s2) * (2 * s3 * c3) * (s1 * s1 + c1 * c1)).
    + ring.
    + rewrite H1. ring.
  - transitivity ((c2 * c2 - s2 * s2) * (c3 * c3 - s3 * s3) * (s1 * s1 + c1 * c1)
                  + (1 - (s1 * s1 + c1 * c1) * (s2 * s2 + c2 * c2) * (s3 * s3 + c3 * c3))).
    + ring.
    + rewrite H1, H2, H3. ring.
Qed.

Lemma atan2_polar r a :
  0 < r → - PI < a → a <= PI → atan2 (r * sin a) (r * cos a) = a.
Proof.
  intros Hr Hlo Hhi. pose proof PI_RGT_0 as Hpi. unfold atan2.
  destruct (Rlt_dec a (- (PI / 2))) as [H1|H1];
    [|destruct (Req_dec a (- (PI / 2))) as [H2|H2];
      [|destruct (Rlt_dec a (PI / 2)) as [H3|H3];
        [|destruct (Req_dec a (PI / 2)) as [H4|H4]]]].
  - (* third quadrant *)
    assert (Hc : cos a < 0).
    { rewrite <- cos_neg. apply cos_lt_0; rlra. }
    assert (Hs : sin a < 0) by (apply sin_lt_0_var; rlra).
    assert (Hrc : r * cos a < 0) by (apply Rmult_pos_neg; rlra).
    assert (Hrs : r * sin a < 0) by (apply Rmult_pos_neg; rlra).
    case_Rdec.
    replace (r * sin a / (r * cos a)) with (tan (a + PI)).
    + rewrite atan_tan; rlra.
    + unfold tan. rewrite neg_sin, neg_cos. field. split; rlra.
  - subst a. rewrite sin_neg, cos_neg, sin_PI2, cos_PI2.
    replace (r * 0) with 0 by ring.
    assert (r * - 1 < 0) by rlra.
    case_Rdec; reflexivity.
  - assert (Hc : 0 < cos a) by (apply cos_gt_0; rlra).
    assert (Hrc : 0 < r * cos a) by (apply Rmult_lt_0_compat; rlra).
    case_Rdec.
    replace (r * sin a / (r * cos a)) with (tan a).
    + rewrite atan_tan; [reflexivity|rlra].
    + unfold tan. field. split; rlra.
  - subst a. rewrite sin_PI2, cos_PI2.
    replace (r * 0) with 0 by ring.
    assert (0 < r * 1) by rlra.
    case_Rdec; reflexivity.
  - (* second quadrant *)
    assert (Hc : cos a < 0) by (apply cos_lt_0; rlra).
    assert (Hs : 0 <= sin a) by (apply sin_ge_0; rlra).
    assert (Hrc : r * cos a < 0) by (apply Rmult_pos_neg; rlra).
    assert (Hrs : 0 <= r * sin a) by (apply Rmult_le_pos; rlra).
    case_Rdec.
    assert (Es : sin a = - sin (a - PI))
      by (rewrite <- neg_sin; f_equal; rlra).
    assert (Ec : cos a = - cos (a - PI))
      by (rewrite <- neg_cos; f_equal; rlra).
    replace (r * sin a / (r * cos a)) with (tan (a - PI)).
    + rewrite atan_tan; rlra.
    + unfold tan. rewrite Es, Ec. field. split; rlra.
Qed.

Lemma clamp_sin y : clamp (- sin y) (-1) 1 = - sin y.
Proof.
  pose proof (SIN_bound y) as [Hlo Hhi]. unfold clamp.
  rewrite Rmin_right by rlra. rewrite Rmax_right by rlra. reflexivity.
Qed.

(** The extraction after the composition, in radians. *)
Lemma setFromQuaternion_setFromEuler x y z :
  - PI < x → x <= PI → - PI < z → z <= PI →
  Rabs (sin y) < 9999999 / 10000000 →
  (- (PI / 2) < y → y < PI / 2 →
   setFromQuaternion_ZYX (setFromEuler_ZYX (x, y, z)) = (x, y, z)) ∧
  (∀ x' z', PI / 2 < y → y <= PI →
   - PI < x' → x' <= PI → sin x' = - sin x → cos x' = - cos x →
   - PI < z' → z' <= PI → sin z' = - sin z → cos z' = - cos z →
   setFromQuaternion_ZYX (setFromEuler_ZYX (x, y, z)) = (x', PI - y, z')) ∧
  (∀ x' z', - PI < y → y < - (PI / 2) →
   - PI < x' → x' <= PI → sin x' = - sin x → cos x' = - cos x →
   - PI < z' → z' <= PI → sin z' = - sin z → cos z' = - cos z →
   setFromQuaternion_ZYX (setFromEuler_ZYX (x, y, z)) = (x', - PI - y, z')).
Proof.
  intros Hx1 Hx2 Hz1 Hz2 Hreg. pose proof PI_RGT_0 as Hpi.
  destruct (matrix_of_euler x y z) as (E31 & E32 & E33 & E21 & E11).
  unfold setFromQuaternion_ZYX, setFromRotationMatrix_ZYX.
  rewrite E31, E32, E33, E21, E11, clamp_sin, Rabs_Ropp, Ropp_involutive.
  destruct (Rlt_dec (Rabs (sin y)) (9999999 / 10000000)) as [_|]; [|done].
  split; [|split].
  - intros Hy1 Hy2.
    assert (Hc : 0 < cos y) by (apply cos_gt_0; rlra).
    rewrite asin_sin by rlra. by rewrite !atan2_polar.
  - intros x' z' Hy1 Hy2 Hx1' Hx2' Sx Cx Hz1' Hz2' Sz Cz.
    assert (Hc : 0 < - cos y) by (pose proof (cos_lt_0 y); rlra).
    replace (sin y) with (sin (PI - y)) by (rewrite sin_PI_x; reflexivity).
    rewrite asin_sin by rlra.
    replace (cos y * sin x) with (- cos y * sin x') by (rewrite Sx; ring).
    replace (cos y * cos x) with (- cos y * cos x') by (rewrite Cx; ring).
    replace (cos y * sin z) with (- cos y * sin z') by (rewrite Sz; ring).
    replace (cos y * cos z) with (- cos y * cos z') by (rewrite Cz; ring).
    by rewrite !atan2_polar.
  - intros x' z' Hy1 Hy2 Hx1' Hx2' Sx Cx Hz1' Hz2' Sz Cz.
    assert (Hc : 0 < - cos y).
    { pose proof (cos_lt_0 (- y)) as H. rewrite cos_neg in H. rlra. }
    replace (sin y) with (sin (- PI - y)).
    2:{ replace (- PI - y) with (- (PI + y)) by ring.
        rewrite sin_neg, Rplus_comm, neg_sin. ring. }
    rewrite asin_sin by rlra.
    replace (cos y * sin x) with (- cos y * sin x') by (rewrite Sx; ring).
    replace (cos y * cos x) with (- cos y * cos x') by (rewrite Cx; ring).
    replace (cos y * sin z) with (- cos y * sin z') by (rewrite Sz; ring).
    replace (cos y * cos z) with (- cos y * cos z') by (rewrite Cz; ring).
    by rewrite !atan2_polar.
Qed.

Lemma radToDeg_degToRad d : radToDeg (degToRad d) = d.
Proof.
  unfold radToDeg, degToRad, RAD2DEG, DEG2RAD. pose proof PI_RGT_0.
  field. rlra.
Qed.

Lemma degToRad_halfTurn a :
  -180 < a → a <= 180 →
  - PI < degToRad (halfTurn a) ∧ degToRad (halfTurn a) <= PI ∧
  sin (degToRad (halfTurn a)) = - sin (degToRad a) ∧
  cos (degToRad (halfTurn a)) = - cos (degToRad a).
Proof.
  intros H1 H2. pose proof PI_RGT_0 as Hpi.
  unfold halfTurn, degToRad, DEG2RAD.
  destruct (Rle_dec a 0) as [Ha|Ha].
  - replace ((a + 180) * (PI / 180)) with (a * (PI / 180) + PI) by (field; rlra).
    rewrite neg_sin, neg_cos. repeat split; try done.
    + assert (0 < (a + 180) * (PI / 180)); [|rlra].
      apply Rmult_lt_0_compat; rlra.
    + assert (a * (PI / 180) <= 0); [|rlra].
      assert (0 <= - a * (PI / 180)); [|rlra].
      apply Rmult_le_pos; rlra.
  - assert (Es : sin (a * (PI / 180)) = - sin ((a - 180) * (PI / 180))).
    { rewrite <- neg_sin. f_equal. field. }
    assert (Ec : cos (a * (PI / 180)) = - cos ((a - 180) * (PI / 180))).
    { rewrite <- neg_cos. f_equal. field. }
    rewrite Es, Ec. repeat split; try rlra.
    + assert (0 < a * (PI / 180)); [apply Rmult_lt_0_compat; rlra|].
      replace ((a - 180) * (PI / 180)) with (a * (PI / 180) - PI) by (field; rlra).
      rlra.
    + assert (0 <= (180 - a) * (PI / 180)); [apply Rmult_le_pos; rlra|].
      replace ((a - 180) * (PI / 180)) with (- ((180 - a) * (PI / 180))) by (field; rlra).
      rlra.
Qed.

Lemma degToRad_range a b d :
  a < d → d <= b → a * (PI / 180) < degToRad d ∧ degToRad d <= b * (PI / 180).
Proof.
  intros H1 H2. pose proof PI_RGT_0 as Hpi. unfold degToRad, DEG2RAD.
  assert (Hk : 0 < PI / 180) by rlra. split.
  - by apply Rmult_lt_compat_r.
  - apply Rmult_le_compat_r; rlra.
Qed.

(** The library's round trip, on angles within a turn and off its
    gimbal-lock branch: the principal triple of the same orientation. *)
Lemma THREE_eulerRoundTrip r :
  inRange r → THREE.eulerRoundTrip r = principal r.
Proof.
  destruct r as [[x y] z]. intros ((Hx1 & Hx2) & (Hy1 & Hy2) & (Hz1 & Hz2) & Hreg).
  unfold regular in Hreg. cbn [fst snd] in Hreg.
  pose proof PI_RGT_0 as Hpi.
  destruct (degToRad_range _ _ _ Hx1 Hx2) as [Rx1 Rx2].
  destruct (degToRad_range _ _ _ Hy1 Hy2) as [Ry1 Ry2].
  destruct (degToRad_range _ _ _ Hz1 Hz2) as [Rz1 Rz2].
  destruct (setFromQuaternion_setFromEuler (degToRad x) (degToRad y) (degToRad z))
    as (Hmid & Hup & Hdown); try rlra.
  unfold THREE.eulerRoundTrip, principal.
  destruct (Rlt_dec 90 y) as [Hy|Hy]; [|destruct (Rlt_dec y (-90)) as [Hy'|Hy']].
  - destruct (degToRad_halfTurn x Hx1 Hx2) as (? & ? & ? & ?).
    destruct (degToRad_halfTurn z Hz1 Hz2) as (? & ? & ? & ?).
    rewrite (Hup (degToRad (halfTurn x)) (degToRad (halfTurn z))); try done.
    + rewrite !radToDeg_degToRad. f_equal. f_equal.
      replace (PI - degToRad y) with (degToRad (180 - y))
        by (unfold degToRad, DEG2RAD; field).
      by rewrite radToDeg_degToRad.
    + destruct (degToRad_range 90 180 y) as [? _]; rlra.
    + rlra.
  - destruct (degToRad_halfTurn x Hx1 Hx2) as (? & ? & ? & ?).
    destruct (degToRad_halfTurn z Hz1 Hz2) as (? & ? & ? & ?).
    rewrite (Hdown (degToRad (halfTurn x)) (degToRad (halfTurn z))); try done.
    + rewrite !radToDeg_degToRad. f_equal. f_equal.
      replace (- PI - degToRad y) with (degToRad (-180 - y))
        by (unfold degToRad, DEG2RAD; field).
      by rewrite radToDeg_degToRad.
    + rlra.
    + unfold degToRad, DEG2RAD.
      assert (0 < (-90 - y) * (PI / 180)); [apply Rmult_lt_0_compat; rlra|rlra].
  - assert (y ≠ 90).
    { intros ->. replace (degToRad 90) with (PI / 2) in Hreg
        by (unfold degToRad, DEG2RAD; field).
      rewrite sin_PI2, Rabs_R1 in Hreg. rlra. }
    assert (y ≠ -90).
    { intros ->. replace (degToRad (-90)) with (- (PI / 2)) in Hreg
        by (unfold degToRad, DEG2RAD; field).
      rewrite sin_neg, sin_PI2, Rabs_Ropp, Rabs_R1 in Hreg. rlra. }
    rewrite Hmid.
    + by rewrite !radToDeg_degToRad.
    + unfold degToRad, DEG2RAD.
      assert (0 < (y + 90) * (PI / 180)); [apply Rmult_lt_0_compat; rlra|rlra].
    + unfold degToRad, DEG2RAD.
      assert (0 < (90 - y) * (PI / 180)); [apply Rmult_lt_0_compat; rlra|rlra].
Qed.
End Trig.

(** ** The numbers of the model among the reals *)

Lemma toR_num z : toR (num z) = IZR z.
Proof. unfold toR, num, Q2R. simpl. rewrite Rinv_1. apply Rmult_1_r. Qed.

Lemma toR_inj (x y : Qc) : toR x = toR y → x = y.
Proof. intros H. apply Qc_is_canon. by apply eqR_Qeq. Qed.

Lemma toR_lt (x y : Qc) : (x < y)%Qc ↔ (toR x < toR y)%R.
Proof. split; [apply Qlt_Rlt|apply Rlt_Qlt]. Qed.

Lemma toR_le (x y : Qc) : (x ≤ y)%Qc ↔ (toR x <= toR y)%R.
Proof. split; [apply Qle_Rle|apply Rle_Qle]. Qed.

Lemma toR_plus (x y : Qc) : toR (x + y)%Qc = (toR x + toR y)%R.
Proof.
  unfold toR. rewrite <- Q2R_plus. apply Qeq_eqR. simpl. apply Qred_correct.
Qed.

Lemma toR_minus (x y : Qc) : toR (x - y)%Qc = (toR x - toR y)%R.
Proof.
  unfold toR. rewrite <- Q2R_minus. apply Qeq_eqR. unfold Qcminus, Qcopp.
  simpl. rewrite !Qred_correct. reflexivity.
Qed.

Lemma toR_halfTurn a : toR (halfTurn a) = THREE.halfTurn (toR a).
Proof.
  unfold halfTurn, THREE.halfTurn.
  destruct (decide (a ≤ 0)%Qc) as [Ha|Ha]; destruct (Rle_dec (toR a) 0) as [Hr|Hr].
  - by rewrite toR_plus, toR_num.
  - exfalso. apply Hr. apply toR_le in Ha.
    change (toR 0%Qc) with (toR (num 0)) in Ha. by rewrite toR_num in Ha.
  - exfalso. apply Ha. apply toR_le.
    change (toR 0%Qc) with (toR (num 0)). rewrite toR_num. rlra.
  - by rewrite toR_minus, toR_num.
Qed.

Lemma toR3_principalEuler r : toR3 (principalEuler r) = THREE.principal (toR3 r).
Proof.
  destruct r as [[x y] z]. unfold principalEuler, THREE.principal, toR3.
  cbn [fst snd].
  destruct (decide (num 90 < y)%Qc) as [H1|H1];
    destruct (Rlt_dec 90 (toR y)) as [R1|R1].
  - cbn [fst snd]. by rewrite !toR_halfTurn, toR_minus, toR_num.
  - exfalso. apply R1. apply toR_lt in H1. by rewrite toR_num in H1.
  - exfalso. apply H1. apply toR_lt. by rewrite toR_num.
  - destruct (decide (y < num (-90))%Qc) as [H2|H2];
      destruct (Rlt_dec (toR y) (-90)) as [R2|R2].
    + cbn [fst snd]. by rewrite !toR_halfTurn, toR_minus, toR_num.
    + exfalso. apply R2. apply toR_lt in H2. by rewrite toR_num in H2.
    + exfalso. apply H2. apply toR_lt. by rewrite toR_num.
    + done.
Qed.



(** Under the law every library returns the principal triple. *)
Lemma eulerRoundTrip_inRange `{ThreeExact} (r : vec3) :
  THREE.inRange (toR3 r) → eulerRoundTrip r = principalEuler r.
Proof.
  intros Hin. pose proof (three_exact r Hin) as Hlaw.
  rewrite (THREE_eulerRoundTrip _ Hin), <- toR3_principalEuler in Hlaw.
  destruct (eulerRoundTrip r) as [[x' y'] z'].
  destruct (principalEuler r) as [[x y] z].
  unfold toR3 in Hlaw. cbn [fst snd] in Hlaw. injection Hlaw as Ex Ey Ez.
  by rewrite (toR_inj _ _ Ex), (toR_inj _ _ Ey), (toR_inj _ _ Ez).
Qed.





Lemma chainBones_wellFormed : wellFormed chainBones.
Proof.
  split; [by apply (bool_decide_unpack _)|].
  split; repeat constructor.
Qed.





(** C10 (counterexample): the bone "orphan" names the parent "ghost", which
    no bone has.  The export is not rejected: it returns the node of
    "root" alone, and the import of that tree returns a model with the one
    bone "root"; the orphan has been dropped without notice. *)
Lemma dangling_parent_not_rejected :
  dangling orphanBones (plainBone "orphan" (Some "ghost") (0, 12, 0) [armCube]) ∧
  ∃ nodes counter data,
    @buildHytaleNodeTree sampleThree 3 orphanBones None zero3 (num 64, num 64) 0
      = Some (nodes, counter) ∧
    map node_name nodes = ["root"] ∧
    bedrockData (@convertHytaleToBedrock sampleThree
                   {| nodes := nodes; modelName := None |} "orphan.blockymodel")
      = Some data ∧
    map name (bones data) = ["root"].
Proof.
  split.
  - exists "ghost". split; [done|]. split; [done|].
    intros Hin. by repeat (apply elem_of_cons in Hin as [?|Hin]; [done|]);
      inversion Hin.
  - eexists _, _, _. split; [vm_compute; reflexivity|].
    split; [reflexivity|]. split; [vm_compute; reflexivity|]. reflexivity.
Qed.

(** C10 (amended): for a model with unique, non-empty bone names, a bone
    whose parent name matches no bone does not make the conversion fail.
    Whatever the parent references are, [buildHytaleNodeTree] returns a
    node tree (for every recursion depth above the number of bones, always
    the same), and [convertHytaleToBedrock] of that tree holds every bone
    that reaches a root through its parent references, under its name,
    with its absolute pivot and the absolute origins of its cubes.  The
    statement is silent on the bones that reach no root. *)
Theorem dangling_parent_rest_converted `{Three} (bs : list ModelBone)
    (textureSize : vec2) (modelName : option string) (filename : string) :
  NoDup (map name bs) → Forall (fun b => truthy (name b) = true) bs →
  ∃ nodes counter data,
    (∀ fuel, (length bs < fuel)%nat →
       buildHytaleNodeTree fuel bs None zero3 textureSize 0
       = Some (nodes, counter)) ∧
    bedrockData (convertHytaleToBedrock
                   {| nodes := nodes; modelName := modelName |} filename)
    = Some data ∧
    ∀ b d, b ∈ bs → Depth bs b d →
      ∃ i b',
        getBone (bones data) (name b) = Some (i, b') ∧
        bone_pivot b' = bone_pivot b ∧
        map origin (cubes b') = map origin (cubes b).
Proof.
  intros Hnd Ht.
  destruct (roundtrip_bones bs textureSize modelName filename Hnd Ht)
    as (nodes & counter & data & Hbuild & Hdata & Hnames & _ & Hin).
  exists nodes, counter, data. split; [done|]. split; [done|].
  intros b d Hb Hd.
  assert (Hb' : reimportBone b ∈ bones data) by (apply Hin; eauto).
  destruct (getBone_elem (bones data) Hnames _ Hb') as [i Hi].
  exists i, (reimportBone b). split; [done|]. split; [done|].
  cbn [reimportBone cubes]. rewrite map_map. by apply map_ext.
Qed.

Lemma dangling_parent_rest_converted_witness :
  dangling orphanBones (plainBone "orphan" (Some "ghost") (0, 12, 0) [armCube]) ∧
  ∃ nodes counter data,
    (∀ fuel, (length orphanBones < fuel)%nat →
       @buildHytaleNodeTree sampleThree fuel orphanBones None zero3
         (num 64, num 64) 0
       = Some (nodes, counter)) ∧
    bedrockData (@convertHytaleToBedrock sampleThree
                   {| nodes := nodes; modelName := None |} "orphan.blockymodel")
    = Some data ∧
    ∀ b d, b ∈ orphanBones → Depth orphanBones b d →
      ∃ i b',
        getBone (bones data) (name b) = Some (i, b') ∧
        bone_pivot b' = bone_pivot b ∧
        map origin (cubes b') = map origin (cubes b).
Proof.
  split.
  - exists "ghost". split; [done|]. split; [done|].
    intros Hin. by repeat (apply elem_of_cons in Hin as [?|Hin]; [done|]);
      inversion Hin.
  - apply (@dangling_parent_rest_converted sampleThree orphanBones
             (num 64, num 64) None "orphan.blockymodel").
    + by apply (bool_decide_unpack _).
    + repeat constructor.
Defined.

(** ** The object store: a small program logic *)

Lemma wp_ret {A} (a : A) Q s : Q a s → wp (Heap.ret a) Q s.
Proof. intros HQ. by exists a, s. Qed.

Lemma wp_bind {A B} (m : Heap.M A) (k : A → Heap.M B) Q s :
  wp m (fun a s1 => wp (k a) Q s1) s → wp (Heap.bind m k) Q s.
Proof.
  intros (a & s1 & Hm & b & s2 & Hk & HQ). exists b, s2.
  unfold Heap.bind. by rewrite Hm.
Qed.

Lemma wp_mono {A} (m : Heap.M A) (Q Q' : A → Heap.Store → Prop) s :
  wp m Q s → (∀ a s', Q a s' → Q' a s') → wp m Q' s.
Proof. intros (a & s' & Hm & HQ) Himp. exists a, s'. auto. Qed.

Lemma wp_readModel l o Q s :
  Heap.modelObjs s !! l = Some o → Q o s → wp (Heap.readModel l) Q s.
Proof. intros Hl HQ. exists o, s. unfold Heap.readModel. by rewrite Hl. Qed.

Lemma wp_readCube l o Q s :
  Heap.cubeObjs s !! l = Some o → Q o s → wp (Heap.readCube l) Q s.
Proof. intros Hl HQ. exists o, s. unfold Heap.readCube. by rewrite Hl. Qed.

Lemma wp_readUV l a Q s :
  Heap.uvArrays s !! l = Some a → Q a s → wp (Heap.readUV l) Q s.
Proof. intros Hl HQ. exists a, s. unfold Heap.readUV. by rewrite Hl. Qed.

Lemma wp_newUV a (Q : Heap.loc → Heap.Store → Prop) s :
  Q (length (Heap.uvArrays s))
    {| Heap.modelObjs := Heap.modelObjs s; Heap.cubeObjs := Heap.cubeObjs s;
       Heap.uvArrays := Heap.uvArrays s ++ [a] |} →
  wp (Heap.newUV a) Q s.
Proof. intros HQ. by eexists _, _. Qed.

Lemma wp_newCube o (Q : Heap.loc → Heap.Store → Prop) s :
  Q (length (Heap.cubeObjs s))
    {| Heap.modelObjs := Heap.modelObjs s;
       Heap.cubeObjs := Heap.cubeObjs s ++ [o];
       Heap.uvArrays := Heap.uvArrays s |} →
  wp (Heap.newCube o) Q s.
Proof. intros HQ. by eexists _, _. Qed.

Lemma wp_newModel o (Q : Heap.loc → Heap.Store → Prop) s :
  Q (length (Heap.modelObjs s))
    {| Heap.modelObjs := Heap.modelObjs s ++ [o];
       Heap.cubeObjs := Heap.cubeObjs s;
       Heap.uvArrays := Heap.uvArrays s |} →
  wp (Heap.newModel o) Q s.
Proof. intros HQ. by eexists _, _. Qed.

Lemma wp_writeUVRef l r o (Q : unit → Heap.Store → Prop) s :
  Heap.cubeObjs s !! l = Some o →
  Q tt {| Heap.modelObjs := Heap.modelObjs s;
          Heap.cubeObjs :=
            <[l := {| Heap.plain := Heap.plain o; Heap.uvRef := r |}]>
              (Heap.cubeObjs s);
          Heap.uvArrays := Heap.uvArrays s |} →
  wp (Heap.writeUVRef l r) Q s.
Proof.
  intros Hl HQ. eexists tt, _. unfold Heap.writeUVRef. rewrite Hl. done.
Qed.

Lemma wp_writeTextureSize l ts o d (Q : unit → Heap.Store → Prop) s :
  Heap.modelObjs s !! l = Some o → Heap.m_bedrockData o = Some d →
  Q tt {| Heap.modelObjs :=
            <[l := {| Heap.m_type := Heap.m_type o;
                      Heap.m_loader := Heap.m_loader o;
                      Heap.m_bedrockData :=
                        Some {| Heap.b_format_version := Heap.b_format_version d;
                                Heap.b_identifier := Heap.b_identifier d;
                                Heap.b_texture_size := Some ts;
                                Heap.b_bones := Heap.b_bones d |};
                      Heap.m_identifier := Heap.m_identifier o;
                      Heap.m_payload := Heap.m_payload o |}]>
              (Heap.modelObjs s);
          Heap.cubeObjs := Heap.cubeObjs s;
          Heap.uvArrays := Heap.uvArrays s |} →
  wp (Heap.writeTextureSize l ts) Q s.
Proof.
  intros Hl Hd HQ. eexists tt, _. unfold Heap.writeTextureSize.
  rewrite Hl, Hd. done.
Qed.

(** *** Primitive steps keep the invariants *)

Lemma prefix_snoc {A} (l k : list A) x : l `prefix_of` k → l `prefix_of` k ++ [x].
Proof. apply prefix_app_r. Qed.

Lemma prefix_insert_ge {A} (l k : list A) i x :
  l `prefix_of` k → (length l ≤ i)%nat → l `prefix_of` <[i := x]> k.
Proof.
  intros [k' ->] Hi. rewrite insert_app_r_alt by done. by apply prefix_app_r.
Qed.

Lemma lookup_snoc_Some {A} (l : list A) x i y :
  (l ++ [x]) !! i = Some y →
  (i < length l ∧ l !! i = Some y)%nat ∨ (i = length l ∧ y = x).
Proof.
  intros Hl. destruct (decide (i < length l)%nat) as [Hlt|Hge].
  - left. by rewrite lookup_app_l in Hl.
  - right. rewrite lookup_app_r in Hl by lia.
    destruct (i - length l)%nat as [|n] eqn:E; simpl in Hl; [|done].
    injection Hl as <-. split; [lia|done].
Qed.

Lemma ExtInv_refl s : Heap.wellFormed s → ExtInv s s.
Proof.
  intros Hwf. split; [done|]. split; [done|].
  intros l o r Hl Ho _. apply lookup_lt_Some in Ho. lia.
Qed.

Lemma ExtInv_lengths s0 s :
  ExtInv s0 s →
  (length (Heap.modelObjs s0) ≤ length (Heap.modelObjs s) ∧
   length (Heap.cubeObjs s0) ≤ length (Heap.cubeObjs s) ∧
   length (Heap.uvArrays s0) ≤ length (Heap.uvArrays s))%nat.
Proof. intros ((H1 & H2 & H3) & _). auto using prefix_length. Qed.

Lemma ExtInv_newUV s0 s a :
  ExtInv s0 s →
  ExtInv s0 {| Heap.modelObjs := Heap.modelObjs s; Heap.cubeObjs := Heap.cubeObjs s;
               Heap.uvArrays := Heap.uvArrays s ++ [a] |}.
Proof.
  intros ((H1 & H2 & H3) & (Hc & Hm) & Hf). split; [|split].
  - split; [done|]. split; [done|]. by apply prefix_snoc.
  - split; simpl.
    + intros i o r Hi Hr. rewrite length_app. simpl.
      pose proof (Hc i o r Hi Hr). lia.
    + exact Hm.
  - exact Hf.
Qed.

Lemma ExtInv_newCube s0 s o :
  ExtInv s0 s →
  (∀ r, Heap.uvRef o = Some r →
        (length (Heap.uvArrays s0) ≤ r < length (Heap.uvArrays s))%nat) →
  ExtInv s0 {| Heap.modelObjs := Heap.modelObjs s;
               Heap.cubeObjs := Heap.cubeObjs s ++ [o];
               Heap.uvArrays := Heap.uvArrays s |}.
Proof.
  intros ((H1 & H2 & H3) & (Hc & Hm) & Hf) Ho. split; [|split].
  - split; [done|]. split; [by apply prefix_snoc|done].
  - split; simpl.
    + intros i o' r Hi Hr. apply lookup_snoc_Some in Hi as [[_ Hi]|[_ ->]].
      * by apply (Hc i o' r).
      * apply Ho in Hr. lia.
    + intros i mo d b l Hi Hd Hb Hl. rewrite length_app. simpl.
      pose proof (Hm i mo d b l Hi Hd Hb Hl). lia.
  - intros l o' r Hl Hi Hr. simpl in Hi.
    apply lookup_snoc_Some in Hi as [[_ Hi]|[_ ->]].
    + by apply (Hf l o' r).
    + apply Ho in Hr. lia.
Qed.

Lemma ExtInv_newModel s0 s o :
  ExtInv s0 s →
  Forall (fun l => (l < length (Heap.cubeObjs s))%nat) (Heap.cubeLocs o) →
  ExtInv s0 {| Heap.modelObjs := Heap.modelObjs s ++ [o];
               Heap.cubeObjs := Heap.cubeObjs s;
               Heap.uvArrays := Heap.uvArrays s |}.
Proof.
  intros ((H1 & H2 & H3) & (Hc & Hm) & Hf) Ho. split; [|split].
  - split; [by apply prefix_snoc|done].
  - split; simpl; [exact Hc|].
    intros i mo d b l Hi Hd Hb Hl.
    apply lookup_snoc_Some in Hi as [[_ Hi]|[_ ->]].
    + by apply (Hm i mo d b l).
    + rewrite list.Forall_forall in Ho. apply Ho.
      unfold Heap.cubeLocs. rewrite Hd. simpl.
      apply list_elem_of_In, in_concat. exists (Heap.cubeRefs b).
      split; [apply in_map|]; by apply list_elem_of_In.
  - exact Hf.
Qed.

Lemma ExtInv_writeUVRef s0 s l o r :
  ExtInv s0 s → Heap.cubeObjs s !! l = Some o →
  (length (Heap.cubeObjs s0) ≤ l)%nat →
  (∀ r', r = Some r' →
         (length (Heap.uvArrays s0) ≤ r' < length (Heap.uvArrays s))%nat) →
  ExtInv s0 {| Heap.modelObjs := Heap.modelObjs s;
               Heap.cubeObjs :=
                 <[l := {| Heap.plain := Heap.plain o; Heap.uvRef := r |}]>
                   (Heap.cubeObjs s);
               Heap.uvArrays := Heap.uvArrays s |}.
Proof.
  intros ((H1 & H2 & H3) & (Hc & Hm) & Hf) Hl Hge Hr. split; [|split].
  - split; [done|]. split; [by apply prefix_insert_ge|done].
  - split; simpl.
    + intros i o' r' Hi Hr'. destruct (decide (l = i)) as [->|Hne].
      * rewrite list_lookup_insert_eq in Hi by (by eapply lookup_lt_Some).
        injection Hi as <-. simpl in Hr'. apply Hr in Hr'. lia.
      * rewrite list_lookup_insert_ne in Hi by done. by apply (Hc i o' r').
    + intros i mo d b l' Hi Hd Hb Hl'. rewrite length_insert.
      by apply (Hm i mo d b l').
  - intros i o' r' Hi Hlook Hr'. simpl in Hlook.
    destruct (decide (l = i)) as [->|Hne].
    + rewrite list_lookup_insert_eq in Hlook by (by eapply lookup_lt_Some).
      injection Hlook as <-. simpl in Hr'. apply Hr in Hr'. lia.
    + rewrite list_lookup_insert_ne in Hlook by done. by apply (Hf i o' r').
Qed.

Lemma ExtInv_writeModel s0 s l o o' :
  ExtInv s0 s → Heap.modelObjs s !! l = Some o →
  (length (Heap.modelObjs s0) ≤ l)%nat →
  Heap.b_bones <$> Heap.m_bedrockData o' = Heap.b_bones <$> Heap.m_bedrockData o →
  ExtInv s0 {| Heap.modelObjs := <[l := o']> (Heap.modelObjs s);
               Heap.cubeObjs := Heap.cubeObjs s;
               Heap.uvArrays := Heap.uvArrays s |}.
Proof.
  intros ((H1 & H2 & H3) & (Hc & Hm) & Hf) Hl Hge Hb. split; [|split].
  - split; [by apply prefix_insert_ge|done].
  - split; simpl; [exact Hc|].
    intros i mo d b l' Hi Hd Hbin Hl'. destruct (decide (l = i)) as [->|Hne].
    + rewrite list_lookup_insert_eq in Hi by (by eapply lookup_lt_Some).
      injection Hi as <-. rewrite Hd in Hb. simpl in Hb.
      destruct (Heap.m_bedrockData o) as [d0|] eqn:Hd0; [|done].
      injection Hb as Hb. apply (Hm i o d0 b l'); [done|done| |done].
      by rewrite <- Hb.
    + rewrite list_lookup_insert_ne in Hi by done. by apply (Hm i mo d b l').
  - exact Hf.
Qed.

(** *** Copying a model *)

Lemma viewCube_is_Some s l :
  Heap.wellFormed s → (l < length (Heap.cubeObjs s))%nat →
  is_Some (Heap.viewCube s l).
Proof.
  intros [Hc _] Hl. unfold Heap.viewCube.
  destruct (lookup_lt_is_Some_2 _ _ Hl) as [o Ho]. rewrite Ho. simpl.
  destruct (Heap.uvRef o) as [r|] eqn:Hr; [|by eexists].
  destruct (lookup_lt_is_Some_2 _ _ (Hc l o r Ho Hr)) as [a Ha].
  rewrite Ha. by eexists.
Qed.

Lemma viewCube_extends s s' l c :
  Heap.extends s s' → Heap.viewCube s l = Some c → Heap.viewCube s' l = Some c.
Proof.
  intros (_ & Hcubes & Huvs). unfold Heap.viewCube.
  destruct (Heap.cubeObjs s !! l) as [o|] eqn:Ho; [|done]. simpl.
  rewrite (prefix_lookup_Some _ _ _ _ Ho Hcubes). simpl.
  destruct (Heap.uvRef o) as [r|]; [|done].
  destruct (Heap.uvArrays s !! r) as [a|] eqn:Ha; [|done]. simpl.
  by rewrite (prefix_lookup_Some _ _ _ _ Ha Huvs).
Qed.

Lemma extends_trans s1 s2 s3 :
  Heap.extends s1 s2 → Heap.extends s2 s3 → Heap.extends s1 s3.
Proof.
  intros (H1 & H2 & H3) (H1' & H2' & H3').
  split; [by etrans|]. split; by etrans.
Qed.

Lemma cubeCopy_later s s1 s2 l l' :
  Heap.wellFormed s → (l < length (Heap.cubeObjs s))%nat →
  cubeCopy s s1 l l' → Heap.extends s1 s2 → cubeCopy s s2 l l'.
Proof.
  intros Hwf Hl [Hv Hr] Hext. destruct (viewCube_is_Some s l Hwf Hl) as [c Hc].
  split.
  - rewrite Hc in Hv |- *. by apply (viewCube_extends s1).
  - destruct Hext as (_ & Hp & _). apply prefix_length in Hp. lia.
Qed.

Lemma cubeCopy_earlier s s1 s2 l l' :
  Heap.wellFormed s → (l < length (Heap.cubeObjs s))%nat →
  Heap.extends s s1 → cubeCopy s1 s2 l l' → cubeCopy s s2 l l'.
Proof.
  intros Hwf Hl Hext [Hv Hr]. destruct (viewCube_is_Some s l Hwf Hl) as [c Hc].
  split.
  - by rewrite Hv, Hc, (viewCube_extends s s1 l c Hext Hc).
  - destruct Hext as (_ & Hp & _). apply prefix_length in Hp. lia.
Qed.

Lemma cloneCube_wp s0 s l :
  ExtInv s0 s → (l < length (Heap.cubeObjs s))%nat →
  wp (Heap.cloneCube l)
     (fun l' s' => ExtInv s0 s' ∧ Heap.extends s s' ∧
                   Heap.modelObjs s' = Heap.modelObjs s ∧ cubeCopy s s' l l') s.
Proof.
  intros Hinv Hl. pose proof Hinv as (_ & [Hc _] & _).
  pose proof (ExtInv_lengths _ _ Hinv) as (_ & _ & Hlen).
  destruct (lookup_lt_is_Some_2 _ _ Hl) as [o Ho].
  unfold Heap.cloneCube. apply wp_bind, (wp_readCube l o); [done|].
  destruct (Heap.uvRef o) as [r|] eqn:Hr.
  - pose proof (Hc l o r Ho Hr) as Hrlt.
    destruct (lookup_lt_is_Some_2 _ _ Hrlt) as [a Ha].
    apply wp_bind, (wp_readUV r a); [done|].
    apply wp_bind, wp_newUV, wp_newCube.
    split; [|split; [|split; [done|split]]].
    + apply ExtInv_newCube; [by apply ExtInv_newUV|]. simpl.
      intros r' [= <-]. rewrite length_app. simpl. lia.
    + split; [done|]. split; simpl; by apply prefix_app_r.
    + unfold Heap.viewCube. simpl. rewrite list_lookup_middle by done.
      rewrite Ho. simpl. rewrite Hr, Ha, list_lookup_middle by done. done.
    + simpl. rewrite length_app. simpl. lia.
  - apply wp_newCube. split; [|split; [|split; [done|split]]].
    + by apply ExtInv_newCube.
    + split; [done|]. split; simpl; [by apply prefix_app_r|done].
    + unfold Heap.viewCube. simpl. rewrite list_lookup_middle by done.
      rewrite Ho. simpl. by rewrite Hr.
    + simpl. rewrite length_app. simpl. lia.
Qed.

Lemma cloneCubes_wp s0 ls : ∀ s,
  ExtInv s0 s → Forall (fun l => (l < length (Heap.cubeObjs s))%nat) ls →
  wp (Heap.mapEach Heap.cloneCube ls)
     (fun ls' s' => ExtInv s0 s' ∧ Heap.extends s s' ∧
                    Heap.modelObjs s' = Heap.modelObjs s ∧
                    Forall2 (cubeCopy s s') ls ls') s.
Proof.
  induction ls as [|l ls IH]; intros s Hinv Hls.
  - apply wp_ret. split; [done|]. split; [done|]. split; [done|constructor].
  - inversion_clear Hls as [|? ? Hl Hrest]. simpl.
    apply wp_bind. eapply wp_mono; [by apply (cloneCube_wp s0)|].
    intros l' s1 (Hinv1 & Hext1 & Hm1 & Hcopy1). simpl.
    pose proof Hext1 as (_ & Hp & _). apply prefix_length in Hp.
    apply wp_bind. eapply wp_mono; [apply (IH s1 Hinv1)|].
    + eapply Forall_impl; [exact Hrest|]. simpl. intros; lia.
    + intros ls' s2 (Hinv2 & Hext2 & Hm2 & Hcopies). simpl. apply wp_ret.
      pose proof Hinv as (_ & Hwf & _).
      split; [done|]. split; [by apply (extends_trans s s1)|].
      split; [congruence|]. constructor.
      * by apply (cubeCopy_later s s1).
      * clear -Hwf Hrest Hext1 Hcopies.
        induction Hcopies as [|x y xs ys Hxy Hrec IHc]; [constructor|].
        inversion_clear Hrest as [|? ? Hx Hxs]. constructor; [|by apply IHc].
        by apply (cubeCopy_earlier s s1).
Qed.

Lemma cloneBone_wp s0 s b :
  ExtInv s0 s →
  Forall (fun l => (l < length (Heap.cubeObjs s))%nat) (Heap.cubeRefs b) →
  wp (Heap.cloneBone b)
     (fun b' s' => ExtInv s0 s' ∧ Heap.extends s s' ∧
                   Heap.modelObjs s' = Heap.modelObjs s ∧ boneCopy s s' b b') s.
Proof.
  intros Hinv Hb. unfold Heap.cloneBone. apply wp_bind.
  eapply wp_mono; [by apply (cloneCubes_wp s0)|].
  intros ls' s' (Hinv' & Hext & Hm & Hcopies). simpl. apply wp_ret.
  split; [done|]. split; [done|]. split; [done|]. by split.
Qed.

Lemma boneCopy_later s s1 s2 b b' :
  Heap.wellFormed s →
  Forall (fun l => (l < length (Heap.cubeObjs s))%nat) (Heap.cubeRefs b) →
  boneCopy s s1 b b' → Heap.extends s1 s2 → boneCopy s s2 b b'.
Proof.
  intros Hwf Hb [Hbone Hcopies] Hext. split; [done|].
  induction Hcopies as [|x y xs ys Hxy Hrec IHc]; [constructor|].
  inversion_clear Hb as [|? ? Hx Hxs]. constructor; [|by apply IHc].
  by apply (cubeCopy_later s s1).
Qed.

Lemma boneCopy_earlier s s1 s2 b b' :
  Heap.wellFormed s →
  Forall (fun l => (l < length (Heap.cubeObjs s))%nat) (Heap.cubeRefs b) →
  Heap.extends s s1 → boneCopy s1 s2 b b' → boneCopy s s2 b b'.
Proof.
  intros Hwf Hb Hext [Hbone Hcopies]. split; [done|].
  induction Hcopies as [|x y xs ys Hxy Hrec IHc]; [constructor|].
  inversion_clear Hb as [|? ? Hx Hxs]. constructor; [|by apply IHc].
  by apply (cubeCopy_earlier s s1).
Qed.

Lemma cloneBones_wp s0 bs : ∀ s,
  ExtInv s0 s →
  Forall (fun b => Forall (fun l => (l < length (Heap.cubeObjs s))%nat)
                          (Heap.cubeRefs b)) bs →
  wp (Heap.mapEach Heap.cloneBone bs)
     (fun bs' s' => ExtInv s0 s' ∧ Heap.extends s s' ∧
                    Heap.modelObjs s' = Heap.modelObjs s ∧
                    Forall2 (boneCopy s s') bs bs') s.
Proof.
  induction bs as [|b bs IH]; intros s Hinv Hbs.
  - apply wp_ret. split; [done|]. split; [done|]. split; [done|constructor].
  - inversion_clear Hbs as [|? ? Hb Hrest]. simpl.
    apply wp_bind. eapply wp_mono; [by apply (cloneBone_wp s0)|].
    intros b' s1 (Hinv1 & Hext1 & Hm1 & Hcopy1). simpl.
    pose proof Hext1 as (_ & Hp & _). apply prefix_length in Hp.
    apply wp_bind. eapply wp_mono; [apply (IH s1 Hinv1)|].
    + eapply Forall_impl; [exact Hrest|]. simpl. intros b0 Hb0.
      eapply Forall_impl; [exact Hb0|]. simpl. intros; lia.
    + intros bs' s2 (Hinv2 & Hext2 & Hm2 & Hcopies). simpl. apply wp_ret.
      pose proof Hinv as (_ & Hwf & _).
      split; [done|]. split; [by apply (extends_trans s s1)|].
      split; [congruence|]. constructor.
      * by apply (boneCopy_later s s1).
      * clear -Hwf Hrest Hext1 Hcopies.
        induction Hcopies as [|x y xs ys Hxy Hrec IHc]; [constructor|].
        inversion_clear Hrest as [|? ? Hx Hxs]. constructor; [|by apply IHc].
        by apply (boneCopy_earlier s s1).
Qed.

Lemma boneCopies_range s s' bs bs' :
  Forall2 (boneCopy s s') bs bs' →
  Forall (fun l => (length (Heap.cubeObjs s) ≤ l < length (Heap.cubeObjs s'))%nat)
         (concat (map Heap.cubeRefs bs')).
Proof.
  induction 1 as [|b b' bs bs' [_ Hb] _ IH]; simpl; [constructor|].
  apply Forall_app. split; [|exact IH].
  clear -Hb. induction Hb as [|l l' ls ls' [_ Hl] _ IHl]; by constructor.
Qed.

Lemma modelCopy_range s s' o o' :
  modelCopy s s' o o' →
  Forall (fun l => (length (Heap.cubeObjs s) ≤ l < length (Heap.cubeObjs s'))%nat)
         (Heap.cubeLocs o').
Proof.
  intros (_ & _ & _ & _ & Hd). unfold Heap.cubeLocs.
  destruct (Heap.m_bedrockData o) as [d|], (Heap.m_bedrockData o') as [d'|];
    simpl; try done.
  destruct Hd as (_ & _ & _ & Hbs). by apply (boneCopies_range s s' (Heap.b_bones d)).
Qed.

Lemma wellFormed_bones s l o d :
  Heap.wellFormed s → Heap.modelObjs s !! l = Some o →
  Heap.m_bedrockData o = Some d →
  Forall (fun b => Forall (fun c => (c < length (Heap.cubeObjs s))%nat)
                          (Heap.cubeRefs b)) (Heap.b_bones d).
Proof.
  intros [_ Hm] Hl Hd. apply list.Forall_forall. intros b Hb.
  apply list.Forall_forall. intros c Hc. by apply (Hm l o d b c).
Qed.

Lemma cloneModel_wp s l o :
  Heap.wellFormed s → Heap.modelObjs s !! l = Some o →
  wp (Heap.cloneModel l)
     (fun l' s' => ∃ o', ExtInv s s' ∧ l' = length (Heap.modelObjs s) ∧
                         Heap.modelObjs s' = Heap.modelObjs s ++ [o'] ∧
                         modelCopy s s' o o') s.
Proof.
  intros Hwf Hl. unfold Heap.cloneModel.
  apply wp_bind, (wp_readModel l o); [done|].
  destruct (Heap.m_bedrockData o) as [d|] eqn:Hd.
  - apply wp_bind. eapply wp_mono.
    { apply (cloneBones_wp s); [by apply ExtInv_refl|].
      by apply (wellFormed_bones s l o d). }
    intros bs' s1 (Hinv1 & Hext1 & Hm1 & Hcopies). simpl.
    apply wp_newModel. eexists. split; [|split; [|split]].
    + apply ExtInv_newModel; [done|]. unfold Heap.cubeLocs. simpl.
      eapply Forall_impl; [by apply (boneCopies_range s s1 (Heap.b_bones d))|].
      simpl. intros; lia.
    + by rewrite Hm1.
    + simpl. by rewrite Hm1.
    + unfold modelCopy. simpl. rewrite Hd. simpl.
      split; [done|]. split; [done|]. split; [done|]. split; [done|].
      split; [done|]. split; [done|]. split; [done|]. exact Hcopies.
  - apply wp_newModel. exists o. split; [|split; [|split]].
    + apply ExtInv_newModel; [by apply ExtInv_refl|].
      unfold Heap.cubeLocs. rewrite Hd. constructor.
    + done.
    + done.
    + unfold modelCopy. rewrite Hd.
      split; [done|]. split; [done|]. split; [done|]. by split.
Qed.

(** *** Loops *)

Lemma forEach_wp {A} (f : A → Heap.M unit) (I : Heap.Store → Prop)
    (P : A → Prop) xs :
  (∀ x s, P x → I s → wp (f x) (fun _ s' => I s') s) →
  Forall P xs → ∀ s, I s → wp (Heap.forEach f xs) (fun _ s' => I s') s.
Proof.
  intros Hf. induction 1 as [|x xs Hx _ IH]; intros s Hs.
  - by apply wp_ret.
  - cbn [Heap.forEach]. apply wp_bind. eapply wp_mono; [by apply Hf|].
    intros [] s1 Hs1. by apply IH.
Qed.

(** *** [scaleModelUVs] writes to the copy only *)

Lemma scaleCube_wp s0 s sx sy l :
  ExtInv s0 s →
  (length (Heap.cubeObjs s0) ≤ l < length (Heap.cubeObjs s))%nat →
  wp (Heap.scaleCube sx sy l)
     (fun _ s' => ExtInv s0 s' ∧ Heap.modelObjs s' = Heap.modelObjs s ∧
                  length (Heap.cubeObjs s') = length (Heap.cubeObjs s)) s.
Proof.
  intros Hinv [Hge Hlt]. pose proof Hinv as (_ & [Hc _] & _).
  pose proof (ExtInv_lengths _ _ Hinv) as (_ & _ & Hlen).
  destruct (lookup_lt_is_Some_2 _ _ Hlt) as [o Ho].
  unfold Heap.scaleCube. apply wp_bind, (wp_readCube l o); [done|].
  destruct (Heap.uvRef o) as [r|] eqn:Hr; [|by apply wp_ret].
  destruct (lookup_lt_is_Some_2 _ _ (Hc l o r Ho Hr)) as [a Ha].
  apply wp_bind, (wp_readUV r a); [done|].
  apply wp_bind, wp_newUV, (wp_writeUVRef l _ o); [done|].
  split; [|split; [done|]].
  - apply (ExtInv_writeUVRef s0 _ l o); [by apply ExtInv_newUV|done|done|].
    simpl. intros r' [= <-]. rewrite length_app. simpl. lia.
  - simpl. by rewrite length_insert.
Qed.

Lemma scaleModelUVs_frame s model o newWidth newHeight :
  Heap.wellFormed s → Heap.modelObjs s !! model = Some o →
  wp (Heap.scaleModelUVs model newWidth newHeight)
     (fun m' s' =>
        Heap.extends s s' ∧
        ((Heap.sameSize o newWidth newHeight ∧ m' = model ∧ s' = s) ∨
         (¬ Heap.sameSize o newWidth newHeight ∧ Heap.freshModel s s' m'))) s.
Proof.
  intros Hwf Hl. unfold Heap.scaleModelUVs.
  apply wp_bind, (wp_readModel model o); [done|].
  unfold Heap.sameSize. destruct (Heap.m_bedrockData o) as [d|] eqn:Hd;
    [|apply wp_ret; split; [done|by left]].
  destruct (default (num MIN_TEXTURE_SIZE, num MIN_TEXTURE_SIZE)
              (Heap.b_texture_size d)) as [oldW oldH] eqn:E.
  destruct (bool_decide (oldW = newWidth) && bool_decide (oldH = newHeight))
    eqn:Eb.
  { apply andb_true_iff in Eb as [H1%bool_decide_eq_true H2%bool_decide_eq_true].
    apply wp_ret. split; [done|]. left. by rewrite H1, H2. }
  assert (Hne : (oldW, oldH) ≠ (newWidth, newHeight)).
  { intros [= -> ->]. by rewrite !bool_decide_eq_true_2 in Eb. }
  apply wp_bind. eapply wp_mono; [by apply (cloneModel_wp s model o)|].
  intros m' s1 (o' & Hinv1 & -> & Hm1 & Hcopy). simpl.
  pose proof Hcopy as (_ & _ & _ & _ & Hdata). rewrite Hd in Hdata.
  destruct (Heap.m_bedrockData o') as [d'|] eqn:Hd'; [|done].
  destruct Hdata as (_ & _ & _ & Hbones).
  assert (Hm' : Heap.modelObjs s1 !! length (Heap.modelObjs s) = Some o')
    by (by rewrite Hm1, list_lookup_middle).
  apply wp_bind, (wp_writeTextureSize _ _ o' d'); [done|done|].
  match goal with |- context [<[_ := ?x]> _] => set (o2 := x) end.
  match goal with |- wp _ _ ?st => set (s2 := st) end.
  assert (Hinv2 : ExtInv s s2).
  { apply (ExtInv_writeModel s s1 _ o'); [done|done|done|]. simpl.
    by rewrite Hd'. }
  assert (Hm2 : Heap.modelObjs s2 !! length (Heap.modelObjs s) = Some o2).
  { simpl. apply list_lookup_insert_eq. by eapply lookup_lt_Some. }
  apply wp_bind, (wp_readModel _ o2); [done|].
  pose proof (boneCopies_range s s1 _ _ Hbones) as Hrange.
  apply wp_bind. cbn [Heap.m_bedrockData o2 fmap option_fmap option_map default
                       Heap.b_bones].
  eapply wp_mono.
  { apply (forEach_wp _
             (fun st => ExtInv s st ∧ Heap.modelObjs st = Heap.modelObjs s2 ∧
                        length (Heap.cubeObjs st) = length (Heap.cubeObjs s1))
             (fun b => Forall (fun c => (length (Heap.cubeObjs s) ≤ c
                                         < length (Heap.cubeObjs s1))%nat)
                              (Heap.cubeRefs b))).
    - intros b st Hb Hst. revert st Hst. apply forEach_wp with
        (P := fun c => (length (Heap.cubeObjs s) ≤ c
                        < length (Heap.cubeObjs s1))%nat); [|done].
      intros c st Hc (Hi & Hmo & Hlen). eapply wp_mono.
      + apply (scaleCube_wp s st); [done|lia].
      + simpl. intros [] st' (Hi' & Hmo' & Hlen'). split; [done|].
        split; [by rewrite Hmo'|by rewrite Hlen'].
    - clear -Hbones. induction Hbones as [|b b' bs bs' [_ Hb] _ IH];
        constructor; [|done].
      clear -Hb. induction Hb as [|c c' cs cs' [_ Hc] _ IHc]; by constructor.
    - done. }
  simpl. intros [] s3 (Hinv3 & Hmo3 & Hlen3). apply wp_ret.
  split; [by destruct Hinv3|]. right. split; [done|].
  split; [|by destruct Hinv3 as (_ & _ & ?)].
  split; [done|]. exists o2. split; [by rewrite Hmo3|].
  unfold Heap.cubeLocs. simpl. by rewrite Hlen3.
Qed.

(** *** [packUVs]: what is left untouched *)

Lemma extends_grows s s' : Heap.extends s s' → Heap.grows s s'.
Proof.
  intros (H1 & [k Hk] & H3). split; [done|]. split; [|done].
  exists (map Heap.plain k). by rewrite Hk, map_app.
Qed.

Lemma grows_trans s1 s2 s3 :
  Heap.grows s1 s2 → Heap.grows s2 s3 → Heap.grows s1 s3.
Proof.
  intros (H1 & H2 & H3) (H1' & H2' & H3').
  split; [by etrans|]. split; by etrans.
Qed.

Lemma GrowInv_refl s : Heap.wellFormed s → GrowInv s s.
Proof. intros Hwf. split; [|done]. by apply extends_grows. Qed.

Lemma GrowInv_ext s0 s s' : GrowInv s0 s → ExtInv s s' → GrowInv s0 s'.
Proof.
  intros [Hg _] (He & Hwf & _). split; [|done].
  apply (grows_trans s0 s); [done|by apply extends_grows].
Qed.

Lemma GrowInv_newUV s0 s a :
  GrowInv s0 s →
  GrowInv s0 {| Heap.modelObjs := Heap.modelObjs s; Heap.cubeObjs := Heap.cubeObjs s;
                Heap.uvArrays := Heap.uvArrays s ++ [a] |}.
Proof.
  intros [(H1 & H2 & H3) (Hc & Hm)]. split.
  - split; [done|]. split; [done|]. by apply prefix_snoc.
  - split; simpl; [|exact Hm].
    intros i o r Hi Hr. rewrite length_app. simpl.
    pose proof (Hc i o r Hi Hr). lia.
Qed.

Lemma GrowInv_writeUVRef s0 s l o r :
  GrowInv s0 s → Heap.cubeObjs s !! l = Some o →
  (∀ r', r = Some r' → (r' < length (Heap.uvArrays s))%nat) →
  GrowInv s0 {| Heap.modelObjs := Heap.modelObjs s;
                Heap.cubeObjs :=
                  <[l := {| Heap.plain := Heap.plain o; Heap.uvRef := r |}]>
                    (Heap.cubeObjs s);
                Heap.uvArrays := Heap.uvArrays s |}.
Proof.
  intros [(H1 & H2 & H3) (Hc & Hm)] Hl Hr. split.
  - split; [done|]. split; [|done]. simpl. to_fmap.
    rewrite list_fmap_insert. simpl. rewrite list_insert_id; [done|].
    by rewrite list_lookup_fmap, Hl.
  - split; simpl.
    + intros i o' r' Hi Hr'. destruct (decide (l = i)) as [->|Hne].
      * rewrite list_lookup_insert_eq in Hi by (by eapply lookup_lt_Some).
        injection Hi as <-. simpl in Hr'. by apply Hr.
      * rewrite list_lookup_insert_ne in Hi by done. by apply (Hc i o' r').
    + intros i mo d b l' Hi Hd Hb Hl'. rewrite length_insert.
      by apply (Hm i mo d b l').
Qed.

Lemma collectCubes_wp densityScale bIdx refs s : ∀ cIdx,
  Forall (fun l => (l < length (Heap.cubeObjs s))%nat) refs →
  wp (Heap.collectCubes densityScale bIdx cIdx refs)
     (fun its s' =>
        s' = s ∧
        Forall (fun it =>
                  (item_id (Heap.item it)).1 = bIdx ∧
                  ∃ k, (item_id (Heap.item it)).2 = (cIdx + k)%nat ∧
                       refs !! k = Some (Heap.cubeRef it)) its) s.
Proof.
  induction refs as [|l refs IH]; intros cIdx Hrefs.
  - apply wp_ret. by split.
  - inversion_clear Hrefs as [|? ? Hl Hrest]. cbn [Heap.collectCubes].
    destruct (lookup_lt_is_Some_2 _ _ Hl) as [o Ho].
    apply wp_bind. unfold Heap.collectCube.
    apply wp_bind, (wp_readCube l o); [done|]. apply wp_ret.
    apply wp_bind. eapply wp_mono; [by apply (IH (S cIdx))|].
    simpl. intros its s' [-> Hits]. apply wp_ret. split; [done|].
    constructor.
    + split; [done|]. exists 0%nat. simpl. split; [lia|done].
    + eapply Forall_impl; [exact Hits|]. simpl.
      intros it [Hb (k & Hk & Hlook)]. split; [done|].
      exists (S k). split; [lia|done].
Qed.

Lemma collectBones_wp densityScale bs s : ∀ bIdx,
  Forall (fun b => Forall (fun l => (l < length (Heap.cubeObjs s))%nat)
                          (Heap.cubeRefs b)) bs →
  wp (Heap.collectBones densityScale bIdx bs)
     (fun its s' =>
        s' = s ∧
        Forall (fun it =>
                  ∃ k b, (item_id (Heap.item it)).1 = (bIdx + k)%nat ∧
                         bs !! k = Some b ∧
                         Heap.cubeRefs b !! (item_id (Heap.item it)).2
                         = Some (Heap.cubeRef it)) its) s.
Proof.
  induction bs as [|b bs IH]; intros bIdx Hbs.
  - apply wp_ret. by split.
  - inversion_clear Hbs as [|? ? Hb Hrest]. cbn [Heap.collectBones].
    apply wp_bind. eapply wp_mono; [by apply collectCubes_wp|].
    simpl. intros its s' [-> Hits].
    apply wp_bind. eapply wp_mono; [by apply (IH (S bIdx))|].
    simpl. intros its' s' [-> Hits']. apply wp_ret. split; [done|].
    apply Forall_app. split.
    + eapply Forall_impl; [exact Hits|]. simpl.
      intros it [Hi (k & Hk & Hlook)]. exists 0%nat, b.
      split; [lia|]. split; [done|]. by rewrite Hk.
    + eapply Forall_impl; [exact Hits'|]. simpl.
      intros it (k & b' & Hk & Hlook & Hc). exists (S k), b'.
      split; [lia|done].
Qed.

Lemma shelfLoop_frame s0 textureW items : ∀ st s,
  GrowInv s0 s →
  Forall (fun it => (Heap.cubeRef it < length (Heap.cubeObjs s))%nat) items →
  wp (Heap.shelfLoop textureW items st)
     (fun _ s' => GrowInv s0 s' ∧ Heap.modelObjs s' = Heap.modelObjs s ∧
                  length (Heap.cubeObjs s') = length (Heap.cubeObjs s)) s.
Proof.
  induction items as [|it items IH]; intros st s Hinv Hits.
  - by apply wp_ret.
  - inversion_clear Hits as [|? ? Hit Hrest]. cbn [Heap.shelfLoop].
    destruct (shelfStep textureW st (Heap.item it)) as [st' p].
    destruct (lookup_lt_is_Some_2 _ _ Hit) as [o Ho].
    apply wp_bind, wp_newUV, wp_bind, (wp_writeUVRef _ _ o); [done|].
    eapply wp_mono.
    + apply IH.
      * apply (GrowInv_writeUVRef s0 _ _ o); [by apply GrowInv_newUV|done|].
        simpl. intros r' [= <-]. rewrite length_app. simpl. lia.
      * simpl. by rewrite length_insert.
    + simpl. intros _ s' (H1 & H2 & H3). rewrite length_insert in H3. done.
Qed.

Lemma reapplyUV_wp s0 sA sB m' o' d d' it s :
  GrowInv s0 s →
  Heap.modelObjs s !! m' = Some o' → Heap.m_bedrockData o' = Some d' →
  Forall2 (boneCopy sA sB) (Heap.b_bones d) (Heap.b_bones d') →
  (length (Heap.cubeObjs sB) ≤ length (Heap.cubeObjs s))%nat →
  (Heap.cubeRef it < length (Heap.cubeObjs s))%nat →
  (∃ b, Heap.b_bones d !! (item_id (Heap.item it)).1 = Some b ∧
        Heap.cubeRefs b !! (item_id (Heap.item it)).2 = Some (Heap.cubeRef it)) →
  wp (Heap.reapplyUV m' it)
     (fun _ s' => GrowInv s0 s' ∧ Heap.modelObjs s' = Heap.modelObjs s ∧
                  length (Heap.cubeObjs s') = length (Heap.cubeObjs s)) s.
Proof.
  intros Hinv Hm' Hd' Hbones Hlen Hit (b & Hb & Hc).
  pose proof Hinv as [_ [Hwf _]].
  destruct (lookup_lt_is_Some_2 _ _ Hit) as [src Hsrc].
  unfold Heap.reapplyUV. apply wp_bind, (wp_readCube _ src); [done|].
  apply wp_bind, (wp_readModel _ o'); [done|]. rewrite Hd'.
  destruct (Forall2_lookup_l _ _ _ _ _ Hbones Hb) as (b' & -> & _ & Hcubes).
  destruct (Forall2_lookup_l _ _ _ _ _ Hcubes Hc) as (l' & -> & _ & Hl').
  assert (Hlt : (l' < length (Heap.cubeObjs s))%nat) by lia.
  destruct (lookup_lt_is_Some_2 _ _ Hlt) as [o2 Ho2].
  apply (wp_writeUVRef _ _ o2); [done|]. split; [|split; [done|]].
  - apply (GrowInv_writeUVRef s0 s l' o2); [done|done|].
    intros r' Hr'. by apply (Hwf (Heap.cubeRef it) src).
  - simpl. by rewrite length_insert.
Qed.

Lemma packUVs_frame s model o density :
  Heap.wellFormed s → Heap.modelObjs s !! model = Some o →
  wp (Heap.packUVs model density)
     (fun m' s' =>
        Heap.grows s s' ∧ Heap.wellFormed s' ∧
        ((¬ Heap.isEntity o ∧ m' = model ∧ s' = s) ∨
         (Heap.isEntity o ∧ Heap.freshCubes s s' m'))) s.
Proof.
  intros Hwf Hl. unfold Heap.packUVs.
  apply wp_bind, (wp_readModel model o); [done|].
  assert (Hskip : ¬ Heap.isEntity o →
                  wp (Heap.ret model)
                     (fun m' s' =>
                        Heap.grows s s' ∧ Heap.wellFormed s' ∧
                        ((¬ Heap.isEntity o ∧ m' = model ∧ s' = s) ∨
                         (Heap.isEntity o ∧ Heap.freshCubes s s' m'))) s).
  { intros Hne. apply wp_ret. split; [by apply extends_grows|].
    split; [done|by left]. }
  destruct (Heap.m_type o) eqn:Ht;
    destruct (Heap.m_bedrockData o) as [d|] eqn:Hd;
    try (apply Hskip; intros [Ht' [d' Hd']]; congruence).
  clear Hskip.
  pose proof (wellFormed_bones s model o d Hwf Hl Hd) as Hrefs.
  apply wp_bind. eapply wp_mono; [by apply collectBones_wp|].
  simpl. intros collected s' [-> Hpaths].
  set (items := sortItems (fun it => item_h (Heap.item it)) collected).
  assert (Hitems : Forall (fun it =>
            ∃ b, Heap.b_bones d !! (item_id (Heap.item it)).1 = Some b ∧
                 Heap.cubeRefs b !! (item_id (Heap.item it)).2
                 = Some (Heap.cubeRef it)) items).
  { unfold items. rewrite sortItems_perm.
    eapply Forall_impl; [exact Hpaths|]. simpl.
    intros it (k & b & Hk & Hb & Hc). exists b. by rewrite Hk. }
  assert (Hvalid : Forall (fun it =>
            (Heap.cubeRef it < length (Heap.cubeObjs s))%nat) items).
  { eapply Forall_impl; [exact Hitems|]. simpl. intros it (b & Hb & Hc).
    rewrite list.Forall_forall in Hrefs.
    pose proof (Hrefs b (list_elem_of_lookup_2 _ _ _ Hb)) as Hbrefs.
    rewrite list.Forall_forall in Hbrefs.
    apply Hbrefs. by eapply list_elem_of_lookup_2. }
  clearbody items. clear Hpaths collected.
  apply wp_bind. eapply wp_mono.
  { apply (shelfLoop_frame s); [by apply GrowInv_refl|done]. }
  simpl. intros st s1 (Hinv1 & Hm1 & Hlen1).
  apply wp_bind. eapply wp_mono.
  { apply (cloneModel_wp s1 model o); [by destruct Hinv1|by rewrite Hm1]. }
  simpl. intros m' s2 (o' & Hinv2 & -> & Hm2 & Hcopy).
  pose proof Hcopy as (_ & _ & _ & _ & Hdata). rewrite Hd in Hdata.
  destruct (Heap.m_bedrockData o') as [d'|] eqn:Hd'; [|done].
  destruct Hdata as (_ & _ & _ & Hbones).
  assert (Hm' : Heap.modelObjs s2 !! length (Heap.modelObjs s1) = Some o')
    by (by rewrite Hm2, list_lookup_middle).
  apply wp_bind, (wp_writeTextureSize _ _ o' d'); [done|done|].
  match goal with |- context [<[_ := ?x]> _] => set (o3 := x) end.
  match goal with |- wp _ _ ?st => set (s3 := st) end.
  assert (Hinv3 : GrowInv s s3).
  { apply (GrowInv_ext s s1); [done|].
    apply (ExtInv_writeModel s1 s2 _ o'); [done|done|done|]. simpl.
    by rewrite Hd'. }
  assert (Hm3 : Heap.modelObjs s3 !! length (Heap.modelObjs s1) = Some o3).
  { simpl. apply list_lookup_insert_eq. by eapply lookup_lt_Some. }
  pose proof (ExtInv_lengths _ _ Hinv2) as (_ & Hlen2 & _).
  apply wp_bind. eapply wp_mono.
  { apply (forEach_wp _
             (fun st => GrowInv s st ∧ Heap.modelObjs st = Heap.modelObjs s3 ∧
                        length (Heap.cubeObjs st) = length (Heap.cubeObjs s2))
             (fun it => (Heap.cubeRef it < length (Heap.cubeObjs s))%nat ∧
                ∃ b, Heap.b_bones d !! (item_id (Heap.item it)).1 = Some b ∧
                     Heap.cubeRefs b !! (item_id (Heap.item it)).2
                     = Some (Heap.cubeRef it))).
    - intros it s4 [Hit Hpath] (Hi & Hmo & Hlen). eapply wp_mono.
      + eapply (reapplyUV_wp s s1 s2 _ o3 d _ it s4 Hi).
        * by rewrite Hmo.
        * reflexivity.
        * exact Hbones.
        * lia.
        * lia.
        * done.
      + simpl. intros [] s5 (Hi' & Hmo' & Hlen'). split; [done|].
        split; [by rewrite Hmo'|by rewrite Hlen'].
    - apply Forall_and. by split.
    - done. }
  simpl. intros [] s4 (Hinv4 & Hmo4 & Hlen4). apply wp_ret.
  split; [by destruct Hinv4|]. split; [by destruct Hinv4|].
  right. split; [split; [done|by eexists]|].
  split; [by rewrite Hm1|]. exists o3. split; [by rewrite Hmo4|].
  unfold Heap.cubeLocs. simpl. rewrite Hlen4, <- Hlen1.
  by apply (boneCopies_range s1 s2 (Heap.b_bones d)).
Qed.

(** *** What a store extension means for the values *)

Lemma viewBone_extends s s' b v :
  Heap.extends s s' → Heap.viewBone s b = Some v → Heap.viewBone s' b = Some v.
Proof.
  intros Hext. unfold Heap.viewBone.
  destruct (mapM (Heap.viewCube s) (Heap.cubeRefs b)) as [cs|] eqn:E; [|done].
  simpl. intros [= <-]. apply mapM_Some in E.
  assert (mapM (Heap.viewCube s') (Heap.cubeRefs b) = Some cs) as ->; [|done].
  apply mapM_Some. eapply Forall2_impl; [exact E|].
  intros l c Hc. by apply (viewCube_extends s).
Qed.

Lemma viewModel_extends s s' l v :
  Heap.extends s s' → Heap.viewModel s l = Some v → Heap.viewModel s' l = Some v.
Proof.
  intros Hext. pose proof Hext as (Hm & _). unfold Heap.viewModel.
  destruct (Heap.modelObjs s !! l) as [o|] eqn:Ho; [|done].
  rewrite (prefix_lookup_Some _ _ _ _ Ho Hm). simpl.
  destruct (Heap.m_bedrockData o) as [d|]; [|done].
  destruct (mapM (Heap.viewBone s) (Heap.b_bones d)) as [bs|] eqn:E; [|done].
  apply mapM_Some in E.
  assert (mapM (Heap.viewBone s') (Heap.b_bones d) = Some bs) as ->; [|done].
  apply mapM_Some. eapply Forall2_impl; [exact E|].
  intros b c Hc. by apply (viewBone_extends s).
Qed.

Lemma viewCube_grows s s' l c :
  Heap.grows s s' → Heap.wellFormed s' → Heap.viewCube s l = Some c →
  ∃ c', Heap.viewCube s' l = Some c' ∧ withoutUV c' = withoutUV c.
Proof.
  intros (_ & Hp & _) [Hc _]. unfold Heap.viewCube.
  destruct (Heap.cubeObjs s !! l) as [o|] eqn:Ho; [|done]. simpl.
  assert (Hpl : (Heap.plain <$> Heap.cubeObjs s) !! l = Some (Heap.plain o))
    by (by rewrite list_lookup_fmap, Ho).
  apply (prefix_lookup_Some _ _ _ _ Hpl) in Hp.
  rewrite list_lookup_fmap in Hp.
  destruct (Heap.cubeObjs s' !! l) as [o'|] eqn:Ho'; [|done].
  simpl in Hp. injection Hp as Hp. simpl. intros Hview.
  assert (Hsame : ∀ a b, withoutUV (set_uv (Heap.plain o') a)
                         = withoutUV (set_uv (Heap.plain o) b)).
  { intros a b. unfold withoutUV, set_uv. simpl. by rewrite Hp. }
  assert (Hc' : ∃ c', match Heap.uvRef o' with
                      | Some r => a ← Heap.uvArrays s' !! r;
                                  Some (set_uv (Heap.plain o') (Some a))
                      | None => Some (set_uv (Heap.plain o') None)
                      end = Some c' ∧ ∃ a, c' = set_uv (Heap.plain o') a).
  { destruct (Heap.uvRef o') as [r|] eqn:Hr; [|by eexists; split; [|eexists]].
    destruct (lookup_lt_is_Some_2 _ _ (Hc l o' r Ho' Hr)) as [a ->].
    by eexists; split; [|eexists]. }
  destruct Hc' as (c' & -> & a & ->). eexists. split; [done|].
  destruct (Heap.uvRef o) as [r|].
  - destruct (Heap.uvArrays s !! r); [|done]. simpl in Hview.
    injection Hview as <-. apply Hsame.
  - injection Hview as <-. apply Hsame.
Qed.

Lemma viewCubes_grows s s' ls cs :
  Heap.grows s s' → Heap.wellFormed s' →
  mapM (Heap.viewCube s) ls = Some cs →
  ∃ cs', mapM (Heap.viewCube s') ls = Some cs' ∧
         map withoutUV cs' = map withoutUV cs.
Proof.
  intros Hg Hwf Hcs. apply mapM_Some in Hcs.
  induction Hcs as [|l c ls cs Hc _ (cs' & Hcs' & Heq)].
  - by exists [].
  - destruct (viewCube_grows s s' l c Hg Hwf Hc) as (c' & Hc' & Heqc).
    exists (c' :: cs'). split; [|simpl; by rewrite Heqc, Heq].
    apply mapM_Some. constructor; [done|]. by apply mapM_Some.
Qed.

Lemma viewBones_grows s s' bs vs :
  Heap.grows s s' → Heap.wellFormed s' →
  mapM (Heap.viewBone s) bs = Some vs →
  ∃ vs', mapM (Heap.viewBone s') bs = Some vs' ∧
         map boneWithoutUVs vs' = map boneWithoutUVs vs.
Proof.
  intros Hg Hwf Hvs. apply mapM_Some in Hvs.
  induction Hvs as [|b v bs vs Hv _ (vs' & Hvs' & Heq)].
  - by exists [].
  - unfold Heap.viewBone in Hv.
    destruct (mapM (Heap.viewCube s) (Heap.cubeRefs b)) as [cs|] eqn:E; [|done].
    simpl in Hv. injection Hv as <-.
    destruct (viewCubes_grows s s' _ cs Hg Hwf E) as (cs' & Hcs' & Heqc).
    exists (set_cubes (Heap.bone b) cs' :: vs').
    split; [|simpl; f_equal; [|done]; unfold boneWithoutUVs; simpl;
             by rewrite Heqc].
    apply mapM_Some. constructor; [|by apply mapM_Some].
    unfold Heap.viewBone. by rewrite Hcs'.
Qed.

Lemma viewModel_grows s s' l v :
  Heap.grows s s' → Heap.wellFormed s' → Heap.viewModel s l = Some v →
  ∃ v', Heap.viewModel s' l = Some v' ∧ withoutUVs v' = withoutUVs v.
Proof.
  intros Hg Hwf. pose proof Hg as (Hm & _). unfold Heap.viewModel.
  destruct (Heap.modelObjs s !! l) as [o|] eqn:Ho; [|done].
  rewrite (prefix_lookup_Some _ _ _ _ Ho Hm). simpl.
  destruct (Heap.m_bedrockData o) as [d|];
    [|intros [= <-]; by eexists].
  destruct (mapM (Heap.viewBone s) (Heap.b_bones d)) as [bs|] eqn:E; [|done].
  destruct (viewBones_grows s s' _ bs Hg Hwf E) as (bs' & -> & Heq).
  simpl. intros [= <-]. eexists. split; [done|].
  unfold withoutUVs, set_bedrockData, set_bones. simpl. by rewrite Heq.
Qed.

(** ** C7: what the transforms share with their input *)

(** C7, as stated, fails on the store that holds one entity model with one
    cube.  [packUVs] writes the [uv] reference of the input's cube, so the
    value of the input model changes, and the cube of the returned model
    holds the very [uv] array the input's cube holds afterwards.
    [scaleModelUVs], asked for the recorded size (the default 64 x 64),
    returns the input object itself, not a new model. *)
Lemma transforms_share_with_input :
  (∃ s', Heap.packUVs 0 D16x sampleStore = Some (1%nat, s') ∧
         cubeUVs <$> Heap.viewModel sampleStore 0 = Some [None] ∧
         cubeUVs <$> Heap.viewModel s' 0 = Some [Some (uvOfZ (0, 0))] ∧
         Heap.uvRef <$> Heap.cubeObjs sampleStore = [None] ∧
         Heap.uvRef <$> Heap.cubeObjs s' = [Some 0%nat; Some 0%nat] ∧
         Heap.cubeLocs <$> Heap.modelObjs s' = [[0%nat]; [1%nat]]) ∧
  Heap.scaleModelUVs 0 (num 64) (num 64) sampleStore = Some (0%nat, sampleStore).
Proof.
  split; [|by vm_compute].
  eexists. split; [vm_compute; reflexivity|].
  repeat split; by vm_compute.
Qed.

(** C7 (amended).  On a well-formed store, for the model object [o] at
    [model], both transforms run without error, and:
    - [scaleModelUVs] writes to no object of the store, so every model of
      the store keeps its value.  It returns the input object itself when
      the model has no geometry or the requested size is the recorded one;
      otherwise it returns a new model object made of new cube objects that
      hold new [uv] arrays.
    - [packUVs] returns the input object itself, and leaves the store as it
      is, for a model that is not an entity with geometry; otherwise it
      returns a new model object made of new cube objects.  No model object
      (the recorded [texture_size] included), no field of a cube other than
      its [uv] and no existing [uv] array is written: every model of the
      store keeps its value up to the [uv] of its cubes. *)
Theorem transforms_frame s model o :
  Heap.wellFormed s → Heap.modelObjs s !! model = Some o →
  (∀ newWidth newHeight, ∃ m' s',
      Heap.scaleModelUVs model newWidth newHeight s = Some (m', s') ∧
      Heap.extends s s' ∧
      (∀ l v, Heap.viewModel s l = Some v → Heap.viewModel s' l = Some v) ∧
      ((Heap.sameSize o newWidth newHeight ∧ m' = model ∧ s' = s) ∨
       (¬ Heap.sameSize o newWidth newHeight ∧ Heap.freshModel s s' m'))) ∧
  (∀ density, ∃ m' s',
      Heap.packUVs model density s = Some (m', s') ∧
      Heap.grows s s' ∧
      (∀ l v, Heap.viewModel s l = Some v →
              ∃ v', Heap.viewModel s' l = Some v' ∧
                    withoutUVs v' = withoutUVs v) ∧
      ((¬ Heap.isEntity o ∧ m' = model ∧ s' = s) ∨
       (Heap.isEntity o ∧ Heap.freshCubes s s' m'))).
Proof.
  intros Hwf Hl. split.
  - intros newWidth newHeight.
    destruct (scaleModelUVs_frame s model o newWidth newHeight Hwf Hl)
      as (m' & s' & Hrun & Hext & Hcases).
    exists m', s'. split; [done|]. split; [done|]. split; [|done].
    intros l v. by apply viewModel_extends.
  - intros density.
    destruct (packUVs_frame s model o density Hwf Hl)
      as (m' & s' & Hrun & Hg & Hwf' & Hcases).
    exists m', s'. split; [done|]. split; [done|]. split; [|done].
    intros l v. by apply viewModel_grows.
Qed.

Lemma transforms_frame_witness :
  Heap.wellFormed sampleStore ∧
  (∃ m' s', Heap.scaleModelUVs 0 (num 128) (num 128) sampleStore = Some (m', s') ∧
            Heap.extends sampleStore s' ∧ Heap.freshModel sampleStore s' m') ∧
  (∃ m' s', Heap.packUVs 0 D16x sampleStore = Some (m', s') ∧
            Heap.grows sampleStore s' ∧ Heap.freshCubes sampleStore s' m').
Proof.
  assert (Hwf : Heap.wellFormed sampleStore).
  { split.
    - intros i o r Hi Hr. destruct i as [|i]; simpl in Hi; [|done].
      injection Hi as <-. discriminate Hr.
    - intros i o d b l Hi Hd Hb Hl. destruct i as [|i]; simpl in Hi; [|done].
      injection Hi as <-. simpl in Hd. injection Hd as <-. simpl in Hb.
      apply list_elem_of_singleton in Hb as ->. simpl in Hl.
      apply list_elem_of_singleton in Hl as ->. simpl. lia. }
  split; [exact Hwf|].
  destruct (transforms_frame sampleStore 0 _ Hwf eq_refl) as [Hscale Hpack].
  split.
  - destruct (Hscale (num 128) (num 128))
      as (m' & s' & Hrun & Hext & _ & [[Hsame _]|[_ Hfresh]]).
    + exfalso. apply (f_equal (fun p => Qnum (this p.1))) in Hsame.
      vm_compute in Hsame. discriminate Hsame.
    + by exists m', s'.
  - destruct (Hpack D16x)
      as (m' & s' & Hrun & Hg & _ & [[Hne _]|[_ Hfresh]]).
    + exfalso. apply Hne. split; [done|by eexists].
    + by exists m', s'.
Defined.

(** The store and the values agree on the sample: the model [packUVs]
    returns in the store, and the input it leaves behind, have the values
    [packUVs_run] computes. *)
Lemma packUVs_store_value_sample :
  ∃ v s', Heap.viewModel sampleStore 0 = Some v ∧
          Heap.packUVs 0 D16x sampleStore = Some (1%nat, s') ∧
          Heap.viewModel s' 1 = Some (returned (packUVs_run v D16x)) ∧
          Heap.viewModel s' 0 = Some (input_after (packUVs_run v D16x)).
Proof.
  eexists _, _. split; [vm_compute; reflexivity|].
  split; [vm_compute; reflexivity|]. split; by vm_compute.
Qed.

(* ================================================================== *)
(** * Further properties of the texture functions *)
(* ================================================================== *)

Lemma num_plus (a b : Z) : num (a + b) = (num a + num b)%Qc.
Proof.
  apply Qc_is_canon. rewrite this_plus, !this_num, inject_Z_plus. reflexivity.
Qed.

Lemma num_mult (a b : Z) : num (a * b) = (num a * num b)%Qc.
Proof.
  apply Qc_is_canon. rewrite this_mult, !this_num, inject_Z_mult. reflexivity.
Qed.

Lemma num_le (a b : Z) : a ≤ b ↔ (num a ≤ num b)%Qc.
Proof. unfold Qcle. rewrite !this_num. by rewrite Zle_Qle. Qed.

Lemma num_lt (a b : Z) : a < b ↔ (num a < num b)%Qc.
Proof. unfold Qclt. rewrite !this_num. by rewrite Zlt_Qlt. Qed.

Lemma Math_ceil_nonneg (x : number) : (0 ≤ x)%Qc → 0 ≤ Math_ceil x.
Proof.
  intros Hx. destruct (Math_ceil_spec x) as [_ Hle].
  apply (proj2 (num_le _ _)). rewrite num_0. by etrans.
Qed.

Lemma Math_ceil_num (z : Z) : Math_ceil (num z) = z.
Proof. unfold Math_ceil. rewrite this_num. apply Qceiling_Z. Qed.

Lemma num_two (x : Qc) : (num 2 * x = x + x)%Qc.
Proof.
  apply Qc_is_canon. rewrite this_mult, this_plus, this_num.
  change (inject_Z 2) with 2%Q. ring.
Qed.

(** Linear facts about integer pixel counts, read in the rationals. *)
Ltac num_lra :=
  repeat rewrite ?num_plus, ?num_mult in *;
  repeat match goal with
  | H : (0 ≤ ?z)%Z |- _ => apply (proj1 (num_le _ _)) in H; rewrite num_0 in H
  end;
  qc_lra.

(** The six faces of a cube, drawn at the cube's [uv] origin, tile part of
    the footprint: each lies inside it and no two overlap. *)
Lemma drawCube_layout (scale : Z) (cube : ModelCube) (u v : number) :
  uv cube = Some (u, v) → 0 ≤ scale →
  (0 ≤ (size cube).1.1)%Qc → (0 ≤ (size cube).1.2)%Qc → (0 ≤ (size cube).2)%Qc →
  length (drawCube scale cube) = 6%nat ∧
  Forall (rectInside u v (getBoxUVSize cube scale)) (drawCube scale cube) ∧
  ∀ i j a b, i ≠ j →
    drawCube scale cube !! i = Some a → drawCube scale cube !! j = Some b →
    rectsDisjoint a b.
Proof.
  intros Huv Hs. unfold drawCube, getBoxUVSize. rewrite Huv.
  destruct (size cube) as [[w h] d]. simpl. intros Hw Hh Hd.
  assert (Hsc : (0 ≤ num scale)%Qc)
    by (rewrite <- num_0; by apply (proj1 (num_le _ _))).
  pose proof (Math_ceil_nonneg _ (Qcmult_nonneg_nonneg _ _ Hw Hsc)) as Hrw.
  pose proof (Math_ceil_nonneg _ (Qcmult_nonneg_nonneg _ _ Hh Hsc)) as Hrh.
  pose proof (Math_ceil_nonneg _ (Qcmult_nonneg_nonneg _ _ Hd Hsc)) as Hrd.
  set (rw := Math_ceil (w * num scale)%Qc) in *.
  set (rh := Math_ceil (h * num scale)%Qc) in *.
  set (rd := Math_ceil (d * num scale)%Qc) in *.
  clearbody rw rh rd. clear Hw Hh Hd Hsc Huv.
  apply (proj1 (num_le _ _)) in Hrw, Hrh, Hrd. rewrite num_0 in Hrw, Hrh, Hrd.
  split; [done|]. split.
  - repeat (apply Forall_cons; split); [..|by apply Forall_nil];
      unfold rectInside, drawRect; simpl;
      rewrite num_mult, num_two, !num_plus; qc_lra.
  - intros i j a b Hij Hi Hj.
    destruct i as [|[|[|[|[|[|i]]]]]]; simpl in Hi; try done;
      destruct j as [|[|[|[|[|[|j]]]]]]; simpl in Hj; try done;
      injection Hi as <-; injection Hj as <-;
      unfold rectsDisjoint, drawRect; simpl; qc_lra.
Qed.

(** X1: the six faces the renderer draws for a cube with a [uv] origin and
    non-negative size lie inside the footprint [getBoxUVSize] reserves for
    the cube at that origin, and no two of them overlap. *)
Theorem drawCube_inside_footprint (scale : Z) (cube : ModelCube) (u v : number) :
  uv cube = Some (u, v) → 0 ≤ scale →
  (0 ≤ (size cube).1.1)%Qc → (0 ≤ (size cube).1.2)%Qc → (0 ≤ (size cube).2)%Qc →
  length (drawCube scale cube) = 6%nat ∧
  Forall (rectInside u v (getBoxUVSize cube scale)) (drawCube scale cube) ∧
  ∀ i j a b, i ≠ j →
    drawCube scale cube !! i = Some a → drawCube scale cube !! j = Some b →
    rectsDisjoint a b.
Proof. apply drawCube_layout. Qed.

Lemma drawCube_inside_footprint_witness :
  length (drawCube 2 cube8) = 6%nat ∧
  Forall (rectInside (num 0) (num 0) (getBoxUVSize cube8 2)) (drawCube 2 cube8) ∧
  ∀ i j a b, i ≠ j →
    drawCube 2 cube8 !! i = Some a → drawCube 2 cube8 !! j = Some b →
    rectsDisjoint a b.
Proof.
  apply (drawCube_inside_footprint 2 cube8 (num 0) (num 0));
    [reflexivity|lia|by vm_compute..].
Defined.

(** ** The reference image of a packed model *)

Lemma densityScale_pos d : 0 < densityScale d.
Proof. destruct d; simpl; lia. Qed.

Lemma getBoxUVSize_nonneg (c : ModelCube) (s : Z) :
  0 ≤ s → nonnegSize c →
  0 ≤ bw (getBoxUVSize c s) ∧ 0 ≤ bh (getBoxUVSize c s).
Proof.
  intros Hs. unfold nonnegSize, getBoxUVSize.
  destruct (size c) as [[w h] d]. simpl. intros (Hw & Hh & Hd).
  assert (Hsc : (0 ≤ num s)%Qc)
    by (rewrite <- num_0; by apply (proj1 (num_le _ _))).
  pose proof (Math_ceil_nonneg _ (Qcmult_nonneg_nonneg _ _ Hw Hsc)).
  pose proof (Math_ceil_nonneg _ (Qcmult_nonneg_nonneg _ _ Hh Hsc)).
  pose proof (Math_ceil_nonneg _ (Qcmult_nonneg_nonneg _ _ Hd Hsc)).
  lia.
Qed.

Lemma packUVs_data m d data :
  type m = ENTITY → bedrockData m = Some data →
  bedrockData (packUVs m d) = Some (packedData d data).
Proof.
  intros Ht Hd. unfold packUVs. by rewrite (packUVs_run_entity m d data Ht Hd).
Qed.

(** The cube at a path of the packed geometry is the input's cube with its
    placement as [uv]. *)
Lemma packedData_cubeAt d data p c :
  cubeAt (bones data) p = Some c →
  ∃ xy, (itemOf (densityScale d) p c, xy) ∈ packPlaced d (bones data) ∧
        cubeAt (bones (packedData d data)) p = Some (set_uv c (Some (uvOfZ xy))).
Proof.
  intros Hc.
  assert (Hit : itemOf (densityScale d) p c ∈ packItems d (bones data)).
  { apply packItems_elem. by exists c. }
  rewrite <- packPlaced_items in Hit. revert Hit. to_fmap. intros Hit.
  apply list_elem_of_fmap in Hit as ([it xy] & Heq & Hin). simpl in Heq. subst it.
  exists xy. split; [done|].
  pose proof (cubeAt_assignAll_in _ (bones data) _
                (packPlaced_ids_NoDup d (bones data)) Hin) as Hat.
  simpl in Hat. rewrite Hc in Hat. exact Hat.
Qed.

Lemma packItems_widths d bs :
  Forall nonnegSize (allCubes bs) →
  Forall (fun item => 0 ≤ item_w item ∧ 0 ≤ item_h item) (packItems d bs).
Proof.
  intros Hbs. apply list.Forall_forall. intros it Hit.
  apply packItems_elem in Hit as (c & Hc & ->). simpl.
  apply getBoxUVSize_nonneg; [pose proof (densityScale_pos d); lia|].
  rewrite list.Forall_forall in Hbs. by apply Hbs, (cubeAt_allCubes _ (item_id it)).
Qed.

(** Rectangles inside two footprints that do not overlap do not overlap. *)
Lemma rectsDisjoint_inside (a b : BoxPackerItem * (Z * Z)) (ra rb : Rect) :
  paddedDisjoint a b →
  rectInside (num a.2.1) (num a.2.2)
             {| bw := item_w a.1; bh := item_h a.1 |} ra →
  rectInside (num b.2.1) (num b.2.2)
             {| bw := item_w b.1; bh := item_h b.1 |} rb →
  rectsDisjoint ra rb.
Proof.
  unfold paddedDisjoint, rectInside, rectsDisjoint, PADDING. simpl.
  intros Hd (Ha1 & Ha2 & Ha3 & Ha4) (Hb1 & Hb2 & Hb3 & Hb4).
  destruct Hd as [Hd|[Hd|[Hd|Hd]]];
    apply (proj1 (num_le _ _)) in Hd; rewrite !num_plus in Hd;
    assert (H2 : (0 ≤ num 2)%Qc) by (by vm_compute);
    [left|right; left|right; right; left|right; right; right]; qc_lra.
Qed.

(** Faces drawn for two different cubes of the packed geometry do not
    overlap. *)
Lemma packedData_faces_disjoint d data p q cp cq a b :
  Forall nonnegSize (allCubes (bones data)) → p ≠ q →
  cubeAt (bones (packedData d data)) p = Some cp →
  cubeAt (bones (packedData d data)) q = Some cq →
  a ∈ drawCube (densityScale d) cp → b ∈ drawCube (densityScale d) cq →
  rectsDisjoint a b.
Proof.
  intros Hsz Hpq Hp Hq Ha Hb.
  pose proof (densityScale_pos d) as Hs.
  assert (Hwide : Forall (fun item => -PADDING ≤ item_w item)
                         (packItems d (bones data))).
  { eapply Forall_impl; [by apply packItems_widths|]. unfold PADDING. simpl.
    intros; lia. }
  assert (Hin : ∀ r c' r', cubeAt (bones (packedData d data)) r = Some c' →
            r' ∈ drawCube (densityScale d) c' →
            ∃ c xy, (itemOf (densityScale d) r c, xy) ∈ packPlaced d (bones data) ∧
                    rectInside (num xy.1) (num xy.2)
                      {| bw := item_w (itemOf (densityScale d) r c);
                         bh := item_h (itemOf (densityScale d) r c) |} r').
  { intros r c' r' Hr Hr'.
    destruct (cubeAt (bones data) r) as [c|] eqn:Hc.
    - destruct (packedData_cubeAt d data r c Hc) as (xy & Hplaced & Hat).
      rewrite Hr in Hat. injection Hat as ->. exists c, xy. split; [done|].
      rewrite list.Forall_forall in Hsz.
      destruct (Hsz c (cubeAt_allCubes _ _ _ Hc)) as (Hw & Hh & Hd).
      destruct (drawCube_layout (densityScale d)
                  (set_uv c (Some (uvOfZ xy))) (num xy.1) (num xy.2))
        as (_ & Hall & _); [done|lia|done..|].
      rewrite list.Forall_forall in Hall. by apply Hall.
    - unfold packedData in Hr. simpl in Hr.
      by rewrite cubeAt_assignAll_None in Hr. }
  destruct (Hin p cp a Hp Ha) as (c1 & xy1 & Hpl1 & Hin1).
  destruct (Hin q cq b Hq Hb) as (c2 & xy2 & Hpl2 & Hin2).
  apply (rectsDisjoint_inside (itemOf (densityScale d) p c1, xy1)
                              (itemOf (densityScale d) q c2, xy2));
    [|done|done].
  by apply (packPlaced_disjoint d (bones data)).
Qed.

Lemma elem_of_concat_lookup {A} (ls : list (list A)) (x : A) :
  x ∈ concat ls → ∃ k l, ls !! k = Some l ∧ x ∈ l.
Proof.
  induction ls as [|l ls IH]; simpl; [by intros ?%elem_of_nil|].
  intros [Hx|Hx]%elem_of_app.
  - by exists 0%nat, l.
  - destruct (IH Hx) as (k & l' & Hk & Hl'). by exists (S k), l'.
Qed.

(** Elements at different positions of a concatenation are related when
    this holds inside every block and across different blocks. *)
Lemma concat_pairwise {A} (R : A → A → Prop) (ls : list (list A)) :
  (∀ k l i j a b, ls !! k = Some l → i ≠ j →
     l !! i = Some a → l !! j = Some b → R a b) →
  (∀ k k' l l' a b, k ≠ k' → ls !! k = Some l → ls !! k' = Some l' →
     a ∈ l → b ∈ l' → R a b) →
  ∀ i j a b, i ≠ j →
    concat ls !! i = Some a → concat ls !! j = Some b → R a b.
Proof.
  induction ls as [|l ls IH]; intros Hin Hout i j a b Hij Hi Hj; [done|].
  simpl in Hi, Hj.
  assert (Htail : ∀ i j a b, i ≠ j →
            concat ls !! i = Some a → concat ls !! j = Some b → R a b).
  { apply IH.
    - intros k l0. apply (Hin (S k) l0).
    - intros k k' l0 l0' a0 b0 Hk. apply (Hout (S k) (S k')). congruence. }
  destruct (decide (i < length l)%nat) as [Hil|Hil],
           (decide (j < length l)%nat) as [Hjl|Hjl].
  - rewrite lookup_app_l in Hi, Hj by done. by apply (Hin 0%nat l i j).
  - rewrite lookup_app_l in Hi by done. rewrite lookup_app_r in Hj by lia.
    apply list_elem_of_lookup_2, elem_of_concat_lookup in Hj
      as (k & l' & Hk & Hb).
    apply (Hout 0%nat (S k) l l'); [done|done|done| |done].
    by eapply list_elem_of_lookup_2.
  - rewrite lookup_app_r in Hi by lia. rewrite lookup_app_l in Hj by done.
    apply list_elem_of_lookup_2, elem_of_concat_lookup in Hi
      as (k & l' & Hk & Ha).
    apply (Hout (S k) 0%nat l' l); [done|done|done|done|].
    by eapply list_elem_of_lookup_2.
  - rewrite lookup_app_r in Hi, Hj by lia.
    apply (Htail (i - length l)%nat (j - length l)%nat); [lia|done..].
Qed.

Lemma packedData_uv d data p c :
  cubeAt (bones (packedData d data)) p = Some c → is_Some (uv c).
Proof.
  intros Hp. destruct (cubeAt (bones data) p) as [c0|] eqn:Hc.
  - destruct (packedData_cubeAt d data p c0 Hc) as (xy & _ & Hat).
    rewrite Hp in Hat. injection Hat as ->. by eexists.
  - unfold packedData in Hp. simpl in Hp.
    by rewrite cubeAt_assignAll_None in Hp.
Qed.

Lemma packedData_nonneg d data p c :
  Forall nonnegSize (allCubes (bones data)) →
  cubeAt (bones (packedData d data)) p = Some c → nonnegSize c.
Proof.
  intros Hsz Hp. destruct (cubeAt (bones data) p) as [c0|] eqn:Hc.
  - destruct (packedData_cubeAt d data p c0 Hc) as (xy & _ & Hat).
    rewrite Hp in Hat. injection Hat as ->.
    rewrite list.Forall_forall in Hsz.
    by apply (Hsz c0), (cubeAt_allCubes _ p).
  - unfold packedData in Hp. simpl in Hp.
    by rewrite cubeAt_assignAll_None in Hp.
Qed.

(** X2: the reference image of a freshly packed entity model whose cubes
    have non-negative sizes is drawn on a canvas of the recorded atlas
    size, and no two of the rectangles painted on it overlap, be they
    faces of one cube or of two different cubes. *)
Theorem packed_layout_no_overlap (m : MinecraftModel) (d : Density)
    (data : BedrockModel) :
  type m = ENTITY → bedrockData m = Some data →
  Forall nonnegSize (allCubes (bones data)) →
  ∃ canvas,
    drawTextureLayout (packUVs m d) d = Some canvas ∧
    canvas_width canvas = num (packSide d (bones data)) ∧
    canvas_height canvas = num (packSide d (bones data)) ∧
    ∀ i j a b, i ≠ j →
      rects canvas !! i = Some a → rects canvas !! j = Some b →
      rectsDisjoint a b.
Proof.
  intros Ht Hd Hsz. unfold drawTextureLayout.
  assert (Ht' : type (packUVs m d) = ENTITY).
  { unfold packUVs. by rewrite (packUVs_run_entity m d data Ht Hd). }
  rewrite Ht', (packUVs_data m d data Ht Hd).
  eexists. split; [reflexivity|]. split; [done|]. split; [done|].
  cbn [rects]. set (bs := bones (packedData d data)).
  apply concat_pairwise.
  - intros k l i j a b Hk Hij Hi Hj. revert Hk. to_fmap.
    rewrite list_lookup_fmap. destruct (bs !! k) as [bone|] eqn:Hbone; [|done].
    simpl. intros [= <-]. revert i j a b Hij Hi Hj. apply concat_pairwise.
    + intros ci l i j a b Hl. revert Hl. to_fmap. rewrite list_lookup_fmap.
      destruct (cubes bone !! ci) as [c|] eqn:Hc; [|done]. simpl.
      intros [= <-] Hij Hi Hj.
      assert (Hat : cubeAt bs (k, ci) = Some c)
        by (unfold cubeAt; cbn [fst snd]; by rewrite Hbone).
      destruct (packedData_uv d data _ _ Hat) as [[u v] Huv].
      destruct (packedData_nonneg d data _ _ Hsz Hat) as (Hw & Hh & Hdp).
      pose proof (densityScale_pos d).
      destruct (drawCube_layout (densityScale d) c u v) as (_ & _ & Hpair);
        [done|lia|done..|].
      by apply (Hpair i j).
    + intros ci cj l l' a b Hne Hl Hl'. revert Hl Hl'. to_fmap.
      rewrite !list_lookup_fmap.
      destruct (cubes bone !! ci) as [c|] eqn:Hc; [|done].
      destruct (cubes bone !! cj) as [c'|] eqn:Hc'; [|done]. simpl.
      intros [= <-] [= <-] Ha Hb.
      apply (packedData_faces_disjoint d data (k, ci) (k, cj) c c');
        [done|congruence|fold bs; unfold cubeAt; cbn [fst snd]; by rewrite Hbone..|done|done].
  - intros k k' l l' a b Hne Hl Hl'. revert Hl Hl'. to_fmap.
    rewrite !list_lookup_fmap.
    destruct (bs !! k) as [bone|] eqn:Hbone; [|done].
    destruct (bs !! k') as [bone'|] eqn:Hbone'; [|done]. simpl.
    intros [= <-] [= <-] Ha Hb.
    apply elem_of_concat_lookup in Ha as (ci & la & Hla & Ha).
    apply elem_of_concat_lookup in Hb as (cj & lb & Hlb & Hb).
    revert Hla Hlb. to_fmap. rewrite !list_lookup_fmap.
    destruct (cubes bone !! ci) as [c|] eqn:Hc; [|done].
    destruct (cubes bone' !! cj) as [c'|] eqn:Hc'; [|done]. simpl.
    intros [= <-] [= <-].
    apply (packedData_faces_disjoint d data (k, ci) (k', cj) c c');
      [done|congruence|fold bs; unfold cubeAt; cbn [fst snd]; by rewrite ?Hbone, ?Hbone'..|done|done].
Qed.

Lemma packed_layout_no_overlap_witness :
  ∃ canvas,
    drawTextureLayout (packUVs (entityModel twoCubeBones) D16x) D16x
    = Some canvas ∧
    canvas_width canvas = num (packSide D16x twoCubeBones) ∧
    canvas_height canvas = num (packSide D16x twoCubeBones) ∧
    ∀ i j a b, i ≠ j →
      rects canvas !! i = Some a → rects canvas !! j = Some b →
      rectsDisjoint a b.
Proof.
  apply (packed_layout_no_overlap (entityModel twoCubeBones) D16x
           (plainData twoCubeBones)); [reflexivity|reflexivity|].
  repeat (apply Forall_cons; split); [..|by apply Forall_nil];
    repeat split; by vm_compute.
Defined.

(** ** The side of the atlas *)

Lemma growDim_pow fuel : ∀ dim area,
  ∃ k : nat, growDim fuel dim area = dim * 2 ^ Z.of_nat k ∧
             ∀ j : nat, (j < k)%nat →
               dimTooSmall (dim * 2 ^ Z.of_nat j) area = true.
Proof.
  induction fuel as [|fuel IH]; intros dim area; simpl.
  - exists 0%nat. split; [simpl; lia|intros; lia].
  - destruct (dimTooSmall dim area) eqn:E.
    + destruct (IH (dim * 2) area) as (k & Hk & Hsmall). exists (S k). split.
      * rewrite Hk, Nat2Z.inj_succ, Z.pow_succ_r by lia. lia.
      * intros [|j] Hj; [by rewrite Z.mul_1_r|].
        rewrite Nat2Z.inj_succ, Z.pow_succ_r by lia.
        replace (dim * (2 * 2 ^ Z.of_nat j)) with (dim * 2 * 2 ^ Z.of_nat j) by lia.
        apply Hsmall. lia.
    + exists 0%nat. split; [simpl; lia|intros; lia].
Qed.

Lemma finalShelf_textureH_pow W items : ∀ st,
  ∃ i : nat, textureH (finalShelf W st items) = textureH st * 2 ^ Z.of_nat i.
Proof.
  unfold finalShelf. induction items as [|item items IH]; intros st.
  - exists 0%nat. simpl. lia.
  - cbn [fold_left]. destruct (IH (shelfStep W st item).1) as (i & Hi).
    rewrite Hi.
    unfold shelfStep. simpl.
    destruct (W <? currentX st + item_w item); simpl;
      match goal with |- context [if ?c then _ else _] => destruct c end;
      [exists (S i)|exists i|exists (S i)|exists i];
      rewrite ?Nat2Z.inj_succ, ?Z.pow_succ_r by lia; lia.
Qed.

Lemma totalArea_foldr items :
  totalArea items = foldr (fun it acc => item_w it * item_h it + acc) 0 items.
Proof.
  unfold totalArea.
  assert (H : ∀ a, fold_left (fun acc item => acc + item_w item * item_h item) items a
             = a + foldr (fun it acc => item_w it * item_h it + acc) 0 items).
  { induction items as [|it items IH]; intros a; simpl; [lia|].
    rewrite IH. lia. }
  rewrite H. lia.
Qed.

Lemma totalArea_perm items items' :
  items ≡ₚ items' → totalArea items = totalArea items'.
Proof.
  intros Hp. rewrite !totalArea_foldr.
  induction Hp; simpl; lia.
Qed.

Lemma totalArea_app items items' :
  totalArea (items ++ items') = totalArea items + totalArea items'.
Proof.
  rewrite !totalArea_foldr. induction items as [|it items IH]; simpl; lia.
Qed.

Lemma totalArea_imap s k cs : ∀ i,
  totalArea (imap (fun cIdx cube => itemOf s (k, i + cIdx)%nat cube) cs)
  = foldr (fun c acc => bw (getBoxUVSize c s) * bh (getBoxUVSize c s) + acc) 0 cs.
Proof.
  induction cs as [|c cs IH]; intros i; [done|].
  rewrite imap_cons, totalArea_foldr. cbn [foldr]. rewrite <- totalArea_foldr.
  rewrite <- (IH (S i)). simpl. f_equal. f_equal.
  apply imap_ext. intros j x _. simpl. do 2 f_equal. lia.
Qed.

Lemma totalArea_collectFrom s bs : ∀ k,
  totalArea (collectFrom s k bs) = footprintArea s bs.
Proof.
  unfold footprintArea, allCubes.
  induction bs as [|b bs IH]; intros k; [done|].
  simpl. rewrite totalArea_app, IH, foldr_app.
  pose proof (totalArea_imap s k (cubes b) 0) as H. simpl in H. rewrite H.
  clear. set (z := foldr _ 0 (concat _)). clearbody z.
  induction (cubes b) as [|c cs IHc]; simpl; lia.
Qed.

Lemma totalArea_packItems d bs :
  totalArea (packItems d bs) = footprintArea (densityScale d) bs.
Proof.
  unfold packItems. rewrite (totalArea_perm _ _ (sortItems_perm _ _)).
  rewrite collectItems_from. apply totalArea_collectFrom.
Qed.

(** X3: the atlas [packUVs] records for an entity model is a square whose
    side is [MIN_TEXTURE_SIZE] times a power of two.  The side the packer
    starts from, [64 * 2 ^ k], is the least of these whose square is at
    least one and a half times the summed area of the footprints; the
    recorded side is that one or a larger one. *)
Theorem packUVs_atlas_side (m : MinecraftModel) (d : Density)
    (data : BedrockModel) :
  type m = ENTITY → bedrockData m = Some data →
  let area := footprintArea (densityScale d) (bones data) in
  ∃ k n : nat,
    (k ≤ n)%nat ∧
    atlasSize (packUVs m d)
    = Some (Some (num (MIN_TEXTURE_SIZE * 2 ^ Z.of_nat n),
                  num (MIN_TEXTURE_SIZE * 2 ^ Z.of_nat n))) ∧
    3 * area ≤ 2 * (MIN_TEXTURE_SIZE * 2 ^ Z.of_nat k) ^ 2 ∧
    ∀ j : nat, (j < k)%nat →
      2 * (MIN_TEXTURE_SIZE * 2 ^ Z.of_nat j) ^ 2 < 3 * area.
Proof.
  intros Ht Hd area. rewrite (packUVs_atlas m d data Ht Hd).
  unfold packSide. rewrite totalArea_packItems. fold area.
  destruct (growDim_pow (dimFuel area) MIN_TEXTURE_SIZE area)
    as (k & Hk & Hsmall). fold (initialDim area) in Hk.
  destruct (finalShelf_textureH_pow (initialDim area) (packItems d (bones data))
              (packStart d (bones data))) as (i & Hi).
  rewrite Hi. unfold packStart. cbn [textureH].
  rewrite totalArea_packItems. fold area. rewrite Hk.
  assert (Hpow : 0 < 2 ^ Z.of_nat i) by (apply Z.pow_pos_nonneg; lia).
  assert (Hpk : 0 < 2 ^ Z.of_nat k) by (apply Z.pow_pos_nonneg; lia).
  exists k, (k + i)%nat. split; [lia|]. split; [|split].
  - rewrite Nat2Z.inj_add, Z.pow_add_r by lia.
    set (W := MIN_TEXTURE_SIZE * 2 ^ Z.of_nat k).
    assert (HW : 0 < W) by (unfold W, MIN_TEXTURE_SIZE; lia).
    replace (Z.max W (W * 2 ^ Z.of_nat i))
      with (MIN_TEXTURE_SIZE * (2 ^ Z.of_nat k * 2 ^ Z.of_nat i)); [done|].
    rewrite Z.max_r by nia. unfold W. lia.
  - destruct (growDim_exits area) as [_ Hge]. rewrite Hk in Hge. lia.
  - intros j Hj. apply Hsmall, dimTooSmall_spec in Hj. lia.
Qed.

Lemma packUVs_atlas_side_witness :
  ∃ k n : nat,
    (k ≤ n)%nat ∧
    atlasSize (packUVs (entityModel twoCubeBones) D16x)
    = Some (Some (num (MIN_TEXTURE_SIZE * 2 ^ Z.of_nat n),
                  num (MIN_TEXTURE_SIZE * 2 ^ Z.of_nat n))) ∧
    3 * footprintArea (densityScale D16x) twoCubeBones
    ≤ 2 * (MIN_TEXTURE_SIZE * 2 ^ Z.of_nat k) ^ 2 ∧
    ∀ j : nat, (j < k)%nat →
      2 * (MIN_TEXTURE_SIZE * 2 ^ Z.of_nat j) ^ 2
      < 3 * footprintArea (densityScale D16x) twoCubeBones.
Proof.
  apply (packUVs_atlas_side (entityModel twoCubeBones) D16x
           (plainData twoCubeBones)); reflexivity.
Defined.

(** ** What the texture functions leave alone *)

Lemma boneWithoutUVs_assignUV bs p u :
  map boneWithoutUVs (assignUV bs p u) = map boneWithoutUVs bs.
Proof.
  unfold assignUV. to_fmap. rewrite (list_fmap_alter _ _ id).
  - by rewrite list_alter_id.
  - apply list.Forall_forall. intros bone _. unfold boneWithoutUVs. simpl.
    f_equal. to_fmap. rewrite (list_fmap_alter _ _ id).
    + by rewrite list_alter_id.
    + by apply list.Forall_forall.
Qed.

Lemma boneWithoutUVs_assignAll asg : ∀ bs,
  map boneWithoutUVs (assignAll asg bs) = map boneWithoutUVs bs.
Proof.
  unfold assignAll. induction asg as [|a asg IH]; intros bs; [done|].
  simpl. by rewrite IH, boneWithoutUVs_assignUV.
Qed.

(** X4: [packUVs] changes nothing but the [uv] of the cubes and the
    recorded [texture_size]: bones, their order, names, parents, pivots
    and attachments, and the order, origins, sizes and rotations of the
    cubes are those of the input.  The same holds for the input model as
    the call leaves it, which keeps its recorded [texture_size] as well. *)
Theorem packUVs_changes_only_atlas (m : MinecraftModel) (d : Density) :
  withoutAtlas (packUVs m d) = withoutAtlas m ∧
  withoutUVs (input_after (packUVs_run m d)) = withoutUVs m.
Proof.
  destruct (type m) eqn:Ht, (bedrockData m) as [data|] eqn:Hd;
    try (unfold packUVs, packUVs_run; rewrite Ht, ?Hd; by split).
  unfold packUVs. rewrite (packUVs_run_entity m d data Ht Hd).
  unfold withoutAtlas, withoutUVs, set_bedrockData, set_bones, set_texture_size.
  cbn. rewrite Hd. cbn. by rewrite boneWithoutUVs_assignAll.
Qed.

Lemma withoutUV_scaleCubeUV sx sy c : withoutUV (scaleCubeUV sx sy c) = withoutUV c.
Proof. unfold scaleCubeUV. by destruct (uv c) as [[u v]|]. Qed.

Lemma boneWithoutUVs_map (f : ModelCube → ModelCube) bs :
  (∀ c, withoutUV (f c) = withoutUV c) →
  map boneWithoutUVs (map (fun bone => set_cubes bone (map f (cubes bone))) bs)
  = map boneWithoutUVs bs.
Proof.
  intros Hf. rewrite map_map. apply map_ext. intros bone.
  unfold boneWithoutUVs. simpl. f_equal. rewrite map_map. by apply map_ext.
Qed.

(** X5: [scaleModelUVs] changes nothing but the [uv] of the cubes and the
    recorded [texture_size]; a cube has a [uv] afterwards exactly if it had
    one before. *)
Theorem scaleModelUVs_changes_only_atlas (m : MinecraftModel)
    (newWidth newHeight : number) :
  withoutAtlas (scaleModelUVs m newWidth newHeight) = withoutAtlas m ∧
  ∀ p, hasUV (scaleModelUVs m newWidth newHeight) p = hasUV m p.
Proof.
  unfold scaleModelUVs. destruct (bedrockData m) as [data|] eqn:Hd; [|done].
  fold (recordedSize data). destruct (recordedSize data) as [oldW oldH].
  destruct (bool_decide (oldW = newWidth) && bool_decide (oldH = newHeight));
    [done|].
  split.
  - unfold withoutAtlas, withoutUVs, set_bedrockData, set_bones, set_texture_size.
    cbn. rewrite Hd. cbn. rewrite boneWithoutUVs_map; [done|].
    apply withoutUV_scaleCubeUV.
  - intros p. unfold hasUV, assignedUV. cbn. rewrite Hd. cbn.
    rewrite cubeAt_map_cubes. destruct (cubeAt (bones data) p) as [c|]; [|done].
    cbn. unfold scaleCubeUV. destruct (uv c) as [[u v]|] eqn:E; cbn;
      [done|by rewrite E].
Qed.

(** ** Rescaling by a whole factor *)

Lemma Math_round_num (z : Z) : Math_round (num z) = z.
Proof.
  unfold Math_round. rewrite this_num.
  apply Z.le_antisymm.
  - apply Z.lt_succ_r. rewrite Zlt_Qlt. 
    eapply Qle_lt_trans; [apply Qfloor_le|].
    rewrite <- Z.add_1_r, inject_Z_plus. change (inject_Z 1) with 1%Q. lra.
  - rewrite <- (Qfloor_Z z) at 1. apply Qfloor_resp_le. lra.
Qed.

Lemma scale_up_exact (x k : Z) (A : Qc) :
  (0 < A)%Qc → Math_round (num x * (num k * A / A))%Qc = k * x.
Proof.
  intros HA. assert (HA0 : A ≠ 0%Qc) by (by apply not_eq_sym, Qclt_not_eq).
  assert (H : @eq Qc (num x * (num k * A / A))%Qc (num k * num x)%Qc)
    by (field; done).
  rewrite H, <- num_mult. apply Math_round_num.
Qed.

Lemma scale_down_exact (x k : Z) (A : Qc) :
  (0 < A)%Qc → 1 ≤ k → Math_round (num (k * x) * (A / (num k * A)))%Qc = x.
Proof.
  intros HA Hk. assert (HA0 : A ≠ 0%Qc) by (by apply not_eq_sym, Qclt_not_eq).
  assert (Hk0 : num k ≠ 0%Qc).
  { rewrite <- num_0. intros Heq%num_inj. lia. }
  assert (H : @eq Qc (num k * num x * (A / (num k * A)))%Qc (num x))
    by (field; done).
  rewrite num_mult, H. apply Math_round_num.
Qed.

Lemma scaled_size_differs (k : Z) (A : Qc) :
  (0 < A)%Qc → 1 < k → (num k * A)%Qc ≠ A.
Proof.
  intros HA Hk Heq. apply (proj1 (num_lt _ _)) in Hk. rewrite num_1 in Hk.
  assert (H : (1 * A < num k * A)%Qc) by (by apply Qcmult_lt_compat_r).
  rewrite Heq, Qcmult_1_l in H. by apply Qclt_not_eq in H.
Qed.

Lemma integral_scale_roundtrip (k : Z) (A1 A2 : Qc) (c : ModelCube) :
  (0 < A1)%Qc → (0 < A2)%Qc → 1 ≤ k → integralUV c →
  scaleCubeUV (A1 / (num k * A1))%Qc (A2 / (num k * A2))%Qc
    (scaleCubeUV (num k * A1 / A1)%Qc (num k * A2 / A2)%Qc c) = c.
Proof.
  intros H1 H2 Hk Hint. unfold scaleCubeUV at 2.
  destruct (uv c) as [[u v]|] eqn:Huv.
  - destruct (Hint u v Huv) as (x & y & -> & ->).
    rewrite !scale_up_exact by done. unfold scaleCubeUV. cbn [uv set_uv].
    rewrite !scale_down_exact by done.
    destruct c; cbn in *; by subst.
  - unfold scaleCubeUV. by rewrite Huv.
Qed.

Lemma integralUV_bones (bs : list ModelBone) (b : ModelBone) (c : ModelCube) :
  Forall integralUV (allCubes bs) → b ∈ bs → c ∈ cubes b → integralUV c.
Proof.
  intros Hall Hb Hc. rewrite list.Forall_forall in Hall. apply Hall.
  unfold allCubes. apply list_elem_of_In, in_concat. exists (cubes b).
  split; [apply in_map|]; by apply list_elem_of_In.
Qed.

(** X6: rescaling a model whose [uv] origins are whole numbers to [k]
    times its recorded atlas size, [k] a positive whole number,
    multiplies every origin by [k] exactly, and rescaling back to the
    recorded size returns the model that was started from. *)
Theorem scaleModelUVs_whole_factor (m : MinecraftModel) (data : BedrockModel)
    (A1 A2 : Qc) (k : Z) :
  bedrockData m = Some data → texture_size data = Some (A1, A2) →
  (0 < A1)%Qc → (0 < A2)%Qc → 1 ≤ k →
  Forall integralUV (allCubes (bones data)) →
  (∀ p c x y, cubeAt (bones data) p = Some c → uv c = Some (num x, num y) →
     assignedUV (scaleModelUVs m (num k * A1)%Qc (num k * A2)%Qc) p
     = Some (Some (num (k * x), num (k * y)))) ∧
  scaleModelUVs (scaleModelUVs m (num k * A1)%Qc (num k * A2)%Qc) A1 A2 = m.
Proof.
  intros Hd Hts H1 H2 Hk Hint.
  assert (Hrec : recordedSize data = (A1, A2)) by (unfold recordedSize; by rewrite Hts).
  destruct (decide (k = 1)) as [->|Hk1].
  - rewrite num_1, !Qcmult_1_l.
    pose proof (scaleModelUVs_same m data Hd) as Hsame. rewrite Hrec in Hsame.
    simpl in Hsame. rewrite !Hsame. split; [|done].
    intros p c x y Hc Hu. unfold assignedUV. rewrite Hd. simpl.
    rewrite Hc. simpl. rewrite Hu. by rewrite !Z.mul_1_l.
  - assert (Hne : ¬ (A1 = (num k * A1)%Qc ∧ A2 = (num k * A2)%Qc)).
    { intros [Heq _]. symmetry in Heq. revert Heq.
      apply scaled_size_differs; [done|lia]. }
    rewrite (scaleModelUVs_changed m data A1 A2 _ _ Hd Hrec Hne). split.
    + intros p c x y Hc Hu.
      destruct (scaleModelUVs_uv m data A1 A2 (num k * A1)%Qc (num k * A2)%Qc
                  p c (num x) (num y) Hd Hrec Hc Hu)
        as (data' & Hd' & [(E1 & E2 & _)|(_ & _ & c' & Hc' & Hu')]);
        [by destruct Hne|].
      rewrite <- (scaleModelUVs_changed m data A1 A2 _ _ Hd Hrec Hne).
      unfold assignedUV. rewrite Hd'. simpl. rewrite Hc'. simpl. rewrite Hu'.
      by rewrite !scale_up_exact.
    + match goal with |- scaleModelUVs ?m1 _ _ = _ => set (m' := m1) end.
      match goal with m' := set_bedrockData _ (Some ?d1) |- _ =>
        set (data' := d1) in * end.
      assert (Hne' : ¬ ((num k * A1)%Qc = A1 ∧ (num k * A2)%Qc = A2)).
      { intros [Heq _]. revert Heq. apply scaled_size_differs; [done|lia]. }
      rewrite (scaleModelUVs_changed m' data' (num k * A1)%Qc (num k * A2)%Qc A1 A2);
        [|done|done|done].
      unfold m', data', set_bedrockData, set_bones, set_texture_size. cbn.
      destruct m as [ty lo bd ident pl]. cbn in Hd. subst bd.
      destruct data as [fv bi ts bs]. cbn in *. subst ts. do 3 f_equal.
      rewrite map_map. rewrite <- (map_id bs) at 2.
      apply map_ext_in. intros b Hb%list_elem_of_In. cbn.
      destruct b as [n pa pv ro cs at']. unfold set_cubes. cbn. f_equal.
      rewrite map_map. rewrite <- (map_id cs) at 2.
      apply map_ext_in. intros c Hc%list_elem_of_In.
      apply integral_scale_roundtrip; [done..|].
      by apply (integralUV_bones bs _ c Hint Hb).
Qed.

Lemma scaleModelUVs_whole_factor_witness :
  (∀ p c x y,
     cubeAt [plainBone "body" None (0, 0, 0) [packedCube]] p = Some c →
     uv c = Some (num x, num y) →
     assignedUV (scaleModelUVs atlasModel (num 2 * num 64)%Qc (num 2 * num 64)%Qc) p
     = Some (Some (num (2 * x), num (2 * y)))) ∧
  scaleModelUVs (scaleModelUVs atlasModel (num 2 * num 64)%Qc (num 2 * num 64)%Qc)
                (num 64) (num 64)
  = atlasModel.
Proof.
  apply (scaleModelUVs_whole_factor atlasModel
           (set_texture_size (plainData [plainBone "body" None (0, 0, 0) [packedCube]])
                             (Some (num 64, num 64)))
           (num 64) (num 64) 2);
    [reflexivity|reflexivity|by vm_compute|by vm_compute|lia|].
  apply Forall_cons. split; [|by apply Forall_nil].
  intros u v [= <- <-]. by exists 10, 20.
Defined.

(** ** Footprints that stay inside the atlas *)

Lemma shelfStep_textureH_mono W st item :
  0 ≤ textureH st → textureH st ≤ textureH (shelfStep W st item).1.
Proof.
  unfold shelfStep. simpl. intros Ht.
  destruct (W <? _); simpl; destruct (_ <? _); lia.
Qed.

Lemma finalShelf_textureH_mono W items : ∀ st,
  0 ≤ textureH st → textureH st ≤ textureH (finalShelf W st items).
Proof.
  unfold finalShelf. induction items as [|item items IH]; intros st Ht; [done|].
  cbn [fold_left]. pose proof (shelfStep_textureH_mono W st item Ht).
  etrans; [done|]. apply IH. lia.
Qed.

(** The shelf loop keeps every footprint that fits the smallest atlas
    inside the atlas as it has grown by the end of the loop. *)
Lemma placeAll_inside W items : ∀ st,
  MIN_TEXTURE_SIZE ≤ W → MIN_TEXTURE_SIZE ≤ textureH st →
  0 ≤ currentX st → 0 ≤ currentY st → 0 ≤ rowHeight st →
  currentY st + rowHeight st ≤ textureH st →
  Forall (fun item => fitsSmallestAtlas {| bw := item_w item; bh := item_h item |})
         items →
  Forall (fun a => 0 ≤ a.2.1 ∧ a.2.1 + item_w a.1 ≤ W ∧
                   0 ≤ a.2.2 ∧
                   a.2.2 + item_h a.1 ≤ textureH (finalShelf W st items))
         (placeAll W st items).
Proof.
  induction items as [|item items IH]; intros st HW HT Hx Hy Hr Hyr Hfit;
    [by apply Forall_nil|].
  inversion_clear Hfit as [|? ? [Hw Hh] Hrest]. simpl in Hw, Hh.
  cbn [placeAll]. change (finalShelf W st (item :: items))
    with (finalShelf W (shelfStep W st item).1 items).
  assert (Hstep : MIN_TEXTURE_SIZE ≤ textureH (shelfStep W st item).1 ∧
                  0 ≤ currentX (shelfStep W st item).1 ∧
                  0 ≤ currentY (shelfStep W st item).1 ∧
                  0 ≤ rowHeight (shelfStep W st item).1 ∧
                  currentY (shelfStep W st item).1
                  + rowHeight (shelfStep W st item).1
                  ≤ textureH (shelfStep W st item).1 ∧
                  0 ≤ (shelfStep W st item).2.1 ∧
                  (shelfStep W st item).2.1 + item_w item ≤ W ∧
                  0 ≤ (shelfStep W st item).2.2 ∧
                  (shelfStep W st item).2.2 + item_h item
                  ≤ textureH (shelfStep W st item).1).
  { unfold shelfStep, MIN_TEXTURE_SIZE, PADDING in *.
    cbn [fst snd currentX currentY rowHeight textureH].
    destruct (Z.ltb_spec W (currentX st + item_w item));
      cbn [fst snd currentX currentY rowHeight textureH];
      match goal with |- context [if ?c then _ else _] =>
        destruct c eqn:E end;
      rewrite ?Z.ltb_lt, ?Z.ltb_ge in E; lia. }
  destruct Hstep as (HT' & Hx' & Hy' & Hr' & Hyr' & Hp1 & Hp2 & Hp3 & Hp4).
  apply Forall_cons. split.
  - cbn [fst snd]. split; [done|]. split; [done|]. split; [done|].
    etrans; [exact Hp4|]. apply finalShelf_textureH_mono.
    unfold MIN_TEXTURE_SIZE in HT'. lia.
  - by apply IH.
Qed.

Lemma initialDim_min area : MIN_TEXTURE_SIZE ≤ initialDim area.
Proof.
  destruct (growDim_pow (dimFuel area) MIN_TEXTURE_SIZE area) as (k & Hk & _).
  fold (initialDim area) in Hk. rewrite Hk.
  assert (0 < 2 ^ Z.of_nat k) by (apply Z.pow_pos_nonneg; lia).
  unfold MIN_TEXTURE_SIZE. lia.
Qed.

(** X7: in an entity model whose footprints are at most 64 wide and at
    most 62 high (the smallest atlas less the padding), every footprint
    lies inside the square atlas that [packUVs] records, at the UV origin
    the cube received. *)
Theorem packUVs_inside_atlas (m : MinecraftModel) (d : Density)
    (data : BedrockModel) (p : nat * nat) (c : ModelCube) :
  type m = ENTITY → bedrockData m = Some data →
  Forall (fun c => fitsSmallestAtlas (getBoxUVSize c (densityScale d)))
         (allCubes (bones data)) →
  cubeAt (bones data) p = Some c →
  ∃ x y side,
    atlasSize (packUVs m d) = Some (Some (num side, num side)) ∧
    assignedUV (packUVs m d) p = Some (Some (num x, num y)) ∧
    0 ≤ x ∧ x + bw (getBoxUVSize c (densityScale d)) ≤ side ∧
    0 ≤ y ∧ y + bh (getBoxUVSize c (densityScale d)) ≤ side.
Proof.
  intros Ht Hd Hfit Hc.
  destruct (packUVs_cube m d data p c Ht Hd Hc) as ([x y] & Hin & Huv & _).
  exists x, y, (packSide d (bones data)).
  split; [by apply packUVs_atlas|]. split; [exact Huv|].
  assert (Hitems : Forall (fun item => fitsSmallestAtlas
                             {| bw := item_w item; bh := item_h item |})
                          (packItems d (bones data))).
  { apply list.Forall_forall. intros it Hit.
    apply packItems_elem in Hit as (c' & Hc' & ->). simpl.
    rewrite list.Forall_forall in Hfit.
    pose proof (Hfit c' (cubeAt_allCubes _ _ _ Hc')) as H.
    by destruct (getBoxUVSize c' (densityScale d)). }
  pose proof (initialDim_min (totalArea (packItems d (bones data)))) as HW.
  pose proof (placeAll_inside _ (packItems d (bones data))
                (packStart d (bones data)) HW) as Hall.
  unfold packStart at 1 2 3 4 5 6 in Hall. simpl in Hall.
  fold (packStart d (bones data)) in Hall.
  specialize (Hall HW ltac:(lia) ltac:(lia) ltac:(lia)
                   ltac:(unfold MIN_TEXTURE_SIZE in HW; lia) Hitems).
  fold (packPlaced d (bones data)) in Hall.
  rewrite list.Forall_forall in Hall. specialize (Hall _ Hin). simpl in Hall.
  unfold packSide. lia.
Qed.

Lemma packUVs_inside_atlas_witness :
  ∃ x y side,
    atlasSize (packUVs (entityModel twoCubeBones) D16x)
    = Some (Some (num side, num side)) ∧
    assignedUV (packUVs (entityModel twoCubeBones) D16x) (0, 0)%nat
    = Some (Some (num x, num y)) ∧
    0 ≤ x ∧ x + bw (getBoxUVSize bodyCube (densityScale D16x)) ≤ side ∧
    0 ≤ y ∧ y + bh (getBoxUVSize bodyCube (densityScale D16x)) ≤ side.
Proof.
  apply (packUVs_inside_atlas (entityModel twoCubeBones) D16x
           (plainData twoCubeBones) (0, 0)%nat bodyCube);
    [reflexivity|reflexivity| |reflexivity].
  repeat (apply Forall_cons; split); [..|by apply Forall_nil];
    by vm_compute.
Defined.

(* ================================================================== *)
(** * The viewer *)
(* ================================================================== *)

Lemma Math_floor_num (z : Z) : Math_floor (num z) = z.
Proof. unfold Math_floor. rewrite this_num. apply Qfloor_Z. Qed.

(** With whole [uv] origins the viewer and the renderer use the same
    pixel rectangles. *)
Lemma faceUVs_drawCube (scale : Z) (cube : ModelCube) (x y : Z) :
  uv cube = Some (num x, num y) →
  map faceRect (faceUVs true (num scale) cube) ≡ₚ map rectOf (drawCube scale cube).
Proof.
  intros Huv. unfold faceUVs, drawCube. rewrite Huv.
  destruct (size cube) as [[w h] d].
  unfold faceRect, rectOf, rectPos, rectExtent, drawRect.
  cbn [map faceIdx uStart vStart face_width face_height faceLabel
       rx ry rwidth rheight rlabel].
  rewrite !Math_floor_num, !num_plus.
  set (rw := Math_ceil (w * num scale)%Qc).
  set (rh := Math_ceil (h * num scale)%Qc).
  set (rd := Math_ceil (d * num scale)%Qc).
  match goal with |- [?R; ?L; ?T; ?B; ?F; ?K] ≡ₚ _ =>
    change ([R; L; T; B; F; K] ≡ₚ [T; B] ++ R :: ([F] ++ L :: [K]))
  end.
  etrans; [|apply Permutation_middle]. apply perm_skip.
  rewrite app_assoc. etrans; [|apply Permutation_middle]. by apply perm_skip.
Qed.

(** X8: for a cube whose [uv] origin is a pair of whole numbers, the
    pixel rectangles from which the viewer takes the six faces, at a
    whole [uvScale], are the rectangles the reference image shows for
    these faces at that scale. *)
Theorem viewer_faces_match_renderer (scale : Z) (cube : ModelCube) (x y : Z) :
  uv cube = Some (num x, num y) →
  map faceRect (faceUVs true (num scale) cube) ≡ₚ map rectOf (drawCube scale cube).
Proof. apply faceUVs_drawCube. Qed.

Lemma viewer_faces_match_renderer_witness :
  map faceRect (faceUVs true (num 2) cube8) ≡ₚ map rectOf (drawCube 2 cube8).
Proof. apply (viewer_faces_match_renderer 2 cube8 0 0). reflexivity. Defined.

(** ** From the packed layout to the textured view *)

Lemma Math_ceil_whole (a t : Z) : Math_ceil (num a * num t)%Qc = a * t.
Proof. by rewrite <- num_mult, Math_ceil_num. Qed.

(** Drawing a cube of whole size at [k] times the scale, from [k] times
    the origin, gives the rectangles magnified [k] times. *)
Lemma drawCube_magnified (s k x y : Z) (c c' : ModelCube) :
  integralSize c → size c' = size c →
  uv c = Some (num x, num y) → uv c' = Some (num (k * x), num (k * y)) →
  map rectOf (drawCube (s * k) c') = map (magnify k) (map rectOf (drawCube s c)).
Proof.
  intros (a & b & e & Hsz) Hsz' Hu Hu'. unfold drawCube.
  rewrite Hu, Hu', Hsz', Hsz. rewrite !Math_ceil_whole.
  unfold rectOf, rectPos, rectExtent, drawRect, magnify.
  cbn [map rx ry rwidth rheight rlabel fst snd].
  assert (Hm : ∀ z : Z, (num k * num z)%Qc = num (k * z))
    by (intros; by rewrite num_mult).
  assert (Hd : ∀ p q : Qc, (num k * (p + q) = num k * p + num k * q)%Qc)
    by (intros; ring).
  rewrite !Hd, !Hm.
  replace (a * (s * k)) with (k * (a * s)) by lia.
  replace (b * (s * k)) with (k * (b * s)) by lia.
  replace (e * (s * k)) with (k * (e * s)) by lia.
  reflexivity.
Qed.

Lemma packSide_min d bs : MIN_TEXTURE_SIZE ≤ packSide d bs.
Proof.
  unfold packSide. pose proof (initialDim_min (totalArea (packItems d bs))). lia.
Qed.

Lemma size_scaleCubeUV sx sy c : size (scaleCubeUV sx sy c) = size c.
Proof. unfold scaleCubeUV. by destruct (uv c) as [[u v]|]. Qed.

(** X9: a texture image [k] times the size of the packed atlas ([k] a
    positive whole number) is put on an entity model as follows: the
    handler returns the model with the atlas size of the image and tells
    the viewer the scale [densityScale * k]; for every cube of whole size,
    the pixel rectangles the viewer then takes the faces from are the
    rectangles the reference image showed for that cube, magnified [k]
    times. *)
Theorem texture_upload_magnifies (m : MinecraftModel) (d : Density)
    (data : BedrockModel) (k : Z) (p : nat * nat) (c : ModelCube) :
  type m = ENTITY → bedrockData m = Some data → 1 ≤ k →
  cubeAt (bones data) p = Some c → integralSize c →
  let side := packSide d (bones data) in
  ∃ scaled ds cp cs,
    handleUploadTexture m d (num (k * side)) (num (k * side))
    = Some (scaled, num (densityScale d * k)) ∧
    atlasSize scaled = Some (Some (num (k * side), num (k * side))) ∧
    cubeAt (bones (packedData d data)) p = Some cp ∧
    bedrockData scaled = Some ds ∧ cubeAt (bones ds) p = Some cs ∧
    map faceRect (faceUVs true (num (densityScale d * k)) cs)
    ≡ₚ map (magnify k) (map rectOf (drawCube (densityScale d) cp)).
Proof.
  intros Ht Hd Hk Hc Hint side.
  pose proof (packSide_min d (bones data)) as Hside. fold side in Hside.
  unfold MIN_TEXTURE_SIZE in Hside.
  assert (Hs0 : (0 < num side)%Qc)
    by (rewrite <- num_0; apply (proj1 (num_lt _ _)); lia).
  assert (Hsne : num side ≠ 0%Qc) by (by apply not_eq_sym, Qclt_not_eq).
  pose proof (packUVs_data m d data Ht Hd) as Hpd.
  destruct (packedData_cubeAt d data p c Hc) as ([x y] & _ & Hcp).
  set (cp := set_uv c (Some (uvOfZ (x, y)))) in *.
  assert (Hrec : recordedSize (packedData d data) = (num side, num side)) by done.
  assert (Hratio : @eq Qc (num (k * side) / num side)%Qc (num k))
    by (rewrite num_mult; field; done).
  assert (Hhandler : handleUploadTexture m d (num (k * side)) (num (k * side))
            = Some (scaleModelUVs (packUVs m d) (num (k * side)) (num (k * side)),
                    num (densityScale d * k))).
  { unfold handleUploadTexture. rewrite Hpd. cbn [texture_size packedData
      set_bones set_texture_size mbind option_bind fst snd].
    fold side. rewrite bool_decide_eq_false_2.
    - cbn. by rewrite Hratio, <- num_mult.
    - intros Heq%num_inj. lia. }
  destruct (decide (k = 1)) as [->|Hk1].
  - rewrite Z.mul_1_l in *.
    pose proof (scaleModelUVs_same (packUVs m d) _ Hpd) as Hsame.
    rewrite Hrec in Hsame. cbn [fst snd] in Hsame. rewrite Hsame in Hhandler.
    exists (packUVs m d), (packedData d data), cp, cp.
    split; [by rewrite Z.mul_1_r in *|]. split; [by apply packUVs_atlas|].
    split; [done|]. split; [done|]. split; [done|].
    rewrite Z.mul_1_r.
    rewrite (faceUVs_drawCube (densityScale d) cp x y) by done.
    rewrite <- (Z.mul_1_r (densityScale d)) at 1.
    rewrite (drawCube_magnified (densityScale d) 1 x y cp cp);
      [done|done|done|done|by rewrite !Z.mul_1_l].
  - assert (Hne : ¬ (num side = num (k * side) ∧ num side = num (k * side))).
    { intros [Heq%num_inj _]. nia. }
    pose proof (scaleModelUVs_changed (packUVs m d) _ _ _ _ _ Hpd Hrec Hne)
      as Hscaled.
    set (cs := scaleCubeUV (num (k * side) / num side)%Qc
                           (num (k * side) / num side)%Qc cp).
    eexists _, _, cp, cs. split; [exact Hhandler|].
    rewrite Hscaled. split; [done|]. split; [done|]. split; [reflexivity|].
    split.
    { cbn [bones set_bones]. by rewrite cubeAt_map_cubes, Hcp. }
    assert (Hu : uv cs = Some (num (k * x), num (k * y))).
    { unfold cs, scaleCubeUV, cp. cbn [uv set_uv uvOfZ fst snd].
      rewrite Hratio, <- !num_mult, !Math_round_num.
      by rewrite (Z.mul_comm x), (Z.mul_comm y). }
    rewrite (faceUVs_drawCube (densityScale d * k) cs (k * x) (k * y) Hu).
    rewrite (drawCube_magnified (densityScale d) k x y cp cs);
      [done|done|by apply size_scaleCubeUV|done|done].
Qed.

Lemma texture_upload_magnifies_witness :
  ∃ scaled ds cp cs,
    handleUploadTexture (entityModel twoCubeBones) D16x
      (num (2 * packSide D16x twoCubeBones)) (num (2 * packSide D16x twoCubeBones))
    = Some (scaled, num (densityScale D16x * 2)) ∧
    atlasSize scaled
    = Some (Some (num (2 * packSide D16x twoCubeBones),
                  num (2 * packSide D16x twoCubeBones))) ∧
    cubeAt (bones (packedData D16x (plainData twoCubeBones))) (0, 0)%nat = Some cp ∧
    bedrockData scaled = Some ds ∧ cubeAt (bones ds) (0, 0)%nat = Some cs ∧
    map faceRect (faceUVs true (num (densityScale D16x * 2)) cs)
    ≡ₚ map (magnify 2) (map rectOf (drawCube (densityScale D16x) cp)).
Proof.
  apply (texture_upload_magnifies (entityModel twoCubeBones) D16x
           (plainData twoCubeBones) 2 (0, 0)%nat bodyCube);
    [reflexivity|reflexivity|lia|reflexivity|].
  by exists 8, 8, 8.
Defined.

(* ================================================================== *)
(** * The exported model file *)
(* ================================================================== *)

Lemma seq_snoc_app (a n k : nat) : seq a (n + k) = seq a n ++ seq (a + n) k.
Proof. apply seq_app. Qed.

Lemma preorder_unfold (n : HytaleNode) :
  preorder n = n :: flat_map preorder (children n).
Proof. by destruct n. Qed.

(** Leaves made by [mapWithId] take consecutive ids. *)
Lemma mapWithId_ids {A} (mk : nat → A → string → HytaleNode) xs : ∀ idx c,
  (∀ i x id, node_id (mk i x id) = id ∧ children (mk i x id) = []) →
  (mapWithId mk idx xs c).2 = (c + length xs)%nat ∧
  map node_id (flat_map preorder (mapWithId mk idx xs c).1)
  = map pretty (seq (S c) (length xs)).
Proof.
  induction xs as [|x xs IH]; intros idx c Hmk; [simpl; split; [lia|done]|].
  cbn [mapWithId]. unfold generateId.
  destruct (mapWithId mk (S idx) xs (S c)) as [ns c2] eqn:E.
  destruct (IH (S idx) (S c) Hmk) as [Hc Hids]. rewrite E in Hc, Hids.
  simpl in Hc, Hids. destruct (Hmk idx x (pretty (S c))) as [Hid Hch].
  split; [simpl; lia|].
  cbn [fst flat_map]. rewrite preorder_unfold, Hch.
  cbn [flat_map app map length seq]. by rewrite Hid, Hids.
Qed.

Lemma cubeNode_leaf `{Three} bone ts i x id :
  node_id (cubeNode bone ts i x id) = id ∧ children (cubeNode bone ts i x id) = [].
Proof. done. Qed.

Lemma attachmentNode_leaf x id :
  node_id (attachmentNode x id) = id ∧ children (attachmentNode x id) = [].
Proof. done. Qed.

Lemma flat_map_app' {A B} (f : A → list B) l k :
  flat_map f (l ++ k) = flat_map f l ++ flat_map f k.
Proof. induction l as [|x l IH]; simpl; [done|]. by rewrite IH, app_assoc. Qed.

Lemma nodeTotal_app l k : nodeTotal (l ++ k) = (nodeTotal l + nodeTotal k)%nat.
Proof.
  unfold nodeTotal. induction l as [|b l IH]; [done|].
  cbn [app foldr]. rewrite IH. lia.
Qed.

(** Ids are handed out in the order of the file, one per node, and a call
    hands out as many as the bones it visits contribute nodes. *)
Lemma build_ids `{Three} (bones : list ModelBone) (ts : vec2) fuel :
  ∀ pid ppiv c nodes c',
    buildHytaleNodeTree fuel bones pid ppiv ts c = Some (nodes, c') →
    c' = (c + nodeTotal (subtree fuel bones pid))%nat ∧
    map node_id (flat_map preorder nodes)
    = map pretty (seq (S c) (nodeTotal (subtree fuel bones pid))).
Proof.
  induction fuel as [|fuel IH]; intros pid ppiv c nodes c' Hbuild; [done|].
  simpl in Hbuild. simpl subtree.
  set (body := boneNode
         (fun pid pivot c => buildHytaleNodeTree fuel bones pid pivot ts c)
         ppiv ts) in *.
  revert c nodes c' Hbuild.
  generalize (List.filter (selects pid) bones). intros sel.
  induction sel as [|b rest IHsel]; intros c nodes c' Hloop.
  - injection Hloop as <- <-. simpl. split; [lia|done].
  - rewrite buildLoop_cons in Hloop.
    destruct (body b c) as [[node c4]|] eqn:Hnode; [|done].
    apply buildLoop_prefix in Hloop as (new & Hnew & Heq).
    simpl in Hnew, Heq. subst nodes.
    destruct (IHsel c4 new c' Hnew) as [Hc' Hids'].
    unfold body, boneNode, generateId in Hnode.
    destruct (mapWithId (cubeNode b ts) 0 (cubes b) (S c))
      as [cubeNodes c2] eqn:Ecubes.
    destruct (mapWithId (fun _ => attachmentNode) 0
                        (default [] (attachments b)) c2)
      as [attNodes c3] eqn:Eatts.
    destruct (buildHytaleNodeTree fuel bones (Some (name b)) (bone_pivot b) ts c3)
      as [[childrenNodes c5]|] eqn:Echildren; [|done].
    simpl in Hnode. injection Hnode as <- <-.
    destruct (mapWithId_ids (cubeNode b ts) (cubes b) 0 (S c)
                (cubeNode_leaf b ts)) as [Hc2 Hcubes].
    rewrite Ecubes in Hc2, Hcubes. simpl in Hc2, Hcubes.
    destruct (mapWithId_ids (fun _ => attachmentNode)
                (default [] (attachments b)) 0 c2
                (fun _ => attachmentNode_leaf)) as [Hc3 Hatts].
    rewrite Eatts in Hc3, Hatts. simpl in Hc3, Hatts.
    destruct (IH _ _ _ _ _ Echildren) as [Hc5 Hchildren].
    cbn [flat_map]. rewrite nodeTotal_app. cbn [nodeTotal foldr].
    fold (nodeTotal (subtree fuel bones (Some (name b)))).
    unfold nodeCount. split; [lia|].
    rewrite preorder_unfold. cbn [app children node_id map].
    rewrite map_app, !flat_map_app', !map_app, Hcubes, Hatts, Hchildren, Hids'.
    subst c2 c3 c5.
    set (nc := length (cubes b)). set (na := length (default [] (attachments b))).
    set (nt := nodeTotal (subtree fuel bones (Some (name b)))).
    set (nr := nodeTotal (flat_map _ rest)).
    replace (S (nc + na) + nt + nr)%nat with (S (nc + (na + (nt + nr)))) by lia.
    cbn [seq map]. f_equal.
    rewrite !seq_snoc_app, !map_app, <- !app_assoc.
    repeat f_equal; lia.
Qed.

(** X10: whenever the export of a model returns, the ids of the nodes of
    the file, read from top to bottom, are the numbers 1, 2, ..., n, where
    n is the number of nodes: no id is used twice and the counter the
    export ends with is the number of nodes. *)
Theorem exported_ids_sequential `{Three} (fuel : nat) (model : MinecraftModel)
    (nodes : list HytaleNode) (n : nat) :
  exportNodes fuel model = Some (Some (nodes, n)) →
  map node_id (flat_map preorder nodes) = map pretty (seq 1 n) ∧
  length (flat_map preorder nodes) = n ∧
  NoDup (map node_id (flat_map preorder nodes)).
Proof.
  unfold exportNodes. destruct (bedrockData model) as [data|]; [|done].
  intros [= Hbuild]. apply build_ids in Hbuild as [Hn Hids].
  simpl in Hn. rewrite <- Hn in Hids. split; [exact Hids|]. split.
  - apply (f_equal length) in Hids. by rewrite !length_map, length_seq in Hids.
  - rewrite Hids. to_fmap. apply (NoDup_fmap_2 _), NoDup_seq.
Qed.

Lemma subtree_all (bs : list ModelBone) :
  wellFormed bs → subtree (S (length bs)) bs None ≡ₚ bs.
Proof.
  intros Hwf. pose proof Hwf as (Hnd & Ht & _).
  apply NoDup_Permutation.
  - apply (subtree_NoDup bs Hnd Ht _ None 0). by left.
  - eapply NoDup_fmap_1. exact Hnd.
  - intros b. split.
    + intros Hb. by apply (subtree_rooted bs Hnd Ht) in Hb as [? _].
    + intros Hb. destruct (wellFormed_Depth bs b Hwf Hb) as [d Hd].
      apply (subtree_mono_le bs (S d)).
      * pose proof (Depth_bound bs b d Hb Hd). lia.
      * by apply (Depth_in_subtree bs Ht).
Qed.

Lemma nodeTotal_perm l k : l ≡ₚ k → nodeTotal l = nodeTotal k.
Proof. unfold nodeTotal. induction 1; cbn [foldr]; lia. Qed.

Lemma foldl_cubes_count bs : ∀ a,
  foldl (fun acc b => (acc + length (cubes b))%nat) a bs
  = (a + foldr (fun b acc => (length (cubes b) + acc)%nat) 0%nat bs)%nat.
Proof.
  induction bs as [|b bs IH]; intros a; simpl; [lia|]. rewrite IH. lia.
Qed.

Lemma nodeTotal_stats (m : MinecraftModel) (data : BedrockModel) :
  bedrockData m = Some data →
  nodeTotal (bones data) = (totalNodes (stats m) + attachmentTotal m)%nat.
Proof.
  intros Hd. unfold stats, attachmentTotal. rewrite Hd. cbn [totalNodes fmap
    option_fmap option_map default].
  rewrite foldl_cubes_count. unfold nodeTotal, nodeCount, id.
  induction (bones data) as [|b bs IH]; cbn [foldr length] in *; lia.
Qed.

(** X11: for a model whose bones form a forest, the export returns, for
    every recursion depth above the number of bones, one and the same
    file, and the file has one node for every bone, every cube and every
    attachment of the model: as many as the sidebar counts as the model's
    nodes, plus the attachments, which the sidebar does not count. *)
Theorem exported_node_count `{Three} (model : MinecraftModel)
    (data : BedrockModel) :
  bedrockData model = Some data → wellFormed (bones data) →
  ∃ nodes n,
    (∀ fuel, (length (bones data) < fuel)%nat →
       exportNodes fuel model = Some (Some (nodes, n))) ∧
    length (flat_map preorder nodes) = n ∧
    n = (totalNodes (stats model) + attachmentTotal model)%nat.
Proof.
  intros Hd Hwf. pose proof Hwf as (Hnd & Ht & _).
  destruct (roundtrip_all (bones data)
              (default (num 64, num 64) (texture_size data)) Hnd Ht None "")
    as (nodes & n & Hbuild & _).
  exists nodes, n.
  assert (Hexp : ∀ fuel, (length (bones data) < fuel)%nat →
            exportNodes fuel model = Some (Some (nodes, n))).
  { intros fuel Hf. unfold exportNodes. rewrite Hd. by rewrite Hbuild. }
  split; [exact Hexp|].
  pose proof (Hbuild (S (length (bones data))) ltac:(lia)) as Hb.
  destruct (build_ids _ _ _ _ _ _ _ _ Hb) as [Hn Hids].
  rewrite (nodeTotal_perm _ _ (subtree_all _ Hwf)) in Hn, Hids. simpl in Hn.
  split.
  - apply (f_equal length) in Hids. rewrite !length_map, length_seq in Hids.
    by rewrite Hids.
  - rewrite Hn. by apply nodeTotal_stats.
Qed.

Lemma exported_ids_sequential_witness :
  ∃ nodes,
    @exportNodes sampleThree 4 (entityModel chainBones)
    = Some (Some (nodes, 6%nat)) ∧
    map node_id (flat_map preorder nodes) = map pretty (seq 1 6) ∧
    length (flat_map preorder nodes) = 6%nat ∧
    NoDup (map node_id (flat_map preorder nodes)).
Proof.
  eexists. split; [vm_compute; reflexivity|].
  apply (@exported_ids_sequential sampleThree 4 (entityModel chainBones)).
  vm_compute; reflexivity.
Defined.

Lemma exported_node_count_witness :
  ∃ nodes n,
    (∀ fuel, (length chainBones < fuel)%nat →
       @exportNodes sampleThree fuel (entityModel chainBones)
       = Some (Some (nodes, n))) ∧
    length (flat_map preorder nodes) = n ∧
    n = (totalNodes (stats (entityModel chainBones))
         + attachmentTotal (entityModel chainBones))%nat.
Proof.
  apply (@exported_node_count sampleThree (entityModel chainBones)
           (plainData chainBones)); [reflexivity|apply chainBones_wellFormed].
Defined.

(** ** What else the round trip keeps, and what it loses *)

(** X12: exporting a model whose bones form a forest and importing the
    file again gives a model with the same number of bones, each with its
    name and parent and with the same number of cubes.  Cube sizes and
    [uv] origins come back (a cube without [uv] comes back with the origin
    (0, 0)), attachments come back with their positions and names (an
    empty name as ["attachment"]).  The colours of the cubes are lost:
    every cube comes back white; and the model comes back with a recorded
    texture size of 64 x 64, whatever it was. *)
Theorem roundtrip_keeps_and_loses `{Three} (bs : list ModelBone)
    (textureSize : vec2) (modelName : option string) (filename : string) :
  wellFormed bs →
  ∃ nodes counter data,
    (∀ fuel, (length bs < fuel)%nat →
       buildHytaleNodeTree fuel bs None zero3 textureSize 0
       = Some (nodes, counter)) ∧
    bedrockData (convertHytaleToBedrock
                   {| nodes := nodes; modelName := modelName |} filename)
    = Some data ∧
    texture_size data = Some (num 64, num 64) ∧
    length (bones data) = length bs ∧
    ∀ b, b ∈ bs →
      ∃ b', b' ∈ bones data ∧ name b' = name b ∧
        parent b' = (if isRoot b then None else parent b) ∧
        map size (cubes b') = map size (cubes b) ∧
        map uv (cubes b')
        = map (fun c => Some (default (num 0, num 0) (uv c))) (cubes b) ∧
        Forall (fun c' => color c' = Some "#FFFFFF") (cubes b') ∧
        attachments b'
        = Some (map (fun a => {| att_name := if truthy (att_name a)
                                             then att_name a else "attachment";
                                 att_position := att_position a |})
                    (default [] (attachments b))).
Proof.
  intros Hwf. pose proof Hwf as (Hnd & Ht & _).
  destruct (roundtrip_all bs textureSize Hnd Ht modelName filename)
    as (nodes & counter & Hbuild & Hdata & _).
  eexists nodes, counter, _. split; [exact Hbuild|]. split; [exact Hdata|].
  cbn [texture_size bones]. split; [done|].
  pose proof (subtree_all bs Hwf) as Hperm. split.
  - by rewrite length_map, Hperm.
  - intros b Hb. exists (reimportBone b). split.
    + to_fmap. apply list_elem_of_fmap_2. by rewrite Hperm.
    + unfold reimportBone. cbn [name parent cubes attachments].
      split; [done|]. split; [done|].
      rewrite !map_map. cbn [size uv reimportCube]. split; [done|].
      split; [done|]. split; [|done].
      apply list.Forall_forall. intros c' Hc'. revert Hc'. to_fmap.
      by intros (c & -> & _)%list_elem_of_fmap.
Qed.

Lemma roundtrip_keeps_and_loses_witness :
  ∃ nodes counter data,
    (∀ fuel, (length chainBones < fuel)%nat →
       @buildHytaleNodeTree sampleThree fuel chainBones None zero3
         (num 64, num 64) 0
       = Some (nodes, counter)) ∧
    bedrockData (@convertHytaleToBedrock sampleThree
                   {| nodes := nodes; modelName := None |} "chain.blockymodel")
    = Some data ∧
    texture_size data = Some (num 64, num 64) ∧
    length (bones data) = length chainBones ∧
    ∀ b, b ∈ chainBones →
      ∃ b', b' ∈ bones data ∧ name b' = name b ∧
        parent b' = (if isRoot b then None else parent b) ∧
        map size (cubes b') = map size (cubes b) ∧
        map uv (cubes b')
        = map (fun c => Some (default (num 0, num 0) (uv c))) (cubes b) ∧
        Forall (fun c' => color c' = Some "#FFFFFF") (cubes b') ∧
        attachments b'
        = Some (map (fun a => {| att_name := if truthy (att_name a)
                                             then att_name a else "attachment";
                                 att_position := att_position a |})
                    (default [] (attachments b))).
Proof.
  apply (@roundtrip_keeps_and_loses sampleThree chainBones (num 64, num 64)
           None "chain.blockymodel").
  apply chainBones_wellFormed.
Defined.

(* ================================================================== *)
(** * Animation playback *)
(* ================================================================== *)

(** ** Interpolation between keyframes *)

Lemma insertKeyframe_perm k l : insertKeyframe k l ≡ₚ k :: l.
Proof.
  induction l as [|y l IH]; [done|]. simpl.
  destruct (decide (y.1 < k.1)%Qc); [|done].
  rewrite IH. apply perm_swap.
Qed.

Lemma sortKeyframes_perm l : sortKeyframes l ≡ₚ l.
Proof.
  induction l as [|k l IH]; [done|]. simpl.
  by rewrite insertKeyframe_perm, IH.
Qed.

Lemma insertKeyframe_sorted k l :
  StronglySorted notLater l → StronglySorted notLater (insertKeyframe k l).
Proof.
  induction l as [|y l IH]; intros Hs; simpl.
  - repeat constructor.
  - inversion Hs as [|? ? Hl Hy]; subst.
    destruct (decide (y.1 < k.1)%Qc) as [Hlt|Hge].
    + constructor; [by apply IH|].
      rewrite insertKeyframe_perm. constructor; [|done].
      by apply Qclt_le_weak.
    + constructor; [done|]. apply Qcnot_lt_le in Hge.
      constructor; [done|].
      eapply Forall_impl; [exact Hy|]. intros z Hz. unfold notLater in *.
      by etrans.
Qed.

Lemma sortKeyframes_sorted l : StronglySorted notLater (sortKeyframes l).
Proof.
  induction l as [|k l IH]; simpl; [constructor|].
  by apply insertKeyframe_sorted.
Qed.

Lemma last_cons_default {A} (l : list A) : ∀ x d,
  List.last (x :: l) d = List.last l x.
Proof.
  induction l as [|y l IH]; intros x d; [done|].
  change (List.last (x :: y :: l) d) with (List.last (y :: l) d).
  by rewrite !IH.
Qed.

Lemma findAround_app time l1 l2 : ∀ prev next,
  Forall (fun k => (k.1 ≤ time)%Qc) l1 →
  findAround time (l1 ++ l2) prev next
  = findAround time l2 (List.last l1 prev) next.
Proof.
  induction l1 as [|k l1 IH]; intros prev next Hl; [done|].
  inversion Hl as [|? ? Hk Hl1]; subst. cbn [app findAround].
  rewrite decide_True by done. rewrite IH by done.
  by rewrite last_cons_default.
Qed.
Lemma interp_first ch p r time :
  sortKeyframes ch = p :: r → (time < p.1)%Qc →
  getInterpolatedValue ch time = keyVector p.2.
Proof.
  intros Hs Hlt. unfold getInterpolatedValue. rewrite Hs.
  cbn [findAround]. rewrite decide_False by (by apply Qclt_not_le).
  by rewrite decide_True.
Qed.

Lemma interp_last ch l1 p time :
  sortKeyframes ch = l1 ++ [p] →
  Forall (fun k => (k.1 ≤ time)%Qc) (l1 ++ [p]) →
  getInterpolatedValue ch time = keyVector p.2.
Proof.
  intros Hs Hall. unfold getInterpolatedValue.
  destruct (sortKeyframes ch) as [|first rest] eqn:E;
    [by destruct l1|].
  rewrite Hs. rewrite <- (app_nil_r (l1 ++ [p])) at 1.
  rewrite findAround_app by done. cbn [findAround].
  rewrite !last_last. by rewrite decide_True.
Qed.

Lemma interp_adjacent ch l1 p n l3 time :
  sortKeyframes ch = l1 ++ p :: n :: l3 →
  Forall (fun k => (k.1 ≤ time)%Qc) (l1 ++ [p]) → (time < n.1)%Qc →
  getInterpolatedValue ch time
  = let factor := ((time - p.1) / (n.1 - p.1))%Qc in
    (lerp (keyVector p.2).1.1 (keyVector n.2).1.1 factor,
     lerp (keyVector p.2).1.2 (keyVector n.2).1.2 factor,
     lerp (keyVector p.2).2 (keyVector n.2).2 factor).
Proof.
  intros Hs Hall Hlt. unfold getInterpolatedValue.
  destruct (sortKeyframes ch) as [|first rest] eqn:E;
    [by destruct l1|].
  rewrite Hs.
  replace (l1 ++ p :: n :: l3) with ((l1 ++ [p]) ++ n :: l3)
    by (by rewrite <- app_assoc).
  rewrite findAround_app by done. cbn [findAround].
  rewrite decide_False by (by apply Qclt_not_le).
  rewrite last_last. cbn [fst snd].
  rewrite decide_False; [done|].
  intros Heq. apply Forall_app in Hall as [_ Hp].
  inversion Hp as [|? ? Hple _]; subst. rewrite <- Heq in Hlt.
  by apply Qclt_not_le in Hlt.
Qed.

Lemma sorted_split (s : list (number * KeyframeValue)) k v :
  StronglySorted notLater s → NoDup (map fst s) → (k, v) ∈ s →
  ∃ l1 r, s = l1 ++ (k, v) :: r ∧
    Forall (fun x => (x.1 < k)%Qc) l1 ∧ Forall (fun x => (k < x.1)%Qc) r.
Proof.
  intros Hs Hnd Hin.
  apply list_elem_of_split in Hin as (l1 & r & ->).
  exists l1, r. split; [done|].
  rewrite map_app in Hnd. cbn [map fst] in Hnd.
  apply NoDup_app in Hnd as (_ & Hl1 & Hr).
  apply NoDup_cons in Hr as [Hr _].
  split; apply list.Forall_forall; intros x Hx.
  - assert (Hle : notLater x (k, v)).
    { apply (StronglySorted_app_1_elem_of notLater l1 ((k, v) :: r));
        [done|done|by left]. }
    unfold notLater in Hle. cbn [fst] in Hle.
    destruct (Qcle_lt_or_eq _ _ Hle) as [?|Heq]; [done|].
    exfalso. subst k. apply (Hl1 x.1); [|by left].
    to_fmap. by apply list_elem_of_fmap_2.
  - apply StronglySorted_app_1_r in Hs.
    inversion Hs as [|? ? _ Hall]; subst.
    rewrite list.Forall_forall in Hall. specialize (Hall x Hx).
    unfold notLater in Hall. cbn [fst] in Hall.
    destruct (Qcle_lt_or_eq _ _ Hall) as [?|Heq]; [done|].
    exfalso. subst k. apply Hr. to_fmap. by apply list_elem_of_fmap_2.
Qed.
Lemma Qclt_irrefl (x : Qc) : ¬ (x < x)%Qc.
Proof. intros H. apply Qclt_not_le in H. apply H, Qcle_refl. Qed.

Lemma lerp_start (a b k d : Qc) : lerp a b ((k - k) / d)%Qc = a.
Proof.
  unfold lerp, Qcdiv.
  assert (E : (a + (b - a) * ((k - k) * / d) = a :> Qc)%Qc) by ring.
  exact E.
Qed.

Lemma factor_range (time k1 k2 : Qc) :
  (k1 ≤ time)%Qc → (time < k2)%Qc →
  (0 ≤ (time - k1) / (k2 - k1))%Qc ∧ ((time - k1) / (k2 - k1) < 1)%Qc.
Proof.
  intros H1 H2.
  assert (Hd : (0 < k2 - k1)%Qc) by qc_lra.
  assert (Hne : (k2 - k1 ≠ 0)%Qc) by (intros E; rewrite E in Hd; by apply Qclt_irrefl in Hd).
  assert (Hf : ((time - k1) / (k2 - k1) * (k2 - k1) = time - k1)%Qc).
  { unfold Qcdiv. rewrite <- Qcmult_assoc, (Qcmult_comm (/ _)), Qcmult_inv_r by done.
    apply Qcmult_1_r. }
  split.
  - apply (Qcmult_lt_0_le_reg_r _ _ (k2 - k1)); [done|].
    rewrite Hf, Qcmult_0_l. qc_lra.
  - apply Qcnot_le_lt. intros Hge.
    apply (Qcmult_le_compat_r _ _ (k2 - k1)) in Hge; [|by apply Qclt_le_weak].
    rewrite Hf, Qcmult_1_l in Hge. qc_lra.
Qed.

(** At the time of a keyframe the interpolated vector is the vector of the
    keyframe. *)
Lemma interp_at_keyframe (channel : AnimationChannel) k v :
  NoDup (map fst channel) → (k, v) ∈ channel →
  getInterpolatedValue channel k = keyVector v.
Proof.
  intros Hnd Hin.
  pose proof (sortKeyframes_perm channel) as Hperm.
  destruct (sorted_split (sortKeyframes channel) k v)
    as (l1 & r & Hs & Hl1 & Hr);
    [apply sortKeyframes_sorted|by rewrite Hperm|by rewrite Hperm|].
  assert (Hall : Forall (fun x => (x.1 ≤ k)%Qc) (l1 ++ [(k, v)])).
  { apply Forall_app. split.
    - eapply Forall_impl; [exact Hl1|]. intros x Hx. by apply Qclt_le_weak.
    - repeat constructor. apply Qcle_refl. }
  destruct r as [|h l3].
  - by apply (interp_last channel l1 (k, v) k Hs).
  - inversion Hr as [|? ? Hh _]; subst.
    rewrite (interp_adjacent channel l1 (k, v) h l3 k Hs Hall Hh).
    cbn [fst snd]. rewrite !lerp_start. by destruct (keyVector v) as [[??]?].
Qed.

(** X13: the vector the viewer plays for a channel whose keyframes have
    distinct times, whatever the order of its keys.  At the time of a
    keyframe it is the vector of that keyframe.  Up to the first keyframe
    it is the vector of the first, from the last keyframe on that of the
    last.  Between two neighbouring keyframes it is the linear
    interpolation of their vectors, with a factor from 0 up to, but not
    including, 1. *)
Theorem interpolation_through_keyframes (channel : AnimationChannel) :
  NoDup (map fst channel) →
  (∀ k v, (k, v) ∈ channel → getInterpolatedValue channel k = keyVector v) ∧
  (∀ k v time, (k, v) ∈ channel →
     (∀ k', k' ∈ map fst channel → (k ≤ k')%Qc) → (time ≤ k)%Qc →
     getInterpolatedValue channel time = keyVector v) ∧
  (∀ k v time, (k, v) ∈ channel →
     (∀ k', k' ∈ map fst channel → (k' ≤ k)%Qc) → (k ≤ time)%Qc →
     getInterpolatedValue channel time = keyVector v) ∧
  (∀ k1 v1 k2 v2 time, (k1, v1) ∈ channel → (k2, v2) ∈ channel →
     (k1 ≤ time)%Qc → (time < k2)%Qc →
     (∀ k', k' ∈ map fst channel → ¬ ((k1 < k')%Qc ∧ (k' < k2)%Qc)) →
     let factor := ((time - k1) / (k2 - k1))%Qc in
     (0 ≤ factor)%Qc ∧ (factor < 1)%Qc ∧
     getInterpolatedValue channel time
     = (lerp (keyVector v1).1.1 (keyVector v2).1.1 factor,
        lerp (keyVector v1).1.2 (keyVector v2).1.2 factor,
        lerp (keyVector v1).2 (keyVector v2).2 factor)).
Proof.
  intros Hnd.
  pose proof (sortKeyframes_perm channel) as Hperm.
  pose proof (sortKeyframes_sorted channel) as Hsorted.
  assert (Hnd' : NoDup (map fst (sortKeyframes channel))) by (by rewrite Hperm).
  assert (Hsplit : ∀ k v, (k, v) ∈ channel →
    ∃ l1 r, sortKeyframes channel = l1 ++ (k, v) :: r ∧
      Forall (fun x => (x.1 < k)%Qc) l1 ∧ Forall (fun x => (k < x.1)%Qc) r).
  { intros k v Hin. apply sorted_split; [done|done|by rewrite Hperm]. }
  assert (Hkey : ∀ x, x ∈ sortKeyframes channel → x.1 ∈ map fst channel).
  { intros x Hx. rewrite Hperm in Hx. to_fmap. by apply list_elem_of_fmap_2. }
  assert (Hweak : ∀ (k time : Qc) (l : list (number * KeyframeValue)) v,
    Forall (fun x => (x.1 < k)%Qc) l → (k ≤ time)%Qc →
    Forall (fun x => (x.1 ≤ time)%Qc) (l ++ [(k, v)])).
  { intros k time l v Hl Hle. apply Forall_app. split.
    - eapply Forall_impl; [exact Hl|]. intros x Hx. cbn beta in Hx.
      apply Qclt_le_weak. by eapply Qclt_le_trans.
    - by repeat constructor. }
  pose proof (fun k v => interp_at_keyframe channel k v Hnd) as Hat.
  split; [exact Hat|]. split; [|split].
  - intros k v time Hin Hmin Hle.
    destruct (Qcle_lt_or_eq _ _ Hle) as [Hlt| ->]; [|by apply Hat].
    destruct (Hsplit k v Hin) as (l1 & r & Hs & Hl1 & Hr).
    destruct l1 as [|x l1].
    + by apply (interp_first channel (k, v) r time Hs).
    + inversion Hl1 as [|? ? Hx _]; subst. exfalso.
      apply (Qclt_not_le _ _ Hx), Hmin, Hkey. rewrite Hs. by left.
  - intros k v time Hin Hmax Hle.
    destruct (Hsplit k v Hin) as (l1 & r & Hs & Hl1 & Hr).
    destruct r as [|x r].
    + apply (interp_last channel l1 (k, v) time Hs). by apply Hweak.
    + inversion Hr as [|? ? Hx _]; subst. exfalso.
      apply (Qclt_not_le _ _ Hx), Hmax, Hkey. rewrite Hs.
      apply elem_of_app. right. right. by left.
  - intros k1 v1 k2 v2 time Hin1 Hin2 Hle Hlt Hnone factor.
    destruct (factor_range time k1 k2 Hle Hlt) as [Hf0 Hf1].
    split; [done|]. split; [done|].
    destruct (Hsplit k1 v1 Hin1) as (l1 & r & Hs & Hl1 & Hr).
    assert (H12 : (k1 < k2)%Qc) by (by eapply Qcle_lt_trans).
    assert (Hin2' : (k2, v2) ∈ r).
    { assert (Hin2' : (k2, v2) ∈ sortKeyframes channel) by (by rewrite Hperm).
      rewrite Hs in Hin2'. apply elem_of_app in Hin2' as [Hin2'|Hin2'].
      - rewrite list.Forall_forall in Hl1. specialize (Hl1 _ Hin2').
        cbn [fst] in Hl1. exfalso. apply (Qclt_irrefl k1). by etrans.
      - apply elem_of_cons in Hin2' as [Heq|?]; [|done].
        injection Heq as -> _. by apply Qclt_irrefl in H12. }
    destruct r as [|h l3]; [by apply elem_of_nil in Hin2'|].
    assert (Hh : h = (k2, v2)).
    { inversion Hr as [|? ? Hh1 _]; subst.
      assert (Hh2 : (h.1 ≤ k2)%Qc).
      { apply elem_of_cons in Hin2' as [<-|Hin2']; [apply Qcle_refl|].
        rewrite Hs in Hsorted. apply StronglySorted_app_1_r in Hsorted.
        apply StronglySorted_cons in Hsorted as [_ Hsorted].
        apply StronglySorted_cons in Hsorted as [Hall _].
        rewrite list.Forall_forall in Hall. by apply (Hall _ Hin2'). }
      destruct (Qcle_lt_or_eq _ _ Hh2) as [Hbetween|Heq].
      - exfalso. apply (Hnone h.1); [|done].
        apply Hkey. rewrite Hs. apply elem_of_app. right. right. by left.
      - apply (NoDup_fmap_agree fst (sortKeyframes channel)); [done| |by rewrite Hperm|done].
        rewrite Hs. apply elem_of_app. right. right. by left. }
    subst h.
    by rewrite (interp_adjacent channel l1 (k1, v1) (k2, v2) l3 time Hs
                  (Hweak _ _ _ _ Hl1 Hle) Hlt).
Qed.

(* ================================================================== *)
(** * The scenes of the viewer and of the exports *)
(* ================================================================== *)

(** ** The viewer and the exports *)

Lemma mapM_fmap_ext {A B C} (f : A → option B) (g : A → option C)
    (h : C → B) (l : list A) :
  (∀ x, x ∈ l → f x = h <$> g x) → mapM f l = map h <$> mapM g l.
Proof.
  induction l as [|x l IH]; intros Hfg; [done|].
  cbn [mapM]. rewrite (Hfg x) by (by left).
  rewrite IH by (intros y Hy; apply Hfg; by right).
  destruct (g x) as [y|]; [|done]. cbn.
  by destruct (mapM g l).
Qed.

Lemma degToRad3_zero3 `{Three} : degToRad3 zero3 = zero3.
Proof.
  unfold degToRad3, zero3, degToRad. cbn [fst snd].
  rewrite num_0, Qcmult_0_l. done.
Qed.

Lemma rootBones_isRoot (bones : list ModelBone) :
  (∀ b, b ∈ bones → ¬ dangling bones b) →
  rootBones bones = List.filter isRoot bones.
Proof.
  intros Hnone. unfold rootBones. apply List.filter_ext_in.
  intros b Hb%list_elem_of_In. unfold isRoot.
  destruct (truthyOpt (parent b)) eqn:Ht; [|done]. cbn [negb orb].
  destruct (parent b) as [p|] eqn:Hp; [|done]. cbn in Ht. cbn [default].
  destruct (decide (p ∈ map name bones)) as [Hin|Hout].
  - revert Hin. to_fmap. intros (h & -> & Hh)%list_elem_of_fmap.
    assert (Hs : is_Some (getBone bones (name h)))
      by (unfold getBone; by eapply list_find_elem_of).
    by rewrite bool_decide_true.
  - exfalso. apply (Hnone b Hb). by exists p.
Qed.

Lemma viewer_generic `{Three} bones ts time uv fuel : ∀ pp b,
  BoneNode fuel bones false ts None time uv pp b
  = scaleGroups SCALE_FACTOR <$> buildBone fuel bones pp b.
Proof.
  induction fuel as [|fuel IH]; intros pp b; [done|].
  cbn [BoneNode buildBone animatedPose mbind option_bind].
  rewrite (mapM_fmap_ext _ _ _ _ (fun x _ => IH (bone_pivot b) x)).
  destruct (mapM (buildBone fuel bones (bone_pivot b)) _) as [groups|]; [|done].
  cbn. f_equal. rewrite !vadd_zero3. f_equal.
  destruct (bone_rotation b); [done|apply degToRad3_zero3].
Qed.

(** X15: for a model without dangling parent references, the scene of the
    generic export and the scene the viewer shows without texture and
    animation are built alike (for every depth of the recursion both end
    or neither does), with the same meshes, but the groups of the bones are
    16 times as far apart in the export: the viewer multiplies the
    position of a bone relative to its parent by [SCALE_FACTOR], the
    export multiplies only the positions of the meshes. *)
Theorem generic_export_spreads_bones `{Three} (fuel : nat)
    (model : MinecraftModel) (data : BedrockModel) (time uvScale : number) :
  bedrockData model = Some data →
  (∀ b, b ∈ bones data → ¬ dangling (bones data) b) →
  EntityRenderer fuel model false None time uvScale
  = Some (map (scaleGroups SCALE_FACTOR) <$> createModelScene fuel model).
Proof.
  intros Hd Hnone. unfold EntityRenderer, createModelScene. rewrite Hd.
  f_equal. rewrite (rootBones_isRoot _ Hnone).
  apply mapM_fmap_ext. intros b _. apply viewer_generic.
Qed.
Lemma buildLoop_shift body sel ns c0 :
  buildLoop body sel (ns, c0)
  = (fun r => (ns ++ r.1, r.2)) <$> buildLoop body sel ([], c0).
Proof.
  destruct (buildLoop body sel (ns, c0)) as [r|] eqn:E.
  - apply buildLoop_prefix in E as (new & -> & Hr). cbn.
    destruct r as [r1 r2]. cbn in *. by subst.
  - destruct (buildLoop body sel ([], c0)) as [[new c']|] eqn:E'; [|done].
    exfalso. assert (Hs : buildLoop body sel (ns, c0) = Some (ns ++ new, c')).
    { apply buildLoop_prefix. by exists new. }
    by rewrite E in Hs.
Qed.

(** A loop of the exporter and the rendering of the same bones, bone by
    bone. *)
Lemma mapM_buildLoop {A B} (f : ModelBone → option A)
    (body : ModelBone → nat → option (HytaleNode * nat))
    (g : A → B) (h : HytaleNode → B) (sel : list ModelBone) :
  (∀ b c, b ∈ sel → g <$> f b = (fun r => h r.1) <$> body b c) →
  ∀ c, map g <$> mapM f sel
       = (fun r => map h r.1) <$> buildLoop body sel ([], c).
Proof.
  induction sel as [|b sel IH]; intros Hb c; [done|].
  rewrite buildLoop_cons. cbn [mapM].
  pose proof (Hb b c ltac:(by left)) as Hbc.
  destruct (f b) as [y|], (body b c) as [[node c4]|]; try done.
  cbn in Hbc. injection Hbc as Hbc.
  rewrite buildLoop_shift. cbn [app mbind option_bind].
  specialize (IH (fun b' c' Hb' => Hb b' c' ltac:(by right)) c4).
  destruct (mapM f sel) as [ys|], (buildLoop body sel ([], c4)) as [[ns c5]|];
    try done.
  cbn in *. injection IH as IH. by rewrite Hbc, IH.
Qed.

Lemma mapWithId_flat_map {A B} (mk : nat → A → string → HytaleNode)
    (F : HytaleNode → list B) (G : A → list B) xs : ∀ idx c,
  (∀ i x id, F (mk i x id) = G x) →
  flat_map F (mapWithId mk idx xs c).1 = flat_map G xs.
Proof.
  induction xs as [|x xs IH]; intros idx c HF; [done|].
  cbn [mapWithId]. unfold generateId.
  destruct (mapWithId mk (S idx) xs (S c)) as [ns c2] eqn:E.
  cbn [fst flat_map]. rewrite HF. f_equal.
  specialize (IH (S idx) (S c) HF). by rewrite E in IH.
Qed.

Lemma flat_map_singleton {A B} (f : A → B) (l : list A) :
  flat_map (fun x => [f x]) l = map f l.
Proof. induction l as [|x l IH]; [done|]. cbn. by rewrite IH. Qed.

Lemma flat_map_nil {A B} (l : list A) : flat_map (fun _ => @nil B) l = [].
Proof. by induction l. Qed.

(** The nodes a call of [buildHytaleNodeTree] returns are bone nodes. *)
Lemma buildLoop_shapes `{Three} recurse ppiv ts sel : ∀ ns c r,
  Forall (fun n => shape n = boneShape) ns →
  buildLoop (boneNode recurse ppiv ts) sel (ns, c) = Some r →
  Forall (fun n => shape n = boneShape) r.1.
Proof.
  induction sel as [|b sel IH]; intros ns c r Hns.
  - by intros [= <-].
  - rewrite buildLoop_cons.
    destruct (boneNode recurse ppiv ts b c) as [[node c4]|] eqn:E; [|done].
    apply IH. apply Forall_app. split; [done|]. constructor; [|done].
    unfold boneNode, generateId in E.
    destruct (mapWithId _ _ (cubes b) _) as [cubeNodes c2].
    destruct (mapWithId _ _ (default [] (attachments b)) _) as [attNodes c3].
    destruct (recurse _ _ c3) as [[childrenNodes c5]|]; [|done].
    cbn in E. by injection E as <- _.
Qed.

Lemma children_selected (bones : list ModelBone) (b : ModelBone) :
  truthy (name b) = true →
  List.filter (selects (Some (name b))) bones
  = List.filter (fun x => bool_decide (parent x = Some (name b))) bones.
Proof.
  intros Ht. apply List.filter_ext. intros x.
  destruct (selects (Some (name b)) x) eqn:E.
  - apply (selects_Some _ _ Ht) in E. by rewrite bool_decide_true.
  - rewrite bool_decide_false; [done|]. intros Hp.
    apply (selects_Some _ _ Ht) in Hp. by rewrite Hp in E.
Qed.

Lemma viewer_export `{Three} (bones : list ModelBone) tm ts ts' time uv fuel :
  Forall (fun b => truthy (name b) = true) bones →
  ∀ sel ppiv c, sel ⊆ bones →
    map groupOutline
      <$> mapM (BoneNode fuel bones tm ts None time uv ppiv) sel
    = (fun r => map nodeOutline r.1)
      <$> buildLoop
            (boneNode (fun pid pivot c =>
               buildHytaleNodeTree fuel bones pid pivot ts' c) ppiv ts')
            sel ([], c).
Proof.
  intros Ht. induction fuel as [|fuel IH]; intros sel ppiv c Hsub.
  - apply mapM_buildLoop. intros b c0 _. cbn [BoneNode].
    unfold boneNode, generateId.
    destruct (mapWithId _ _ (cubes b) _) as [cubeNodes c2].
    by destruct (mapWithId _ _ (default [] (attachments b)) _) as [attNodes c3].
  - apply mapM_buildLoop. intros b c0 Hb.
    assert (Hname : truthy (name b) = true).
    { rewrite list.Forall_forall in Ht. by apply Ht, Hsub. }
    cbn [BoneNode animatedPose mbind option_bind].
    unfold boneNode, generateId.
    destruct (mapWithId (cubeNode b ts') 0 (cubes b) (S c0))
      as [cubeNodes c2] eqn:Ecubes.
    destruct (mapWithId (fun _ => attachmentNode) 0
                        (default [] (attachments b)) c2)
      as [attNodes c3] eqn:Eatts.
    cbn [buildHytaleNodeTree]. rewrite (children_selected bones b Hname).
    set (kids := List.filter _ bones).
    assert (Hkids : kids ⊆ bones).
    { intros x Hx. by apply list_elem_of_In, List.filter_In in Hx
        as [?%list_elem_of_In _]. }
    specialize (IH kids (bone_pivot b) c3 Hkids).
    destruct (buildLoop _ kids ([], c3)) as [[childrenNodes c4]|] eqn:Ekids;
      destruct (mapM _ kids) as [groups|]; try done.
    cbn in IH. injection IH as IH. cbn. f_equal.
    rewrite vadd_zero3, map_map, IH, !flat_map_app'.
    pose proof (buildLoop_shapes _ _ _ _ _ _ _ (Forall_nil_2 _) Ekids) as Hsh.
    cbn [fst] in Hsh.
    f_equal.
    + pose proof (mapWithId_flat_map (cubeNode b ts')
        (fun c => if isGeometry c then [boxOutline c] else [])
        (fun cube => [(vscale (vsub (vadd (origin cube) (vhalf (size cube)))
                                    (bone_pivot b)) SCALE_FACTOR,
                       vscale (size cube) SCALE_FACTOR)])
        (cubes b) 0 (S c0) ltac:(done)) as Hc.
      rewrite Ecubes in Hc. cbn [fst] in Hc. rewrite Hc, flat_map_singleton.
      pose proof (mapWithId_flat_map (fun _ => attachmentNode)
        (fun c => if isGeometry c then [boxOutline c] else [])
        (fun _ => []) (default [] (attachments b)) 0 c2 ltac:(done)) as Ha.
      rewrite Eatts in Ha. cbn [fst] in Ha. rewrite Ha, flat_map_nil.
      assert (Hn : flat_map (fun c => if isGeometry c then [boxOutline c] else [])
                 childrenNodes = []).
      { clear -Hsh. induction Hsh as [|n ns Hn _ IHn]; [done|].
        cbn [flat_map]. rewrite IHn. unfold isGeometry. by rewrite Hn. }
      rewrite Hn. by rewrite !app_nil_r.
    + pose proof (mapWithId_flat_map (cubeNode b ts')
        (fun c => if isGeometry c || isAttachment c then [] else [nodeOutline c])
        (fun _ => []) (cubes b) 0 (S c0) ltac:(done)) as Hc.
      rewrite Ecubes in Hc. cbn [fst] in Hc. rewrite Hc, flat_map_nil.
      pose proof (mapWithId_flat_map (fun _ => attachmentNode)
        (fun c => if isGeometry c || isAttachment c then [] else [nodeOutline c])
        (fun _ => []) (default [] (attachments b)) 0 c2 ltac:(done)) as Ha.
      rewrite Eatts in Ha. cbn [fst] in Ha. rewrite Ha, flat_map_nil.
      cbn [app]. clear -Hsh.
      induction Hsh as [|n ns Hn _ IHn]; [done|].
      cbn [flat_map map]. rewrite <- IHn. unfold isGeometry, isAttachment.
      by rewrite Hn.
Qed.

(** X14: for a model with non-empty bone names and without dangling
    parent references, rendering to a depth of [fuel] bones and exporting
    to the depth that reaches as far end together, and the viewer places
    what the file holds: its groups are nested as the bone nodes of the
    file are, every group lies at [SCALE_FACTOR] times the position of its
    node, and its meshes are the boxes of the node, at [SCALE_FACTOR]
    times their positions and sizes, in the same order.  Rotations are not
    compared; the attachments of the file are not shown. *)
Theorem viewer_places_what_is_exported `{Three} (fuel : nat)
    (model : MinecraftModel) (data : BedrockModel) (textureMap : bool)
    (time uvScale : number) :
  bedrockData model = Some data →
  Forall (fun b => truthy (name b) = true) (bones data) →
  (∀ b, b ∈ bones data → ¬ dangling (bones data) b) →
  ∃ shown built,
    EntityRenderer fuel model textureMap None time uvScale = Some shown ∧
    exportNodes (S fuel) model = Some built ∧
    map groupOutline <$> shown = (fun r => map nodeOutline r.1) <$> built.
Proof.
  intros Hd Ht Hnone. unfold EntityRenderer, exportNodes. rewrite Hd.
  eexists _, _. split; [done|]. split; [done|].
  rewrite (rootBones_isRoot _ Hnone). cbn [buildHytaleNodeTree].
  change (List.filter (selects None) (bones data))
    with (List.filter isRoot (bones data)).
  apply viewer_export; [done|].
  intros x Hx. by apply list_elem_of_In, List.filter_In in Hx
    as [?%list_elem_of_In _].
Qed.
(** ** Deleting a bone *)

Lemma map_filter_flat_map {A B C} (f : B → C) (p : B → bool) (g : A → list B)
    (l : list A) :
  map f (List.filter p (flat_map g l))
  = flat_map (fun x => map f (List.filter p (g x))) l.
Proof.
  induction l as [|x l IH]; [done|].
  cbn [flat_map]. by rewrite List.filter_app, map_app, IH.
Qed.

(** The bone nodes of the file are the bones the build visits, in the
    order of the visit. *)
Lemma build_bone_names `{Three} (bones : list ModelBone) (ts : vec2) fuel :
  ∀ pid ppiv c nodes c',
    buildHytaleNodeTree fuel bones pid ppiv ts c = Some (nodes, c') →
    boneNodeNames nodes = map name (subtree fuel bones pid).
Proof.
  unfold boneNodeNames.
  induction fuel as [|fuel IH]; intros pid ppiv c nodes c' Hbuild; [done|].
  simpl in Hbuild. simpl subtree.
  set (body := boneNode
         (fun pid pivot c => buildHytaleNodeTree fuel bones pid pivot ts c)
         ppiv ts) in *.
  revert c nodes c' Hbuild.
  generalize (List.filter (selects pid) bones). intros sel.
  induction sel as [|b rest IHsel]; intros c nodes c' Hloop.
  - by injection Hloop as <- <-.
  - rewrite buildLoop_cons in Hloop.
    destruct (body b c) as [[node c4]|] eqn:Hnode; [|done].
    apply buildLoop_prefix in Hloop as (new & Hnew & Heq).
    simpl in Hnew, Heq. subst nodes.
    specialize (IHsel c4 new c' Hnew).
    unfold body, boneNode, generateId in Hnode.
    destruct (mapWithId (cubeNode b ts) 0 (cubes b) (S c))
      as [cubeNodes c2] eqn:Ecubes.
    destruct (mapWithId (fun _ => attachmentNode) 0
                        (default [] (attachments b)) c2)
      as [attNodes c3] eqn:Eatts.
    destruct (buildHytaleNodeTree fuel bones (Some (name b)) (bone_pivot b) ts c3)
      as [[childrenNodes c5]|] eqn:Echildren; [|done].
    simpl in Hnode. injection Hnode as <- <-.
    specialize (IH _ _ _ _ _ Echildren).
    cbn [flat_map app]. rewrite preorder_unfold.
    cbn [children]. rewrite List.filter_app.
    match goal with
    | |- context [List.filter isBoneNode (?n :: ?l)] =>
      change (List.filter isBoneNode (n :: l))
        with (n :: List.filter isBoneNode l)
    end.
    rewrite !flat_map_app', !List.filter_app, !map_app.
    cbn [map node_name app]. rewrite !map_app, IHsel, IH. f_equal.
    pose proof (mapWithId_flat_map (cubeNode b ts)
      (fun n => map node_name (List.filter isBoneNode (preorder n)))
      (fun _ => []) (cubes b) 0 (S c) ltac:(done)) as Hc.
    rewrite Ecubes, flat_map_nil, <- map_filter_flat_map in Hc.
    cbn [fst] in Hc. rewrite Hc.
    pose proof (mapWithId_flat_map (fun _ => attachmentNode)
      (fun n => map node_name (List.filter isBoneNode (preorder n)))
      (fun _ => []) (default [] (attachments b)) 0 c2 ltac:(done)) as Ha.
    rewrite Eatts, flat_map_nil, <- map_filter_flat_map in Ha.
    cbn [fst] in Ha. by rewrite Ha.
Qed.

Section Delete.
Variable bones : list ModelBone.
Variable index : nat.
Variable b : ModelBone.
Hypothesis Hnd : NoDup (map name bones).
Hypothesis Ht : Forall (fun b => truthy (name b) = true) bones.
Hypothesis Hb : bones !! index = Some b.

Lemma delete_names_NoDup : NoDup (map name (delete index bones)).
Proof.
  to_fmap. rewrite list_fmap_delete.
  eapply sublist_NoDup; [exact Hnd|apply sublist_delete].
Qed.

Lemma delete_truthy :
  Forall (fun b => truthy (name b) = true) (delete index bones).
Proof. by apply Forall_delete. Qed.

Lemma delete_elem x : x ∈ delete index bones ↔ x ∈ bones ∧ x ≠ b.
Proof.
  pose proof (bones_NoDup bones Hnd) as Hnd'.
  pose proof (take_drop_middle bones index b Hb) as Hmid.
  assert (Hin : x ∈ bones ↔
    x ∈ take index bones ∨ x = b ∨ x ∈ drop (S index) bones)
    by (by rewrite <- Hmid at 1; rewrite elem_of_app, elem_of_cons).
  rewrite <- Hmid in Hnd'.
  apply NoDup_app in Hnd' as (_ & Hl & Hr). apply NoDup_cons in Hr as [Hr _].
  rewrite delete_take_drop, Hin, elem_of_app. split.
  - intros [Hx|Hx].
    + split; [by left|]. intros ->. apply (Hl b Hx). by left.
    + split; [by right; right|]. by intros ->.
  - intros [[Hx|[->|Hx]] Hne]; [by left|done|by right].
Qed.

Lemma delete_name_gone : name b ∉ map name (delete index bones).
Proof.
  to_fmap. intros (x & Hn & Hx)%list_elem_of_fmap.
  apply delete_elem in Hx as [Hx Hne]. apply Hne. symmetry.
  apply (name_inj bones Hnd); [by eapply list_elem_of_lookup_2|done|done].
Qed.

Lemma up_delete x y :
  up (delete index bones) x = Some y → up bones x = Some y.
Proof.
  intros Hup. apply up_Some in Hup as (Hy & Hp & _).
  apply delete_elem in Hy as [Hy _]. by apply (up_child bones Hnd Ht).
Qed.

Lemma ancestor_delete k : ∀ x y,
  ancestor (delete index bones) k x = Some y → ancestor bones k x = Some y.
Proof.
  induction k as [|k IH]; intros x y; [done|]. cbn [ancestor].
  destruct (up (delete index bones) x) as [h|] eqn:Hup; [|done].
  rewrite (up_delete _ _ Hup). cbn. apply IH.
Qed.

Lemma ancestor_kept k : ∀ x r,
  (∀ j, ancestor bones j x ≠ Some b) →
  ancestor bones k x = Some r → ancestor (delete index bones) k x = Some r.
Proof.
  induction k as [|k IH]; intros x r Hnot; [done|]. cbn [ancestor].
  destruct (up bones x) as [h|] eqn:Hup; [|done]. cbn. intros Hr.
  pose proof (up_Some _ _ _ Hup) as (Hh & Hp & _).
  assert (Hne : h ≠ b).
  { intros ->. apply (Hnot 1%nat). cbn. by rewrite Hup. }
  rewrite (up_child (delete index bones) delete_names_NoDup delete_truthy
             x h); [|by apply delete_elem|done].
  cbn. apply IH; [|done].
  intros j Hj. apply (Hnot (S j)). cbn. by rewrite Hup.
Qed.

Lemma Depth_delete x :
  x ∈ delete index bones → (∃ d, Depth bones x d) →
  (∃ d, Depth (delete index bones) x d) ↔ ¬ atOrBelow bones b x.
Proof.
  intros Hx [d0 (r0 & Hr0 & Hroot0)]. split.
  - intros [d (r & Hr & Hroot)] [k Hk].
    destruct (decide (k ≤ d)%nat) as [Hle|Hgt].
    + replace d with (k + (d - k))%nat in Hr by lia.
      rewrite ancestor_add in Hr.
      destruct (ancestor (delete index bones) k x) as [y|] eqn:Hy; [|done].
      pose proof (ancestor_elem _ _ _ _ Hx Hy) as Hin.
      apply ancestor_delete in Hy. rewrite Hk in Hy. injection Hy as <-.
      by apply delete_elem in Hin as [_ ?].
    + apply ancestor_delete in Hr.
      replace k with (d + S (k - S d))%nat in Hk by lia.
      rewrite ancestor_add, Hr in Hk. cbn [mbind option_bind] in Hk.
      by rewrite ancestor_root_None in Hk.
  - intros Hnot. exists d0, r0. split; [|done].
    apply ancestor_kept; [|done]. intros j Hj. apply Hnot. by exists j.
Qed.

End Delete.
(** X16: deleting the bone at [index] from an entity model whose bones
    form a forest removes that bone alone from the model; a later export
    returns, and its file has a bone node for exactly the bones that were
    neither the deleted bone nor below it.  The bones below it stay in the
    model but are left out of the file, while the viewer takes the
    children of the deleted bone for roots and goes on showing them. *)
Theorem deleting_a_bone_drops_what_is_below `{Three} (model : MinecraftModel)
    (data : BedrockModel) (index : nat) (b : ModelBone) :
  type model = ENTITY → bedrockData model = Some data →
  wellFormed (bones data) → bones data !! index = Some b →
  ∃ data' nodes n,
    bedrockData (handleDeleteBone index model) = Some data' ∧
    (∀ x, x ∈ bones data' ↔ x ∈ bones data ∧ x ≠ b) ∧
    (∀ fuel, (length (bones data') < fuel)%nat →
       exportNodes fuel (handleDeleteBone index model)
       = Some (Some (nodes, n))) ∧
    (∀ x, x ∈ bones data →
       (name x ∈ boneNodeNames nodes ↔ ¬ atOrBelow (bones data) b x)) ∧
    (∀ c, c ∈ bones data → parent c = Some (name b) →
       c ∈ rootBones (bones data')).
Proof.
  intros Hty Hd Hwf Hb. pose proof Hwf as (Hnd & Ht & _).
  set (bs' := delete index (bones data)).
  pose proof (delete_names_NoDup (bones data) index Hnd) as Hnd'.
  pose proof (delete_truthy (bones data) index Ht) as Ht'.
  destruct (roundtrip_all bs' (default (num 64, num 64) (texture_size data))
              Hnd' Ht' None "") as (nodes & n & Hbuild & _).
  exists (set_bones data bs'), nodes, n.
  assert (Hmodel : bedrockData (handleDeleteBone index model)
                   = Some (set_bones data bs')).
  { unfold handleDeleteBone. by rewrite Hty, Hd. }
  split; [exact Hmodel|]. cbn [bones set_bones].
  split; [intros x; by apply delete_elem|]. split.
  { intros fuel Hf. unfold exportNodes. rewrite Hmodel.
    cbn [bones set_bones texture_size]. by rewrite Hbuild. }
  assert (Hgone : name b ∉ map name bs')
    by (by apply (delete_name_gone (bones data) index b)).
  split.
  - intros x Hx.
    pose proof (Hbuild (S (length bs')) ltac:(lia)) as Hb'.
    rewrite (build_bone_names _ _ _ _ _ _ _ _ Hb').
    assert (Hsub : ∀ y, y ∈ subtree (S (length bs')) bs' None ↔
              y ∈ bs' ∧ ∃ d, Depth bs' y d).
    { intros y. split; [apply (subtree_rooted bs' Hnd' Ht')|].
      intros [Hy [d Hdep]]. apply (subtree_mono_le bs' (S d)).
      - pose proof (Depth_bound bs' y d Hy Hdep). lia.
      - by apply (Depth_in_subtree bs' Ht'). }
    assert (Hbin : b ∈ bones data) by (by eapply list_elem_of_lookup_2).
    destruct (decide (name x = name b)) as [Heq|Hne];
      [apply (name_inj _ Hnd x b Hx Hbin) in Heq as ->
      |assert (x ≠ b) by (by intros ->)].
    + split.
      * to_fmap. intros (y & Hn & Hy)%list_elem_of_fmap.
        apply Hsub in Hy as [Hy _]. exfalso. apply Hgone. rewrite Hn.
        to_fmap. by apply list_elem_of_fmap_2.
      * intros Hnot. exfalso. apply Hnot. by exists 0%nat.
    + assert (Hx' : x ∈ bs')
        by (by apply (delete_elem (bones data) index b)).
      rewrite <- (Depth_delete (bones data) index b Hnd Ht Hb x Hx'
                    (wellFormed_Depth _ _ Hwf Hx)).
      split.
      * to_fmap. intros (y & Hn & Hy)%list_elem_of_fmap.
        apply Hsub in Hy as [Hy Hdep].
        by rewrite (name_inj bs' Hnd' x y Hx' Hy Hn).
      * intros Hdep. to_fmap. apply list_elem_of_fmap_2. by apply Hsub.
  - intros c Hc Hp.
    assert (Hcb : c ≠ b).
    { intros ->. destruct (wellFormed_Depth _ _ Hwf Hc) as [d (r & Hr & Hroot)].
      pose proof (up_child (bones data) Hnd Ht b b Hc Hp) as Hup.
      assert (Hall : ∀ k, ancestor (bones data) k b = Some b).
      { induction k as [|k IHk]; [done|]. cbn. by rewrite Hup. }
      rewrite Hall in Hr. injection Hr as <-.
      unfold isRoot in Hroot. rewrite Hp in Hroot. cbn in Hroot.
      rewrite list.Forall_forall in Ht. by rewrite (Ht b Hc) in Hroot. }
    unfold rootBones. apply list_elem_of_In, List.filter_In. split.
    + apply list_elem_of_In. by apply (delete_elem (bones data) index b).
    + rewrite Hp. cbn [default]. unfold id.
      destruct (getBone bs' (name b)) as [[i h]|] eqn:E.
      * exfalso. apply getBone_Some in E as [Hi Hn]. apply Hgone.
        rewrite <- Hn. to_fmap. apply list_elem_of_fmap_2.
        by eapply list_elem_of_lookup_2.
      * rewrite bool_decide_false by apply is_Some_None.
        apply orb_true_r.
Qed.
Lemma interpolation_through_keyframes_witness :
  NoDup (map fst walkChannel) ∧
  getInterpolatedValue walkChannel (num 1) = (num 0, num 10, num 0).
Proof.
  assert (Hnd : NoDup (map fst walkChannel))
    by (by apply (bool_decide_unpack _)).
  split; [exact Hnd|].
  apply (proj1 (interpolation_through_keyframes walkChannel Hnd) (num 1)
           (KeyArray (num 0, num 10, num 0))).
  by left.
Defined.

Lemma chainBones_no_dangling b : b ∈ chainBones → ¬ dangling chainBones b.
Proof.
  intros Hb (p & Hp & _ & Hout). apply Hout.
  repeat (apply elem_of_cons in Hb as [->|Hb]);
    try (by apply elem_of_nil in Hb); cbn in Hp; try done;
    injection Hp as <-; cbn; set_solver.
Qed.

Lemma viewer_places_what_is_exported_witness :
  ∃ shown built,
    @EntityRenderer sampleThree 3 (entityModel chainBones) true None
      (num 0) (num 1) = Some shown ∧
    @exportNodes sampleThree 4 (entityModel chainBones) = Some built ∧
    map groupOutline <$> shown = (fun r => map nodeOutline r.1) <$> built.
Proof.
  apply (@viewer_places_what_is_exported sampleThree 3
           (entityModel chainBones) (plainData chainBones)).
  - reflexivity.
  - repeat constructor.
  - apply chainBones_no_dangling.
Defined.

Lemma generic_export_spreads_bones_witness :
  @EntityRenderer sampleThree 3 (entityModel chainBones) false None
    (num 0) (num 1)
  = Some (map (scaleGroups SCALE_FACTOR)
            <$> @createModelScene sampleThree 3 (entityModel chainBones)).
Proof.
  apply (@generic_export_spreads_bones sampleThree 3
           (entityModel chainBones) (plainData chainBones)).
  - reflexivity.
  - apply chainBones_no_dangling.
Defined.

Lemma deleting_a_bone_drops_what_is_below_witness :
  ∃ data' nodes n,
    bedrockData (handleDeleteBone 2 (entityModel chainBones)) = Some data' ∧
    (∀ x, x ∈ bones data' ↔ x ∈ chainBones ∧ x ≠ pelvisBone) ∧
    (∀ fuel, (length (bones data') < fuel)%nat →
       @exportNodes sampleThree fuel (handleDeleteBone 2 (entityModel chainBones))
       = Some (Some (nodes, n))) ∧
    (∀ x, x ∈ chainBones →
       (name x ∈ boneNodeNames nodes ↔ ¬ atOrBelow chainBones pelvisBone x)) ∧
    (∀ c, c ∈ chainBones → parent c = Some (name pelvisBone) →
       c ∈ rootBones (bones data')).
Proof.
  apply (@deleting_a_bone_drops_what_is_below sampleThree
           (entityModel chainBones) (plainData chainBones) 2 pelvisBone).
  - reflexivity.
  - reflexivity.
  - apply chainBones_wellFormed.
  - reflexivity.
Defined.

(* ================================================================== *)
(** * Animation files and the exchange with the language model *)
(* ================================================================== *)

(** ** The exported animation *)

Lemma toTicks_spec (t : number) :
  (num (toTicks t) - 1 < t * num 20 ∧ t * num 20 ≤ num (toTicks t))%Qc.
Proof.
  unfold toTicks. destruct (Math_ceil_spec (t * num 20)%Qc) as [Hlo Hhi].
  split; [|done].
  set (c := Math_ceil (t * num 20)%Qc) in *.
  replace (c - 1) with (c + -1) in Hlo by lia.
  rewrite num_plus in Hlo.
  assert (E1 : (num (-1) = - (1) :> Qc)%Qc) by qc_eq.
  assert (E : (num c - 1 = num c + num (-1) :> Qc)%Qc)
    by (rewrite E1; ring).
  by rewrite E.
Qed.

Lemma toTicks_mono (s t : number) : (s ≤ t)%Qc → toTicks s ≤ toTicks t.
Proof.
  intros Hst. destruct (toTicks_spec s) as [Hs _], (toTicks_spec t) as [_ Ht].
  assert (H20 : (s * num 20 ≤ t * num 20)%Qc).
  { apply Qcmult_le_compat_r; [done|by vm_compute]. }
  assert (Hlt : (num (toTicks s) - 1 < num (toTicks t))%Qc).
  { eapply Qclt_le_trans; [exact Hs|]. by etrans. }
  assert (toTicks s < toTicks t + 1); [|lia].
  apply (proj2 (num_lt _ _)). rewrite num_plus, num_1. qc_lra.
Qed.

Lemma toTicks_apart (s t : number) :
  (s + 1 / num 20 ≤ t)%Qc → toTicks s < toTicks t.
Proof.
  intros Hst. destruct (toTicks_spec s) as [Hs _], (toTicks_spec t) as [_ Ht].
  assert (H20 : ((s + 1 / num 20) * num 20 ≤ t * num 20)%Qc).
  { apply Qcmult_le_compat_r; [done|by vm_compute]. }
  assert (E : ((s + 1 / num 20) * num 20 = s * num 20 + 1 :> Qc)%Qc).
  { assert (E1 : (1 / num 20 * num 20 = 1 :> Qc)%Qc) by qc_eq.
    rewrite Qcmult_plus_distr_l. by rewrite E1. }
  rewrite E in H20.
  apply (proj2 (num_lt _ _)).
  assert (Hx : (num (toTicks s) < s * num 20 + 1)%Qc) by qc_lra.
  eapply Qclt_le_trans; [exact Hx|]. by etrans.
Qed.
(** X17: what the animation file holds for a bone of an animation: a
    position frame for every keyframe of the position channel, in the
    order of the channel.  For a channel with distinct times each frame
    carries the vector the viewer shows at the time of the keyframe, at
    the first tick (of 1/20 s) that is not before the keyframe; a keyframe
    within the length of the animation (one second if none is given) lies
    within the duration of the file; and keyframes at least a tick apart
    get different ticks, in their order.  The orientation frames hold, at
    the same ticks, the quaternion of the vector the viewer shows. *)
Theorem exported_keyframes `{Three} (animDef : AnimationDefinition)
    (bs : gmap string AnimationBoneData) (boneName : string)
    (boneData : AnimationBoneData) :
  anim_bones animDef = Some bs → bs !! boneName = Some boneData →
  ∃ tracks,
    nodeAnimations (exportAnimation animDef) !! boneName = Some tracks ∧
    (∀ ch : list (number * KeyframeValue),
       anim_position boneData = Some ch → NoDup (map fst ch) →
       Forall2 (fun entry f =>
         pf_delta f = getInterpolatedValue ch entry.1 ∧
         (num (pf_time f) - 1 < entry.1 * num 20)%Qc ∧
         (entry.1 * num 20 ≤ num (pf_time f))%Qc ∧
         ((0 ≤ entry.1)%Qc →
          (entry.1 ≤ numberOr (animation_length animDef) (num 1))%Qc →
          0 ≤ pf_time f ≤ duration (exportAnimation animDef)))
         ch (track_position tracks) ∧
       (∀ i j (e e' : number * KeyframeValue) f f',
          ch !! i = Some e → ch !! j = Some e' →
          track_position tracks !! i = Some f →
          track_position tracks !! j = Some f' →
          (e.1 + 1 / num 20 ≤ e'.1)%Qc → pf_time f < pf_time f')) ∧
    (∀ ch : list (number * KeyframeValue),
       anim_rotation boneData = Some ch → NoDup (map fst ch) →
       Forall2 (fun entry f =>
         of_time f = toTicks entry.1 ∧
         of_delta f
         = eulerToQuaternion (getInterpolatedValue ch entry.1).1.1
                             (getInterpolatedValue ch entry.1).1.2
                             (getInterpolatedValue ch entry.1).2)
         ch (track_orientation tracks)).
Proof.
  intros Hbs Hbone. exists (nodeAnimation boneData). split.
  { unfold exportAnimation. cbn [nodeAnimations]. rewrite Hbs.
    by rewrite lookup_fmap, Hbone. }
  split.
  - intros ch Hch Hnd. unfold nodeAnimation. cbn [track_position].
    rewrite Hch. split.
    + apply Forall2_fmap_r, Forall_Forall2_diag, list.Forall_forall.
      intros [k v] Hin. cbn [positionFrame pf_delta pf_time fst snd].
      split; [by rewrite (interp_at_keyframe ch k v Hnd Hin)|].
      destruct (toTicks_spec k) as [Hlo Hhi].
      split; [done|]. split; [done|]. intros H0 Hlen. split.
      * apply Math_ceil_nonneg.
        replace 0%Qc with (0 * num 20)%Qc by ring.
        apply Qcmult_le_compat_r; [done|by vm_compute].
      * by apply toTicks_mono.
    + intros i j e e' f f' Hi Hj Hf Hf' Hgap.
      change (map positionFrame ch) with (positionFrame <$> ch) in Hf, Hf'.
      rewrite list_lookup_fmap, Hi in Hf. rewrite list_lookup_fmap, Hj in Hf'.
      cbn in Hf, Hf'. injection Hf as <-. injection Hf' as <-.
      by apply toTicks_apart.
  - intros ch Hch Hnd. unfold nodeAnimation. cbn [track_orientation].
    rewrite Hch.
    apply Forall2_fmap_r, Forall_Forall2_diag, list.Forall_forall.
    intros [k v] Hin. cbn [orientationFrame of_delta of_time fst snd].
    split; [done|]. by rewrite (interp_at_keyframe ch k v Hnd Hin).
Qed.

Lemma exported_keyframes_witness :
  ∃ tracks,
    nodeAnimations (@exportAnimation sampleThree swayAnimation) !! "pelvis"
    = Some tracks ∧
    map pf_time (track_position tracks) = [20; 0; 40] ∧
    duration (@exportAnimation sampleThree swayAnimation) = 40.
Proof.
  destruct (@exported_keyframes sampleThree swayAnimation
              {[ "pelvis" := {| anim_rotation := Some walkChannel;
                                anim_position := Some walkChannel;
                                anim_scale := None |} ]}
              "pelvis"
              {| anim_rotation := Some walkChannel;
                 anim_position := Some walkChannel;
                 anim_scale := None |} eq_refl eq_refl)
    as (tracks & Htracks & _).
  exists tracks. split; [exact Htracks|].
  unfold exportAnimation in Htracks. cbn [nodeAnimations swayAnimation anim_bones] in Htracks.
  rewrite lookup_fmap, lookup_singleton in Htracks. cbn in Htracks.
  injection Htracks as <-. split; by vm_compute.
Defined.
(** ** Animations as lists *)

Lemma foldl_insert_entries {A B E} (key : E → string) (val : E → B)
    (g : string * A → E) (h : A → B) (l : list (string * A)) :
  (∀ e, key (g e) = e.1 ∧ val (g e) = h e.2) →
  ∀ acc : gmap string B,
    NoDup (l.*1) → (∀ k, k ∈ l.*1 → acc !! k = None) →
    foldl (fun acc e => <[key e := val e]> acc) acc (g <$> l)
    = list_to_map (prod_map id h <$> l) ∪ acc.
Proof.
  intros Hg. induction l as [|[k a] l IH]; intros acc Hnd Hacc.
  - cbn. by rewrite (left_id_L ∅ (∪)).
  - rewrite !fmap_cons in *. cbn [foldl].
    destruct (Hg (k, a)) as [Hk1 Hv1]. rewrite Hk1, Hv1.
    cbn [fst snd prod_map] in *.
    apply NoDup_cons in Hnd as [Hk Hnd].
    rewrite IH; [|done|].
    + rewrite list_to_map_cons. cbn [fst snd].
      rewrite <- insert_union_l. symmetry. apply insert_union_r.
      apply not_elem_of_list_to_map_1.
      rewrite <- list_fmap_compose.
      by replace (fst ∘ prod_map id h) with (@fst string A) by done.
    + intros k' Hk'. rewrite lookup_insert_ne; [|by intros ->].
      apply Hacc. by right.
Qed.

Lemma foldl_insert_map {A B E} (key : E → string) (val : E → B)
    (g : string * A → E) (h : A → B) (m : gmap string A) :
  (∀ e, key (g e) = e.1 ∧ val (g e) = h e.2) →
  foldl (fun acc e => <[key e := val e]> acc) ∅ (g <$> map_to_list m)
  = h <$> m.
Proof.
  intros Hg.
  rewrite (foldl_insert_entries key val g h _ Hg ∅);
    [|apply NoDup_fst_map_to_list|done].
  rewrite (right_id_L ∅ (∪)), list_to_map_fmap.
  by rewrite list_to_map_to_list.
Qed.

Lemma channelMap_keyframeList (ch : option (gmap string KeyframeValue)) :
  Gemini.channelMap (Gemini.keyframeList <$> ch) = Gemini.nonEmpty ch.
Proof.
  destruct ch as [m|]; [|done].
  change (Gemini.keyframeList <$> Some m) with (Some (Gemini.keyframeList m)).
  unfold Gemini.channelMap, Gemini.keyframeList. cbn [default]. unfold id.
  rewrite (foldl_insert_map Gemini.time Gemini.value _ id m) by done.
  by rewrite map_fmap_id.
Qed.

Lemma parsedBone_boneEntry (e : string * Gemini.BoneData) :
  Gemini.parsedBone (Gemini.boneEntry e) = Gemini.listedBone e.2.
Proof.
  unfold Gemini.parsedBone, Gemini.boneEntry, Gemini.listedBone.
  cbn [Gemini.rotationList Gemini.positionList].
  by rewrite !channelMap_keyframeList.
Qed.

Lemma parsedAnimation_animationEntry (e : string * Gemini.Animation) :
  Gemini.parsedAnimation (Gemini.animationEntry e) = Gemini.listed e.2.
Proof.
  unfold Gemini.parsedAnimation, Gemini.animationEntry, Gemini.listed.
  cbn [Gemini.entry_loop Gemini.entry_length Gemini.bonesList].
  f_equal. f_equal. destruct (Gemini.bones e.2) as [bs|].
  - cbn [default]. apply foldl_insert_map.
    intros b. split; [done|apply parsedBone_boneEntry].
  - cbn. by rewrite fmap_empty.
Qed.

Lemma nonEmpty_idemp ch : Gemini.nonEmpty (Gemini.nonEmpty ch) = Gemini.nonEmpty ch.
Proof.
  destruct ch as [m|]; [|done]. cbn.
  destruct (map_to_list m) eqn:E; [done|]. cbn. by rewrite E.
Qed.

Lemma listed_idemp a : Gemini.listed (Gemini.listed a) = Gemini.listed a.
Proof.
  unfold Gemini.listed at 1 3.
  change (Gemini.bones (Gemini.listed a))
    with (Some (Gemini.listedBone <$> default ∅ (Gemini.bones a))).
  change (Gemini.loop (Gemini.listed a)) with (Gemini.loop a).
  change (Gemini.animation_length (Gemini.listed a))
    with (Gemini.animation_length a).
  f_equal. f_equal.
  change (default ∅ (Some ?x)) with x.
  rewrite <- map_fmap_compose. apply map_fmap_ext.
  intros k' d _. unfold Gemini.listedBone, compose.
  cbn [Gemini.rotation Gemini.position]. by rewrite !nonEmpty_idemp.
Qed.

(** X18: sending animations to the language model as lists and reading
    lists back are inverse to each other up to what the lists cannot
    hold: [parseResponseAnimations] of [animationsMapToList] returns the
    animations under their names, each with its loop flag, its length and
    its bones, the rotation and position channels with all their
    keyframes; but scale channels are dropped, a channel without
    keyframes is dropped, and an animation without bones comes back with
    an empty object of bones.  Nothing else is lost: a second round trip
    changes nothing. *)
Theorem animations_list_roundtrip
    (animations : option (gmap string Gemini.Animation)) :
  Gemini.parseResponseAnimations (Gemini.animationsMapToList animations)
  = (fun m : gmap string Gemini.Animation => Gemini.listed <$> m) <$> animations ∧
  Gemini.parseResponseAnimations
    (Gemini.animationsMapToList
       (Gemini.parseResponseAnimations (Gemini.animationsMapToList animations)))
  = Gemini.parseResponseAnimations (Gemini.animationsMapToList animations).
Proof.
  assert (Hround : ∀ a,
    Gemini.parseResponseAnimations (Gemini.animationsMapToList a)
    = (fun m : gmap string Gemini.Animation => Gemini.listed <$> m) <$> a).
  { intros [m|]; [|done].
    change (Some (foldl (fun animations anim =>
                     <[Gemini.name anim := Gemini.parsedAnimation anim]> animations)
                   ∅ (Gemini.animationEntry <$> map_to_list m))
            = Some (Gemini.listed <$> m)).
    f_equal. apply foldl_insert_map.
    intros e. split; [done|apply parsedAnimation_animationEntry]. }
  split; [apply Hround|]. rewrite !Hround.
  destruct animations as [m|]; [|done].
  change (Some (Gemini.listed <$> (Gemini.listed <$> m))
          = Some (Gemini.listed <$> m)).
  f_equal. rewrite <- map_fmap_compose. apply map_fmap_ext. intros k a _.
  apply listed_idemp.
Qed.
(** ** Closing a truncated answer *)

Lemma scanChar_other S c : isBracket c = false → scanChar S c = S.
Proof.
  unfold isBracket, scanChar. intros H.
  apply orb_false_elim in H as [H H4]. apply orb_false_elim in H as [H H3].
  apply orb_false_elim in H as [H1 H2]. by rewrite H1, H2, H3, H4.
Qed.

(** A balanced stretch of text leaves the stack as it was. *)
Lemma scan_balanced t : Balanced t → ∀ S rest,
  foldl scanChar S (t ++ rest) = foldl scanChar S rest.
Proof.
  induction 1 as [|c t Hc _ IH|t u _ IHt _ IHu|t u _ IHt _ IHu];
    intros S rest; [done|..].
  - cbn [app foldl]. by rewrite scanChar_other, IH.
  - cbn [app foldl]. rewrite <- app_assoc, IHt. cbn [app foldl].
    change (scanChar S "{") with ("}"%char :: S).
    change (scanChar ("}"%char :: S) "}") with S. apply IHu.
  - cbn [app foldl]. rewrite <- app_assoc, IHt. cbn [app foldl].
    change (scanChar S "[") with ("]"%char :: S).
    change (scanChar ("]"%char :: S) "]") with S. apply IHu.
Qed.

Lemma scan_prefix w : Balanced w → ∀ p u S, w = p ++ u →
  ∃ S', foldl scanChar S p = S' ++ S ∧ Balanced (p ++ S').
Proof.
  induction 1 as [|c t Hc Ht IH|t u0 Ht IHt Hu IHu|t u0 Ht IHt Hu IHu];
    intros p u S Hw.
  - symmetry in Hw. apply app_eq_nil in Hw as [-> _].
    exists []. split; [done|constructor].
  - destruct p as [|c' p]; [exists []; split; [done|constructor]|].
    injection Hw as <- ->.
    destruct (IH p u S eq_refl) as (S' & HS & HB).
    exists S'. cbn [foldl app]. rewrite scanChar_other by done.
    split; [done|by constructor].
  - destruct p as [|c' p]; [exists []; split; [done|constructor]|].
    injection Hw as <- Hw. cbn [foldl].
    change (scanChar S "{") with ("}"%char :: S).
    symmetry in Hw. apply app_eq_inv in Hw as [(k & -> & Hk)|(k & -> & Hk)].
    + destruct k as [|c k].
      * destruct (IHt t [] ("}"%char :: S) (eq_sym (app_nil_r t)))
          as (S' & HS & HB).
        exists (S' ++ ["}"%char]). rewrite app_nil_r, HS, <- app_assoc.
        split; [done|]. cbn [app].
        replace (t ++ S' ++ ["}"%char]) with ((t ++ S') ++ "}"%char :: [])
          by (by rewrite <- app_assoc).
        by apply Balanced_braces; [|constructor].
      * injection Hk as <- ->.
        rewrite (scan_balanced t Ht). cbn [foldl].
        change (scanChar ("}"%char :: S) "}") with S.
        destruct (IHu k u S eq_refl) as (S' & HS & HB).
        exists S'. split; [done|]. cbn [app]. rewrite <- app_assoc. cbn [app].
        by apply Balanced_braces.
    + destruct (IHt p k ("}"%char :: S) eq_refl) as (S' & HS & HB).
      exists (S' ++ ["}"%char]). rewrite HS, <- app_assoc.
      split; [done|]. cbn [app].
      replace (p ++ S' ++ ["}"%char]) with ((p ++ S') ++ "}"%char :: [])
        by (by rewrite <- app_assoc).
      by apply Balanced_braces; [|constructor].
  - destruct p as [|c' p]; [exists []; split; [done|constructor]|].
    injection Hw as <- Hw. cbn [foldl].
    change (scanChar S "[") with ("]"%char :: S).
    symmetry in Hw. apply app_eq_inv in Hw as [(k & -> & Hk)|(k & -> & Hk)].
    + destruct k as [|c k].
      * destruct (IHt t [] ("]"%char :: S) (eq_sym (app_nil_r t)))
          as (S' & HS & HB).
        exists (S' ++ ["]"%char]). rewrite app_nil_r, HS, <- app_assoc.
        split; [done|]. cbn [app].
        replace (t ++ S' ++ ["]"%char]) with ((t ++ S') ++ "]"%char :: [])
          by (by rewrite <- app_assoc).
        by apply Balanced_brackets; [|constructor].
      * injection Hk as <- ->.
        rewrite (scan_balanced t Ht). cbn [foldl].
        change (scanChar ("]"%char :: S) "]") with S.
        destruct (IHu k u S eq_refl) as (S' & HS & HB).
        exists S'. split; [done|]. cbn [app]. rewrite <- app_assoc. cbn [app].
        by apply Balanced_brackets.
    + destruct (IHt p k ("]"%char :: S) eq_refl) as (S' & HS & HB).
      exists (S' ++ ["]"%char]). rewrite HS, <- app_assoc.
      split; [done|]. cbn [app].
      replace (p ++ S' ++ ["]"%char]) with ((p ++ S') ++ "]"%char :: [])
        by (by rewrite <- app_assoc).
      by apply Balanced_brackets; [|constructor].
Qed.

Lemma scanChar_closers S c : Forall isCloser S → Forall isCloser (scanChar S c).
Proof.
  intros HS. unfold scanChar.
  destruct (Ascii.eqb c "{"); [constructor; [by left|done]|].
  destruct (Ascii.eqb c "["); [constructor; [by right|done]|].
  destruct (Ascii.eqb c "}" || Ascii.eqb c "]"); [|done].
  destruct S as [|top rest]; [done|].
  destruct (Ascii.eqb top c); [|done]. by inversion HS.
Qed.

Lemma scan_closers t : ∀ S, Forall isCloser S → Forall isCloser (foldl scanChar S t).
Proof.
  induction t as [|c t IH]; intros S HS; [done|].
  cbn [foldl]. by apply IH, scanChar_closers.
Qed.

Lemma scan_own_stack S : Forall isCloser S → foldl scanChar S S = [].
Proof.
  induction S as [|c S IH]; intros HS; [done|].
  inversion HS as [|? ? Hc HS']; subst. cbn [foldl].
  replace (scanChar (c :: S) c) with S; [by apply IH|].
  by destruct Hc as [-> | ->].
Qed.
(** X19: the repair of an answer that does not parse appends closing
    brackets and braces only, and as many as the loop finds open: in the
    repaired text the loop finds nothing open, so that repairing it again
    changes nothing.  If the text is the beginning of a text whose
    brackets and braces are all closed in the right order (an answer cut
    off), the repaired text is such a text; if it is such a text itself,
    it is left as it is. *)
Theorem repair_closes_what_is_open (cleanText : list Ascii.ascii) :
  Forall isCloser (scanText cleanText) ∧
  scanText (repairText cleanText) = [] ∧
  repairText (repairText cleanText) = repairText cleanText ∧
  (∀ rest, Balanced (cleanText ++ rest) → Balanced (repairText cleanText)) ∧
  (Balanced cleanText → repairText cleanText = cleanText).
Proof.
  assert (Hc : Forall isCloser (scanText cleanText))
    by (by apply scan_closers).
  assert (Hs : scanText (repairText cleanText) = []).
  { unfold repairText, scanText at 1. rewrite foldl_app.
    by apply scan_own_stack. }
  split; [done|]. split; [done|]. split; [|split].
  - unfold repairText at 1. rewrite Hs. apply app_nil_r.
  - intros rest Hb.
    destruct (scan_prefix _ Hb cleanText rest [] eq_refl) as (S' & HS & HB).
    rewrite app_nil_r in HS. unfold repairText, scanText. by rewrite HS.
  - intros Hb. unfold repairText, scanText.
    pose proof (scan_balanced _ Hb [] []) as Hscan.
    rewrite app_nil_r in Hscan. rewrite Hscan. apply app_nil_r.
Qed.

Lemma repair_truncatedAnswer :
  repairText truncatedAnswer
  = ["{"; "a"; ":"; "["; "1"; ","; "2"; "]"; "}"]%char.
Proof. reflexivity. Qed.

(* ================================================================== *)
(** * The importer on arbitrary files *)
(* ================================================================== *)

Lemma HytaleNode_nested_ind (P : HytaleNode → Prop) :
  (∀ n, Forall P (children n) → P n) → ∀ n, P n.
Proof.
  intros H. fix IH 1. intros [id nm ch pos ori sh]. apply H. cbn [children].
  induction ch as [|c ch IHch]; constructor; [apply IH|apply IHch].
Qed.

Lemma parentsPrecede_alter (f : ModelBone → ModelBone) i bs :
  (∀ b, name (f b) = name b ∧ parent (f b) = parent b) →
  parentsPrecede bs →
  parentsPrecede (alter f i bs) ∧ map name (alter f i bs) = map name bs.
Proof.
  intros Hf Hbs.
  assert (Hlook : ∀ k b, alter f i bs !! k = Some b →
            ∃ b0, bs !! k = Some b0 ∧ name b = name b0 ∧ parent b = parent b0).
  { intros k b Hk. destruct (decide (i = k)) as [->|Hne].
    - rewrite list_lookup_alter_eq in Hk.
      destruct (bs !! k) as [b0|] eqn:E; cbn in Hk; [|done].
      injection Hk as <-. exists b0. by destruct (Hf b0) as [-> ->].
    - rewrite list_lookup_alter_ne in Hk by done. by exists b. }
  assert (Hback : ∀ k b0, bs !! k = Some b0 →
            ∃ b, alter f i bs !! k = Some b ∧ name b = name b0).
  { intros k b0 Hk. destruct (decide (i = k)) as [->|Hne].
    - exists (f b0). rewrite list_lookup_alter_eq, Hk. split; [done|apply Hf].
    - exists b0. by rewrite list_lookup_alter_ne. }
  split.
  - intros k b p Hk Hp Ht. destruct (Hlook k b Hk) as (b0 & Hk0 & _ & Hp0).
    rewrite Hp0 in Hp. destruct (Hbs k b0 p Hk0 Hp Ht) as (j & b' & Hj & Hb' & Hn).
    destruct (Hback j b' Hb') as (b'' & Hb'' & Hn').
    exists j, b''. split; [done|]. split; [done|]. by rewrite Hn'.
  - to_fmap. apply list_eq. intros k. rewrite !list_lookup_fmap.
    destruct (decide (i = k)) as [->|Hne].
    + rewrite list_lookup_alter_eq. destruct (bs !! k) as [b0|]; [|done].
      cbn. f_equal. apply Hf.
    + by rewrite list_lookup_alter_ne.
Qed.

Lemma parentsPrecede_snoc bs b :
  parentsPrecede bs → knownParent (parent b) bs → parentsPrecede (bs ++ [b]).
Proof.
  intros Hbs Hknown i x p Hi Hp Ht.
  apply lookup_snoc_Some in Hi as [[_ Hi]|[-> ->]].
  - destruct (Hbs i x p Hi Hp Ht) as (j & b' & Hj & Hb' & Hn).
    exists j, b'. split; [done|]. split; [|done].
    by apply lookup_app_l_Some.
  - specialize (Hknown p Hp Ht). revert Hknown. to_fmap.
    intros (b' & -> & Hb')%list_elem_of_fmap.
    apply list_elem_of_lookup in Hb' as [j Hj].
    exists j, b'. split; [by eapply lookup_lt_Some|]. split; [|done].
    by apply lookup_app_l_Some.
Qed.

Lemma knownParent_prefix pn bs bs' :
  map name bs `prefix_of` map name bs' → knownParent pn bs → knownParent pn bs'.
Proof.
  intros [k Hk] Hknown p Hp Ht. rewrite Hk. apply elem_of_app. left.
  by apply Hknown.
Qed.

Lemma traverse_parents `{Three} node : ∀ parentName pivot bs,
  parentsPrecede bs → knownParent parentName bs →
  parentsPrecede (traverse node parentName pivot bs) ∧
  map name bs `prefix_of` map name (traverse node parentName pivot bs).
Proof.
  induction node as [node IH] using HytaleNode_nested_ind.
  intros parentName pivot bs Hbs Hknown. rewrite traverse_unfold. cbv zeta.
  set (newBone := {| name := node_name node; parent := parentName;
                     bone_pivot := _; bone_rotation := _; cubes := _;
                     attachments := _ |}).
  assert (HasBone :
    parentsPrecede
      (fold_left (fun bs child =>
         traverse child (Some (node_name node)) (vadd pivot (position node)) bs)
         (children node) (bs ++ [newBone])) ∧
    map name bs `prefix_of`
      map name (fold_left (fun bs child =>
         traverse child (Some (node_name node)) (vadd pivot (position node)) bs)
         (children node) (bs ++ [newBone]))).
  { assert (Hstart : parentsPrecede (bs ++ [newBone]))
      by (by apply parentsPrecede_snoc).
    assert (Hpre : map name bs `prefix_of` map name (bs ++ [newBone]))
      by (rewrite map_app; by apply prefix_app_r).
    assert (Hk : knownParent (Some (node_name node)) (bs ++ [newBone])).
    { intros p [= <-] _. rewrite map_app. apply elem_of_app. right.
      cbn. by left. }
    revert Hstart Hpre Hk. generalize (bs ++ [newBone]).
    induction IH as [|child rest Hchild _ IHrest]; intros acc Hacc Hpre Hk;
      [done|].
    cbn [fold_left].
    destruct (Hchild (Some (node_name node)) (vadd pivot (position node))
                acc Hacc Hk) as [Hacc' Hpre'].
    apply IHrest; [done|by etrans|by eapply knownParent_prefix]. }
  assert (Halter : ∀ f i, (∀ b, name (f b) = name b ∧ parent (f b) = parent b) →
    parentsPrecede (alter f i bs) ∧
    map name bs `prefix_of` map name (alter f i bs)).
  { intros f i Hf. destruct (parentsPrecede_alter f i bs Hf Hbs) as [Ha Hn].
    split; [done|]. by rewrite Hn. }
  destruct (isGeometry node && truthyOpt parentName).
  - destruct (getBone bs (default "" parentName)) as [[i ?]|].
    + by apply Halter.
    + by destruct (isAttachment node && truthyOpt parentName).
  - destruct (isAttachment node && truthyOpt parentName); [|done].
    destruct (getBone bs (default "" parentName)) as [[i ?]|]; [|done].
    by apply Halter.
Qed.

Lemma reachesRoot_mono bs fuel : ∀ b,
  reachesRoot bs fuel b = true → reachesRoot bs (S fuel) b = true.
Proof.
  induction fuel as [|fuel IH]; intros b.
  - cbn. intros Hr. apply orb_true_iff in Hr as [Hr|?]; [|done].
    by rewrite Hr.
  - intros Hr. cbn [reachesRoot] in Hr |- *.
    apply orb_true_iff in Hr as [Hr|Hr]; [by rewrite Hr|].
    apply orb_true_iff. right.
    destruct (up bs b) as [pb|]; [|done]. by apply IH.
Qed.

Lemma reachesRoot_mono_le bs fuel fuel' b :
  (fuel ≤ fuel')%nat → reachesRoot bs fuel b = true →
  reachesRoot bs fuel' b = true.
Proof. induction 1; [done|]. intros Hr. by apply reachesRoot_mono, IHle. Qed.

Lemma parentsPrecede_reachesRoot bs :
  parentsPrecede bs → ∀ i b, bs !! i = Some b → reachesRoot bs i b = true.
Proof.
  intros Hbs i. induction i as [i IH] using lt_wf_ind. intros b Hi.
  destruct (isRoot b) eqn:Hroot.
  { destruct i; cbn; by rewrite Hroot. }
  assert (Hp : ∃ p, parent b = Some p ∧ truthy p = true).
  { unfold isRoot in Hroot. destruct (parent b) as [p|]; [|done].
    exists p. split; [done|]. cbn in Hroot. by destruct (truthy p). }
  destruct Hp as (p & Hp & Ht).
  destruct (Hbs i b p Hi Hp Ht) as (j & b' & Hj & Hb' & Hn).
  assert (Hfind : ∃ j0 b0, getBone bs p = Some (j0, b0) ∧ (j0 ≤ j)%nat).
  { destruct (getBone bs p) as [[j0 b0]|] eqn:E.
    - exists j0, b0. split; [done|].
      apply list_find_Some in E as (_ & _ & Hfirst).
      destruct (decide (j0 ≤ j)%nat); [done|].
      exfalso. apply (Hfirst j b' Hb'); [lia|done].
    - apply list_find_None in E. rewrite list.Forall_forall in E.
      exfalso. apply (E b'); [by eapply list_elem_of_lookup_2|done]. }
  destruct Hfind as (j0 & b0 & Hfind & Hle).
  pose proof (getBone_Some _ _ _ _ Hfind) as [Hb0 _].
  destruct i as [|i]; [lia|]. cbn [reachesRoot]. rewrite Hroot. cbn [orb].
  unfold up. rewrite Hp, Ht, Hfind. cbn.
  apply (reachesRoot_mono_le bs j0); [lia|]. apply IH; [lia|done].
Qed.

(** X20: whatever the nodes of a file are, the bones of the model imported
    from it stand in the order of their making: every parent reference
    names a bone that comes earlier in the list.  No bone of an imported
    model has a dangling parent, every bone reaches a root along the
    parent references, and if the names of the bones are distinct and not
    empty the bones form a forest. *)
Theorem imported_bones_in_order `{Three} (hytaleData : HytaleData)
    (filename : string) :
  ∃ data,
    bedrockData (convertHytaleToBedrock hytaleData filename) = Some data ∧
    parentsPrecede (bones data) ∧
    (∀ b, b ∈ bones data → ¬ dangling (bones data) b) ∧
    Forall (fun b => reachesRoot (bones data) (length (bones data)) b = true)
           (bones data) ∧
    (NoDup (map name (bones data)) →
     Forall (fun b => truthy (name b) = true) (bones data) →
     wellFormed (bones data)).
Proof.
  eexists. split; [reflexivity|]. cbn [bones].
  set (bs := fold_left _ (nodes hytaleData) []).
  assert (Hbs : parentsPrecede bs).
  { subst bs. assert (Hnil : parentsPrecede []) by (by intros i b p Hi).
    revert Hnil. generalize (@nil ModelBone).
    induction (nodes hytaleData) as [|n ns IHns]; intros acc Hacc; [done|].
    cbn [fold_left]. apply IHns.
    by apply traverse_parents. }
  assert (Hreach : Forall (fun b => reachesRoot bs (length bs) b = true) bs).
  { apply list.Forall_forall. intros b Hb.
    apply list_elem_of_lookup in Hb as [i Hi].
    apply (reachesRoot_mono_le bs i); [by apply Nat.lt_le_incl, (lookup_lt_Some _ _ _ Hi)|].
    by apply parentsPrecede_reachesRoot. }
  split; [done|]. split; [|split; [done|]].
  - intros b Hb (p & Hp & Ht & Hout).
    apply list_elem_of_lookup in Hb as [i Hi].
    destruct (Hbs i b p Hi Hp Ht) as (j & b' & _ & Hb' & Hn).
    apply Hout. rewrite <- Hn. to_fmap.
    by apply list_elem_of_fmap_2, (list_elem_of_lookup_2 _ j).
  - intros Hnd Ht. by split; [|split].
Qed.

(* ================================================================== *)
(** * The viewer on a packed model *)
(* ================================================================== *)

Lemma packPlaced_inside d bs a :
  Forall (fun c => fitsSmallestAtlas (getBoxUVSize c (densityScale d)))
         (allCubes bs) →
  a ∈ packPlaced d bs →
  0 ≤ a.2.1 ∧ a.2.1 + item_w a.1 ≤ packSide d bs ∧
  0 ≤ a.2.2 ∧ a.2.2 + item_h a.1 ≤ packSide d bs.
Proof.
  intros Hfit Hin.
  assert (Hitems : Forall (fun item => fitsSmallestAtlas
                             {| bw := item_w item; bh := item_h item |})
                          (packItems d bs)).
  { apply list.Forall_forall. intros it Hit.
    apply packItems_elem in Hit as (c' & Hc' & ->). simpl.
    rewrite list.Forall_forall in Hfit.
    pose proof (Hfit c' (cubeAt_allCubes _ _ _ Hc')) as H.
    by destruct (getBoxUVSize c' (densityScale d)). }
  pose proof (initialDim_min (totalArea (packItems d bs))) as HW.
  pose proof (placeAll_inside _ (packItems d bs) (packStart d bs) HW) as Hall.
  unfold packStart at 1 2 3 4 5 6 in Hall. simpl in Hall.
  fold (packStart d bs) in Hall.
  specialize (Hall HW ltac:(lia) ltac:(lia) ltac:(lia)
                   ltac:(unfold MIN_TEXTURE_SIZE in HW; lia) Hitems).
  fold (packPlaced d bs) in Hall.
  rewrite list.Forall_forall in Hall. specialize (Hall _ Hin). simpl in Hall.
  unfold packSide. lia.
Qed.

Lemma unit_fraction (a s : Z) :
  0 ≤ a ≤ s → 0 < s →
  (0 ≤ num a / num s ∧ num a / num s ≤ 1 ∧
   0 ≤ 1 - num a / num s ∧ 1 - num a / num s ≤ 1)%Qc.
Proof.
  intros [Ha Has] Hs.
  assert (Hs' : (0 < num s)%Qc)
    by (rewrite <- num_0; by apply (proj1 (num_lt _ _))).
  assert (Hne : num s ≠ 0%Qc).
  { intros E. rewrite E in Hs'. by apply Qclt_irrefl in Hs'. }
  assert (Hf : (num a / num s * num s = num a :> Qc)%Qc).
  { unfold Qcdiv.
    rewrite <- Qcmult_assoc, (Qcmult_comm (/ _)), Qcmult_inv_r by done.
    apply Qcmult_1_r. }
  assert (H0 : (0 ≤ num a / num s)%Qc).
  { apply (Qcmult_lt_0_le_reg_r _ _ (num s)); [done|].
    rewrite Hf, Qcmult_0_l, <- num_0. by apply (proj1 (num_le _ _)). }
  assert (H1 : (num a / num s ≤ 1)%Qc).
  { apply (Qcmult_lt_0_le_reg_r _ _ (num s)); [done|].
    rewrite Hf, Qcmult_1_l. by apply (proj1 (num_le _ _)). }
  split; [done|]. split; [done|]. split; qc_lra.
Qed.

(** X21: in an entity model whose cubes have no negative size and whose
    footprints are at most 64 wide and 62 high, after [packUVs] every
    corner of every face of every cube that the viewer writes to the
    geometry, for the recorded atlas and the scale of the density, lies
    on the texture: both normalised coordinates are between 0 and 1. *)
Theorem viewer_samples_inside_texture `{Three} (m : MinecraftModel)
    (d : Density) (data : BedrockModel) (p : nat * nat) (c : ModelCube)
    (pivot_ : vec3) :
  type m = ENTITY → bedrockData m = Some data →
  Forall (fun c => nonnegSize c ∧
                   fitsSmallestAtlas (getBoxUVSize c (densityScale d)))
         (allCubes (bones data)) →
  cubeAt (bones data) p = Some c →
  ∃ data' c' side,
    bedrockData (packUVs m d) = Some data' ∧
    texture_size data' = Some (num side, num side) ∧
    cubeAt (bones data') p = Some c' ∧
    length (mesh_uv (CustomBoxMesh c' pivot_ true (num side, num side) false
                       (num (densityScale d)))) = 24%nat ∧
    Forall onTexture
      (mesh_uv (CustomBoxMesh c' pivot_ true (num side, num side) false
                  (num (densityScale d)))).
Proof.
  intros Ht Hd Hall Hc.
  destruct (packedData_cubeAt d data p c Hc) as ([x y] & Hin & Hc').
  exists (packedData d data), (set_uv c (Some (uvOfZ (x, y)))),
         (packSide d (bones data)).
  split; [by apply packUVs_data|]. split; [done|]. split; [done|].
  assert (Hfit : Forall (fun c => fitsSmallestAtlas
                           (getBoxUVSize c (densityScale d)))
                        (allCubes (bones data))).
  { eapply Forall_impl; [exact Hall|]. by intros ? [_ ?]. }
  pose proof (packPlaced_inside d (bones data) _ Hfit Hin) as Hbox.
  cbn [fst snd itemOf item_w item_h] in Hbox.
  rewrite list.Forall_forall in Hall.
  destruct (Hall c (cubeAt_allCubes _ _ _ Hc)) as [(Hw & Hh & Hdd) _].
  pose proof (packSide_min d (bones data)) as Hside.
  unfold MIN_TEXTURE_SIZE in Hside.
  set (side := packSide d (bones data)) in *.
  unfold getBoxUVSize in Hbox.
  unfold CustomBoxMesh, faceUVs. cbn [mesh_uv uv set_uv size uvOfZ fst snd].
  destruct (size c) as [[w h] dd]. cbn [fst snd bw bh] in *.
  rewrite !Math_floor_num.
  assert (Hsc : (0 ≤ num (densityScale d))%Qc).
  { rewrite <- num_0. apply (proj1 (num_le _ _)).
    pose proof (densityScale_pos d). lia. }
  pose proof (Math_ceil_nonneg _ (Qcmult_nonneg_nonneg _ _ Hw Hsc)) as Hrw.
  pose proof (Math_ceil_nonneg _ (Qcmult_nonneg_nonneg _ _ Hh Hsc)) as Hrh.
  pose proof (Math_ceil_nonneg _ (Qcmult_nonneg_nonneg _ _ Hdd Hsc)) as Hrd.
  set (rw := Math_ceil (w * num (densityScale d))%Qc) in *.
  set (rh := Math_ceil (h * num (densityScale d))%Qc) in *.
  set (rd := Math_ceil (dd * num (densityScale d))%Qc) in *.
  split; [done|].
  assert (Hcorner : ∀ i a b, 0 ≤ a ≤ side → 0 ≤ b ≤ side →
            onTexture (i, ((num a / num side)%Qc, (1 - num b / num side)%Qc))).
  { intros i a b Ha Hb. unfold onTexture. cbn [fst snd].
    destruct (unit_fraction a side Ha ltac:(lia)) as (? & ? & _).
    by destruct (unit_fraction b side Hb ltac:(lia)) as (_ & _ & ? & ?). }
  cbn [flat_map setFaceUV faceIdx uStart vStart face_width face_height app].
  repeat (apply Forall_cons; split; [apply Hcorner; lia|]).
  apply Forall_nil_2.
Qed.

Lemma viewer_samples_inside_texture_witness :
  ∃ data' c' side,
    bedrockData (packUVs (entityModel twoCubeBones) D16x) = Some data' ∧
    texture_size data' = Some (num side, num side) ∧
    cubeAt (bones data') (0, 0)%nat = Some c' ∧
    length (mesh_uv (@CustomBoxMesh sampleThree c' zero3 true
                       (num side, num side) false (num (densityScale D16x))))
    = 24%nat ∧
    Forall onTexture
      (mesh_uv (@CustomBoxMesh sampleThree c' zero3 true
                  (num side, num side) false (num (densityScale D16x)))).
Proof.
  apply (@viewer_samples_inside_texture sampleThree (entityModel twoCubeBones)
           D16x (plainData twoCubeBones) (0, 0)%nat bodyCube zero3);
    [reflexivity|reflexivity| |reflexivity].
  repeat (apply Forall_cons; split); [..|by apply Forall_nil];
    by vm_compute.
Defined.

(** ** The identifier of an imported model *)

(** The model name wins over the file name unless it is missing or empty;
    the model's identifier loses the first [.blockymodel] and has every
    colon and dot replaced, the geometry's identifier is kept as it is. *)
Lemma imported_identifier `{Three} (nodes : list HytaleNode)
    (modelName : option string) (filename : string) :
  identifier (convertHytaleToBedrock
                {| nodes := nodes; modelName := modelName |} filename)
  = replaceColonsAndDots
      (replaceFirst ".blockymodel" "" (modelNameOr modelName filename)) ∧
  bedrock_identifier <$>
    bedrockData (convertHytaleToBedrock
                   {| nodes := nodes; modelName := modelName |} filename)
  = Some (modelNameOr modelName filename).
Proof. done. Qed.

Lemma imported_identifier_samples :
  modelNameOr None "chain.blockymodel" = "chain.blockymodel" ∧
  modelNameOr (Some "") "chain.blockymodel" = "chain.blockymodel" ∧
  modelNameOr (Some "hytale:my.model") "chain.blockymodel" = "hytale:my.model" ∧
  replaceColonsAndDots (replaceFirst ".blockymodel" "" "chain.blockymodel")
  = "chain" ∧
  replaceColonsAndDots (replaceFirst ".blockymodel" "" "hytale:my.model")
  = "hytale_my_model" ∧
  replaceColonsAndDots
    (replaceFirst ".blockymodel" "" "a.blockymodel.blockymodel")
  = "a_blockymodel".
Proof. repeat split. Qed.
